(** * Grid pavings (Ariadne, [grid_set.cc]): a shallow embedding

    The development follows [src/src/grid_set.cc].  A paving is a binary
    tree of cells; a cell is a primary cell of some height bisected along
    a word of bits, axes taken cyclically.

    Conventions of the embedding.
    - [tribool] is the three-valued logic of the source ([true], [false],
      [indeterminate]); [definitely], [possibly], [indeterminate] are its tests.
    - A [BinaryTreeNode] keeps its [_isEnabled] flag on leaves and on
      internal nodes alike, as the C++ object does.  The two child
      pointers are both null or both set in every tree the source builds,
      so a node is a [Leaf] or a [Branch]; the [NULL] tests of the source
      have no counterpart.
    - Mutating methods become functions returning the new node.
    - A [Float] (a [double]) is a canonical rational [Qc].  The sums and
      products the source rounds ([add_approx], [mul_approx]) are rounded
      to the nearest [double]; the members of [Interval] on lattice
      coordinates (midpoint, width) are taken as the spec gives them,
      exact.
    - An [int] is an integer [Z] that wraps around at 32 bits: the [int]
      corners of the primary cells are right up to height 31 and one and
      the same number from height 32 on. *)

From Stdlib Require Import QArith Qcanon Qround Lqa ZArith Lia Bool.
From stdpp Require Import base numbers list gmap strings.

(* ================================================================== *)
(** * Part I.  The model *)
(* ================================================================== *)

(** ** Three-valued logic *)

Inductive tribool : Type := TTrue | TFalse | TIndeterminate.

#[global] Instance tribool_eq_dec : EqDecision tribool.
Proof. solve_decision. Defined.

(** A [bool] used where a [tribool] is expected. *)
Definition tribool_of_bool (b : bool) : tribool := if b then TTrue else TFalse.

(** [definitely(t)]: the value is [true]. *)
Definition definitely (t : tribool) : bool :=
  match t with TTrue => true | _ => false end.

(** [possibly(t)]: the value is [true] or [indeterminate]. *)
Definition possibly (t : tribool) : bool :=
  match t with TFalse => false | _ => true end.

(** [indeterminate(t)]. *)
Definition indeterminate (t : tribool) : bool :=
  match t with TIndeterminate => true | _ => false end.

(** A [tribool] used as the condition of an [if], or converted to [bool]:
    only [true] passes. *)
Definition tribool_to_bool (t : tribool) : bool := definitely t.

(** [!t]. *)
Definition tribool_not (t : tribool) : tribool :=
  match t with TTrue => TFalse | TFalse => TTrue | TIndeterminate => TIndeterminate end.

(** [a && b]: [false] wins, then [indeterminate]. *)
Definition tribool_and (a b : tribool) : tribool :=
  match a, b with
  | TFalse, _ | _, TFalse => TFalse
  | TTrue, TTrue => TTrue
  | _, _ => TIndeterminate
  end.

(** [a || b]: [true] wins, then [indeterminate]. *)
Definition tribool_or (a b : tribool) : tribool :=
  match a, b with
  | TTrue, _ | _, TTrue => TTrue
  | TFalse, TFalse => TFalse
  | _, _ => TIndeterminate
  end.

(** [a == b] on [tribool]s is itself three-valued: comparing with an
    [indeterminate] value is [indeterminate].  [BinaryTreeNode::operator==]
    adds the case of two [indeterminate] flags by hand for that reason. *)
Definition tribool_equal (a b : tribool) : tribool :=
  match a, b with
  | TIndeterminate, _ | _, TIndeterminate => TIndeterminate
  | TTrue, TTrue | TFalse, TFalse => TTrue
  | _, _ => TFalse
  end.

(** ** Binary words *)

Abbreviation BinaryWord := (list bool) (only parsing).

(** ** Binary tree nodes *)

Inductive BinaryTreeNode : Type :=
| Leaf (isEnabled : tribool)
| Branch (isEnabled : tribool) (pLeftNode pRightNode : BinaryTreeNode).

#[global] Instance BinaryTreeNode_eq_dec : EqDecision BinaryTreeNode.
Proof. solve_decision. Defined.

(** The [_isEnabled] field. *)
Definition isEnabled_of (n : BinaryTreeNode) : tribool :=
  match n with Leaf e => e | Branch e _ _ => e end.

(** Modelled from the spec: the inline members of [BinaryTreeNode] declared in
    [grid_set.h], which is not among the sources.  A leaf has no children;
    [is_enabled] and [is_disabled] test the flag ([mince_node] documents that
    an [indeterminate] node is not disabled). *)
Definition is_leaf (n : BinaryTreeNode) : bool :=
  match n with Leaf _ => true | Branch _ _ _ => false end.

Definition is_enabled (n : BinaryTreeNode) : bool := definitely (isEnabled_of n).

Definition is_disabled (n : BinaryTreeNode) : bool := negb (possibly (isEnabled_of n)).

(** Modelled from the spec: [new BinaryTreeNode()] is a disabled leaf (the
    siblings that [prepend_tree] creates by splitting such a node are
    disabled leaves). *)
Definition new_BinaryTreeNode : BinaryTreeNode := Leaf TFalse.

(** Modelled from the spec: [split] replaces a leaf by an internal node
    whose two children are leaves carrying the leaf's enabledness, the node's
    own flag becoming [indeterminate]; it does nothing to an internal node. *)
Definition split (n : BinaryTreeNode) : BinaryTreeNode :=
  match n with
  | Leaf e => Branch TIndeterminate (Leaf e) (Leaf e)
  | Branch _ _ _ => n
  end.

(** Modelled from the spec: [make_leaf(b)] frees the subtrees and leaves a
    leaf of enabledness [b]. *)
Definition make_leaf (b : tribool) (n : BinaryTreeNode) : BinaryTreeNode := Leaf b.

(** Modelled from the spec: the scalar mutations of the flag.  [set_enabled]
    and [set_disabled] are for leaves, [set_unknown] for internal nodes;
    [set_unknown_unchecked] writes the flag whatever the node is. *)
Definition set_flag (e : tribool) (n : BinaryTreeNode) : BinaryTreeNode :=
  match n with Leaf _ => Leaf e | Branch _ l r => Branch e l r end.

Definition set_enabled : BinaryTreeNode -> BinaryTreeNode := set_flag TTrue.
Definition set_disabled : BinaryTreeNode -> BinaryTreeNode := set_flag TFalse.
Definition set_unknown : BinaryTreeNode -> BinaryTreeNode := set_flag TIndeterminate.
Definition set_unknown_unchecked : BinaryTreeNode -> BinaryTreeNode := set_flag TIndeterminate.

(** Modelled from the spec: [copy_from(other)] makes this node a deep copy
    of [other] (flag and subtrees). *)
Definition copy_from (other this : BinaryTreeNode) : BinaryTreeNode := other.

(** [BinaryTreeNode::has_enabled]. *)
Fixpoint has_enabled (n : BinaryTreeNode) : bool :=
  match n with
  | Leaf _ => is_enabled n
  | Branch _ l r => has_enabled l || has_enabled r
  end.

(** [BinaryTreeNode::all_enabled]. *)
Fixpoint all_enabled (n : BinaryTreeNode) : bool :=
  match n with
  | Leaf _ => is_enabled n
  | Branch _ l r => all_enabled l && all_enabled r
  end.

(** [BinaryTreeNode::is_enabled(path, position)], the path given from
    [position] on. *)
Fixpoint is_enabled_path (n : BinaryTreeNode) (path : BinaryWord) : bool :=
  match n with
  | Leaf _ => is_enabled n
  | Branch _ l r =>
      match path with
      | b :: path' => if b then is_enabled_path r path' else is_enabled_path l path'
      | [] => all_enabled n
      end
  end.

(** [BinaryTreeNode::operator==] with [is_equal_nodes]: the flags are equal
    or both [indeterminate], and the children are equal. *)
Fixpoint node_equal (a b : BinaryTreeNode) : bool :=
  let flags :=
    tribool_or (tribool_equal (isEnabled_of a) (isEnabled_of b))
               (tribool_of_bool (indeterminate (isEnabled_of a) && indeterminate (isEnabled_of b))) in
  match a, b with
  | Leaf _, Leaf _ => tribool_to_bool flags
  | Branch _ la ra, Branch _ lb rb =>
      tribool_to_bool
        (tribool_and (tribool_and flags (tribool_of_bool (node_equal la lb)))
                     (tribool_of_bool (node_equal ra rb)))
  | _, _ => tribool_to_bool (tribool_and flags TFalse)
  end.

(** [BinaryTreeNode::depth]. *)
Fixpoint depth (n : BinaryTreeNode) : nat :=
  match n with
  | Leaf _ => 0
  | Branch _ l r => S (Nat.max (depth l) (depth r))
  end.

(** [BinaryTreeNode::count_enabled_leaf_nodes]. *)
Fixpoint count_enabled_leaf_nodes (n : BinaryTreeNode) : nat :=
  match n with
  | Leaf _ => if is_enabled n then 1 else 0
  | Branch _ l r => count_enabled_leaf_nodes l + count_enabled_leaf_nodes r
  end.

(** [BinaryTreeNode::restrict(pThisNode, pOtherNode)]; the result is the new
    [pThisNode]. *)
Fixpoint restrict (pThisNode pOtherNode : BinaryTreeNode) : BinaryTreeNode :=
  match pThisNode, pOtherNode with
  | Leaf a, Leaf b =>
      (* both leaves: a regular AND *)
      Leaf (tribool_and a b)
  | Branch _ _ _, Leaf _ =>
      if is_enabled pOtherNode then pThisNode else make_leaf TFalse pThisNode
  | Leaf _, Branch _ _ _ =>
      if is_enabled pThisNode then copy_from pOtherNode pThisNode else pThisNode
  | Branch e l r, Branch _ l' r' =>
      Branch e (restrict l l') (restrict r r')
  end.

(** [BinaryTreeNode::remove(pThisNode, pOtherNode)]. *)
Fixpoint remove (pThisNode pOtherNode : BinaryTreeNode) : BinaryTreeNode :=
  match pThisNode, pOtherNode with
  | Leaf _, Leaf _ =>
      if is_enabled pThisNode && is_enabled pOtherNode then Leaf TFalse else pThisNode
  | Branch _ _ _, Leaf _ =>
      if is_enabled pOtherNode then make_leaf TFalse pThisNode else pThisNode
  | Leaf a, Branch _ l' r' =>
      if is_enabled pThisNode
      then (* split, then recurse as for two internal nodes *)
        Branch TIndeterminate (remove (Leaf a) l') (remove (Leaf a) r')
      else pThisNode
  | Branch e l r, Branch _ l' r' =>
      Branch e (remove l l') (remove r r')
  end.

(** [BinaryTreeNode::mince_node(pCurrentNode, depth)]. *)
Fixpoint mince_node (pCurrentNode : BinaryTreeNode) (depth : nat) : BinaryTreeNode :=
  match depth with
  | 0 => pCurrentNode
  | S remaining_depth =>
      if is_disabled pCurrentNode then pCurrentNode
      else
        match split pCurrentNode with
        | Branch e l r =>
            Branch e (mince_node l remaining_depth) (mince_node r remaining_depth)
        | Leaf e => Leaf e
        end
  end.

(** [BinaryTreeNode::recombine_node(pCurrentNode)], bottom-up.  The test
    [pLeftNode->_isEnabled == pRightNode->_isEnabled] is a [tribool]. *)
Fixpoint recombine_node (pCurrentNode : BinaryTreeNode) : BinaryTreeNode :=
  match pCurrentNode with
  | Leaf _ => pCurrentNode
  | Branch e l r =>
      let pLeftNode := recombine_node l in
      let pRightNode := recombine_node r in
      if is_leaf pLeftNode && is_leaf pRightNode
      then
        if tribool_to_bool (tribool_equal (isEnabled_of pLeftNode) (isEnabled_of pRightNode))
        then make_leaf (isEnabled_of pLeftNode) pCurrentNode
        else Branch e pLeftNode pRightNode
      else Branch e pLeftNode pRightNode
  end.

(** Modelled from the spec: [mince(k)] and [recombine()] of a node delegate
    to [mince_node] and [recombine_node]. *)
Definition mince (n : BinaryTreeNode) (k : nat) : BinaryTreeNode := mince_node n k.
Definition recombine (n : BinaryTreeNode) : BinaryTreeNode := recombine_node n.

(** *** The set a tree denotes

    A point of the root cell is an infinite sequence of bisection choices;
    it belongs to the set when the leaf it falls in is enabled. *)
Fixpoint contains (n : BinaryTreeNode) (s : nat -> bool) : bool :=
  match n with
  | Leaf _ => is_enabled n
  | Branch _ l r => contains (if s 0 then r else l) (fun i => s (S i))
  end.

(** The paths of the enabled leaves, left first, depth first: the order of
    [GridTreeConstIterator]. *)
Fixpoint enabled_leaves (n : BinaryTreeNode) : list BinaryWord :=
  match n with
  | Leaf _ => if is_enabled n then [[]] else []
  | Branch _ l r =>
      map (cons false) (enabled_leaves l) ++ map (cons true) (enabled_leaves r)
  end.

(** No leaf carries [indeterminate]. *)
Fixpoint leaves_determinate (n : BinaryTreeNode) : bool :=
  match n with
  | Leaf e => negb (indeterminate e)
  | Branch _ l r => leaves_determinate l && leaves_determinate r
  end.

(** Every internal node carries [indeterminate]. *)
Fixpoint internal_unknown (n : BinaryTreeNode) : bool :=
  match n with
  | Leaf _ => true
  | Branch e l r => indeterminate e && internal_unknown l && internal_unknown r
  end.

(** ** Persistence of a tree as a byte stream *)

(** The stream of a [FILE*]: the bytes still to read, or the bytes written
    so far. *)
Abbreviation stream := (list Byte.byte) (only parsing).

Definition EOF : Z := (-1)%Z.

(** [fgetc(file)]: the next byte as an [int], or [EOF] at the end. *)
Definition fgetc (file : stream) : Z * stream :=
  match file with
  | [] => (EOF, [])
  | b :: rest => (Z.of_N (Byte.to_N b), rest)
  end.

(** [fputc(c, file)] for a [bool] [c]: the byte 1 or 0 is appended. *)
Definition fputc (c : bool) (file : stream) : stream :=
  file ++ [if c then Byte.x01 else Byte.x00].

(** [BinaryTreeNode::remove_to_file(file)]: the node is written in pre-order
    and its subtrees are freed; the node itself keeps its flag. *)
Fixpoint remove_to_file (n : BinaryTreeNode) (file : stream) : BinaryTreeNode * stream :=
  match n with
  | Leaf e =>
      let file := fputc false file in
      (n, fputc (tribool_to_bool e) file)
  | Branch e l r =>
      let file := fputc true file in
      let file := (remove_to_file l file).2 in
      let file := (remove_to_file r file).2 in
      (Leaf e, file)
  end.

(** [BinaryTreeNode::add_enabled_from_file(file)].  A node whose
    [hasLeaves] byte is not 0 (an [EOF] included) gets two fresh children
    carrying its flag and the recursion goes on; its own flag is not touched.
    The recursion is bounded by [fuel]; [None] is the recursion that has not
    ended within it. *)
Fixpoint add_enabled_from_file (fuel : nat) (n : BinaryTreeNode) (file : stream)
  : option (BinaryTreeNode * stream) :=
  match fuel with
  | 0 => None
  | S fuel =>
      let '(hasLeaves, file) := fgetc file in
      if (hasLeaves =? 0)%Z then
        let '(c, file) := fgetc file in
        Some (set_flag (tribool_of_bool (negb (c =? 0)%Z)) n, file)
      else
        let e := isEnabled_of n in
        match add_enabled_from_file fuel (Leaf e) file with
        | None => None
        | Some (l, file) =>
            match add_enabled_from_file fuel (Leaf e) file with
            | None => None
            | Some (r, file) => Some (Branch e l r, file)
            end
        end
  end.

(** The tree [add_enabled_from_file] builds from the stream of [t] when it
    starts from a single node of flag [e]: the shape and the leaves of [t],
    every internal node carrying [e]. *)
Fixpoint imported_as (e : tribool) (t : BinaryTreeNode) : BinaryTreeNode :=
  match t with
  | Leaf a => Leaf (tribool_of_bool (definitely a))
  | Branch _ l r => Branch e (imported_as e l) (imported_as e r)
  end.

(** ** Intervals, boxes and grids *)

(** A [Float] is a [double]: a rational number, held here as a canonical
    rational so that equal numbers are equal values.  What a [double] can
    not hold is rounded where the source rounds. *)

(** [2^e] for an integer exponent. *)
Definition Qc_pow2 (e : Z) : Qc :=
  if (0 <=? e)%Z then Qc_of_Z (2 ^ e) else (/ Qc_of_Z (2 ^ (- e)))%Qc.

(** The binary exponent of a positive rational [x]: the [e] with
    [2^e <= x < 2^(e+1)]. *)
Definition Qc_exponent (x : Qc) : Z :=
  let e := (Z.log2 (Qnum x) - Z.log2 (Zpos (Qden x)))%Z in
  if bool_decide (Qc_pow2 e <= x)%Qc then e else (e - 1)%Z.

(** The integer nearest to a rational, the even one of two that are equally
    near. *)
Definition round_half_even (x : Qc) : Z :=
  let f := Qfloor x in
  let r := (x - Qc_of_Z f)%Qc in
  if bool_decide (r < Q2Qc (1 # 2))%Qc then f
  else if bool_decide (Q2Qc (1 # 2) < r)%Qc then (f + 1)%Z
  else if Z.even f then f else (f + 1)%Z.

(** The [double] nearest to a rational: 53 significant bits, ties to the
    even significand (the rounding mode the [_approx] operations run in).
    The range of the exponent is left unbounded: no overflow to infinity, no
    subnormal numbers. *)
Definition round_to_Float (x : Qc) : Qc :=
  if bool_decide (x = 0%Qc) then 0%Qc
  else
    let a := if bool_decide (0 < x)%Qc then x else (- x)%Qc in
    let ulp := Qc_pow2 (Qc_exponent a - 52) in
    let m := (Qc_of_Z (round_half_even (a / ulp)) * ulp)%Qc in
    if bool_decide (0 < x)%Qc then m else (- m)%Qc.

(** Modelled from the spec: [add_approx] and [mul_approx] belong to the
    numeric library the spec assumes; they give the sum and the product of
    two [Float]s as the floating-point unit does, rounded to the nearest
    [Float]. *)
Definition add_approx (x y : Qc) : Qc := round_to_Float (x + y).
Definition mul_approx (x y : Qc) : Qc := round_to_Float (x * y).

(** An [int] is a 32-bit integer in two's complement.  A sum or a difference
    out of its range is undefined behaviour in C++; the value taken here is
    the one the arithmetic of the machine gives, the result wrapped
    around. *)
Definition wrap_int (z : Z) : Z := ((z + 2 ^ 31) mod 2 ^ 32 - 2 ^ 31)%Z.

(** An [Interval] of [Float] bounds. *)
Record Interval : Type := mkInterval { lower : Qc; upper : Qc }.

#[global] Instance Interval_eq_dec : EqDecision Interval.
Proof. solve_decision. Defined.

#[global] Instance Interval_inhabited : Inhabited Interval := populate (mkInterval 0 0).

(** [Interval(l, u)] from two [int]s. *)
Definition Interval_of_ints (l u : Z) : Interval := mkInterval (Qc_of_Z l) (Qc_of_Z u).

(** Modelled from the spec: the members of [Interval] (component A, assumed):
    midpoint, width, and the two setters.  On the lattice the spec takes
    them as exact (the coordinates are dyadic rationals). *)
Definition midpoint (I : Interval) : Qc := (lower I + upper I) / Qc_of_Z 2.
Definition width (I : Interval) : Qc := upper I - lower I.
Definition set_lower (l : Qc) (I : Interval) : Interval := mkInterval l (upper I).
Definition set_upper (u : Qc) (I : Interval) : Interval := mkInterval (lower I) u.

(** A [Vector<Interval>] or a [Box]: one interval per axis. *)
Abbreviation Box := (list Interval) (only parsing).

(** A point lies in a box: within the bounds on every axis. *)
Definition box_contains (b : Box) (x : list Qc) : Prop :=
  Forall2 (fun I xi => (lower I <= xi)%Qc /\ (xi <= upper I)%Qc) b x.

(** Modelled from the spec: [Box::measure], the product of the widths. *)
Definition Box_measure (b : Box) : Qc := foldr (fun I m => (width I * m)%Qc) 1%Qc b.

(** Modelled from the spec: [inside(box, cell)], the test
    [smallest_enclosing_primary_cell_height] makes for the box being a
    subset of the primary cell. *)
Definition inside (b c : Box) : bool :=
  bool_decide (Forall2 (fun I J => (lower J <= lower I)%Qc /\ (upper I <= upper J)%Qc) b c).

(** A [Grid]: an origin and a positive length per axis. *)
Record Grid : Type := mkGrid { origin : list Qc; lengths : list Qc }.

Definition dimension (g : Grid) : nat := length (lengths g).

(** ** Primary cells *)

(** Modelled from the spec: [primary_cell_at_height(h, L, R)] of
    [grid_set.h] turns the corners of the primary cell of height [h-1] into
    those of height [h]: an odd height doubles the cell downwards, an even
    height upwards.  The corners are the [int] variables of the callers, so
    every difference and sum is an [int]. *)
Definition primary_cell_at_height (theHeight : nat) (corners : Z * Z) : Z * Z :=
  let '(leftBottomCorner, rightTopCorner) := corners in
  if Nat.odd theHeight
  then (wrap_int (leftBottomCorner - wrap_int (rightTopCorner - leftBottomCorner)),
        rightTopCorner)
  else (leftBottomCorner,
        wrap_int (rightTopCorner + wrap_int (rightTopCorner - leftBottomCorner))).

(** The corners after the loop [for i = 1 .. theHeight] of
    [primary_cell_lattice_box], started from [(0, 1)]. *)
Fixpoint primary_cell_corners (theHeight : nat) : Z * Z :=
  match theHeight with
  | 0 => (0, 1)%Z
  | S h => primary_cell_at_height (S h) (primary_cell_corners h)
  end.

(** The corners as they would be were an [int] unbounded: the primary cells
    of the spec, the exact doubling sequence.  The [int] corners agree with
    them up to height 31 and part from them at height 32, where the width
    [2^31] of the cell of height 31 is no [int]. *)
Fixpoint unbounded_corners (theHeight : nat) : Z * Z :=
  match theHeight with
  | 0 => (0, 1)%Z
  | S h =>
      let '(L, R) := unbounded_corners h in
      if Nat.odd (S h) then (L - (R - L), R)%Z else (L, R + (R - L))%Z
  end.

(** [GridAbstractCell::primary_cell_lattice_box(theHeight, dimensions)]. *)
Definition primary_cell_lattice_box (theHeight dimensions : nat) : Box :=
  let '(leftBottomCorner, rightTopCorner) := primary_cell_corners theHeight in
  replicate dimensions (Interval_of_ints leftBottomCorner rightTopCorner).

(** [GridAbstractCell::primary_cell_path(dimensions, top, bottom)]: for each
    height from [top] down to [bottom + 1], [dimensions] bits that say
    whether the height is odd. *)
Fixpoint primary_cell_path (dimensions topPCellHeight bottomPCellHeight : nat) : BinaryWord :=
  match topPCellHeight with
  | 0 => []
  | S i =>
      if bottomPCellHeight <? topPCellHeight
      then replicate dimensions (Nat.odd topPCellHeight)
             ++ primary_cell_path dimensions i bottomPCellHeight
      else []
  end.

(** One step of the loop of [GridCell::compute_lattice_box] on the interval
    of the current axis: a [true] bit keeps the upper half
    ([set_lower(midpoint)]), a [false] bit the lower half. *)
Definition half_interval (b : bool) (I : Interval) : Interval :=
  if b then set_lower (midpoint I) I else set_upper (midpoint I) I.

(** The loop of [GridCell::compute_lattice_box] from index [i] on: the box is
    bisected along axis [i mod dimensions]. *)
Fixpoint bisect_along (dimensions i : nat) (theWord : BinaryWord) (theResultLatticeBox : Box) : Box :=
  match theWord with
  | [] => theResultLatticeBox
  | b :: theWord =>
      let current_dimension := i mod dimensions in
      bisect_along dimensions (S i) theWord
        (alter (half_interval b) current_dimension theResultLatticeBox)
  end.

(** [GridCell::compute_lattice_box(dimensions, theHeight, theWord)]. *)
Definition compute_lattice_box (dimensions theHeight : nat) (theWord : BinaryWord) : Box :=
  bisect_along dimensions 0 theWord (primary_cell_lattice_box theHeight dimensions).

(** [GridAbstractCell::lattice_box_to_space(theLatticeBox, theGrid)]: axis by
    axis, [add_approx(origin, mul_approx(length, bound))] for each of the two
    bounds. *)
Definition coordinate_approx (theDimOrigin theDimLength bound : Qc) : Qc :=
  add_approx theDimOrigin (mul_approx theDimLength bound).

Definition lattice_box_to_space (theLatticeBox : Box) (theGrid : Grid) : Box :=
  zip_with (fun I ol => mkInterval (coordinate_approx ol.1 ol.2 (lower I))
                                   (coordinate_approx ol.1 ol.2 (upper I)))
           theLatticeBox (zip (origin theGrid) (lengths theGrid)).

(** ** Cells and pavings *)

Record GridCell : Type :=
  mkGridCell { cell_grid : Grid; cell_height : nat; cell_word : BinaryWord }.

(** Modelled from the spec: [GridCell::compute_box] and the [box()] of a
    cell: its lattice box mapped through the grid. *)
Definition compute_box (theGrid : Grid) (theHeight : nat) (theWord : BinaryWord) : Box :=
  lattice_box_to_space (compute_lattice_box (dimension theGrid) theHeight theWord) theGrid.

Definition cell_lattice_box (c : GridCell) : Box :=
  compute_lattice_box (dimension (cell_grid c)) (cell_height c) (cell_word c).

Definition cell_box (c : GridCell) : Box :=
  compute_box (cell_grid c) (cell_height c) (cell_word c).

(** A [GridTreeSubset]: the cell of the root and the tree.  A [GridTreeSet]
    is one whose root cell is a primary cell (its word is empty). *)
Record GridTreeSubset : Type :=
  mkGridTreeSubset { theGridCell : GridCell; pRootTreeNode : BinaryTreeNode }.

Abbreviation GridTreeSet := GridTreeSubset (only parsing).

(** The cells the iterator of a subset yields: one per enabled leaf, its
    word being the root cell's word followed by the path to the leaf. *)
Definition enabled_cells (S : GridTreeSubset) : list GridCell :=
  let c := theGridCell S in
  map (fun p => mkGridCell (cell_grid c) (cell_height c) (cell_word c ++ p))
      (enabled_leaves (pRootTreeNode S)).

(** The boxes of the enabled leaves, in the order of the iterator. *)
Definition enabled_boxes (S : GridTreeSubset) : list Box :=
  map cell_box (enabled_cells S).

(** [GridTreeSubset::measure]: the sum of the measures of the boxes. *)
Definition measure (S : GridTreeSubset) : Qc :=
  foldl (fun result b => (result + Box_measure b)%Qc) 0%Qc (enabled_boxes S).

(** The set of points a subset denotes: the union of the boxes of its
    enabled leaves. *)
Definition denotes (S : GridTreeSubset) (x : list Qc) : Prop :=
  Exists (fun b => box_contains b x) (enabled_boxes S).

(** [BinaryTreeNode::prepend_tree]: the loop from node [cur] on.  Every
    node on the way is split; the child the last bit selects is replaced by
    [oldRootNode]. *)
Fixpoint prepend_tree_at (cur : BinaryTreeNode) (rootNodePath : BinaryWord)
    (oldRootNode : BinaryTreeNode) : BinaryTreeNode :=
  match split cur with
  | Leaf e => Leaf e
  | Branch e l r =>
      match rootNodePath with
      | [] => Branch e l r
      | [b] => if b then Branch e l oldRootNode else Branch e oldRootNode r
      | b :: rest =>
          if b then Branch e l (prepend_tree_at r rest oldRootNode)
          else Branch e (prepend_tree_at l rest oldRootNode) r
      end
  end.

(** [BinaryTreeNode::prepend_tree(rootNodePath, oldRootNode)].  With an empty
    path the loop bound [rootNodePath.size() - 1] wraps around and
    [rootNodePath[0]] is read out of range: the behaviour is undefined,
    [None]. *)
Definition prepend_tree (rootNodePath : BinaryWord) (oldRootNode : BinaryTreeNode)
  : option BinaryTreeNode :=
  match rootNodePath with
  | [] => None
  | _ => Some (prepend_tree_at new_BinaryTreeNode rootNodePath oldRootNode)
  end.

(** [GridTreeSet::up_to_primary_cell(toPCellHeight)]. *)
Definition up_to_primary_cell (toPCellHeight : nat) (S : GridTreeSet) : option GridTreeSet :=
  let fromPCellHeight := cell_height (theGridCell S) in
  let theGrid := cell_grid (theGridCell S) in
  let primaryCellPath := primary_cell_path (dimension theGrid) toPCellHeight fromPCellHeight in
  match prepend_tree primaryCellPath (pRootTreeNode S) with
  | None => None
  | Some root => Some (mkGridTreeSubset (mkGridCell theGrid toPCellHeight []) root)
  end.

(** ** Neighbouring cells *)

(** Step 2 of [GridCell::neighboringCell]: the [do ... while(true)] loop that
    raises [height] until the upper border falls into the primary cell, on
    the [int] corners [leftBottomCorner] and [rightTopCorner].  The loop has
    no bound of its own; [fuel] bounds it here and [None] is the loop still
    running. *)
Fixpoint neighbor_height_loop (fuel : nat) (upperBorderOverlapping : Qc) (height : nat)
    (corners : Z * Z) : option nat :=
  match fuel with
  | 0 => None
  | S fuel =>
      if bool_decide (upperBorderOverlapping <= Qc_of_Z corners.2)%Qc
      then Some height
      else neighbor_height_loop fuel upperBorderOverlapping (S height)
             (primary_cell_at_height (S height) corners)
  end.

(** Steps 1 to 3: the upper border of the base cell pushed out by half the
    cell's width on axis [dim], [add_approx(upper, width / 2)]; the height
    of the primary cell that holds it; and the base cell re-rooted to that
    height when it is higher. *)
Definition upper_border_overlapping (dimensions theHeight : nat) (theWord : BinaryWord)
    (dim : nat) : Qc :=
  let baseCellBoxInLattice := compute_lattice_box dimensions theHeight theWord in
  let I := baseCellBoxInLattice !!! dim in
  add_approx (upper I) (width I / Qc_of_Z 2)%Qc.

(** The sum of step 1 needs no rounding: the upper bound and half the width
    add up to a [Float]. *)
Definition upper_border_exact (dimensions theHeight : nat) (theWord : BinaryWord)
    (dim : nat) : Prop :=
  let I := compute_lattice_box dimensions theHeight theWord !!! dim in
  upper_border_overlapping dimensions theHeight theWord dim
  = (upper I + width I / Qc_of_Z 2)%Qc.

Definition neighbor_base_cell (fuel dimensions theHeight : nat) (theWord : BinaryWord)
    (dim : nat) : option (nat * BinaryWord) :=
  match neighbor_height_loop fuel (upper_border_overlapping dimensions theHeight theWord dim)
          0 (0, 1)%Z with
  | None => None
  | Some height =>
      if theHeight <? height
      then Some (height, primary_cell_path dimensions height theHeight ++ theWord)
      else Some (theHeight, theWord)
  end.

(** Step 4: the scan [for (position = size - 1; position >= 0; position--)].
    [position] is unsigned, so the test [position >= 0] never fails: the
    loop ends at the first position of axis [dim] that holds a [false] bit,
    and when position 0 is passed without one the index wraps around to the
    largest [uint], past the front of the word: [Wrapped]. *)
Inductive scan_result : Type := Found (position : nat) | Wrapped.

Fixpoint scan_back (theBaseCellWord : BinaryWord) (dimensions dim position : nat) : scan_result :=
  if (position mod dimensions =? dim) && bool_decide (theBaseCellWord !! position = Some false)
  then Found position
  else
    match position with
    | 0 => Wrapped
    | S position => scan_back theBaseCellWord dimensions dim position
    end.

(** The scan from [size() - 1]; on an empty word the start itself wraps. *)
Definition find_position (theBaseCellWord : BinaryWord) (dimensions dim : nat) : scan_result :=
  match length theBaseCellWord with
  | 0 => Wrapped
  | S position => scan_back theBaseCellWord dimensions dim position
  end.

(** Step 5: every bit of axis [dim] from [position] on is inverted. *)
Definition invert_suffix (theBaseCellWord : BinaryWord) (dimensions dim position : nat)
  : BinaryWord :=
  imap (fun index b =>
          if (position <=? index) && (index mod dimensions =? dim) then negb b else b)
       theBaseCellWord.

(** [GridCell::neighboringCell(theGrid, theHeight, theWord, dim)]. *)
Inductive neighbor_outcome : Type :=
| Neighbor (cell : GridCell)
| PositionWrapped.

Definition neighboringCell (fuel : nat) (theGrid : Grid) (theHeight : nat)
    (theWord : BinaryWord) (dim : nat) : option neighbor_outcome :=
  let dimensions := dimension theGrid in
  match neighbor_base_cell fuel dimensions theHeight theWord dim with
  | None => None
  | Some (theBaseCellHeight, theBaseCellWord) =>
      match find_position theBaseCellWord dimensions dim with
      | Wrapped => Some PositionWrapped
      | Found position =>
          Some (Neighbor (mkGridCell theGrid theBaseCellHeight
                            (invert_suffix theBaseCellWord dimensions dim position)))
      end
  end.

(** ** Predicates of a paving against a box *)

(** Modelled from the spec: the predicates of [Box] (component B, assumed
    available).  Two closed boxes overlap definitely when their interiors
    meet, definitely not when some axis separates them, and possibly when
    they only touch; they are disjoint in the opposite cases. *)
Definition Interval_overlap (I J : Interval) : tribool :=
  if bool_decide (lower I < upper J)%Qc && bool_decide (lower J < upper I)%Qc then TTrue
  else if bool_decide (upper J < lower I)%Qc || bool_decide (upper I < lower J)%Qc then TFalse
  else TIndeterminate.

Definition Box_overlaps (b c : Box) : tribool :=
  foldr tribool_and TTrue (zip_with Interval_overlap b c).

Definition Box_disjoint (b c : Box) : tribool := tribool_not (Box_overlaps b c).

(** The result of [covers]: a [tribool], or the failure of
    [ARIADNE_ASSERT( false )] in the branch the source calls impossible. *)
Inductive covers_outcome : Type :=
| Answer (result : tribool)
| AssertionFailed.

Section Covers.

(** [Box::overlaps] as [GridTreeSubset::covers] sees it: a three-valued
    answer for two boxes. *)
Variable overlaps : Box -> Box -> tribool.

(** [GridTreeSubset::covers(pCurrentNode, theGrid, theHeight, theWord, theBox)].
    [theWord] is extended for each child and restored after the call. *)
Fixpoint covers (pCurrentNode : BinaryTreeNode) (theGrid : Grid) (theHeight : nat)
    (theWord : BinaryWord) (theBox : Box) : covers_outcome :=
  let theCellsBox := compute_box theGrid theHeight theWord in
  let doIntersect := overlaps theCellsBox theBox in
  if tribool_to_bool (tribool_not doIntersect) then Answer TTrue
  else
    match pCurrentNode with
    | Leaf _ =>
        if is_enabled pCurrentNode then Answer TTrue
        else Answer (tribool_not doIntersect)
    | Branch _ left_node right_node =>
        match covers left_node theGrid theHeight (theWord ++ [false]) theBox with
        | AssertionFailed => AssertionFailed
        | Answer result_left =>
            if tribool_to_bool (tribool_not result_left) then Answer TFalse
            else
              match covers right_node theGrid theHeight (theWord ++ [true]) theBox with
              | AssertionFailed => AssertionFailed
              | Answer result_right =>
                  if tribool_to_bool (tribool_not result_right) then Answer TFalse
                  else if tribool_to_bool (tribool_and result_left result_right)
                  then Answer TTrue
                  else if indeterminate result_left || indeterminate result_right
                  then Answer TIndeterminate
                  else AssertionFailed
              end
        end
    end.

(** Modelled from the spec: [S.covers(theBox)] of a [GridTreeSubset] starts
    the recursion at the root of the tree with the word of the root cell. *)
Definition GridTreeSubset_covers (S : GridTreeSubset) (theBox : Box) : covers_outcome :=
  covers (pRootTreeNode S) (cell_grid (theGridCell S)) (cell_height (theGridCell S))
         (cell_word (theGridCell S)) theBox.

End Covers.

(** ** Pointers into a tree *)

(** A [BinaryTreeNode*] into the tree of a paving is the path from the root
    to the node; [node_at] reads through it and [update_at] writes. *)
Fixpoint node_at (n : BinaryTreeNode) (ptr : BinaryWord) {struct ptr}
  : option BinaryTreeNode :=
  match ptr, n with
  | [], _ => Some n
  | b :: ptr, Branch _ l r => node_at (if b then r else l) ptr
  | _ :: _, Leaf _ => None
  end.

Fixpoint update_at (ptr : BinaryWord) (n' : BinaryTreeNode) (n : BinaryTreeNode) {struct ptr}
  : BinaryTreeNode :=
  match ptr, n with
  | [], _ => n'
  | b :: ptr, Branch e l r =>
      if b then Branch e l (update_at ptr n' r) else Branch e (update_at ptr n' l) r
  | _ :: _, Leaf _ => n
  end.

(** ** Aligning a paving with a primary cell *)

(** The loop of [smallest_enclosing_primary_cell_height(theLatticeBox)] on
    its [int] corners: a [do ... while(true)] bounded here by [fuel], [None]
    being the loop still running. *)
Fixpoint enclosing_height_loop (fuel : nat) (theLatticeBox : Box) (height : nat)
    (corners : Z * Z) : option nat :=
  match fuel with
  | 0 => None
  | S fuel =>
      let primaryCellBox :=
        replicate (length theLatticeBox) (Interval_of_ints corners.1 corners.2) in
      if inside theLatticeBox primaryCellBox then Some height
      else enclosing_height_loop fuel theLatticeBox (S height)
             (primary_cell_at_height (S height) corners)
  end.

(** [smallest_enclosing_primary_cell_height(theBox, theGrid)]: the box is
    taken to lattice coordinates, [(theBox[i] - origin[i]) / lengths[i]],
    the lengths of a grid being positive. *)
Definition box_to_lattice (theBox : Box) (theGrid : Grid) : Box :=
  zip_with (fun I ol => mkInterval ((lower I - ol.1) / ol.2) ((upper I - ol.1) / ol.2))
           theBox (zip (origin theGrid) (lengths theGrid)).

Definition smallest_enclosing_primary_cell_height (fuel : nat) (theBox : Box) (theGrid : Grid)
  : option nat :=
  enclosing_height_loop fuel (box_to_lattice theBox theGrid) 0 (0, 1)%Z.

(** The loop of [align_with_cell] that walks down [primaryCellPath] from
    node [n], splitting on the way, until the path ends or a node asks to
    stop.  The result is the new subtree, the path walked, and
    [has_stopped] as the last test of the loop left it. *)
Fixpoint align_descend (primaryCellPath : BinaryWord)
    (stop_on_enabled stop_on_disabled has_stopped : bool) (n : BinaryTreeNode)
  : BinaryTreeNode * BinaryWord * bool :=
  match primaryCellPath with
  | [] => (n, [], has_stopped)
  | b :: primaryCellPath =>
      if (is_enabled n && stop_on_enabled) || (is_disabled n && stop_on_disabled)
      then (n, [], true)
      else
        match split n with
        | Branch e l r =>
            if b
            then
              let '(r', ptr, stopped) :=
                align_descend primaryCellPath stop_on_enabled stop_on_disabled false r in
              (Branch e l r', true :: ptr, stopped)
            else
              let '(l', ptr, stopped) :=
                align_descend primaryCellPath stop_on_enabled stop_on_disabled false l in
              (Branch e l' r, false :: ptr, stopped)
        | Leaf e => (Leaf e, [], false)
        end
  end.

(** [GridTreeSet::align_with_cell]: the paving after the call, the node
    returned (as a path from the root) and [has_stopped].  [None] when
    [up_to_primary_cell] is undefined. *)
Definition align_with_cell (otherPavingPCellHeight : nat)
    (stop_on_enabled stop_on_disabled has_stopped : bool) (S : GridTreeSet)
  : option (GridTreeSet * BinaryWord * bool) :=
  let thisPavingPCellHeight := cell_height (theGridCell S) in
  if otherPavingPCellHeight <? thisPavingPCellHeight then
    let primaryCellPath :=
      primary_cell_path (dimension (cell_grid (theGridCell S)))
                        thisPavingPCellHeight otherPavingPCellHeight in
    let '(root, ptr, stopped) :=
      align_descend primaryCellPath stop_on_enabled stop_on_disabled has_stopped
                    (pRootTreeNode S) in
    Some (mkGridTreeSubset (theGridCell S) root, ptr, stopped)
  else if thisPavingPCellHeight <? otherPavingPCellHeight then
    match up_to_primary_cell otherPavingPCellHeight S with
    | None => None
    | Some S' => Some (S', [], has_stopped)
    end
  else Some (S, [], has_stopped).

(** Modelled from the spec: [zero_cell_subdivisions_to_tree_subdivisions]
    of [grid_set.h], with no path from the primary cell to the root cell:
    [n * d + h * d]. *)
Definition zero_cell_subdivisions_to_tree_subdivisions (dimensions numSubdivInDim
    primaryCellHeight : nat) : nat :=
  numSubdivInDim * dimensions + primaryCellHeight * dimensions.

(** ** Outer approximation of a set given by an oracle *)

(** What a call raises. *)
Inductive exception : Type :=
| AssertionFailure
| RuntimeError (what : string).

(** How a call on a paving ends: it returns, it throws (the paving as it
    is then), its behaviour is undefined, or it is still running when the
    fuel of its unbounded loops is spent. *)
Inductive outcome : Type :=
| Returns (S : GridTreeSet)
| Throws (e : exception) (S : GridTreeSet)
| Undefined
| Running.

(** [pPath->pop_back()] guarded by [pPath->size() > 0]. *)
Definition pop_back_if_any (pPath : BinaryWord) : BinaryWord :=
  if 0 <? length pPath then removelast pPath else pPath.

Section Approximation.

(** The cache [SplitTaylorSetBinaryTreeNode] of a [TaylorSet], and
    [Box::disjoint(Box)]: both belong to classes outside the sources. *)
Variable Cache : Type.
Variable box_disjoint : Box -> Box -> tribool.

(** A [TaylorSet]: its [disjoint(Box, cache)], which may update the cache,
    and the cache made from the set. *)
Record TaylorSet : Type :=
  mkTaylorSet { taylor_disjoint : Box -> Cache -> tribool * Cache;
                taylor_cache : Cache }.

(** A set behind [CompactSetInterface]: [dimension()], [bounding_box()],
    [disjoint(Box)], and what the two [dynamic_cast]s find: the [covers] of
    its [OpenSetInterface], if it has one, and the [TaylorSet] it is, if it
    is one. *)
Record CompactSetInterface : Type :=
  mkCompactSet { set_dimension : nat;
                 bounding_box : Box;
                 disjoint : Box -> tribool;
                 as_OpenSetInterface : option (Box -> tribool);
                 as_TaylorSet : option TaylorSet }.

(** [GridTreeSet::_adjoin_outer_approximation] (the overload that carries
    the lattice box).  It returns the new node and the path as the call
    leaves it.  The recursion descends only while [pPath->size()] is below
    [max_mince_depth]; [fuel] bounds it and [None] is fuel spent. *)
Fixpoint _adjoin_outer_approximation (fuel : nat) (theGrid : Grid) (lattice_box : Box)
    (pBinaryTreeNode : BinaryTreeNode) (primary_cell_height max_mince_depth : nat)
    (theSet : CompactSetInterface) (pPath : BinaryWord)
  : option (BinaryTreeNode * BinaryWord) :=
  match fuel with
  | 0 => None
  | S fuel =>
      let theCurrentCellBox := lattice_box_to_space lattice_box theGrid in
      let pOpenSet := as_OpenSetInterface theSet in
      let pTaylorSet := bool_decide (is_Some (as_TaylorSet theSet)) in
      let after :=
        if (pTaylorSet && (length pPath <? max_mince_depth)
            && definitely (box_disjoint (bounding_box theSet) theCurrentCellBox))
           || (((pTaylorSet && (length pPath =? max_mince_depth)) || negb pTaylorSet)
               && definitely (disjoint theSet theCurrentCellBox))
        then Some (pBinaryTreeNode, pPath)
        else if match pOpenSet with
                | Some covers => definitely (covers theCurrentCellBox)
                | None => false
                end
        then Some (make_leaf TTrue pBinaryTreeNode, pPath)
        else if is_enabled pBinaryTreeNode then Some (pBinaryTreeNode, pPath)
        else if length pPath <? max_mince_depth then
          let new_dimension := length pPath mod dimension theGrid in
          let middlePointInCurrDim := midpoint (lattice_box !!! new_dimension) in
          let left_lattice_box :=
            alter (set_upper middlePointInCurrDim) new_dimension lattice_box in
          let right_lattice_box :=
            alter (set_lower middlePointInCurrDim) new_dimension lattice_box in
          match split pBinaryTreeNode with
          | Branch e l r =>
              match _adjoin_outer_approximation fuel theGrid left_lattice_box l
                      primary_cell_height max_mince_depth theSet (pPath ++ [false]) with
              | None => None
              | Some (l, pPath) =>
                  match _adjoin_outer_approximation fuel theGrid right_lattice_box r
                          primary_cell_height max_mince_depth theSet (pPath ++ [true]) with
                  | None => None
                  | Some (r, pPath) =>
                      if is_enabled l && is_enabled r
                      then Some (make_leaf TTrue (Branch e l r), pPath)
                      else Some (Branch e l r, pPath)
                  end
              end
          | Leaf e => Some (Leaf e, pPath)
          end
        else if negb (is_leaf pBinaryTreeNode)
        then Some (make_leaf TTrue pBinaryTreeNode, pPath)
        else Some (set_enabled pBinaryTreeNode, pPath)
      in
      match after with
      | None => None
      | Some (n, pPath) => Some (n, pop_back_if_any pPath)
      end
  end.

(** [GridTreeSet::_adjoin_outer_approximation_taylorset]: the same descent
    with the cache of the [TaylorSet] threaded through the calls of
    [disjoint]. *)
Fixpoint _adjoin_outer_approximation_taylorset (fuel : nat) (theGrid : Grid)
    (lattice_box : Box) (pCacheRootNode : Cache) (pBinaryTreeNode : BinaryTreeNode)
    (primary_cell_height max_mince_depth : nat) (theBoundingBox : Box) (theSet : TaylorSet)
    (pPath : BinaryWord)
  : option (BinaryTreeNode * BinaryWord * Cache) :=
  match fuel with
  | 0 => None
  | S fuel =>
      let theCurrentCellBox := lattice_box_to_space lattice_box theGrid in
      let '(is_disjoint, pCacheRootNode) :=
        if (length pPath <? max_mince_depth)
           && definitely (box_disjoint theBoundingBox theCurrentCellBox)
        then (true, pCacheRootNode)
        else if length pPath =? max_mince_depth
        then
          let '(answer, cache) := taylor_disjoint theSet theCurrentCellBox pCacheRootNode in
          (definitely answer, cache)
        else (false, pCacheRootNode) in
      let after :=
        if is_disjoint then Some (pBinaryTreeNode, pPath, pCacheRootNode)
        else if is_enabled pBinaryTreeNode then Some (pBinaryTreeNode, pPath, pCacheRootNode)
        else if length pPath <? max_mince_depth then
          let new_dimension := length pPath mod dimension theGrid in
          let middlePointInCurrDim := midpoint (lattice_box !!! new_dimension) in
          let left_lattice_box :=
            alter (set_upper middlePointInCurrDim) new_dimension lattice_box in
          let right_lattice_box :=
            alter (set_lower middlePointInCurrDim) new_dimension lattice_box in
          match split pBinaryTreeNode with
          | Branch e l r =>
              match _adjoin_outer_approximation_taylorset fuel theGrid left_lattice_box
                      pCacheRootNode l primary_cell_height max_mince_depth theBoundingBox
                      theSet (pPath ++ [false]) with
              | None => None
              | Some (l, pPath, pCacheRootNode) =>
                  match _adjoin_outer_approximation_taylorset fuel theGrid right_lattice_box
                          pCacheRootNode r primary_cell_height max_mince_depth theBoundingBox
                          theSet (pPath ++ [true]) with
                  | None => None
                  | Some (r, pPath, pCacheRootNode) =>
                      if is_enabled l && is_enabled r
                      then Some (make_leaf TTrue (Branch e l r), pPath, pCacheRootNode)
                      else Some (Branch e l r, pPath, pCacheRootNode)
                  end
              end
          | Leaf e => Some (Leaf e, pPath, pCacheRootNode)
          end
        else if negb (is_leaf pBinaryTreeNode)
        then Some (make_leaf TTrue pBinaryTreeNode, pPath, pCacheRootNode)
        else Some (set_enabled pBinaryTreeNode, pPath, pCacheRootNode)
      in
      match after with
      | None => None
      | Some (n, pPath, cache) => Some (n, pop_back_if_any pPath, cache)
      end
  end.

(** [GridTreeSet::adjoin_outer_approximation(theSet, numSubdivInDim)]. *)
Definition adjoin_outer_approximation (fuel : nat) (theSet : CompactSetInterface)
    (numSubdivInDim : nat) (S : GridTreeSet) : outcome :=
  let theGrid := cell_grid (theGridCell S) in
  if negb (set_dimension theSet =? dimension theGrid) then Throws AssertionFailure S
  else
    match smallest_enclosing_primary_cell_height fuel (bounding_box theSet) theGrid with
    | None => Running
    | Some height =>
        let outer_approx_primary_cell_height := height in
        match align_with_cell outer_approx_primary_cell_height true false false S with
        | None => Undefined
        | Some (this, pBinaryTreeNode, has_stopped) =>
            if has_stopped then Returns this
            else
              let max_mince_depth :=
                zero_cell_subdivisions_to_tree_subdivisions (dimension theGrid)
                  numSubdivInDim outer_approx_primary_cell_height in
              let pEmptyPath : BinaryWord := [] in
              let lattice_box :=
                compute_lattice_box (dimension theGrid) outer_approx_primary_cell_height
                                    pEmptyPath in
              match node_at (pRootTreeNode this) pBinaryTreeNode with
              | None => Undefined
              | Some n =>
                  let result :=
                    match as_TaylorSet theSet with
                    | Some pTaylorSet =>
                        match _adjoin_outer_approximation_taylorset fuel theGrid lattice_box
                                (taylor_cache pTaylorSet) n outer_approx_primary_cell_height
                                max_mince_depth (bounding_box theSet) pTaylorSet pEmptyPath with
                        | None => None
                        | Some (n, _, _) => Some n
                        end
                    | None =>
                        match _adjoin_outer_approximation fuel theGrid lattice_box n
                                outer_approx_primary_cell_height max_mince_depth theSet
                                pEmptyPath with
                        | None => None
                        | Some (n, _) => Some n
                        end
                    end in
                  match result with
                  | None => Running
                  | Some n =>
                      Returns (mkGridTreeSubset (theGridCell this)
                                 (update_at pBinaryTreeNode n (pRootTreeNode this)))
                  end
              end
        end
    end.

(** A [Box] handed to [adjoin_outer_approximation] is seen through its
    [CompactSetInterface]. *)
Variable Box_as_set : Box -> CompactSetInterface.

(** [GridTreeSet::adjoin_over_approximation(theBox, numSubdivInDim)]. *)
Definition adjoin_over_approximation (fuel : nat) (theBox : Box) (numSubdivInDim : nat)
    (S : GridTreeSet) : outcome :=
  if existsb (fun I => bool_decide (upper I <= lower I)%Qc) theBox
  then Throws (RuntimeError "GridTreeSet::adjoin_over_approximation(Box,uint)") S
  else adjoin_outer_approximation fuel (Box_as_set theBox) numSubdivInDim S.

End Approximation.

Arguments mkTaylorSet {Cache}.
Arguments taylor_disjoint {Cache}.
Arguments taylor_cache {Cache}.
Arguments mkCompactSet {Cache}.
Arguments set_dimension {Cache}.
Arguments bounding_box {Cache}.
Arguments disjoint {Cache}.
Arguments as_OpenSetInterface {Cache}.
Arguments as_TaylorSet {Cache}.
Arguments _adjoin_outer_approximation {Cache}.
Arguments _adjoin_outer_approximation_taylorset {Cache}.
Arguments adjoin_outer_approximation {Cache}.
Arguments adjoin_over_approximation {Cache}.

(** ** Files by name *)

(** What [import_from_file] and [export_to_file] see of the file system: the
    contents of the files by name, and the names [std::remove] fails on (a
    file of a directory that can not be written to, say). *)
Record FileSystem : Type :=
  mkFileSystem { file_contents : gmap string (list Byte.byte); undeletable : gset string }.

(** [fopen(filename, r)]: the bytes of the file, [None] for the [NULL] of a
    file that is not there. *)
Definition fopen_read (filename : string) (fs : FileSystem) : option stream :=
  file_contents fs !! filename.

(** [std::remove(filename)]: 0 and the file is gone, or a value other than 0
    and nothing has changed. *)
Definition std_remove (filename : string) (fs : FileSystem) : Z * FileSystem :=
  match file_contents fs !! filename with
  | Some _ =>
      if decide (filename ∈ undeletable fs) then ((-1)%Z, fs)
      else (0%Z, mkFileSystem (delete filename (file_contents fs)) (undeletable fs))
  | None => ((-1)%Z, fs)
  end.

(** How a call that touches files ends: it returns, it stops the program
    with a message, its behaviour is undefined, or it is still running when
    the fuel is spent. *)
Inductive file_outcome : Type :=
| FileReturns (S : GridTreeSet) (fs : FileSystem)
| FileFails (what : string) (S : GridTreeSet) (fs : FileSystem)
| FileUndefined
| FileRunning.

(** [GridTreeSet::import_from_file(filename)].  A file that can not be opened
    gives [fgetc] a null stream.  Modelled from the spec: [ARIADNE_FAIL_MSG]
    reports a fatal failure with the message. *)
Definition import_from_file (fuel : nat) (filename : string) (S : GridTreeSet)
    (fs : FileSystem) : file_outcome :=
  match fopen_read filename fs with
  | None => FileUndefined
  | Some file =>
      match add_enabled_from_file fuel (pRootTreeNode S) file with
      | None => FileRunning
      | Some (root, _) =>
          let S := mkGridTreeSubset (theGridCell S) root in
          let '(status, fs) := std_remove filename fs in
          if negb (status =? 0)%Z
          then FileFails ("Error deleting file " +:+ filename +:+ ".") S fs
          else FileReturns S fs
      end
  end.

(** [GridTreeSet::export_to_file(filename)], the file being opened for
    writing (created or emptied): the tree is written, its subtrees are
    freed and the flag of the root is set to [indeterminate]. *)
Definition export_to_file (filename : string) (S : GridTreeSet) (fs : FileSystem)
  : GridTreeSet * FileSystem :=
  let '(root, file) := remove_to_file (pRootTreeNode S) [] in
  (mkGridTreeSubset (theGridCell S) (set_unknown_unchecked root),
   mkFileSystem (<[filename := file]> (file_contents fs)) (undeletable fs)).

(** ** Adjoining, removing and restricting *)

(** Modelled from the spec: [Grid::operator==] compares the origins and the
    lengths. *)
#[global] Instance Grid_eq_dec : EqDecision Grid.
Proof. solve_decision. Defined.

(** [BinaryTreeNode::add_enabled(pToTreeRoot, pFromTreeRoot)]: the enabled
    part of the second tree is added to the first.  The children a disabled
    leaf receives are copies of the children of [pFromTreeRoot]. *)
Fixpoint add_enabled (pToTreeRoot pFromTreeRoot : BinaryTreeNode) : BinaryTreeNode :=
  match pToTreeRoot, pFromTreeRoot with
  | Leaf _, Leaf _ =>
      if is_enabled pToTreeRoot then pToTreeRoot
      else if is_enabled pFromTreeRoot then set_enabled pToTreeRoot
      else pToTreeRoot
  | Leaf e, Branch _ l' r' =>
      if is_enabled pToTreeRoot then pToTreeRoot
      else set_unknown (Branch e l' r')
  | Branch _ _ _, Leaf _ =>
      if is_enabled pFromTreeRoot then make_leaf TTrue pToTreeRoot else pToTreeRoot
  | Branch e l r, Branch _ l' r' =>
      Branch e (add_enabled l l') (add_enabled r r')
  end.

(** [BinaryTreeNode::add_enabled(pOtherSubTree, path)]: the path is followed
    from this node, splitting on the way, until it ends or an enabled node
    is met; the subtree is added at a node that is not enabled. *)
Fixpoint add_enabled_subtree (this pOtherSubTree : BinaryTreeNode) (path : BinaryWord)
  : BinaryTreeNode :=
  if is_enabled this then this
  else
    match path with
    | [] => add_enabled this pOtherSubTree
    | b :: path =>
        match split this with
        | Branch e l r =>
            if b then Branch e l (add_enabled_subtree r pOtherSubTree path)
            else Branch e (add_enabled_subtree l pOtherSubTree path) r
        | Leaf e => Leaf e
        end
    end.

(** [BinaryTreeNode::add_enabled(pRootTreeNode, path, position)], the path
    given from [position] on. *)
Fixpoint add_enabled_word (pRootTreeNode : BinaryTreeNode) (path : BinaryWord)
  : BinaryTreeNode :=
  match path with
  | b :: path =>
      if is_leaf pRootTreeNode && is_enabled pRootTreeNode then pRootTreeNode
      else
        match (if is_leaf pRootTreeNode then split pRootTreeNode else pRootTreeNode) with
        | Branch e l r =>
            if b then Branch e l (add_enabled_word r path)
            else Branch e (add_enabled_word l path) r
        | Leaf e => Leaf e
        end
  | [] =>
      if is_leaf pRootTreeNode then set_enabled pRootTreeNode
      else make_leaf TTrue pRootTreeNode
  end.

(** The frame the mutating members share: the paving is aligned with the
    primary cell of [height]; unless the alignment has stopped, [body] acts
    on the node returned.  [body] gives [None] when its fuel is spent. *)
Definition on_aligned_node (height : nat) (stop_on_enabled stop_on_disabled : bool)
    (body : BinaryTreeNode -> option BinaryTreeNode) (S : GridTreeSet) : outcome :=
  match align_with_cell height stop_on_enabled stop_on_disabled false S with
  | None => Undefined
  | Some (this, pBinaryTreeNode, has_stopped) =>
      if has_stopped then Returns this
      else
        match node_at (pRootTreeNode this) pBinaryTreeNode with
        | None => Undefined
        | Some n =>
            match body n with
            | None => Running
            | Some n =>
                Returns (mkGridTreeSubset (theGridCell this)
                           (update_at pBinaryTreeNode n (pRootTreeNode this)))
            end
        end
  end.

(** [o] followed by [f] on the paving [o] returns. *)
Definition and_then (o : outcome) (f : GridTreeSet -> outcome) : outcome :=
  match o with
  | Returns this => f this
  | _ => o
  end.

(** [ARIADNE_ASSERT( this->grid() == other.grid() )]. *)
Definition same_grid (S : GridTreeSubset) (theGrid : Grid) : bool :=
  bool_decide (cell_grid (theGridCell S) = theGrid).

(** Modelled from the spec: [GridTreeSet::adjoin(theCell)] of [grid_set.h]:
    the paving is aligned with the primary cell of the cell, stopping on an
    enabled node, and the word of the cell is enabled from there. *)
Definition adjoin_cell (theCell : GridCell) (S : GridTreeSet) : outcome :=
  if negb (same_grid S (cell_grid theCell)) then Throws AssertionFailure S
  else
    on_aligned_node (cell_height theCell) true false
      (fun pBinaryTreeNode => Some (add_enabled_word pBinaryTreeNode (cell_word theCell))) S.

(** Modelled from the spec: [GridTreeSet::adjoin(theOtherSubPaving)] of
    [grid_set.h]: the same alignment, then the tree of the other paving is
    added along the word of its root cell. *)
Definition adjoin_subset (theOtherSubPaving : GridTreeSubset) (S : GridTreeSet) : outcome :=
  if negb (same_grid S (cell_grid (theGridCell theOtherSubPaving)))
  then Throws AssertionFailure S
  else
    on_aligned_node (cell_height (theGridCell theOtherSubPaving)) true false
      (fun pBinaryTreeNode =>
         Some (add_enabled_subtree pBinaryTreeNode (pRootTreeNode theOtherSubPaving)
                 (cell_word (theGridCell theOtherSubPaving)))) S.

(** The second loop of [GridTreeSet::remove(theCell)]: what is left of the
    path is followed by splitting, and the node reached is disabled. *)
Fixpoint disable_along (n : BinaryTreeNode) (path : BinaryWord) : BinaryTreeNode :=
  match path with
  | [] => set_disabled n
  | b :: path =>
      match split n with
      | Branch e l r =>
          if b then Branch e l (disable_along r path) else Branch e (disable_along l path) r
      | Leaf e => Leaf e
      end
  end.

(** [GridTreeSet::remove(theCell)] from the aligned node on: the path is
    followed down to a leaf or to its end. *)
Fixpoint remove_cell_from (n : BinaryTreeNode) (path : BinaryWord) : BinaryTreeNode :=
  match n with
  | Leaf _ => if is_enabled n then disable_along n path else n
  | Branch e l r =>
      match path with
      | [] => make_leaf TFalse n
      | b :: path =>
          if b then Branch e l (remove_cell_from r path)
          else Branch e (remove_cell_from l path) r
      end
  end.

(** [GridTreeSet::remove(theCell)]. *)
Definition remove_cell (theCell : GridCell) (S : GridTreeSet) : outcome :=
  if negb (same_grid S (cell_grid theCell)) then Throws AssertionFailure S
  else
    on_aligned_node (cell_height theCell) false true
      (fun pCurrentPrimaryCell => Some (remove_cell_from pCurrentPrimaryCell (cell_word theCell)))
      S.

(** The path of [restrict_to_lower] and [remove_from_lower]: from the root
    of this paving to the root of the other one. *)
Definition path_to_root_of (theOtherSubPaving : GridTreeSubset) (S : GridTreeSet) : BinaryWord :=
  primary_cell_path (dimension (cell_grid (theGridCell S))) (cell_height (theGridCell S))
                    (cell_height (theGridCell theOtherSubPaving))
  ++ cell_word (theGridCell theOtherSubPaving).

(** [GridTreeSet::restrict_to_lower] from node [n] on: the branches off the
    path are disabled. *)
Fixpoint restrict_to_lower_from (n : BinaryTreeNode) (rootNodePath : BinaryWord)
    (other : BinaryTreeNode) : BinaryTreeNode :=
  match rootNodePath with
  | [] =>
      if is_enabled n then copy_from other n
      else if is_disabled n then n
      else restrict n other
  | b :: rootNodePath =>
      if is_leaf n && is_disabled n then n
      else
        match (if is_leaf n then split n else n) with
        | Branch e l r =>
            if b
            then Branch e (make_leaf TFalse l) (restrict_to_lower_from r rootNodePath other)
            else Branch e (restrict_to_lower_from l rootNodePath other) (make_leaf TFalse r)
        | Leaf e => Leaf e
        end
  end.

Definition restrict_to_lower (theOtherSubPaving : GridTreeSubset) (S : GridTreeSet)
  : GridTreeSet :=
  mkGridTreeSubset (theGridCell S)
    (restrict_to_lower_from (pRootTreeNode S) (path_to_root_of theOtherSubPaving S)
                            (pRootTreeNode theOtherSubPaving)).

(** [GridTreeSet::remove_from_lower] from node [n] on. *)
Fixpoint remove_from_lower_from (n : BinaryTreeNode) (rootNodePath : BinaryWord)
    (other : BinaryTreeNode) : BinaryTreeNode :=
  match rootNodePath with
  | [] => if is_disabled n then n else remove n other
  | b :: rootNodePath =>
      if is_leaf n && is_disabled n then n
      else
        match (if is_leaf n then split n else n) with
        | Branch e l r =>
            if b then Branch e l (remove_from_lower_from r rootNodePath other)
            else Branch e (remove_from_lower_from l rootNodePath other) r
        | Leaf e => Leaf e
        end
  end.

Definition remove_from_lower (theOtherSubPaving : GridTreeSubset) (S : GridTreeSet)
  : GridTreeSet :=
  mkGridTreeSubset (theGridCell S)
    (remove_from_lower_from (pRootTreeNode S) (path_to_root_of theOtherSubPaving S)
                            (pRootTreeNode theOtherSubPaving)).

(** The head of [restrict] and [remove]: a paving lower than the other one
    is re-rooted to its height. *)
Definition raised_to (theOtherSubPaving : GridTreeSubset) (S : GridTreeSet)
  : option GridTreeSet :=
  let thisPavingPCellHeight := cell_height (theGridCell S) in
  let otherPavingPCellHeight := cell_height (theGridCell theOtherSubPaving) in
  if thisPavingPCellHeight <? otherPavingPCellHeight
  then up_to_primary_cell otherPavingPCellHeight S
  else Some S.

(** [GridTreeSet::restrict(theOtherSubPaving)]. *)
Definition restrict_subset (theOtherSubPaving : GridTreeSubset) (S : GridTreeSet) : outcome :=
  if negb (same_grid S (cell_grid (theGridCell theOtherSubPaving)))
  then Throws AssertionFailure S
  else
    match raised_to theOtherSubPaving S with
    | None => Undefined
    | Some this => Returns (restrict_to_lower theOtherSubPaving this)
    end.

(** [GridTreeSet::remove(theOtherSubPaving)]. *)
Definition remove_subset (theOtherSubPaving : GridTreeSubset) (S : GridTreeSet) : outcome :=
  if negb (same_grid S (cell_grid (theGridCell theOtherSubPaving)))
  then Throws AssertionFailure S
  else
    match raised_to theOtherSubPaving S with
    | None => Undefined
    | Some this => Returns (remove_from_lower theOtherSubPaving this)
    end.

(** [GridTreeSet::restrict_to_height] from node [n] on. *)
Fixpoint restrict_to_height_from (n : BinaryTreeNode) (pathToPCell : BinaryWord)
  : BinaryTreeNode :=
  match pathToPCell with
  | [] => n
  | b :: pathToPCell =>
      if is_leaf n && negb (is_enabled n) then n
      else
        match (if is_leaf n then split n else n) with
        | Branch e l r =>
            if b then Branch e (make_leaf TFalse l) (restrict_to_height_from r pathToPCell)
            else Branch e (restrict_to_height_from l pathToPCell) (make_leaf TFalse r)
        | Leaf e => Leaf e
        end
  end.

(** [GridTreeSet::restrict_to_height(theHeight)] (the warning it prints is
    left out). *)
Definition restrict_to_height (theHeight : nat) (S : GridTreeSet) : GridTreeSet :=
  let thisPavingPCellHeight := cell_height (theGridCell S) in
  if theHeight <? thisPavingPCellHeight then
    let pathToPCell :=
      primary_cell_path (dimension (cell_grid (theGridCell S))) thisPavingPCellHeight
                        theHeight in
    mkGridTreeSubset (theGridCell S) (restrict_to_height_from (pRootTreeNode S) pathToPCell)
  else S.

(** Modelled from the spec: [mince(theNewDepth)] and [recombine()] of a
    paving act on its root node. *)
Definition mince_paving (theNewDepth : nat) (S : GridTreeSubset) : GridTreeSubset :=
  mkGridTreeSubset (theGridCell S) (mince (pRootTreeNode S) theNewDepth).

Definition recombine_paving (S : GridTreeSubset) : GridTreeSubset :=
  mkGridTreeSubset (theGridCell S) (recombine (pRootTreeNode S)).

(** The constructors: [GridTreeSet(theGrid, enable)], the empty paving of a
    given height that the other constructors start from, and
    [GridTreeSet(theGridCell)].  Modelled from the spec:
    [new BinaryTreeNode(enable)] is a leaf of that enabledness. *)
Definition GridTreeSet_of_grid (theGrid : Grid) (enable : bool) : GridTreeSet :=
  mkGridTreeSubset (mkGridCell theGrid 0 []) (Leaf (tribool_of_bool enable)).

Definition GridTreeSet_at_height (theGrid : Grid) (theHeight : nat) : GridTreeSet :=
  mkGridTreeSubset (mkGridCell theGrid theHeight []) new_BinaryTreeNode.

Definition GridTreeSet_of_cell (theGridCell : GridCell) : outcome :=
  adjoin_cell theGridCell
    (GridTreeSet_at_height (cell_grid theGridCell) (cell_height theGridCell)).

(** [join], [intersection] and [difference] build their result in a new
    paving of the greater height.  When the assertion on the grids fails
    no result exists; [Throws] then carries the first argument. *)
Definition binary_operation (second : GridTreeSubset -> GridTreeSet -> outcome)
    (theSet1 theSet2 : GridTreeSubset) : outcome :=
  if negb (same_grid theSet1 (cell_grid (theGridCell theSet2)))
  then Throws AssertionFailure theSet1
  else
    let heightSet1 := cell_height (theGridCell theSet1) in
    let heightSet2 := cell_height (theGridCell theSet2) in
    let maxPCHeight := if heightSet1 <? heightSet2 then heightSet2 else heightSet1 in
    let resultSet := GridTreeSet_at_height (cell_grid (theGridCell theSet1)) maxPCHeight in
    and_then (adjoin_subset theSet1 resultSet) (second theSet2).

Definition join : GridTreeSubset -> GridTreeSubset -> outcome :=
  binary_operation adjoin_subset.

Definition intersection : GridTreeSubset -> GridTreeSubset -> outcome :=
  binary_operation restrict_subset.

Definition difference : GridTreeSubset -> GridTreeSubset -> outcome :=
  binary_operation remove_subset.

(** ** Lower and inner approximations *)

(** A set behind [OpenSetInterface]: [dimension()], [covers(Box)] and
    [overlaps(Box)]. *)
Record OpenSetInterface : Type :=
  mkOpenSet { open_dimension : nat;
              open_covers : Box -> tribool;
              open_overlaps : Box -> tribool }.

(** A set behind [OvertSetInterface]: [dimension()], [overlaps(Box)], and
    the [OpenSetInterface] the [dynamic_cast] finds, if any. *)
Record OvertSetInterface : Type :=
  mkOvertSet { overt_dimension : nat;
               overt_overlaps : Box -> tribool;
               overt_as_OpenSetInterface : option OpenSetInterface }.

(** A set behind [LocatedSetInterface]: an overt set with a bounding box. *)
Record LocatedSetInterface : Type :=
  mkLocatedSet { located_as_OvertSetInterface : OvertSetInterface;
                 located_bounding_box : Box }.

(** [GridTreeSet::_adjoin_lower_approximation] for an [OvertSetInterface].
    The recursion descends only while [pPath->size()] is below
    [max_mince_depth]; [fuel] bounds it. *)
Fixpoint _adjoin_lower_approximation (fuel : nat) (theGrid : Grid)
    (pBinaryTreeNode : BinaryTreeNode) (primary_cell_height max_mince_depth : nat)
    (theSet : OvertSetInterface) (pPath : BinaryWord)
  : option (BinaryTreeNode * BinaryWord) :=
  match fuel with
  | 0 => None
  | S fuel =>
      let theCurrentCell := mkGridCell theGrid primary_cell_height pPath in
      let after :=
        if definitely (overt_overlaps theSet (cell_box theCurrentCell)) then
          if max_mince_depth <=? length pPath then
            if negb (has_enabled pBinaryTreeNode)
            then Some (make_leaf TTrue pBinaryTreeNode, pPath)
            else Some (pBinaryTreeNode, pPath)
          else
            match split pBinaryTreeNode with
            | Branch e l r =>
                match _adjoin_lower_approximation fuel theGrid l primary_cell_height
                        max_mince_depth theSet (pPath ++ [false]) with
                | None => None
                | Some (l, pPath) =>
                    match _adjoin_lower_approximation fuel theGrid r primary_cell_height
                            max_mince_depth theSet (pPath ++ [true]) with
                    | None => None
                    | Some (r, pPath) => Some (Branch e l r, pPath)
                    end
                end
            | Leaf e => Some (Leaf e, pPath)
            end
        else Some (pBinaryTreeNode, pPath)
      in
      match after with
      | None => None
      | Some (n, pPath) => Some (n, pop_back_if_any pPath)
      end
  end.

(** [GridTreeSet::_adjoin_lower_approximation] for an [OpenSetInterface].
    [max_mince_depth - pPath->size()] does not wrap around: the path is
    never longer than [max_mince_depth]. *)
Fixpoint _adjoin_lower_approximation_open (fuel : nat) (theGrid : Grid)
    (pBinaryTreeNode : BinaryTreeNode) (primary_cell_height max_mince_depth : nat)
    (theSet : OpenSetInterface) (pPath : BinaryWord)
  : option (BinaryTreeNode * BinaryWord) :=
  match fuel with
  | 0 => None
  | S fuel =>
      let theCurrentCell := mkGridCell theGrid primary_cell_height pPath in
      let after :=
        if definitely (open_covers theSet (cell_box theCurrentCell)) then
          Some (mince (make_leaf TTrue pBinaryTreeNode) (max_mince_depth - length pPath),
                pPath)
        else if definitely (open_overlaps theSet (cell_box theCurrentCell)) then
          if max_mince_depth <=? length pPath then
            if is_leaf pBinaryTreeNode
            then Some (set_enabled pBinaryTreeNode, pPath)
            else Some (pBinaryTreeNode, pPath)
          else
            match split pBinaryTreeNode with
            | Branch e l r =>
                match _adjoin_lower_approximation_open fuel theGrid l primary_cell_height
                        max_mince_depth theSet (pPath ++ [false]) with
                | None => None
                | Some (l, pPath) =>
                    match _adjoin_lower_approximation_open fuel theGrid r primary_cell_height
                            max_mince_depth theSet (pPath ++ [true]) with
                    | None => None
                    | Some (r, pPath) => Some (Branch e l r, pPath)
                    end
                end
            | Leaf e => Some (Leaf e, pPath)
            end
        else Some (pBinaryTreeNode, pPath)
      in
      match after with
      | None => None
      | Some (n, pPath) => Some (n, pop_back_if_any pPath)
      end
  end.

(** [GridTreeSet::adjoin_lower_approximation(theSet, height, numSubdivInDim)]. *)
Definition adjoin_lower_approximation_at_height (fuel : nat) (theSet : OvertSetInterface)
    (height numSubdivInDim : nat) (S : GridTreeSet) : outcome :=
  let theGrid := cell_grid (theGridCell S) in
  if negb (overt_dimension theSet =? dimension theGrid) then Throws AssertionFailure S
  else
    let max_mince_depth :=
      zero_cell_subdivisions_to_tree_subdivisions (dimension theGrid) numSubdivInDim height in
    let pEmptyPath : BinaryWord := [] in
    on_aligned_node height true false
      (fun pBinaryTreeNode =>
         match overt_as_OpenSetInterface theSet with
         | Some theOpenVersionOfSet =>
             fst <$> _adjoin_lower_approximation_open fuel theGrid pBinaryTreeNode height
                       max_mince_depth theOpenVersionOfSet pEmptyPath
         | None =>
             fst <$> _adjoin_lower_approximation fuel theGrid pBinaryTreeNode height
                       max_mince_depth theSet pEmptyPath
         end) S.

(** [GridTreeSet::adjoin_lower_approximation(theSet, theBoundingBox,
    numSubdivInDim)]. *)
Definition adjoin_lower_approximation_in_box (fuel : nat) (theSet : OvertSetInterface)
    (theBoundingBox : Box) (numSubdivInDim : nat) (S : GridTreeSet) : outcome :=
  let theGrid := cell_grid (theGridCell S) in
  if negb (overt_dimension theSet =? dimension theGrid) then Throws AssertionFailure S
  else if negb (length theBoundingBox =? dimension theGrid) then Throws AssertionFailure S
  else
    match smallest_enclosing_primary_cell_height fuel theBoundingBox theGrid with
    | None => Running
    | Some height =>
        adjoin_lower_approximation_at_height fuel theSet height numSubdivInDim S
    end.

(** [GridTreeSet::adjoin_lower_approximation(theSet, numSubdivInDim)] for a
    [LocatedSetInterface]. *)
Definition adjoin_lower_approximation (fuel : nat) (theSet : LocatedSetInterface)
    (numSubdivInDim : nat) (S : GridTreeSet) : outcome :=
  adjoin_lower_approximation_in_box fuel (located_as_OvertSetInterface theSet)
    (located_bounding_box theSet) numSubdivInDim S.

(** [GridTreeSet::_adjoin_inner_approximation]. *)
Fixpoint _adjoin_inner_approximation (fuel : nat) (theGrid : Grid)
    (pBinaryTreeNode : BinaryTreeNode) (primary_cell_height max_mince_depth : nat)
    (theSet : OpenSetInterface) (pPath : BinaryWord)
  : option (BinaryTreeNode * BinaryWord) :=
  match fuel with
  | 0 => None
  | S fuel =>
      let theCurrentCell := mkGridCell theGrid primary_cell_height pPath in
      let after :=
        if negb (is_enabled pBinaryTreeNode) then
          if definitely (open_covers theSet (cell_box theCurrentCell))
          then Some (make_leaf TTrue pBinaryTreeNode, pPath)
          else if possibly (open_overlaps theSet (cell_box theCurrentCell)) then
            if max_mince_depth <=? length pPath then Some (pBinaryTreeNode, pPath)
            else
              match split pBinaryTreeNode with
              | Branch e l r =>
                  match _adjoin_inner_approximation fuel theGrid l primary_cell_height
                          max_mince_depth theSet (pPath ++ [false]) with
                  | None => None
                  | Some (l, pPath) =>
                      match _adjoin_inner_approximation fuel theGrid r primary_cell_height
                              max_mince_depth theSet (pPath ++ [true]) with
                      | None => None
                      | Some (r, pPath) => Some (Branch e l r, pPath)
                      end
                  end
              | Leaf e => Some (Leaf e, pPath)
              end
          else Some (pBinaryTreeNode, pPath)
        else Some (pBinaryTreeNode, pPath)
      in
      match after with
      | None => None
      | Some (n, pPath) => Some (n, pop_back_if_any pPath)
      end
  end.

(** [GridTreeSet::adjoin_inner_approximation(theSet, height, numSubdivInDim)]. *)
Definition adjoin_inner_approximation_at_height (fuel : nat) (theSet : OpenSetInterface)
    (height numSubdivInDim : nat) (S : GridTreeSet) : outcome :=
  let theGrid := cell_grid (theGridCell S) in
  if negb (open_dimension theSet =? dimension theGrid) then Throws AssertionFailure S
  else
    let max_mince_depth :=
      zero_cell_subdivisions_to_tree_subdivisions (dimension theGrid) numSubdivInDim height in
    let pEmptyPath : BinaryWord := [] in
    on_aligned_node height true false
      (fun pBinaryTreeNode =>
         fst <$> _adjoin_inner_approximation fuel theGrid pBinaryTreeNode height
                   max_mince_depth theSet pEmptyPath) S.

(** [GridTreeSet::adjoin_inner_approximation(theSet, theBoundingBox,
    numSubdivInDim)]. *)
Definition adjoin_inner_approximation (fuel : nat) (theSet : OpenSetInterface)
    (theBoundingBox : Box) (numSubdivInDim : nat) (S : GridTreeSet) : outcome :=
  let theGrid := cell_grid (theGridCell S) in
  if negb (open_dimension theSet =? dimension theGrid) then Throws AssertionFailure S
  else if negb (length theBoundingBox =? dimension theGrid) then Throws AssertionFailure S
  else
    match smallest_enclosing_primary_cell_height fuel theBoundingBox theGrid with
    | None => Running
    | Some height =>
        adjoin_inner_approximation_at_height fuel theSet height numSubdivInDim S
    end.

(** ** The pavings the public operations build *)

(** [T] is a view of a part of the paving [S]: its tree is the subtree of
    [S] at some node, and its cell is the cell of that node. *)
Definition sub_paving (T : GridTreeSubset) (S : GridTreeSet) : Prop :=
  exists ptr,
    node_at (pRootTreeNode S) ptr = Some (pRootTreeNode T)
    /\ theGridCell T = mkGridCell (cell_grid (theGridCell S)) (cell_height (theGridCell S))
                                  (cell_word (theGridCell S) ++ ptr).

(** The pavings reachable from a constructor by the mutating members and the
    free functions.  [export_to_file] appears only with the import that
    follows it.  Where an operation takes a second paving, it is a view of
    a reachable one.  The sets and boxes the
    approximations are given, the bytes a file holds and the fuel are
    arbitrary. *)
Inductive reachable : GridTreeSet -> Prop :=
| reachable_of_grid theGrid enable :
    reachable (GridTreeSet_of_grid theGrid enable)
| reachable_at_height theGrid theHeight :
    reachable (GridTreeSet_at_height theGrid theHeight)
| reachable_adjoin_cell theCell S S' :
    reachable S -> adjoin_cell theCell S = Returns S' -> reachable S'
| reachable_adjoin_subset T S0 S S' :
    reachable S0 -> sub_paving T S0 -> reachable S ->
    adjoin_subset T S = Returns S' -> reachable S'
| reachable_remove_cell theCell S S' :
    reachable S -> remove_cell theCell S = Returns S' -> reachable S'
| reachable_remove_subset T S0 S S' :
    reachable S0 -> sub_paving T S0 -> reachable S ->
    remove_subset T S = Returns S' -> reachable S'
| reachable_restrict_subset T S0 S S' :
    reachable S0 -> sub_paving T S0 -> reachable S ->
    restrict_subset T S = Returns S' -> reachable S'
| reachable_restrict_to_height theHeight S :
    reachable S -> reachable (restrict_to_height theHeight S)
| reachable_mince theNewDepth S :
    reachable S -> reachable (mince_paving theNewDepth S)
| reachable_recombine S :
    reachable S -> reachable (recombine_paving S)
| reachable_outer_approximation (Cache : Type) box_disjoint fuel
    (theSet : CompactSetInterface Cache) numSubdivInDim S S' :
    reachable S ->
    adjoin_outer_approximation box_disjoint fuel theSet numSubdivInDim S = Returns S' ->
    reachable S'
| reachable_over_approximation (Cache : Type) box_disjoint
    (Box_as_set : Box -> CompactSetInterface Cache) fuel theBox numSubdivInDim S S' :
    reachable S ->
    adjoin_over_approximation box_disjoint Box_as_set fuel theBox numSubdivInDim S
      = Returns S' ->
    reachable S'
| reachable_lower_approximation_at_height fuel theSet height numSubdivInDim S S' :
    reachable S ->
    adjoin_lower_approximation_at_height fuel theSet height numSubdivInDim S = Returns S' ->
    reachable S'
| reachable_lower_approximation_in_box fuel theSet theBoundingBox numSubdivInDim S S' :
    reachable S ->
    adjoin_lower_approximation_in_box fuel theSet theBoundingBox numSubdivInDim S
      = Returns S' ->
    reachable S'
| reachable_lower_approximation fuel theSet numSubdivInDim S S' :
    reachable S ->
    adjoin_lower_approximation fuel theSet numSubdivInDim S = Returns S' ->
    reachable S'
| reachable_inner_approximation_at_height fuel theSet height numSubdivInDim S S' :
    reachable S ->
    adjoin_inner_approximation_at_height fuel theSet height numSubdivInDim S = Returns S' ->
    reachable S'
| reachable_inner_approximation fuel theSet theBoundingBox numSubdivInDim S S' :
    reachable S ->
    adjoin_inner_approximation fuel theSet theBoundingBox numSubdivInDim S = Returns S' ->
    reachable S'
| reachable_import fuel filename S fs S' fs' :
    reachable S -> import_from_file fuel filename S fs = FileReturns S' fs' -> reachable S'
| reachable_export_import fuel exported imported S fs fs0 S' fs' :
    reachable S ->
    import_from_file fuel imported (export_to_file exported S fs).1 fs0 = FileReturns S' fs' ->
    reachable S'
| reachable_join T1 S1 T2 S2 S' :
    reachable S1 -> sub_paving T1 S1 -> reachable S2 -> sub_paving T2 S2 ->
    join T1 T2 = Returns S' -> reachable S'
| reachable_intersection T1 S1 T2 S2 S' :
    reachable S1 -> sub_paving T1 S1 -> reachable S2 -> sub_paving T2 S2 ->
    intersection T1 T2 = Returns S' -> reachable S'
| reachable_difference T1 S1 T2 S2 S' :
    reachable S1 -> sub_paving T1 S1 -> reachable S2 -> sub_paving T2 S2 ->
    difference T1 T2 = Returns S' -> reachable S'.

(** ** Notions the statements use *)

(** The bytes [remove_to_file] writes for a tree. *)
Fixpoint tree_bytes (t : BinaryTreeNode) : stream :=
  match t with
  | Leaf e => [Byte.x00; if tribool_to_bool e then Byte.x01 else Byte.x00]
  | Branch _ l r => Byte.x01 :: tree_bytes l ++ tree_bytes r
  end.

(** The bits of a word that fall on axis [dim], the word starting at index
    [i]. *)
Fixpoint axis_bits (d dim i : nat) (w : BinaryWord) : list bool :=
  match w with
  | [] => []
  | b :: w => if i mod d =? dim then b :: axis_bits d dim (S i) w else axis_bits d dim (S i) w
  end.

(** The interval left of [I] after the halvings [bits]. *)
Definition halve_all (I : Interval) (bits : list bool) : Interval :=
  foldl (fun I b => half_interval b I) I bits.

(** No internal node is flagged enabled (the source: "a non-leaf node can
    not be enabled"). *)
Fixpoint internal_not_enabled (n : BinaryTreeNode) : bool :=
  match n with
  | Leaf _ => true
  | Branch e l r => negb (definitely e) && internal_not_enabled l && internal_not_enabled r
  end.

(** A point is covered by the subtree [n] of a node whose lattice box is
    [lb] and whose depth is [k]: it lies in the box of an enabled leaf. *)
Definition covered_from (g : Grid) (k : nat) (lb : Box) (n : BinaryTreeNode) (x : list Qc)
  : Prop :=
  exists p, p ∈ enabled_leaves n
            /\ box_contains (lattice_box_to_space (bisect_along (dimension g) k p lb) g) x.

(** [b] lies in [c], axis by axis. *)
Definition sub_box (b c : Box) : Prop :=
  Forall2 (fun I J => (lower J <= lower I)%Qc /\ (upper I <= upper J)%Qc) b c.

(** A box seen as a set that is compact and not open: its own bounding
    box, and [Box::disjoint] as its oracle. *)
Definition box_as_compact_set (b : Box) : CompactSetInterface unit :=
  mkCompactSet (length b) b (Box_disjoint b) None None.

(** ** Points of a tree, and the predicates on two trees *)

(** The point [s] lies in the cell of the path [w]: its first choices are
    those of [w]. *)
Fixpoint below (w : BinaryWord) (s : nat -> bool) : bool :=
  match w with
  | [] => true
  | b :: w => Bool.eqb (s 0) b && below w (fun i => s (S i))
  end.

(** The point [s] seen from the cell of a path of length [k]. *)
Definition after (k : nat) (s : nat -> bool) : nat -> bool := fun i => s (k + i).

(** The point of the cell of [w] that [s] is when seen from that cell. *)
Fixpoint through (w : BinaryWord) (s : nat -> bool) : nat -> bool :=
  match w with
  | [] => s
  | b :: w => fun i => match i with 0 => b | S i => through w s i end
  end.

(** [BinaryTreeNode::overlap(pRootNodeOne, pRootNodeTwo)]. *)
Fixpoint BinaryTreeNode_overlap (pRootNodeOne pRootNodeTwo : BinaryTreeNode) : bool :=
  match pRootNodeOne, pRootNodeTwo with
  | Leaf _, Leaf _ => is_enabled pRootNodeOne && is_enabled pRootNodeTwo
  | Branch _ _ _, Leaf _ => is_enabled pRootNodeTwo && has_enabled pRootNodeOne
  | Leaf _, Branch _ _ _ => is_enabled pRootNodeOne && has_enabled pRootNodeTwo
  | Branch _ l r, Branch _ l' r' =>
      BinaryTreeNode_overlap l l' || BinaryTreeNode_overlap r r'
  end.

(** [BinaryTreeNode::subset(pRootNodeOne, pRootNodeTwo)]. *)
Fixpoint BinaryTreeNode_subset (pRootNodeOne pRootNodeTwo : BinaryTreeNode) : bool :=
  match pRootNodeOne, pRootNodeTwo with
  | Leaf _, Leaf _ => negb (is_enabled pRootNodeOne) || is_enabled pRootNodeTwo
  | Branch _ _ _, Leaf _ => is_enabled pRootNodeTwo || negb (has_enabled pRootNodeOne)
  | Leaf _, Branch _ _ _ => negb (is_enabled pRootNodeOne) || all_enabled pRootNodeTwo
  | Branch _ l r, Branch _ l' r' =>
      BinaryTreeNode_subset l l' && BinaryTreeNode_subset r r'
  end.

(** [BinaryTreeNode::tree_to_binary_words(tree, leaves)]: the shape of the
    tree is appended to [tree] in pre-order, the enabledness of its leaves
    to [leaves]. *)
Fixpoint tree_to_binary_words (n : BinaryTreeNode) (tree leaves : BinaryWord)
  : BinaryWord * BinaryWord :=
  match n with
  | Leaf e => (tree ++ [false], leaves ++ [definitely e])
  | Branch _ l r =>
      let '(tree, leaves) := tree_to_binary_words l (tree ++ [true]) leaves in
      tree_to_binary_words r tree leaves
  end.

(** How [restore_node] ends: it returns the node and the two counters, it
    reads [theEnabledCells] out of range, or its fuel is spent. *)
Inductive restore_outcome : Type :=
| Restored (n : BinaryTreeNode) (arr_index leaf_counter : nat)
| RestoreOutOfRange
| RestoreRunning.

(** [BinaryTreeNode::restore_node(pCurrentNode, arr_index, leaf_counter,
    theTree, theEnabledCells)].  The counters are passed by reference; the
    index is incremented before each of the two recursive calls. *)
Fixpoint restore_node (fuel : nat) (pCurrentNode : BinaryTreeNode)
    (arr_index leaf_counter : nat) (theTree theEnabledCells : list bool) : restore_outcome :=
  match fuel with
  | 0 => RestoreRunning
  | S fuel =>
      match theTree !! arr_index with
      | Some true =>
          match split pCurrentNode with
          | Branch e l r =>
              match restore_node fuel l (S arr_index) leaf_counter theTree theEnabledCells with
              | Restored l arr_index leaf_counter =>
                  match restore_node fuel r (S arr_index) leaf_counter theTree
                          theEnabledCells with
                  | Restored r arr_index leaf_counter =>
                      Restored (Branch e l r) arr_index leaf_counter
                  | failure => failure
                  end
              | failure => failure
              end
          | Leaf e => Restored (Leaf e) arr_index leaf_counter
          end
      | Some false =>
          match theEnabledCells !! leaf_counter with
          | Some enabled =>
              Restored (set_flag (tribool_of_bool enabled) pCurrentNode) arr_index
                       (S leaf_counter)
          | None => RestoreOutOfRange
          end
      | None => Restored pCurrentNode arr_index leaf_counter
      end
  end.

(** ** Cells against cells and pavings *)

(** Modelled from the spec: the prefix test of [BinaryWord] (component C,
    [binary_word.h]).  The source uses [a.is_prefix(b)] for "[a] is a
    prefix of [b]" and [erase_prefix(n)] to drop the first [n] bits. *)
Fixpoint is_prefix (a b : BinaryWord) : bool :=
  match a, b with
  | [], _ => true
  | x :: a, y :: b => Bool.eqb x y && is_prefix a b
  | _ :: _, [] => false
  end.

Definition erase_prefix (n : nat) (w : BinaryWord) : BinaryWord := drop n w.

(** What a function guarded by [ARIADNE_ASSERT] gives: its value, or the
    failure of the assertion. *)
Inductive asserted (A : Type) : Type :=
| Passed (a : A)
| AssertionFails.

Arguments Passed {A} a.
Arguments AssertionFails {A}.

(** [subset(theCellOne, theCellTwo, pPathPrefixOne, pPathPrefixTwo,
    pPrimaryCellHeight)], called with two empty words to fill: the
    result, the two paths from the common primary cell, and its height. *)
Definition cell_subset (theCellOne theCellTwo : GridCell)
  : asserted (bool * BinaryWord * BinaryWord * nat) :=
  if negb (bool_decide (cell_grid theCellOne = cell_grid theCellTwo)) then AssertionFails
  else
    let dimensions := dimension (cell_grid theCellOne) in
    let '(primary_cell_height, pPathPrefixOne, pPathPrefixTwo) :=
      if cell_height theCellOne <? cell_height theCellTwo
      then (cell_height theCellTwo,
            primary_cell_path dimensions (cell_height theCellTwo) (cell_height theCellOne),
            [])
      else (cell_height theCellOne,
            [],
            if cell_height theCellTwo <? cell_height theCellOne
            then primary_cell_path dimensions (cell_height theCellOne) (cell_height theCellTwo)
            else [])
    in
    let pPathPrefixOne := pPathPrefixOne ++ cell_word theCellOne in
    let pPathPrefixTwo := pPathPrefixTwo ++ cell_word theCellTwo in
    Passed (is_prefix pPathPrefixTwo pPathPrefixOne, pPathPrefixOne, pPathPrefixTwo,
            primary_cell_height).

(** [subset(theCell, theSet)]. *)
Definition cell_subset_of_set (theCell : GridCell) (theSet : GridTreeSubset) : asserted bool :=
  if negb (bool_decide (cell_grid theCell = cell_grid (theGridCell theSet)))
  then AssertionFails
  else
    match cell_subset theCell (theGridCell theSet) with
    | Passed (true, pathPrefixCell, pathPrefixSet, _) =>
        let pathPrefixCell := drop (length pathPrefixSet) pathPrefixCell in
        Passed (is_enabled_path (pRootTreeNode theSet) pathPrefixCell)
    | Passed (false, _, _, _) => Passed false
    | AssertionFails => AssertionFails
    end.

(** [locate_node(pSuperTreeRootNode, pathFromSuperToSub)]: the node the
    path leads to, or the leaf met on the way. *)
Fixpoint locate_node (pSuperTreeRootNode : BinaryTreeNode) (pathFromSuperToSub : BinaryWord)
  : BinaryTreeNode :=
  match pathFromSuperToSub, pSuperTreeRootNode with
  | b :: path, Branch _ l r => locate_node (if b then r else l) path
  | _, _ => pSuperTreeRootNode
  end.

(** [overlap(theCell, theSet)]. *)
Definition cell_overlap_set (theCell : GridCell) (theSet : GridTreeSubset) : asserted bool :=
  if negb (bool_decide (cell_grid theCell = cell_grid (theGridCell theSet)))
  then AssertionFails
  else
    let dimensions := dimension (cell_grid theCell) in
    let theSetsPCellHeight := cell_height (theGridCell theSet) in
    let '(workHeight, workCellWord) :=
      if cell_height theCell <? theSetsPCellHeight
      then (theSetsPCellHeight,
            primary_cell_path dimensions theSetsPCellHeight (cell_height theCell)
            ++ cell_word theCell)
      else (cell_height theCell, cell_word theCell) in
    let pathFromPCellCellToSetsRootNode :=
      primary_cell_path dimensions workHeight theSetsPCellHeight
      ++ cell_word (theGridCell theSet) in
    if is_prefix workCellWord pathFromPCellCellToSetsRootNode
    then Passed (has_enabled (pRootTreeNode theSet))
    else if is_prefix pathFromPCellCellToSetsRootNode workCellWord
    then
      let pCurrentNode :=
        locate_node (pRootTreeNode theSet)
                    (drop (length pathFromPCellCellToSetsRootNode) workCellWord) in
      Passed (has_enabled pCurrentNode)
    else Passed false.

(** ** Pavings against pavings *)

(** [common_primary_cell_path(theSet1, theSet2, ...)]: the paths from the
    higher of the two primary cells to the two root cells. *)
Definition common_primary_cell_path (theSet1 theSet2 : GridTreeSubset)
  : BinaryWord * BinaryWord :=
  let rootCell1 := theGridCell theSet1 in
  let rootCell2 := theGridCell theSet2 in
  let heightPC1 := cell_height rootCell1 in
  let heightPC2 := cell_height rootCell2 in
  let dimensions := dimension (cell_grid rootCell1) in
  if heightPC1 <? heightPC2
  then (primary_cell_path dimensions heightPC2 heightPC1 ++ cell_word rootCell1,
        cell_word rootCell2)
  else (cell_word rootCell1,
        primary_cell_path dimensions heightPC1 heightPC2 ++ cell_word rootCell2).

(** The static [subset(pSubTreeRootNode, pSuperTreeRootNode,
    pathFromSuperToSub)]: is the tree hanging below the path a subset of
    the tree above. *)
Definition subset_sub_in_super (pSubTreeRootNode pSuperTreeRootNode : BinaryTreeNode)
    (pathFromSuperToSub : BinaryWord) : bool :=
  if has_enabled pSubTreeRootNode then
    if has_enabled pSuperTreeRootNode then
      let pCurrentSuperTreeNode := locate_node pSuperTreeRootNode pathFromSuperToSub in
      if is_leaf pCurrentSuperTreeNode then is_enabled pCurrentSuperTreeNode
      else BinaryTreeNode_subset pSubTreeRootNode pCurrentSuperTreeNode
    else false
  else true.

(** The loop of the static [subset(pSuperTreeRootNode, pathFromSuperToSub,
    pSubTreeRootNode)]: the node reached, what is left of the path, and
    [areExtraLeavesDisabled]. *)
Fixpoint walk_checking_siblings (pCurrentSuperTreeNode : BinaryTreeNode)
    (pathFromSuperToSub : BinaryWord) : BinaryTreeNode * BinaryWord * bool :=
  match pathFromSuperToSub, pCurrentSuperTreeNode with
  | b :: path, Branch _ l r =>
      let areExtraLeavesDisabled := negb (has_enabled (if b then l else r)) in
      if areExtraLeavesDisabled
      then walk_checking_siblings (if b then r else l) path
      else (if b then r else l, path, false)
  | _, _ => (pCurrentSuperTreeNode, pathFromSuperToSub, true)
  end.

(** The static [subset(pSuperTreeRootNode, pathFromSuperToSub,
    pSubTreeRootNode)]: is the tree above a subset of the tree hanging
    below the path. *)
Definition subset_super_in_sub (pSuperTreeRootNode : BinaryTreeNode)
    (pathFromSuperToSub : BinaryWord) (pSubTreeRootNode : BinaryTreeNode) : bool :=
  let '(pCurrentSuperTreeNode, rest, areExtraLeavesDisabled) :=
    walk_checking_siblings pSuperTreeRootNode pathFromSuperToSub in
  if areExtraLeavesDisabled then
    if is_leaf pCurrentSuperTreeNode then
      if is_enabled pCurrentSuperTreeNode then
        if 0 <? length rest then false
        else BinaryTreeNode_subset pCurrentSuperTreeNode pSubTreeRootNode
      else true
    else BinaryTreeNode_subset pCurrentSuperTreeNode pSubTreeRootNode
  else false.

(** [subset(theSet1, theSet2)] on pavings. *)
Definition GridTreeSubset_subset (theSet1 theSet2 : GridTreeSubset) : asserted bool :=
  if negb (bool_decide (cell_grid (theGridCell theSet1) = cell_grid (theGridCell theSet2)))
  then AssertionFails
  else
    let '(pathCommonPCtoRC1, pathCommonPCtoRC2) := common_primary_cell_path theSet1 theSet2 in
    if is_prefix pathCommonPCtoRC1 pathCommonPCtoRC2 then
      Passed (subset_super_in_sub (pRootTreeNode theSet1)
                (erase_prefix (length pathCommonPCtoRC1) pathCommonPCtoRC2)
                (pRootTreeNode theSet2))
    else if is_prefix pathCommonPCtoRC2 pathCommonPCtoRC1 then
      Passed (subset_sub_in_super (pRootTreeNode theSet1) (pRootTreeNode theSet2)
                (erase_prefix (length pathCommonPCtoRC2) pathCommonPCtoRC1))
    else Passed false.

(** [superset(theSet1, theSet2)]. *)
Definition GridTreeSubset_superset (theSet1 theSet2 : GridTreeSubset) : asserted bool :=
  GridTreeSubset_subset theSet2 theSet1.

(** The static [overlap(pSuperTreeRootNode, pathFromSuperToSub,
    pSubTreeRootNode)]. *)
Definition overlap_super_sub (pSuperTreeRootNode : BinaryTreeNode)
    (pathFromSuperToSub : BinaryWord) (pSubTreeRootNode : BinaryTreeNode) : bool :=
  if has_enabled pSuperTreeRootNode && has_enabled pSubTreeRootNode then
    let pCurrentSuperTreeNode := locate_node pSuperTreeRootNode pathFromSuperToSub in
    if is_leaf pCurrentSuperTreeNode then is_enabled pCurrentSuperTreeNode
    else BinaryTreeNode_overlap pCurrentSuperTreeNode pSubTreeRootNode
  else false.

(** [overlap(theSet1, theSet2)] on pavings. *)
Definition GridTreeSubset_overlap (theSet1 theSet2 : GridTreeSubset) : asserted bool :=
  if negb (bool_decide (cell_grid (theGridCell theSet1) = cell_grid (theGridCell theSet2)))
  then AssertionFails
  else
    let '(pathCommonPCtoRC1, pathCommonPCtoRC2) := common_primary_cell_path theSet1 theSet2 in
    if is_prefix pathCommonPCtoRC1 pathCommonPCtoRC2 then
      Passed (overlap_super_sub (pRootTreeNode theSet1)
                (erase_prefix (length pathCommonPCtoRC1) pathCommonPCtoRC2)
                (pRootTreeNode theSet2))
    else if is_prefix pathCommonPCtoRC2 pathCommonPCtoRC1 then
      Passed (overlap_super_sub (pRootTreeNode theSet2)
                (erase_prefix (length pathCommonPCtoRC2) pathCommonPCtoRC1)
                (pRootTreeNode theSet1))
    else Passed false.

(** [disjoint(theSet1, theSet2)]. *)
Definition GridTreeSubset_disjoint (theSet1 theSet2 : GridTreeSubset) : asserted bool :=
  match GridTreeSubset_overlap theSet1 theSet2 with
  | Passed b => Passed (negb b)
  | AssertionFails => AssertionFails
  end.

(** ** Points of a paving *)

(** The path from the primary cell of height [H] to the cell. *)
Definition path_from (H : nat) (c : GridCell) : BinaryWord :=
  primary_cell_path (dimension (cell_grid c)) H (cell_height c) ++ cell_word c.

(** A point, given as the sequence of its bisection choices from the
    primary cell of height [H] on, lies in the cell. *)
Definition in_cell (H : nat) (c : GridCell) (s : nat -> bool) : bool :=
  below (path_from H c) s.

(** The point lies in the paving: in its root cell and, seen from there, in
    an enabled leaf of its tree. *)
Definition in_paving (H : nat) (S : GridTreeSubset) (s : nat -> bool) : bool :=
  in_cell H (theGridCell S) s
  && contains (pRootTreeNode S) (after (length (path_from H (theGridCell S))) s).

(** ** The iterator over the enabled leaves *)

(** Modelled from the spec: the cursor of the iterator is a mutable path
    through the tree, supporting [move_left], [move_right], [move_up] and
    [is_root] ([GridTreeCursor] of [grid_set.h]).  It is given by the moves
    made from the root, the last one first; the node it points at is the
    node of the tree at the end of that path. *)
Definition GridTreeCursor : Type := list bool.

Definition cursor_is_root (c : GridTreeCursor) : bool :=
  match c with [] => true | _ :: _ => false end.

Definition cursor_is_left_child (c : GridTreeCursor) : bool :=
  match c with false :: _ => true | _ => false end.

Definition cursor_is_right_child (c : GridTreeCursor) : bool :=
  match c with true :: _ => true | _ => false end.

Definition move_left (c : GridTreeCursor) : GridTreeCursor := false :: c.
Definition move_right (c : GridTreeCursor) : GridTreeCursor := true :: c.
Definition move_up (c : GridTreeCursor) : GridTreeCursor := tail c.

(** The word of the node under the cursor. *)
Definition cursor_word (c : GridTreeCursor) : BinaryWord := rev c.

(** [GridTreeConstIterator::navigate_to(firstLast)], the cursor standing on
    the node [n]: whether an enabled leaf was found, and the cursor
    afterwards. *)
Fixpoint navigate_to (firstLast : bool) (n : BinaryTreeNode) (c : GridTreeCursor)
  : bool * GridTreeCursor :=
  let '(isEnabledLeafFound, c) :=
    match n with
    | Leaf _ => (is_enabled n, c)
    | Branch _ l r =>
        let '(isEnabledLeafFound, c) :=
          navigate_to firstLast (if firstLast then l else r)
                      (if firstLast then move_left c else move_right c) in
        if isEnabledLeafFound then (true, c)
        else
          navigate_to firstLast (if firstLast then r else l)
                      (if firstLast then move_right c else move_left c)
    end in
  if negb isEnabledLeafFound && negb (cursor_is_root c)
  then (isEnabledLeafFound, move_up c)
  else (isEnabledLeafFound, c).

(** What a step of the iterator gives: the cursor and [_is_in_end_state]
    afterwards; no result where the cursor is not a path of the tree; the
    fuel spent. *)
Inductive cursor_outcome : Type :=
  | CursorAt (c : GridTreeCursor) (is_in_end_state : bool)
  | CursorUndefined
  | CursorRunning.

(** [GridTreeConstIterator::find_next_enabled_leaf] on the tree of root
    [root]. *)
Fixpoint find_next_enabled_leaf (fuel : nat) (root : BinaryTreeNode) (c : GridTreeCursor)
    (is_in_end_state : bool) : cursor_outcome :=
  match fuel with
  | 0 => CursorRunning
  | S fuel =>
      if cursor_is_left_child c then
        let c := move_right (move_up c) in
        match node_at root (cursor_word c) with
        | None => CursorUndefined
        | Some n =>
            let '(isEnabledLeafFound, c) := navigate_to true n c in
            if negb isEnabledLeafFound
            then find_next_enabled_leaf fuel root c is_in_end_state
            else CursorAt c is_in_end_state
        end
      else if cursor_is_right_child c then
        find_next_enabled_leaf fuel root (move_up c) is_in_end_state
      else CursorAt c true
  end.
(** ** Comparing cells *)

(** Modelled from the spec: the lexicographic comparison of [BinaryWord]
    (component C, [binary_word.h]). *)
Fixpoint BinaryWord_less (a b : BinaryWord) : bool :=
  match a, b with
  | _, [] => false
  | [], _ :: _ => true
  | x :: a, y :: b => if Bool.eqb x y then BinaryWord_less a b else negb x && y
  end.

(** The [comparator] argument of [compare_abstract_grid_cells]: one of the
    two constants, or any other number. *)
Inductive comparator : Type := COMPARE_EQUAL | COMPARE_LESS | COMPARE_OTHER.

Inductive compared : Type :=
  | Compared (result : bool)
  | ComparedAssertionFails
  | ComparedInvalidInput.

(** [GridAbstractCell::compare_abstract_grid_cells]. *)
Definition compare_abstract_grid_cells (pCellLeft cellRight : GridCell)
    (theComparator : comparator) : compared :=
  if negb (bool_decide (cell_grid pCellLeft = cell_grid cellRight))
  then ComparedAssertionFails
  else
    let dimensions := dimension (cell_grid pCellLeft) in
    let '(pThisWord, pOtherWord) :=
      if cell_height pCellLeft =? cell_height cellRight
      then (cell_word pCellLeft, cell_word cellRight)
      else if cell_height cellRight <? cell_height pCellLeft
      then (cell_word pCellLeft,
            primary_cell_path dimensions (cell_height pCellLeft) (cell_height cellRight)
              ++ cell_word cellRight)
      else (primary_cell_path dimensions (cell_height cellRight) (cell_height pCellLeft)
              ++ cell_word pCellLeft,
            cell_word cellRight) in
    match theComparator with
    | COMPARE_EQUAL => Compared (bool_decide (pThisWord = pOtherWord))
    | COMPARE_LESS => Compared (BinaryWord_less pThisWord pOtherWord)
    | COMPARE_OTHER => ComparedInvalidInput
    end.

(** [GridCell::split(isRight)]. *)
Definition GridCell_split (c : GridCell) (isRight : bool) : GridCell :=
  mkGridCell (cell_grid c) (cell_height c) (cell_word c ++ [isRight]).

(** ** Restricting and removing by an oracle *)

(** A set checker behind [SetCheckerInterface]: [check(Box)]. *)
Record SetCheckerInterface : Type := mkSetChecker { check : Box -> tribool }.

(** Modelled from the spec: [size()] counts the enabled leaves, [empty()]
    says there is none, and [depth()] is the depth of the tree
    ([grid_set.h]). *)
Definition GridTreeSubset_empty (S : GridTreeSubset) : bool :=
  count_enabled_leaf_nodes (pRootTreeNode S) =? 0.

Definition GridTreeSubset_depth (S : GridTreeSubset) : nat := depth (pRootTreeNode S).

(** [GridTreeSet::_outer_restrict] for a [SetCheckerInterface].  The recursion
    descends only while [pPath->size()] is below [max_mince_depth]; [fuel]
    bounds it. *)
Fixpoint _outer_restrict (fuel : nat) (theGrid : Grid) (pBinaryTreeNode : BinaryTreeNode)
    (primary_cell_height max_mince_depth : nat) (checker : SetCheckerInterface)
    (pPath : BinaryWord) : option (BinaryTreeNode * BinaryWord) :=
  match fuel with
  | 0 => None
  | S fuel =>
      let theCurrentCell := mkGridCell theGrid primary_cell_height pPath in
      let test := check checker (cell_box theCurrentCell) in
      let after :=
        if definitely test then Some (pBinaryTreeNode, pPath)
        else if negb (possibly test)
        then Some (make_leaf TFalse pBinaryTreeNode, pPath)
        else if length pPath <? max_mince_depth then
          match split pBinaryTreeNode with
          | Branch e l r =>
              match _outer_restrict fuel theGrid l primary_cell_height max_mince_depth checker
                      (pPath ++ [false]) with
              | None => None
              | Some (l, pPath) =>
                  match _outer_restrict fuel theGrid r primary_cell_height max_mince_depth checker
                          (pPath ++ [true]) with
                  | None => None
                  | Some (r, pPath) =>
                      if is_enabled l && is_enabled r
                      then Some (make_leaf TTrue (Branch e l r), pPath)
                      else Some (Branch e l r, pPath)
                  end
              end
          | Leaf e => Some (Leaf e, pPath)
          end
        else Some (pBinaryTreeNode, pPath)
      in
      match after with
      | None => None
      | Some (n, pPath) => Some (n, pop_back_if_any pPath)
      end
  end.

(** [GridTreeSet::_outer_restrict] for an [OpenSetInterface]. *)
Fixpoint _outer_restrict_open (fuel : nat) (theGrid : Grid) (pBinaryTreeNode : BinaryTreeNode)
    (primary_cell_height max_mince_depth : nat) (set : OpenSetInterface)
    (pPath : BinaryWord) : option (BinaryTreeNode * BinaryWord) :=
  match fuel with
  | 0 => None
  | S fuel =>
      let theCurrentCell := mkGridCell theGrid primary_cell_height pPath in
      let after :=
        if definitely (open_covers set (cell_box theCurrentCell)) then Some (pBinaryTreeNode, pPath)
        else if negb (possibly (open_overlaps set (cell_box theCurrentCell)))
        then Some (make_leaf TFalse pBinaryTreeNode, pPath)
        else if length pPath <? max_mince_depth then
          match split pBinaryTreeNode with
          | Branch e l r =>
              match _outer_restrict_open fuel theGrid l primary_cell_height max_mince_depth set
                      (pPath ++ [false]) with
              | None => None
              | Some (l, pPath) =>
                  match _outer_restrict_open fuel theGrid r primary_cell_height max_mince_depth set
                          (pPath ++ [true]) with
                  | None => None
                  | Some (r, pPath) =>
                      if is_enabled l && is_enabled r
                      then Some (make_leaf TTrue (Branch e l r), pPath)
                      else Some (Branch e l r, pPath)
                  end
              end
          | Leaf e => Some (Leaf e, pPath)
          end
        else Some (pBinaryTreeNode, pPath)
      in
      match after with
      | None => None
      | Some (n, pPath) => Some (n, pop_back_if_any pPath)
      end
  end.

(** [GridTreeSet::_inner_restrict] for a [SetCheckerInterface]. *)
Fixpoint _inner_restrict (fuel : nat) (theGrid : Grid) (pBinaryTreeNode : BinaryTreeNode)
    (primary_cell_height max_mince_depth : nat) (checker : SetCheckerInterface)
    (pPath : BinaryWord) : option (BinaryTreeNode * BinaryWord) :=
  match fuel with
  | 0 => None
  | S fuel =>
      let theCurrentCell := mkGridCell theGrid primary_cell_height pPath in
      let test := check checker (cell_box theCurrentCell) in
      let after :=
        if definitely test then Some (pBinaryTreeNode, pPath)
        else if negb (possibly test)
        then Some (make_leaf TFalse pBinaryTreeNode, pPath)
        else if length pPath <? max_mince_depth then
          match split pBinaryTreeNode with
          | Branch e l r =>
              match _inner_restrict fuel theGrid l primary_cell_height max_mince_depth checker
                      (pPath ++ [false]) with
              | None => None
              | Some (l, pPath) =>
                  match _inner_restrict fuel theGrid r primary_cell_height max_mince_depth checker
                          (pPath ++ [true]) with
                  | None => None
                  | Some (r, pPath) =>
                      if is_enabled l && is_enabled r
                      then Some (make_leaf TTrue (Branch e l r), pPath)
                      else Some (Branch e l r, pPath)
                  end
              end
          | Leaf e => Some (Leaf e, pPath)
          end
        else if negb (is_leaf pBinaryTreeNode)
        then Some (make_leaf TFalse pBinaryTreeNode, pPath)
        else Some (set_disabled pBinaryTreeNode, pPath)
      in
      match after with
      | None => None
      | Some (n, pPath) => Some (n, pop_back_if_any pPath)
      end
  end.

(** [GridTreeSet::_inner_restrict] for an [OpenSetInterface]. *)
Fixpoint _inner_restrict_open (fuel : nat) (theGrid : Grid) (pBinaryTreeNode : BinaryTreeNode)
    (primary_cell_height max_mince_depth : nat) (set : OpenSetInterface)
    (pPath : BinaryWord) : option (BinaryTreeNode * BinaryWord) :=
  match fuel with
  | 0 => None
  | S fuel =>
      let theCurrentCell := mkGridCell theGrid primary_cell_height pPath in
      let after :=
        if definitely (open_covers set (cell_box theCurrentCell)) then Some (pBinaryTreeNode, pPath)
        else if negb (possibly (open_overlaps set (cell_box theCurrentCell)))
        then Some (make_leaf TFalse pBinaryTreeNode, pPath)
        else if length pPath <? max_mince_depth then
          match split pBinaryTreeNode with
          | Branch e l r =>
              match _inner_restrict_open fuel theGrid l primary_cell_height max_mince_depth set
                      (pPath ++ [false]) with
              | None => None
              | Some (l, pPath) =>
                  match _inner_restrict_open fuel theGrid r primary_cell_height max_mince_depth set
                          (pPath ++ [true]) with
                  | None => None
                  | Some (r, pPath) =>
                      if is_enabled l && is_enabled r
                      then Some (make_leaf TTrue (Branch e l r), pPath)
                      else Some (Branch e l r, pPath)
                  end
              end
          | Leaf e => Some (Leaf e, pPath)
          end
        else if negb (is_leaf pBinaryTreeNode)
        then Some (make_leaf TFalse pBinaryTreeNode, pPath)
        else Some (set_disabled pBinaryTreeNode, pPath)
      in
      match after with
      | None => None
      | Some (n, pPath) => Some (n, pop_back_if_any pPath)
      end
  end.

(** [GridTreeSet::outer_restrict(set)]. *)
Definition outer_restrict_open (fuel : nat) (set : OpenSetInterface) (S : GridTreeSet) : outcome :=
  let theGrid := cell_grid (theGridCell S) in
  if dimension theGrid =? 0 then Throws AssertionFailure S
  else if negb (open_dimension set =? dimension theGrid) then Throws AssertionFailure S
  else if negb (GridTreeSubset_empty S) then
      let height := cell_height (theGridCell S) in
      let pEmptyPath : BinaryWord := [] in
      match _outer_restrict_open fuel theGrid (pRootTreeNode S) height (GridTreeSubset_depth S) set
              pEmptyPath with
      | None => Running
      | Some (n, _) => Returns (mkGridTreeSubset (theGridCell S) n)
      end
  else Returns S.

(** [GridTreeSet::inner_restrict(set)]. *)
Definition inner_restrict_open (fuel : nat) (set : OpenSetInterface) (S : GridTreeSet) : outcome :=
  let theGrid := cell_grid (theGridCell S) in
  if dimension theGrid =? 0 then Throws AssertionFailure S
  else if negb (open_dimension set =? dimension theGrid) then Throws AssertionFailure S
  else if negb (GridTreeSubset_empty S) then
      let height := cell_height (theGridCell S) in
      let pEmptyPath : BinaryWord := [] in
      match _inner_restrict_open fuel theGrid (pRootTreeNode S) height (GridTreeSubset_depth S) set
              pEmptyPath with
      | None => Running
      | Some (n, _) => Returns (mkGridTreeSubset (theGridCell S) n)
      end
  else Returns S.

(** [GridTreeSet::outer_restrict(checker, accuracy)]. *)
Definition outer_restrict (fuel : nat) (checker : SetCheckerInterface) (accuracy : nat) (S : GridTreeSet) : outcome :=
  let theGrid := cell_grid (theGridCell S) in
  if dimension theGrid =? 0 then Throws AssertionFailure S
  else if negb (GridTreeSubset_empty S) then
      let height := cell_height (theGridCell S) in
      let max_mince_depth :=
        zero_cell_subdivisions_to_tree_subdivisions (dimension theGrid) accuracy height in
      let pEmptyPath : BinaryWord := [] in
      match _outer_restrict fuel theGrid (pRootTreeNode S) height max_mince_depth checker
              pEmptyPath with
      | None => Running
      | Some (n, _) => Returns (mkGridTreeSubset (theGridCell S) n)
      end
  else Returns S.

(** [GridTreeSet::inner_restrict(checker, accuracy)]. *)
Definition inner_restrict (fuel : nat) (checker : SetCheckerInterface) (accuracy : nat) (S : GridTreeSet) : outcome :=
  let theGrid := cell_grid (theGridCell S) in
  if dimension theGrid =? 0 then Throws AssertionFailure S
  else if negb (GridTreeSubset_empty S) then
      let height := cell_height (theGridCell S) in
      let max_mince_depth :=
        zero_cell_subdivisions_to_tree_subdivisions (dimension theGrid) accuracy height in
      let pEmptyPath : BinaryWord := [] in
      match _inner_restrict fuel theGrid (pRootTreeNode S) height max_mince_depth checker
              pEmptyPath with
      | None => Running
      | Some (n, _) => Returns (mkGridTreeSubset (theGridCell S) n)
      end
  else Returns S.

(** [GridTreeSet::_outer_remove] for a [SetCheckerInterface]. *)
Fixpoint _outer_remove (fuel : nat) (theGrid : Grid) (pBinaryTreeNode : BinaryTreeNode)
    (primary_cell_height max_mince_depth : nat) (checker : SetCheckerInterface)
    (pPath : BinaryWord) : option (BinaryTreeNode * BinaryWord) :=
  match fuel with
  | 0 => None
  | S fuel =>
      let theCurrentCell := mkGridCell theGrid primary_cell_height pPath in
      let test := check checker (cell_box theCurrentCell) in
      let after :=
        if negb (possibly test) then Some (pBinaryTreeNode, pPath)
        else if definitely test
        then Some (make_leaf TFalse pBinaryTreeNode, pPath)
        else if length pPath <? max_mince_depth then
          match split pBinaryTreeNode with
          | Branch e l r =>
              match _outer_remove fuel theGrid l primary_cell_height max_mince_depth checker
                      (pPath ++ [false]) with
              | None => None
              | Some (l, pPath) =>
                  match _outer_remove fuel theGrid r primary_cell_height max_mince_depth checker
                          (pPath ++ [true]) with
                  | None => None
                  | Some (r, pPath) =>
                      if is_enabled l && is_enabled r
                      then Some (make_leaf TTrue (Branch e l r), pPath)
                      else Some (Branch e l r, pPath)
                  end
              end
          | Leaf e => Some (Leaf e, pPath)
          end
        else if negb (is_leaf pBinaryTreeNode)
        then Some (make_leaf TFalse pBinaryTreeNode, pPath)
        else Some (set_disabled pBinaryTreeNode, pPath)
      in
      match after with
      | None => None
      | Some (n, pPath) => Some (n, pop_back_if_any pPath)
      end
  end.

(** [GridTreeSet::_outer_remove] for an [OpenSetInterface]. *)
Fixpoint _outer_remove_open (fuel : nat) (theGrid : Grid) (pBinaryTreeNode : BinaryTreeNode)
    (primary_cell_height max_mince_depth : nat) (set : OpenSetInterface)
    (pPath : BinaryWord) : option (BinaryTreeNode * BinaryWord) :=
  match fuel with
  | 0 => None
  | S fuel =>
      let theCurrentCell := mkGridCell theGrid primary_cell_height pPath in
      let after :=
        if negb (possibly (open_overlaps set (cell_box theCurrentCell))) then Some (pBinaryTreeNode, pPath)
        else if definitely (open_covers set (cell_box theCurrentCell))
        then Some (make_leaf TFalse pBinaryTreeNode, pPath)
        else if length pPath <? max_mince_depth then
          match split pBinaryTreeNode with
          | Branch e l r =>
              match _outer_remove_open fuel theGrid l primary_cell_height max_mince_depth set
                      (pPath ++ [false]) with
              | None => None
              | Some (l, pPath) =>
                  match _outer_remove_open fuel theGrid r primary_cell_height max_mince_depth set
                          (pPath ++ [true]) with
                  | None => None
                  | Some (r, pPath) =>
                      if is_enabled l && is_enabled r
                      then Some (make_leaf TTrue (Branch e l r), pPath)
                      else Some (Branch e l r, pPath)
                  end
              end
          | Leaf e => Some (Leaf e, pPath)
          end
        else if negb (is_leaf pBinaryTreeNode)
        then Some (make_leaf TFalse pBinaryTreeNode, pPath)
        else Some (set_disabled pBinaryTreeNode, pPath)
      in
      match after with
      | None => None
      | Some (n, pPath) => Some (n, pop_back_if_any pPath)
      end
  end.

(** [GridTreeSet::_inner_remove] for a [SetCheckerInterface]. *)
Fixpoint _inner_remove (fuel : nat) (theGrid : Grid) (pBinaryTreeNode : BinaryTreeNode)
    (primary_cell_height max_mince_depth : nat) (checker : SetCheckerInterface)
    (pPath : BinaryWord) : option (BinaryTreeNode * BinaryWord) :=
  match fuel with
  | 0 => None
  | S fuel =>
      let theCurrentCell := mkGridCell theGrid primary_cell_height pPath in
      let test := check checker (cell_box theCurrentCell) in
      let after :=
        if negb (possibly test) then Some (pBinaryTreeNode, pPath)
        else if definitely test
        then Some (make_leaf TFalse pBinaryTreeNode, pPath)
        else if length pPath <? max_mince_depth then
          match split pBinaryTreeNode with
          | Branch e l r =>
              match _inner_remove fuel theGrid l primary_cell_height max_mince_depth checker
                      (pPath ++ [false]) with
              | None => None
              | Some (l, pPath) =>
                  match _inner_remove fuel theGrid r primary_cell_height max_mince_depth checker
                          (pPath ++ [true]) with
                  | None => None
                  | Some (r, pPath) =>
                      if is_enabled l && is_enabled r
                      then Some (make_leaf TTrue (Branch e l r), pPath)
                      else Some (Branch e l r, pPath)
                  end
              end
          | Leaf e => Some (Leaf e, pPath)
          end
        else Some (pBinaryTreeNode, pPath)
      in
      match after with
      | None => None
      | Some (n, pPath) => Some (n, pop_back_if_any pPath)
      end
  end.

(** [GridTreeSet::_inner_remove] for an [OpenSetInterface]. *)
Fixpoint _inner_remove_open (fuel : nat) (theGrid : Grid) (pBinaryTreeNode : BinaryTreeNode)
    (primary_cell_height max_mince_depth : nat) (set : OpenSetInterface)
    (pPath : BinaryWord) : option (BinaryTreeNode * BinaryWord) :=
  match fuel with
  | 0 => None
  | S fuel =>
      let theCurrentCell := mkGridCell theGrid primary_cell_height pPath in
      let after :=
        if negb (possibly (open_overlaps set (cell_box theCurrentCell))) then Some (pBinaryTreeNode, pPath)
        else if definitely (open_covers set (cell_box theCurrentCell))
        then Some (make_leaf TFalse pBinaryTreeNode, pPath)
        else if length pPath <? max_mince_depth then
          match split pBinaryTreeNode with
          | Branch e l r =>
              match _inner_remove_open fuel theGrid l primary_cell_height max_mince_depth set
                      (pPath ++ [false]) with
              | None => None
              | Some (l, pPath) =>
                  match _inner_remove_open fuel theGrid r primary_cell_height max_mince_depth set
                          (pPath ++ [true]) with
                  | None => None
                  | Some (r, pPath) =>
                      if is_enabled l && is_enabled r
                      then Some (make_leaf TTrue (Branch e l r), pPath)
                      else Some (Branch e l r, pPath)
                  end
              end
          | Leaf e => Some (Leaf e, pPath)
          end
        else Some (pBinaryTreeNode, pPath)
      in
      match after with
      | None => None
      | Some (n, pPath) => Some (n, pop_back_if_any pPath)
      end
  end.

(** [GridTreeSet::outer_remove(set)]. *)
Definition outer_remove_open (fuel : nat) (set : OpenSetInterface) (S : GridTreeSet) : outcome :=
  let theGrid := cell_grid (theGridCell S) in
  if dimension theGrid =? 0 then Throws AssertionFailure S
  else if negb (open_dimension set =? dimension theGrid) then Throws AssertionFailure S
  else if negb (GridTreeSubset_empty S) then
      let height := cell_height (theGridCell S) in
      let pEmptyPath : BinaryWord := [] in
      match _outer_remove_open fuel theGrid (pRootTreeNode S) height (GridTreeSubset_depth S) set
              pEmptyPath with
      | None => Running
      | Some (n, _) => Returns (mkGridTreeSubset (theGridCell S) n)
      end
  else Returns S.

(** [GridTreeSet::inner_remove(set)]. *)
Definition inner_remove_open (fuel : nat) (set : OpenSetInterface) (S : GridTreeSet) : outcome :=
  let theGrid := cell_grid (theGridCell S) in
  if dimension theGrid =? 0 then Throws AssertionFailure S
  else if negb (open_dimension set =? dimension theGrid) then Throws AssertionFailure S
  else if negb (GridTreeSubset_empty S) then
      let height := cell_height (theGridCell S) in
      let pEmptyPath : BinaryWord := [] in
      match _inner_remove_open fuel theGrid (pRootTreeNode S) height (GridTreeSubset_depth S) set
              pEmptyPath with
      | None => Running
      | Some (n, _) => Returns (mkGridTreeSubset (theGridCell S) n)
      end
  else Returns S.

(** [GridTreeSet::outer_remove(checker, accuracy)]. *)
Definition outer_remove (fuel : nat) (checker : SetCheckerInterface) (accuracy : nat) (S : GridTreeSet) : outcome :=
  let theGrid := cell_grid (theGridCell S) in
  if dimension theGrid =? 0 then Throws AssertionFailure S
  else if negb (GridTreeSubset_empty S) then
      let height := cell_height (theGridCell S) in
      let max_mince_depth :=
        zero_cell_subdivisions_to_tree_subdivisions (dimension theGrid) accuracy height in
      let pEmptyPath : BinaryWord := [] in
      match _outer_remove fuel theGrid (pRootTreeNode S) height max_mince_depth checker
              pEmptyPath with
      | None => Running
      | Some (n, _) => Returns (mkGridTreeSubset (theGridCell S) n)
      end
  else Returns S.

(** [GridTreeSet::inner_remove(checker, accuracy)]. *)
Definition inner_remove (fuel : nat) (checker : SetCheckerInterface) (accuracy : nat) (S : GridTreeSet) : outcome :=
  let theGrid := cell_grid (theGridCell S) in
  if dimension theGrid =? 0 then Throws AssertionFailure S
  else if negb (GridTreeSubset_empty S) then
      let height := cell_height (theGridCell S) in
      let max_mince_depth :=
        zero_cell_subdivisions_to_tree_subdivisions (dimension theGrid) accuracy height in
      let pEmptyPath : BinaryWord := [] in
      match _inner_remove fuel theGrid (pRootTreeNode S) height max_mince_depth checker
              pEmptyPath with
      | None => Running
      | Some (n, _) => Returns (mkGridTreeSubset (theGridCell S) n)
      end
  else Returns S.

(** The oracle of the complement of a checked property, and of the
    complement of an open set as far as [covers] and [overlaps] tell: a box
    is covered when the set does not overlap it, overlapped when the set
    does not cover it. *)
Definition negated (checker : SetCheckerInterface) : SetCheckerInterface :=
  mkSetChecker (fun b => tribool_not (check checker b)).

Definition complement (set : OpenSetInterface) : OpenSetInterface :=
  mkOpenSet (open_dimension set)
            (fun b => tribool_not (open_overlaps set b))
            (fun b => tribool_not (open_covers set b)).

(** The walk the eight descents share: a cell that [keeps] holds of stays
    as it is, a cell that [drops] holds of is disabled, any other cell is
    split until the greatest depth, where it stays or, with
    [disable_at_depth], is disabled. *)
Fixpoint checked_descent (fuel : nat) (keeps drops : Box -> bool) (disable_at_depth : bool)
    (theGrid : Grid) (n : BinaryTreeNode) (h max : nat) (pPath : BinaryWord)
  : option (BinaryTreeNode * BinaryWord) :=
  match fuel with
  | 0 => None
  | S fuel =>
      let box := cell_box (mkGridCell theGrid h pPath) in
      let after :=
        if keeps box then Some (n, pPath)
        else if drops box then Some (Leaf TFalse, pPath)
        else if length pPath <? max then
          match split n with
          | Branch e l r =>
              match checked_descent fuel keeps drops disable_at_depth theGrid l h max
                      (pPath ++ [false]) with
              | None => None
              | Some (l, pPath) =>
                  match checked_descent fuel keeps drops disable_at_depth theGrid r h max
                          (pPath ++ [true]) with
                  | None => None
                  | Some (r, pPath) =>
                      if is_enabled l && is_enabled r
                      then Some (Leaf TTrue, pPath)
                      else Some (Branch e l r, pPath)
                  end
              end
          | Leaf e => Some (Leaf e, pPath)
          end
        else if disable_at_depth then Some (Leaf TFalse, pPath)
        else Some (n, pPath)
      in
      match after with
      | None => None
      | Some (n, pPath) => Some (n, pop_back_if_any pPath)
      end
  end.

(** The frame the eight public members share, once the assertions have
    passed: nothing is done to an empty paving, any other is walked from
    its root. *)
Definition walk_paving (fuel : nat) (keeps drops : Box -> bool) (disable_at_depth : bool)
    (max : nat) (S : GridTreeSet) : outcome :=
  if negb (GridTreeSubset_empty S) then
    match checked_descent fuel keeps drops disable_at_depth (cell_grid (theGridCell S))
            (pRootTreeNode S) (cell_height (theGridCell S)) max [] with
    | None => Running
    | Some (n, _) => Returns (mkGridTreeSubset (theGridCell S) n)
    end
  else Returns S.

(* ================================================================== *)
(** * Part II.  Properties *)
(* ================================================================== *)

(** ** Three-valued logic *)

Lemma definitely_and (a b : tribool) :
  definitely (tribool_and a b) = definitely a && definitely b.
Proof. by destruct a, b. Qed.

Lemma definitely_of_bool (b : bool) : definitely (tribool_of_bool b) = b.
Proof. by destruct b. Qed.

Lemma tribool_equal_determinate (a : tribool) :
  indeterminate a = false -> tribool_to_bool (tribool_equal a a) = true.
Proof. by destruct a. Qed.

(** ** Trees *)

Lemma node_equal_refl (t : BinaryTreeNode) : node_equal t t = true.
Proof.
  induction t as [e|e l IHl r IHr]; simpl.
  - by destruct e.
  - rewrite IHl, IHr. by destruct e.
Qed.

Lemma all_enabled_contains (t : BinaryTreeNode) (s : nat -> bool) :
  all_enabled t = true -> contains t s = true.
Proof.
  revert s. induction t as [e|e l IHl r IHr]; intros s; simpl; [done|].
  intros [Hl Hr]%andb_true_iff. destruct (s 0); auto.
Qed.

(** *** [restrict] *)

Lemma restrict_contains (A B : BinaryTreeNode) (s : nat -> bool) :
  contains (restrict A B) s = contains A s && contains B s.
Proof.
  revert B s. induction A as [a|e l IHl r IHr]; intros [b|e' l' r'] s.
  - by destruct a, b.
  - by destruct a.
  - destruct b; cbn; by rewrite ?andb_true_r, ?andb_false_r.
  - cbn. destruct (s 0); [apply IHr | apply IHl].
Qed.

Lemma restrict_all_enabled (A B : BinaryTreeNode) :
  all_enabled (restrict A B) = all_enabled A && all_enabled B.
Proof.
  revert B. induction A as [a|e l IHl r IHr]; intros [b|e' l' r'].
  - by destruct a, b.
  - by destruct a.
  - destruct b; cbn; by rewrite ?andb_true_r, ?andb_false_r.
  - cbn. rewrite IHl, IHr.
    destruct (all_enabled l), (all_enabled r), (all_enabled l'); done.
Qed.

Lemma restrict_is_enabled_path (A B : BinaryTreeNode) (w : BinaryWord) :
  is_enabled_path (restrict A B) w = is_enabled_path A w && is_enabled_path B w.
Proof.
  revert B w. induction A as [a|e l IHl r IHr]; intros [b|e' l' r'] w.
  - by destruct a, b.
  - by destruct a.
  - destruct b; cbn [restrict is_enabled isEnabled_of definitely make_leaf].
    + by rewrite andb_true_r.
    + cbn. by rewrite andb_false_r.
    + cbn. by rewrite andb_false_r.
  - destruct w as [|[] w]; cbn [restrict is_enabled_path].
    + apply (restrict_all_enabled (Branch e l r) (Branch e' l' r')).
    + apply IHr.
    + apply IHl.
Qed.

(** C2.  For aligned trees [A] and [B], [restrict A B] denotes the
    intersection of the sets of [A] and [B]: a point lies in an enabled leaf
    of the result exactly when it lies in an enabled leaf of [A] and in one of
    [B], and a cell (a path from the common root) is enabled in the result
    exactly when it is enabled in both.  In particular two leaves are ANDed,
    an internal [A] is unchanged by an enabled leaf [B], and becomes a
    disabled leaf for a disabled leaf [B]. *)
Theorem restrict_denotes_intersection (A B : BinaryTreeNode) :
  (forall s : nat -> bool, contains (restrict A B) s = contains A s && contains B s)
  /\ (forall w : BinaryWord,
        is_enabled_path (restrict A B) w = is_enabled_path A w && is_enabled_path B w)
  /\ (forall a b : tribool,
        restrict (Leaf a) (Leaf b) = Leaf (tribool_and a b)
        /\ is_enabled (restrict (Leaf a) (Leaf b)) = is_enabled (Leaf a) && is_enabled (Leaf b))
  /\ (forall e l r, restrict (Branch e l r) (Leaf TTrue) = Branch e l r)
  /\ (forall e l r, restrict (Branch e l r) (Leaf TFalse) = Leaf TFalse).
Proof.
  split; [intros s; apply restrict_contains|].
  split; [intros w; apply restrict_is_enabled_path|].
  split; [|done].
  intros a b. split; [done|]. unfold is_enabled; simpl. apply definitely_and.
Qed.

(** *** [mince] and [recombine] *)

Lemma mince_node_contains (T : BinaryTreeNode) (k : nat) (s : nat -> bool) :
  contains (mince_node T k) s = contains T s.
Proof.
  revert T s. induction k as [|k IH]; intros T s; [done|].
  cbn [mince_node]. destruct (is_disabled T); [done|].
  destruct T as [e|e l r]; cbn [split contains].
  - destruct (s 0); by rewrite IH.
  - destruct (s 0); by rewrite IH.
Qed.

Lemma mince_node_disabled_leaf (k : nat) : mince_node (Leaf TFalse) k = Leaf TFalse.
Proof. by destruct k. Qed.

Lemma recombine_minced_enabled_leaf (k : nat) :
  recombine_node (mince_node (Leaf TTrue) k) = Leaf TTrue.
Proof.
  induction k as [|k IH]; [done|].
  cbn [mince_node is_disabled isEnabled_of possibly negb split recombine_node].
  by rewrite IH.
Qed.

Lemma recombine_mince_node (T : BinaryTreeNode) (k : nat) :
  leaves_determinate T = true ->
  recombine_node (mince_node T k) = recombine_node T.
Proof.
  revert k. induction T as [e|e l IHl r IHr]; intros k HT.
  - destruct e; [apply recombine_minced_enabled_leaf|by rewrite mince_node_disabled_leaf|done].
  - cbn in HT. apply andb_true_iff in HT as [Hl Hr].
    destruct k as [|k]; [done|].
    cbn [mince_node]. destruct (is_disabled (Branch e l r)); [done|].
    cbn [split recombine_node]. by rewrite IHl, IHr.
Qed.

(** C3 (the claim as it stands fails on a tree with an [indeterminate]
    leaf).  A single [indeterminate] leaf, the tree [export_to_file] leaves
    behind, is split by [mince] to depth 1 into two [indeterminate] leaves,
    which [recombine] does not merge: their flags do not compare equal. *)
Lemma mince_recombine_indeterminate_leaf :
  recombine (mince (Leaf TIndeterminate) 1)
    = Branch TIndeterminate (Leaf TIndeterminate) (Leaf TIndeterminate)
  /\ recombine (Leaf TIndeterminate) = Leaf TIndeterminate
  /\ node_equal (recombine (mince (Leaf TIndeterminate) 1)) (recombine (Leaf TIndeterminate))
     = false.
Proof. done. Qed.

(** C3 (amended).  For every tree [T] none of whose leaves is
    [indeterminate] and every depth [k], recombining the minced tree gives
    the tree that recombining [T] gives (equal as trees, hence under
    [operator==]).  For every tree, mincing keeps the denoted set, and it
    never splits a disabled leaf. *)
Theorem recombine_mince (T : BinaryTreeNode) (k : nat) :
  leaves_determinate T = true ->
  recombine (mince T k) = recombine T
  /\ node_equal (recombine (mince T k)) (recombine T) = true
  /\ (forall (T' : BinaryTreeNode) (s : nat -> bool), contains (mince T' k) s = contains T' s)
  /\ mince (Leaf TFalse) k = Leaf TFalse.
Proof.
  intros HT. unfold recombine, mince.
  rewrite (recombine_mince_node T k HT).
  split; [done|]. split; [apply node_equal_refl|].
  split; [intros T' s; apply mince_node_contains|apply mince_node_disabled_leaf].
Qed.

Lemma recombine_mince_witness :
  let T := Branch TIndeterminate (Leaf TTrue) (Branch TIndeterminate (Leaf TFalse) (Leaf TTrue)) in
  leaves_determinate T = true
  /\ recombine (mince T 3) = recombine T.
Proof.
  split; [reflexivity|].
  apply (recombine_mince
           (Branch TIndeterminate (Leaf TTrue) (Branch TIndeterminate (Leaf TFalse) (Leaf TTrue)))
           3); reflexivity.
Defined.

(** *** Export and import *)


Lemma remove_to_file_spec (t : BinaryTreeNode) (file : stream) :
  remove_to_file t file = (Leaf (isEnabled_of t), file ++ tree_bytes t).
Proof.
  revert file. induction t as [e|e l IHl r IHr]; intros file; cbn.
  - unfold fputc. by rewrite <- app_assoc.
  - rewrite IHl, IHr. cbn. unfold fputc.
    by rewrite <- !app_assoc.
Qed.

Lemma add_enabled_from_file_tree_bytes (t : BinaryTreeNode) :
  forall (fuel : nat) (e : tribool) (rest : stream),
    depth t < fuel ->
    add_enabled_from_file fuel (Leaf e) (tree_bytes t ++ rest)
    = Some (imported_as e t, rest).
Proof.
  induction t as [a|a l IHl r IHr]; intros fuel e rest Hfuel.
  - destruct fuel as [|fuel]; [lia|]. by destruct a.
  - destruct fuel as [|fuel]; [cbn in Hfuel; lia|].
    cbn in Hfuel. cbn [tree_bytes add_enabled_from_file fgetc app].
    change (Z.of_N (Byte.to_N Byte.x01) =? 0)%Z with false. cbn [isEnabled_of].
    rewrite <- app_assoc.
    rewrite IHl by lia. rewrite IHr by lia. done.
Qed.

Lemma imported_as_unknown (t : BinaryTreeNode) :
  leaves_determinate t = true -> internal_unknown t = true ->
  imported_as TIndeterminate t = t.
Proof.
  induction t as [a|a l IHl r IHr]; cbn.
  - by destruct a.
  - intros [Hl Hr]%andb_true_iff [[Ha Hl']%andb_true_iff Hr']%andb_true_iff.
    rewrite IHl, IHr by done. by destruct a.
Qed.

(** What import does with the export of any tree, whatever single node it
    starts from: the recursion ends, the whole stream is read, and the tree
    built is [imported_as e T]. *)
Lemma import_of_export (T : BinaryTreeNode) (e : tribool) (fuel : nat) :
  depth T < fuel ->
  add_enabled_from_file fuel (Leaf e) (remove_to_file T []).2 = Some (imported_as e T, []).
Proof.
  intros Hfuel. rewrite remove_to_file_spec. cbn [snd app].
  rewrite <- (app_nil_r (tree_bytes T)).
  by apply add_enabled_from_file_tree_bytes.
Qed.

(** Import into the single [indeterminate] leaf that [export_to_file] leaves
    in memory gives back a tree of the data model (no [indeterminate] leaf,
    every internal node [indeterminate]). *)
Lemma import_of_export_into_unknown_leaf (T : BinaryTreeNode) (fuel : nat) :
  leaves_determinate T = true -> internal_unknown T = true -> depth T < fuel ->
  add_enabled_from_file fuel (set_unknown_unchecked (remove_to_file T []).1)
                        (remove_to_file T []).2
  = Some (T, []).
Proof.
  intros Hl Hi Hfuel. rewrite remove_to_file_spec. cbn [fst snd app set_unknown_unchecked set_flag].
  rewrite <- (app_nil_r (tree_bytes T)).
  rewrite add_enabled_from_file_tree_bytes by done.
  by rewrite imported_as_unknown.
Qed.

(** C4 (the code departs from the claim).  The tree with an internal root
    over an enabled and a disabled leaf has no [indeterminate] leaf.  Its
    export, imported into a freshly constructed node (a disabled leaf, as
    every [GridTreeSet] constructor makes), gives a tree whose root carries
    [false] where the original carries [indeterminate]:
    [add_enabled_from_file] creates the two children and leaves the node's
    own flag as it was.  [operator==] tells the two trees apart. *)
Theorem import_into_fresh_node_keeps_its_flag :
  let T := Branch TIndeterminate (Leaf TTrue) (Leaf TFalse) in
  let file := (remove_to_file T []).2 in
  leaves_determinate T = true
  /\ file = [Byte.x01; Byte.x00; Byte.x01; Byte.x00; Byte.x00]
  /\ add_enabled_from_file 2 new_BinaryTreeNode file
     = Some (Branch TFalse (Leaf TTrue) (Leaf TFalse), [])
  /\ node_equal (Branch TFalse (Leaf TTrue) (Leaf TFalse)) T = false.
Proof. done. Qed.

(** ** Arithmetic on canonical rationals

    Goals on [Qc] are moved to [Q], where [lra] decides them. *)

Lemma this_Qcplus (x y : Qc) : (this (x + y)%Qc == this x + this y)%Q.
Proof. apply Qred_correct. Qed.

Lemma this_Qcmult (x y : Qc) : (this (x * y)%Qc == this x * this y)%Q.
Proof. apply Qred_correct. Qed.

Lemma this_Qcopp (x : Qc) : (this (- x)%Qc == - this x)%Q.
Proof. apply Qred_correct. Qed.

Lemma this_Qcminus (x y : Qc) : (this (x - y)%Qc == this x - this y)%Q.
Proof. unfold Qcminus. rewrite this_Qcplus, this_Qcopp. reflexivity. Qed.

Lemma this_Qc_of_Z (z : Z) : this (Qc_of_Z z) = inject_Z z.
Proof. reflexivity. Qed.

Lemma this_half (x : Qc) : (this (x / Qc_of_Z 2)%Qc == this x * (1 # 2))%Q.
Proof.
  unfold Qcdiv. rewrite this_Qcmult.
  assert (this (/ Qc_of_Z 2)%Qc == 1 # 2)%Q as -> by reflexivity.
  reflexivity.
Qed.

Lemma Qc_eq_this (x y : Qc) : x = y <-> (this x == this y)%Q.
Proof. split; [intros ->; reflexivity | apply Qc_is_canon]. Qed.

Lemma inject_Z_sub (a b : Z) : (inject_Z (a - b) == inject_Z a - inject_Z b)%Q.
Proof. unfold Z.sub. rewrite inject_Z_plus, inject_Z_opp. reflexivity. Qed.

Lemma inject_Z_le_iff (a b : Z) : (inject_Z a <= inject_Z b)%Q <-> (a <= b)%Z.
Proof. by rewrite <- Zle_Qle. Qed.

Lemma inject_Z_lt_iff (a b : Z) : (inject_Z a < inject_Z b)%Q <-> (a < b)%Z.
Proof. by rewrite <- Zlt_Qlt. Qed.

Ltac qc_to_q :=
  repeat match goal with
  | H : @eq Qc _ _ |- _ => apply Qc_eq_this in H
  | |- @eq Qc _ _ => apply Qc_eq_this
  end;
  unfold Qcle, Qclt in *;
  repeat (rewrite ?this_half, ?this_Qcplus, ?this_Qcminus, ?this_Qcmult, ?this_Qcopp,
            ?this_Qc_of_Z in * );
  change (this 1%Qc) with 1%Q in *; change (this 0%Qc) with 0%Q in *;
  repeat (rewrite ?inject_Z_plus, ?inject_Z_sub, ?inject_Z_opp, ?inject_Z_mult in * ).

Ltac qc_lra := qc_to_q; lra.

(** ** Rounding to a [Float]

    The powers of two, the binary exponent, and the order that rounding
    keeps. *)

Lemma this_Qcinv (x : Qc) : (this (/ x)%Qc == / this x)%Q.
Proof. apply Qred_correct. Qed.

Lemma this_Qcdiv (x y : Qc) : (this (x / y)%Qc == this x / this y)%Q.
Proof. unfold Qcdiv. rewrite this_Qcmult, this_Qcinv. reflexivity. Qed.

Lemma Qc_of_Z_pos (z : Z) : (0 < z)%Z -> (0 < Qc_of_Z z)%Qc.
Proof. intros Hz. by apply (proj1 (Z2Qc_inj_lt 0 z)). Qed.

Lemma Qcmult_pos (a b : Qc) : (0 < a)%Qc -> (0 < b)%Qc -> (0 < a * b)%Qc.
Proof.
  intros Ha Hb. pose proof (Qcmult_lt_compat_r 0 a b Hb Ha) as H.
  by replace (0 * b)%Qc with 0%Qc in H by ring.
Qed.

Lemma Qc_pow2_pos (e : Z) : (0 < Qc_pow2 e)%Qc.
Proof.
  unfold Qc_pow2. destruct (Z.leb_spec 0 e) as [He|He].
  - apply Qc_of_Z_pos. by apply Z.pow_pos_nonneg.
  - assert (0 < Qc_of_Z (2 ^ (- e)))%Qc as Hpos by (apply Qc_of_Z_pos, Z.pow_pos_nonneg; lia).
    unfold Qclt in *. rewrite this_Qcinv. by apply Qinv_lt_0_compat.
Qed.

Lemma Qc_pow2_succ (e : Z) : Qc_pow2 (e + 1) = (Qc_of_Z 2 * Qc_pow2 e)%Qc.
Proof.
  unfold Qc_pow2. destruct (Z.leb_spec 0 e) as [He|He].
  - rewrite (proj2 (Z.leb_le 0 (e + 1))) by lia.
    rewrite Z.pow_add_r by lia. rewrite Z.mul_comm. by rewrite Z2Qc_inj_mul.
  - destruct (Z.leb_spec 0 (e + 1)) as [He1|He1].
    + replace e with (-1)%Z by lia. by apply Qc_is_canon.
    + replace (- e)%Z with (- (e + 1) + 1)%Z by lia.
      rewrite Z.pow_add_r by lia. rewrite Z2Qc_inj_mul.
      assert (0 < Qc_of_Z (2 ^ (- (e + 1))))%Qc as Hpos
          by (apply Qc_of_Z_pos, Z.pow_pos_nonneg; lia).
      change (2 ^ 1)%Z with 2%Z.
      field. split; [done|]. intros Hz. rewrite Hz in Hpos. done.
Qed.

Lemma Qc_pow2_double (e : Z) : Qc_pow2 (e + 1) = (Qc_pow2 e + Qc_pow2 e)%Qc.
Proof.
  rewrite Qc_pow2_succ. replace (Qc_of_Z 2) with (1 + 1)%Qc by by apply Qc_is_canon.
  ring.
Qed.

Lemma Qc_pow2_le (e1 e2 : Z) : (e1 <= e2)%Z -> (Qc_pow2 e1 <= Qc_pow2 e2)%Qc.
Proof.
  intros Hle. replace e2 with (e1 + Z.of_nat (Z.to_nat (e2 - e1)))%Z by lia.
  induction (Z.to_nat (e2 - e1)) as [|n IH]; [rewrite Z.add_0_r; apply Qcle_refl|].
  replace (e1 + Z.of_nat (S n))%Z with (e1 + Z.of_nat n + 1)%Z by lia.
  rewrite Qc_pow2_double. pose proof (Qc_pow2_pos (e1 + Z.of_nat n)) as Hpos.
  revert IH Hpos. generalize (Qc_pow2 (e1 + Z.of_nat n)) (Qc_pow2 e1). intros a b IH Hpos.
  qc_lra.
Qed.

(** [2^(a - b) * 2^b = 2^a]. *)
Lemma Qc_pow2_sub (a b : Z) :
  (0 <= a)%Z -> (0 <= b)%Z ->
  (Qc_pow2 (a - b) * Qc_of_Z (2 ^ b) = Qc_of_Z (2 ^ a))%Qc.
Proof.
  intros Ha Hb. unfold Qc_pow2. destruct (Z.leb_spec 0 (a - b)) as [He|He].
  - rewrite <- Z2Qc_inj_mul, <- Z.pow_add_r by lia. do 2 f_equal. lia.
  - replace b with (- (a - b) + a)%Z at 2 by lia.
    rewrite Z.pow_add_r by lia. rewrite Z2Qc_inj_mul.
    assert (0 < Qc_of_Z (2 ^ (- (a - b))))%Qc as Hpos
        by (apply Qc_of_Z_pos, Z.pow_pos_nonneg; lia).
    field. intros Hz. rewrite Hz in Hpos. done.
Qed.

Lemma Qc_num_den (x : Qc) : (x * Qc_of_Z (Zpos (Qden x)) = Qc_of_Z (Qnum x))%Qc.
Proof.
  apply Qc_is_canon. rewrite this_Qcmult, !this_Qc_of_Z.
  destruct x as [[n d] Hc]. cbn [this Qnum Qden].
  unfold Qeq, Qmult, inject_Z. cbn. lia.
Qed.

Lemma Qc_exponent_spec (x : Qc) :
  (0 < x)%Qc ->
  (Qc_pow2 (Qc_exponent x) <= x)%Qc /\ (x < Qc_pow2 (Qc_exponent x + 1))%Qc.
Proof.
  intros Hx.
  set (n := Qnum x). set (d := Zpos (Qden x)).
  assert (0 < n)%Z as Hn.
  { subst n. destruct x as [[n0 d0] Hc]. unfold Qclt, Qlt in Hx. cbn in Hx |- *.
    change (Qred 0) with 0%Q in Hx. cbn in Hx. lia. }
  assert (0 < d)%Z as Hd by done.
  destruct (Z.log2_spec n Hn) as [Hn1 Hn2]. destruct (Z.log2_spec d Hd) as [Hd1 Hd2].
  rewrite <- Z.add_1_r in Hn2, Hd2.
  pose proof (Z.log2_nonneg n) as Hln. pose proof (Z.log2_nonneg d) as Hld.
  assert (0 < 2 ^ Z.log2 d)%Z as Hzd by (by apply Z.pow_pos_nonneg).
  assert (0 < 2 ^ Z.log2 n)%Z as Hzn by (by apply Z.pow_pos_nonneg).
  pose proof (Qc_num_den x) as Hxd. fold n d in Hxd.
  assert (0 < Qc_of_Z d)%Qc as Hdpos by by apply Qc_of_Z_pos.
  assert (0 < Qc_of_Z (2 ^ Z.log2 d))%Qc as Hpd by (apply Qc_of_Z_pos; lia).
  assert (0 < Qc_of_Z (2 ^ (Z.log2 d + 1)))%Qc as Hpd1 by (apply Qc_of_Z_pos; lia).
  (* x < 2^(e0 + 1) *)
  assert (x < Qc_pow2 (Z.log2 n - Z.log2 d + 1))%Qc as Hupper.
  { apply Qcnot_le_lt. intros Hle.
    pose proof (Qc_pow2_sub (Z.log2 n + 1) (Z.log2 d) ltac:(lia) ltac:(lia)) as Hsub.
    replace (Z.log2 n + 1 - Z.log2 d)%Z with (Z.log2 n - Z.log2 d + 1)%Z in Hsub by lia.
    apply (Qcmult_le_compat_r _ _ (Qc_of_Z (2 ^ Z.log2 d) * Qc_of_Z d)) in Hle.
    2: { apply Qclt_le_weak, Qcmult_pos; done. }
    rewrite Qcmult_assoc, Hsub in Hle.
    replace (x * (Qc_of_Z (2 ^ Z.log2 d) * Qc_of_Z d))%Qc
      with (Qc_of_Z (2 ^ Z.log2 d) * (x * Qc_of_Z d))%Qc in Hle by ring.
    rewrite Hxd, <- !Z2Qc_inj_mul in Hle. apply Z2Qc_inj_le in Hle.
    revert Hle Hn2 Hd1 Hn Hd Hzd. generalize (2 ^ (Z.log2 n + 1))%Z (2 ^ Z.log2 d)%Z.
    intros. nia. }
  (* 2^(e0 - 1) <= x *)
  assert (Qc_pow2 (Z.log2 n - Z.log2 d - 1) <= x)%Qc as Hlower.
  { pose proof (Qc_pow2_sub (Z.log2 n) (Z.log2 d + 1) ltac:(lia) ltac:(lia)) as Hsub.
    replace (Z.log2 n - (Z.log2 d + 1))%Z with (Z.log2 n - Z.log2 d - 1)%Z in Hsub by lia.
    apply (Qcmult_lt_0_le_reg_r _ _ (Qc_of_Z (2 ^ (Z.log2 d + 1)) * Qc_of_Z d)).
    { by apply Qcmult_pos. }
    rewrite Qcmult_assoc, Hsub.
    replace (x * (Qc_of_Z (2 ^ (Z.log2 d + 1)) * Qc_of_Z d))%Qc
      with (Qc_of_Z (2 ^ (Z.log2 d + 1)) * (x * Qc_of_Z d))%Qc by ring.
    rewrite Hxd, <- !Z2Qc_inj_mul. apply (proj1 (Z2Qc_inj_le _ _)).
    revert Hn1 Hd2 Hn Hd Hzn. generalize (2 ^ Z.log2 n)%Z (2 ^ (Z.log2 d + 1))%Z.
    intros. nia. }
  unfold Qc_exponent. fold n d. cbn zeta. case_bool_decide as Hdec.
  - done.
  - replace (Z.log2 n - Z.log2 d - 1 + 1)%Z with (Z.log2 n - Z.log2 d)%Z by lia.
    split; [done|]. by apply Qcnot_le_lt.
Qed.

Lemma Qc_pow2_add_nonneg (e : Z) (k : nat) :
  Qc_pow2 (e + Z.of_nat k) = (Qc_of_Z (2 ^ Z.of_nat k) * Qc_pow2 e)%Qc.
Proof.
  induction k as [|k IH].
  - rewrite Z.add_0_r. change (2 ^ Z.of_nat 0)%Z with 1%Z.
    replace (Qc_of_Z 1) with 1%Qc by by apply Qc_is_canon. ring.
  - replace (e + Z.of_nat (S k))%Z with (e + Z.of_nat k + 1)%Z by lia.
    rewrite Qc_pow2_succ, IH.
    replace (Z.of_nat (S k)) with (Z.of_nat k + 1)%Z by lia.
    rewrite Z.pow_add_r by lia. rewrite Z2Qc_inj_mul. change (2 ^ 1)%Z with 2%Z. ring.
Qed.

(** *** The nearest integer *)

Lemma Qc_floor_bounds (x : Qc) :
  (Qc_of_Z (Qfloor x) <= x)%Qc /\ (x < Qc_of_Z (Qfloor x + 1))%Qc.
Proof.
  unfold Qcle, Qclt. rewrite !this_Qc_of_Z. split; [apply Qfloor_le|apply Qlt_floor].
Qed.

Lemma Qc_floor_ge (k : Z) (x : Qc) : (Qc_of_Z k <= x)%Qc -> (k <= Qfloor x)%Z.
Proof.
  intros Hk. unfold Qcle in Hk. rewrite this_Qc_of_Z in Hk.
  apply Qfloor_resp_le in Hk. by rewrite Qfloor_Z in Hk.
Qed.

Lemma round_half_even_cases (x : Qc) :
  round_half_even x = Qfloor x \/ round_half_even x = (Qfloor x + 1)%Z.
Proof.
  unfold round_half_even. cbn zeta.
  repeat case_bool_decide; destruct (Z.even (Qfloor x)); auto.
Qed.

Lemma round_half_even_ge (k : Z) (x : Qc) :
  (Qc_of_Z k <= x)%Qc -> (k <= round_half_even x)%Z.
Proof.
  intros Hk%Qc_floor_ge. destruct (round_half_even_cases x) as [->| ->]; lia.
Qed.

Lemma round_half_even_le (k : Z) (x : Qc) :
  (x <= Qc_of_Z k)%Qc -> (round_half_even x <= k)%Z.
Proof.
  intros Hk. destruct (Qc_floor_bounds x) as [Hf1 Hf2].
  assert (Qfloor x <= k)%Z as Hfk.
  { apply Z2Qc_inj_le. by eapply Qcle_trans. }
  destruct (decide (Qfloor x = k)) as [Heq|Hne].
  - unfold round_half_even. cbn zeta. rewrite Heq.
    assert (x = Qc_of_Z k) as -> by (apply Qcle_antisym; [done|by rewrite <- Heq]).
    rewrite bool_decide_eq_true_2; [done|].
    replace (Qc_of_Z k - Qc_of_Z k)%Qc with 0%Qc by ring. done.
  - destruct (round_half_even_cases x) as [->| ->]; lia.
Qed.

Lemma round_half_even_mono (x y : Qc) :
  (x <= y)%Qc -> (round_half_even x <= round_half_even y)%Z.
Proof.
  intros Hxy.
  assert (Qfloor x <= Qfloor y)%Z as Hf by (by apply Qfloor_resp_le).
  destruct (decide (Qfloor x = Qfloor y)) as [Heq|Hne].
  - unfold round_half_even. cbn zeta. rewrite Heq.
    assert (x - Qc_of_Z (Qfloor y) <= y - Qc_of_Z (Qfloor y))%Qc as Hr.
    { revert Hxy. generalize (Qc_of_Z (Qfloor y)). intros c Hxy. qc_lra. }
    revert Hr. generalize (x - Qc_of_Z (Qfloor y))%Qc (y - Qc_of_Z (Qfloor y))%Qc.
    intros r1 r2 Hr.
    repeat case_bool_decide; destruct (Z.even (Qfloor y)); try lia; exfalso;
      unfold Qclt, Qcle in *; lra.
  - destruct (round_half_even_cases x) as [->| ->],
             (round_half_even_cases y) as [->| ->]; lia.
Qed.

(** *** Rounding to a [Float] *)

Lemma Qc_neq_of_lt (a b : Qc) : (a < b)%Qc -> b <> a.
Proof. intros Hlt ->. by apply (Qclt_not_le _ _ Hlt), Qcle_refl. Qed.

Lemma Qcdiv_mult_cancel (x u : Qc) : (0 < u)%Qc -> (x / u * u = x)%Qc.
Proof. intros Hu. field. by apply Qc_neq_of_lt. Qed.

Lemma Qcdiv_le_compat (x y u : Qc) : (0 < u)%Qc -> (x <= y)%Qc -> (x / u <= y / u)%Qc.
Proof.
  intros Hu Hxy. apply (Qcmult_lt_0_le_reg_r _ _ u Hu). by rewrite !Qcdiv_mult_cancel.
Qed.

Lemma round_to_Float_positive (x : Qc) :
  (0 < x)%Qc ->
  round_to_Float x
  = (Qc_of_Z (round_half_even (x / Qc_pow2 (Qc_exponent x - 52)))
     * Qc_pow2 (Qc_exponent x - 52))%Qc.
Proof.
  intros Hx. unfold round_to_Float.
  rewrite bool_decide_eq_false_2 by by apply Qc_neq_of_lt.
  by rewrite !bool_decide_eq_true_2.
Qed.

Lemma round_to_Float_negative (x : Qc) :
  (x < 0)%Qc -> round_to_Float x = (- round_to_Float (- x))%Qc.
Proof.
  intros Hx.
  assert (0 < - x)%Qc as Hneg by (revert Hx; generalize x; intros; qc_lra).
  rewrite (round_to_Float_positive (- x) Hneg). unfold round_to_Float.
  rewrite bool_decide_eq_false_2 by (intros ->; done).
  rewrite !bool_decide_eq_false_2; [done|].
  intros Hpos. apply (Qclt_not_le _ _ Hx). by apply Qclt_le_weak.
Qed.

Lemma round_to_Float_zero : round_to_Float 0 = 0%Qc.
Proof. done. Qed.

(** Some [Float]s: the nearest to 1/10 and to -1/3; two ties, which go to
    the even significand, one down and one up; the first integer that is no
    [Float]; an [int] corner, which is one. *)
Example round_to_Float_examples :
  round_to_Float (Q2Qc (1 # 10)) = Q2Qc (3602879701896397 # 36028797018963968)
  /\ round_to_Float (- Q2Qc (1 # 3)) = (- Q2Qc (6004799503160661 # 18014398509481984))%Qc
  /\ round_to_Float (1 + Qc_pow2 (-53)) = 1%Qc
  /\ round_to_Float (1 + Qc_of_Z 3 * Qc_pow2 (-53)) = (1 + Qc_pow2 (-51))%Qc
  /\ round_to_Float (Qc_of_Z (2 ^ 53 + 1)) = Qc_of_Z (2 ^ 53)
  /\ round_to_Float (Qc_of_Z 715827883) = Qc_of_Z 715827883.
Proof. repeat split; by apply Qc_is_canon. Qed.

(** A positive number and its [Float] lie in the same binade:
    [2^e <= x < 2^(e+1)] gives [2^e <= round_to_Float x <= 2^(e+1)]. *)
Lemma round_to_Float_binade (x : Qc) :
  (0 < x)%Qc ->
  (Qc_pow2 (Qc_exponent x) <= round_to_Float x)%Qc
  /\ (round_to_Float x <= Qc_pow2 (Qc_exponent x + 1))%Qc.
Proof.
  intros Hx. rewrite round_to_Float_positive by done.
  destruct (Qc_exponent_spec x Hx) as [Hlo Hhi].
  set (e := Qc_exponent x) in *. set (u := Qc_pow2 (e - 52)).
  assert (0 < u)%Qc as Hu by apply Qc_pow2_pos.
  assert (Qc_pow2 e = Qc_of_Z (2 ^ 52) * u)%Qc as He.
  { replace e with (e - 52 + Z.of_nat 52)%Z at 1 by lia. by rewrite Qc_pow2_add_nonneg. }
  assert (Qc_pow2 (e + 1) = Qc_of_Z (2 ^ 53) * u)%Qc as He1.
  { replace (e + 1)%Z with (e - 52 + Z.of_nat 53)%Z by lia. by rewrite Qc_pow2_add_nonneg. }
  rewrite He in Hlo |- *. rewrite He1 in Hhi |- *.
  assert (Qc_of_Z (2 ^ 52) <= x / u)%Qc as Hq1.
  { apply (Qcmult_lt_0_le_reg_r _ _ u Hu). by rewrite Qcdiv_mult_cancel. }
  assert (x / u <= Qc_of_Z (2 ^ 53))%Qc as Hq2.
  { apply (Qcmult_lt_0_le_reg_r _ _ u Hu). rewrite Qcdiv_mult_cancel by done.
    by apply Qclt_le_weak. }
  apply round_half_even_ge in Hq1. apply round_half_even_le in Hq2.
  split; apply Qcmult_le_compat_r; try (by apply Qclt_le_weak);
    by apply (proj1 (Z2Qc_inj_le _ _)).
Qed.

Lemma round_to_Float_positive_mono (x y : Qc) :
  (0 < x)%Qc -> (x <= y)%Qc -> (round_to_Float x <= round_to_Float y)%Qc.
Proof.
  intros Hx Hxy. assert (0 < y)%Qc as Hy by by eapply Qclt_le_trans.
  destruct (Qc_exponent_spec x Hx) as [Hxlo Hxhi].
  destruct (Qc_exponent_spec y Hy) as [Hylo Hyhi].
  destruct (round_to_Float_binade x Hx) as [_ Hfx].
  destruct (round_to_Float_binade y Hy) as [Hfy _].
  destruct (Z.lt_trichotomy (Qc_exponent x) (Qc_exponent y)) as [Hlt|[Heq|Hgt]].
  - eapply Qcle_trans; [exact Hfx|]. eapply Qcle_trans; [|exact Hfy].
    apply Qc_pow2_le. lia.
  - rewrite !round_to_Float_positive by done. rewrite Heq.
    apply Qcmult_le_compat_r; [|apply Qclt_le_weak, Qc_pow2_pos].
    apply (proj1 (Z2Qc_inj_le _ _)), round_half_even_mono.
    apply Qcdiv_le_compat; [apply Qc_pow2_pos|done].
  - exfalso. apply (Qclt_not_le _ _ Hyhi).
    eapply Qcle_trans; [|exact Hxy]. eapply Qcle_trans; [|exact Hxlo].
    apply Qc_pow2_le. lia.
Qed.

Lemma round_to_Float_positive_pos (x : Qc) : (0 < x)%Qc -> (0 < round_to_Float x)%Qc.
Proof.
  intros Hx. eapply Qclt_le_trans; [|apply (round_to_Float_binade x Hx)].
  apply Qc_pow2_pos.
Qed.

(** Rounding keeps the order. *)
Lemma round_to_Float_mono (x y : Qc) :
  (x <= y)%Qc -> (round_to_Float x <= round_to_Float y)%Qc.
Proof.
  intros Hxy.
  destruct (Qc_dec 0 x) as [[Hx|Hx]|Hx].
  - by apply round_to_Float_positive_mono.
  - assert (0 < - x)%Qc as Hnx by (revert Hx; generalize x; intros; qc_lra).
    pose proof (round_to_Float_positive_pos _ Hnx) as Hfx.
    rewrite (round_to_Float_negative x Hx).
    destruct (Qc_dec 0 y) as [[Hy|Hy]|Hy].
    + pose proof (round_to_Float_positive_pos _ Hy) as Hfy.
      revert Hfx Hfy. generalize (round_to_Float (- x)) (round_to_Float y). intros a b ? ?.
      qc_lra.
    + assert (0 < - y)%Qc as Hny by (revert Hy; generalize y; intros; qc_lra).
      rewrite (round_to_Float_negative y Hy).
      assert (- y <= - x)%Qc as Hle by (revert Hxy; generalize x y; intros; qc_lra).
      pose proof (round_to_Float_positive_mono _ _ Hny Hle) as Hmono.
      revert Hmono. generalize (round_to_Float (- x)) (round_to_Float (- y)). intros a b ?.
      qc_lra.
    + subst y. rewrite round_to_Float_zero.
      revert Hfx. generalize (round_to_Float (- x)). intros a ?. qc_lra.
  - subst x. rewrite round_to_Float_zero.
    destruct (Qc_dec 0 y) as [[Hy|Hy]|Hy].
    + by apply Qclt_le_weak, round_to_Float_positive_pos.
    + exfalso. by apply (Qclt_not_le _ _ Hy).
    + subst y. apply Qcle_refl.
Qed.

Lemma coordinate_approx_mono (o l a b : Qc) :
  (0 <= l)%Qc -> (a <= b)%Qc -> (coordinate_approx o l a <= coordinate_approx o l b)%Qc.
Proof.
  intros Hl Hab. unfold coordinate_approx, add_approx, mul_approx.
  apply round_to_Float_mono.
  assert (round_to_Float (l * a) <= round_to_Float (l * b))%Qc as Hm.
  { apply round_to_Float_mono. rewrite !(Qcmult_comm l). by apply Qcmult_le_compat_r. }
  revert Hm. generalize (round_to_Float (l * a)) (round_to_Float (l * b)). intros p q ?.
  qc_lra.
Qed.

(** ** Intervals *)

Lemma midpoint_between (I : Interval) :
  (lower I <= upper I)%Qc -> (lower I <= midpoint I)%Qc /\ (midpoint I <= upper I)%Qc.
Proof. unfold midpoint. intros H. split; qc_lra. Qed.

Lemma midpoint_strictly_between (I : Interval) :
  (lower I < upper I)%Qc -> (lower I < midpoint I)%Qc /\ (midpoint I < upper I)%Qc.
Proof. unfold midpoint. intros H. split; qc_lra. Qed.

(** ** Primary cells *)

Lemma wrap_int_in_range (z : Z) : (- 2 ^ 31 <= z < 2 ^ 31)%Z -> wrap_int z = z.
Proof. intros Hz. unfold wrap_int. rewrite Z.mod_small; lia. Qed.

Lemma unbounded_corners_succ (h : nat) :
  unbounded_corners (S h)
  = if Nat.odd (S h)
    then ((unbounded_corners h).1 - ((unbounded_corners h).2 - (unbounded_corners h).1),
          (unbounded_corners h).2)%Z
    else ((unbounded_corners h).1,
          (unbounded_corners h).2 + ((unbounded_corners h).2 - (unbounded_corners h).1))%Z.
Proof. cbn [unbounded_corners]. by destruct (unbounded_corners h). Qed.

Lemma unbounded_corners_lt (h : nat) :
  ((unbounded_corners h).1 < (unbounded_corners h).2)%Z.
Proof.
  induction h as [|h IH]; [done|].
  rewrite unbounded_corners_succ. destruct (Nat.odd (S h)); cbn [fst snd]; lia.
Qed.

(** Up to height 31 the [int] corners are the exact ones. *)
Lemma primary_cell_corners_unbounded (h : nat) :
  h <= 31 -> primary_cell_corners h = unbounded_corners h.
Proof. intros Hh. do 32 (destruct h as [|h]; [by vm_compute|]). lia. Qed.

(** From height 32 on the [int] corners are one and the same number: the
    width [2^31] of the primary cell of height 31 wraps around to [-2^31],
    and the upper corner of height 32 lands on the lower one. *)
Lemma primary_cell_corners_collapse (h : nat) :
  32 <= h -> primary_cell_corners h = ((-1431655765)%Z, (-1431655765)%Z).
Proof.
  induction h as [|h IH]; intros Hh; [lia|].
  destruct (decide (h = 31)) as [->|Hne]; [by vm_compute|].
  cbn [primary_cell_corners]. rewrite IH by lia.
  unfold primary_cell_at_height. by destruct (Nat.odd (S h)).
Qed.

Lemma primary_cell_corners_lt (h : nat) :
  h <= 31 -> ((primary_cell_corners h).1 < (primary_cell_corners h).2)%Z.
Proof. intros Hh. rewrite primary_cell_corners_unbounded by done. apply unbounded_corners_lt. Qed.

(** Bisecting the primary cell of height [h + 1] once on an axis, towards
    the side the parity of [h + 1] names, gives the interval of the primary
    cell of height [h]. *)
Lemma primary_cell_interval_step (h : nat) :
  h < 31 ->
  let I := Interval_of_ints (primary_cell_corners (S h)).1 (primary_cell_corners (S h)).2 in
  half_interval (Nat.odd (S h)) I
  = Interval_of_ints (primary_cell_corners h).1 (primary_cell_corners h).2.
Proof.
  intros Hh. rewrite !primary_cell_corners_unbounded by lia.
  rewrite unbounded_corners_succ. destruct (unbounded_corners h) as [L R].
  destruct (Nat.odd (S h)); cbn [fst snd];
    unfold half_interval, set_lower, set_upper, midpoint, Interval_of_ints; cbn [lower upper];
    f_equal;
    qc_to_q; lra.
Qed.

(** ** Lattice boxes *)

Lemma bisect_along_app (d i : nat) (w1 w2 : BinaryWord) (box : Box) :
  bisect_along d i (w1 ++ w2) box
  = bisect_along d (i + length w1) w2 (bisect_along d i w1 box).
Proof.
  revert i box. induction w1 as [|b w1 IH]; intros i box; cbn [app bisect_along length].
  - by rewrite Nat.add_0_r.
  - rewrite IH. by rewrite Nat.add_succ_comm.
Qed.

Lemma succ_mod_congr (d i j : nat) : i mod d = j mod d -> S i mod d = S j mod d.
Proof.
  intros H. destruct d as [|d]; [cbn in *; by rewrite H|].
  replace (S i) with (i + 1) by lia. replace (S j) with (j + 1) by lia.
  rewrite (Nat.Div0.add_mod i), (Nat.Div0.add_mod j). by rewrite H.
Qed.

Lemma bisect_along_congr (d : nat) (w : BinaryWord) :
  forall (i j : nat) (box : Box),
    i mod d = j mod d -> bisect_along d i w box = bisect_along d j w box.
Proof.
  induction w as [|b w IH]; intros i j box H; [done|].
  cbn [bisect_along]. rewrite H. apply IH. by apply succ_mod_congr.
Qed.

(** [m] equal bits from index [n] on, one per remaining axis, bisect every
    remaining axis once. *)
Lemma bisect_along_replicate (d : nat) (b : bool) (I : Interval) :
  forall (m n : nat),
    n + m = d ->
    bisect_along d n (replicate m b) (replicate n (half_interval b I) ++ replicate m I)
    = replicate d (half_interval b I).
Proof.
  induction m as [|m IH]; intros n Hd.
  - cbn. rewrite app_nil_r. by rewrite Nat.add_0_r in Hd; subst.
  - cbn [replicate bisect_along].
    rewrite Nat.mod_small by lia.
    rewrite alter_app_r_alt by (rewrite length_replicate; lia).
    rewrite length_replicate, Nat.sub_diag. cbn [alter list_alter].
    rewrite <- (IH (S n)) by lia. f_equal.
    rewrite replicate_S_end, <- app_assoc. done.
Qed.

(** The first group of bits of the path from the primary cell of height
    [h + 1] leads to the primary cell of height [h]. *)
Lemma compute_lattice_box_step (d h : nat) (w : BinaryWord) :
  h < 31 ->
  compute_lattice_box d (S h) (replicate d (Nat.odd (S h)) ++ w) = compute_lattice_box d h w.
Proof.
  intros Hbound.
  unfold compute_lattice_box. rewrite bisect_along_app, length_replicate.
  unfold primary_cell_lattice_box.
  pose proof (primary_cell_interval_step h Hbound) as Hstep. cbn zeta in Hstep.
  destruct (primary_cell_corners (S h)) as [L' R'] eqn:HS.
  destruct (primary_cell_corners h) as [L R] eqn:Hh. cbn [fst snd] in Hstep.
  pose proof (bisect_along_replicate d (Nat.odd (S h)) (Interval_of_ints L' R') d 0
                ltac:(lia)) as Hrep.
  cbn [replicate app] in Hrep. rewrite Hrep, Hstep.
  apply bisect_along_congr.
  destruct d as [|d]; [done|]. cbn [Nat.add]. by rewrite Nat.Div0.mod_same, Nat.Div0.mod_0_l.
Qed.

(** Re-rooting a cell: the primary-cell path from height [H] down to height
    [h] leads from the primary cell of height [H] to the one of height [h]. *)
Lemma compute_lattice_box_primary_cell_path (d h : nat) (w : BinaryWord) (H : nat) :
  h <= H -> H <= 31 ->
  compute_lattice_box d H (primary_cell_path d H h ++ w) = compute_lattice_box d h w.
Proof.
  induction H as [|H IH]; intros Hle H31.
  - by replace h with 0 by lia.
  - cbn [primary_cell_path]. destruct (Nat.ltb_spec h (S H)) as [Hlt|Hge].
    + rewrite <- app_assoc, compute_lattice_box_step by lia. apply IH; lia.
    + by replace h with (S H) by lia.
Qed.

Lemma length_primary_cell_path (d top bottom : nat) :
  length (primary_cell_path d top bottom) = d * (top - bottom).
Proof.
  induction top as [|top IH]; [cbn; lia|].
  cbn [primary_cell_path]. destruct (Nat.ltb_spec bottom (S top)).
  - rewrite length_app, length_replicate, IH. nia.
  - cbn. replace (S top - bottom) with 0 by lia. lia.
Qed.

(** ** Re-rooting a paving *)

Lemma prepend_tree_at_cons (e : tribool) (b b' : bool) (rest : BinaryWord)
    (old : BinaryTreeNode) :
  prepend_tree_at (Leaf e) (b :: b' :: rest) old
  = if b then Branch TIndeterminate (Leaf e) (prepend_tree_at (Leaf e) (b' :: rest) old)
    else Branch TIndeterminate (prepend_tree_at (Leaf e) (b' :: rest) old) (Leaf e).
Proof. reflexivity. Qed.

Lemma enabled_leaves_prepend_tree_at (path : BinaryWord) (old : BinaryTreeNode) :
  path <> [] ->
  enabled_leaves (prepend_tree_at (Leaf TFalse) path old) = map (app path) (enabled_leaves old).
Proof.
  induction path as [|b [|b' rest] IH]; intros Hne; [done| |].
  - destruct b; cbn; [done|]. by rewrite app_nil_r.
  - specialize (IH ltac:(done)). rewrite prepend_tree_at_cons.
    destruct b; cbn [enabled_leaves]; rewrite IH;
      cbn [is_enabled isEnabled_of definitely map app];
      rewrite ?app_nil_r, map_map; done.
Qed.

Lemma primary_cell_path_nonempty (d top bottom : nat) :
  0 < d -> bottom < top -> primary_cell_path d top bottom <> [].
Proof.
  intros Hd Hlt Hnil. apply (f_equal length) in Hnil.
  rewrite length_primary_cell_path in Hnil. cbn in Hnil. nia.
Qed.

Lemma prepend_tree_nonempty (path : BinaryWord) (old : BinaryTreeNode) :
  path <> [] -> prepend_tree path old = Some (prepend_tree_at new_BinaryTreeNode path old).
Proof. by destruct path. Qed.

Lemma enabled_boxes_lattice (S : GridTreeSubset) :
  enabled_boxes S
  = map (fun lb => lattice_box_to_space lb (cell_grid (theGridCell S)))
        (map cell_lattice_box (enabled_cells S)).
Proof.
  unfold enabled_boxes, enabled_cells. rewrite !map_map. done.
Qed.

(** C5 (the claim as it stands fails at [h' = h], and from height 31 to
    height 32).  Re-rooting a paving of height 0 to height 0 asks
    [prepend_tree] for an empty path, on which its behaviour is undefined:
    no paving is produced.  Re-rooting the enabled primary cell of height 31
    to height 32 produces a paving whose one enabled cell has another box:
    the [int] corners of the primary cell of height 32 are one and the same
    number, and so are the bounds of every cell below it. *)
Lemma up_to_primary_cell_same_height :
  let S := mkGridTreeSubset (mkGridCell (mkGrid [0%Qc] [1%Qc]) 0 []) (Leaf TTrue) in
  let S31 := mkGridTreeSubset (mkGridCell (mkGrid [0%Qc] [1%Qc]) 31 []) (Leaf TTrue) in
  (cell_height (theGridCell S) <= 0
   /\ primary_cell_path (dimension (cell_grid (theGridCell S))) 0 (cell_height (theGridCell S))
      = []
   /\ up_to_primary_cell 0 S = None)
  /\ (cell_height (theGridCell S31) <= 32
      /\ exists S' : GridTreeSet,
           up_to_primary_cell 32 S31 = Some S'
           /\ enabled_cells S' = [mkGridCell (mkGrid [0%Qc] [1%Qc]) 32 [false]]
           /\ enabled_boxes S31
              = [[mkInterval (Qc_of_Z (-1431655765)) (Qc_of_Z 715827883)]]
           /\ enabled_boxes S'
              = [[mkInterval (Qc_of_Z (-1431655765)) (Qc_of_Z (-1431655765))]]
           /\ measure S31 = Qc_of_Z 2147483648
           /\ measure S' = 0%Qc).
Proof.
  split.
  - cbn. split; [lia|done].
  - split; [cbn; lia|]. eexists. split; [reflexivity|].
    split; [reflexivity|].
    split; [vm_compute; do 3 f_equal; by apply Qc_is_canon|].
    split; [vm_compute; do 3 f_equal; by apply Qc_is_canon|].
    split; by apply Qc_is_canon.
Qed.

(** C5 (amended).  For every [GridTreeSet] [S] of height [h] over a grid of
    dimension [d >= 1] and every height [h' > h], [up_to_primary_cell]
    produces a paving of height [h'] whose enabled leaves are those of [S]
    with the primary-cell path (of length [d * (h' - h)]) put before their
    words; when [h' <= 31], the heights whose primary-cell corners an [int]
    holds, the lattice boxes and the boxes of the enabled leaves, in
    iteration order, are the same, and so are the measure and the set of
    points denoted. *)
Theorem up_to_primary_cell_denotation (S : GridTreeSet) (h' : nat) :
  cell_word (theGridCell S) = [] ->
  0 < dimension (cell_grid (theGridCell S)) ->
  cell_height (theGridCell S) < h' ->
  exists S' : GridTreeSet,
    up_to_primary_cell h' S = Some S'
    /\ theGridCell S' = mkGridCell (cell_grid (theGridCell S)) h' []
    /\ length (primary_cell_path (dimension (cell_grid (theGridCell S))) h'
                 (cell_height (theGridCell S)))
       = dimension (cell_grid (theGridCell S)) * (h' - cell_height (theGridCell S))
    /\ map cell_word (enabled_cells S')
       = map (fun c => primary_cell_path (dimension (cell_grid (theGridCell S))) h'
                         (cell_height (theGridCell S)) ++ cell_word c)
             (enabled_cells S)
    /\ (h' <= 31 ->
        map cell_lattice_box (enabled_cells S') = map cell_lattice_box (enabled_cells S)
        /\ enabled_boxes S' = enabled_boxes S
        /\ measure S' = measure S
        /\ (forall x : list Qc, denotes S' x <-> denotes S x)).
Proof.
  destruct S as [[g h w] root]. cbn [theGridCell cell_word cell_grid cell_height].
  intros -> Hd Hlt.
  unfold up_to_primary_cell. cbn [theGridCell cell_grid cell_height pRootTreeNode].
  pose proof (primary_cell_path_nonempty (dimension g) h' h Hd Hlt) as Hne.
  rewrite prepend_tree_nonempty by done.
  set (path := primary_cell_path (dimension g) h' h) in *.
  set (S' := mkGridTreeSubset (mkGridCell g h' []) (prepend_tree_at new_BinaryTreeNode path root)).
  set (S := mkGridTreeSubset (mkGridCell g h []) root).
  assert (map cell_word (enabled_cells S') = map (fun c => path ++ cell_word c) (enabled_cells S))
    as Hwords.
  { unfold enabled_cells, S', S, new_BinaryTreeNode.
    cbn [theGridCell cell_grid cell_height cell_word pRootTreeNode app].
    rewrite enabled_leaves_prepend_tree_at by done. by rewrite !map_map. }
  exists S'. split; [done|]. split; [done|].
  split; [apply length_primary_cell_path|].
  split; [done|]. intros Hint.
  assert (map cell_lattice_box (enabled_cells S') = map cell_lattice_box (enabled_cells S))
    as Hlattice.
  { unfold enabled_cells, S', S, new_BinaryTreeNode.
    cbn [theGridCell cell_grid cell_height cell_word pRootTreeNode app].
    rewrite enabled_leaves_prepend_tree_at by done.
    rewrite !map_map. apply map_ext. intros p.
    unfold cell_lattice_box. cbn [cell_grid cell_height cell_word].
    apply compute_lattice_box_primary_cell_path; lia. }
  assert (enabled_boxes S' = enabled_boxes S) as Hboxes.
  { rewrite !enabled_boxes_lattice. by rewrite Hlattice. }
  split; [done|]. split; [done|].
  split; [unfold measure; by rewrite Hboxes|].
  intros x. unfold denotes. by rewrite Hboxes.
Qed.

Lemma up_to_primary_cell_denotation_witness :
  let S := mkGridTreeSubset (mkGridCell (mkGrid [0%Qc; 0%Qc] [1%Qc; 1%Qc]) 0 [])
             (Branch TIndeterminate (Leaf TTrue) (Leaf TFalse)) in
  exists S' : GridTreeSet,
    up_to_primary_cell 2 S = Some S'
    /\ map cell_word (enabled_cells S') = [[false; false; true; true; false]]
    /\ measure S' = measure S.
Proof.
  destruct (up_to_primary_cell_denotation
              (mkGridTreeSubset (mkGridCell (mkGrid [0%Qc; 0%Qc] [1%Qc; 1%Qc]) 0 [])
                 (Branch TIndeterminate (Leaf TTrue) (Leaf TFalse))) 2)
    as (S' & Hup & _ & _ & Hwords & Hboxes);
    [reflexivity | cbn; lia | cbn; lia |].
  destruct (Hboxes ltac:(lia)) as (_ & _ & Hmeasure & _).
  exists S'. split; [exact Hup|]. split; [exact Hwords|exact Hmeasure].
Defined.

(** ** The interval of one axis of a cell *)


Lemma bisect_along_lookup (d dim : nat) (w : BinaryWord) :
  forall (i : nat) (box : Box),
    bisect_along d i w box !! dim
    = (fun I => halve_all I (axis_bits d dim i w)) <$> (box !! dim).
Proof.
  induction w as [|b w IH]; intros i box; cbn [bisect_along axis_bits].
  - unfold halve_all. cbn. by destruct (box !! dim).
  - rewrite IH. destruct (Nat.eqb_spec (i mod d) dim) as [<-|Hne].
    + rewrite list_lookup_alter_eq. by destruct (box !! (i mod d)).
    + by rewrite list_lookup_alter_ne.
Qed.

Lemma compute_lattice_box_lookup (d h dim : nat) (w : BinaryWord) :
  dim < d ->
  compute_lattice_box d h w !! dim
  = Some (halve_all (Interval_of_ints (primary_cell_corners h).1 (primary_cell_corners h).2)
                    (axis_bits d dim 0 w)).
Proof.
  intros Hdim. unfold compute_lattice_box. rewrite bisect_along_lookup.
  unfold primary_cell_lattice_box. destruct (primary_cell_corners h) as [L R].
  by rewrite lookup_replicate_2.
Qed.

Lemma halve_all_bounds (bits : list bool) :
  forall I : Interval,
    (lower I < upper I)%Qc ->
    (lower (halve_all I bits) < upper (halve_all I bits))%Qc
    /\ (lower I <= lower (halve_all I bits))%Qc
    /\ (upper (halve_all I bits) <= upper I)%Qc.
Proof.
  induction bits as [|b bits IH]; intros I HI.
  - unfold halve_all; cbn. split; [done|]. split; apply Qcle_refl.
  - unfold halve_all in *. cbn [foldl].
    pose proof (midpoint_strictly_between I HI) as [Hl Hu].
    assert (lower (half_interval b I) < upper (half_interval b I))%Qc as Hhalf
        by (destruct b; done).
    destruct (IH _ Hhalf) as (H1 & H2 & H3). split; [done|].
    destruct b; cbn [half_interval set_lower set_upper lower upper] in *.
    + split; [|done]. eapply Qcle_trans; [|exact H2]. by apply Qclt_le_weak.
    + split; [done|]. eapply Qcle_trans; [exact H3|]. by apply Qclt_le_weak.
Qed.

Lemma halve_all_upper_kept (bits : list bool) :
  forall I : Interval,
    Forall (fun b => b = true) bits -> upper (halve_all I bits) = upper I.
Proof.
  induction bits as [|b bits IH]; intros I Hall; [done|].
  apply Forall_cons in Hall as [-> Hall]. unfold halve_all in *. cbn [foldl].
  by rewrite IH.
Qed.

Lemma axis_bits_all_true (d dim : nat) (w : BinaryWord) :
  forall i : nat,
    (forall p, p < length w -> (i + p) mod d = dim -> w !! p <> Some false) ->
    Forall (fun b => b = true) (axis_bits d dim i w).
Proof.
  induction w as [|b w IH]; intros i Hw; cbn [axis_bits]; [done|].
  assert (Forall (fun b => b = true) (axis_bits d dim (S i) w)) as Hrest.
  { apply IH. intros p Hp Hmod. apply (Hw (S p)); [cbn; lia|].
    by replace (i + S p) with (S i + p) by lia. }
  destruct (Nat.eqb_spec (i mod d) dim) as [Hi|Hi]; [|done].
  apply Forall_cons. split; [|done].
  specialize (Hw 0 ltac:(cbn; lia)). rewrite Nat.add_0_r in Hw. specialize (Hw Hi).
  by destruct b.
Qed.

(** ** The right corner of the primary cells *)

Lemma unbounded_right_step (h : nat) :
  (unbounded_corners (S h)).2
  = if Nat.odd (S h) then (unbounded_corners h).2
    else ((unbounded_corners h).2
          + ((unbounded_corners h).2 - (unbounded_corners h).1))%Z.
Proof. rewrite unbounded_corners_succ. by destruct (Nat.odd (S h)). Qed.

Lemma unbounded_width_step (h : nat) :
  ((unbounded_corners (S h)).2 - (unbounded_corners (S h)).1
   = 2 * ((unbounded_corners h).2 - (unbounded_corners h).1))%Z.
Proof. rewrite unbounded_corners_succ. destruct (Nat.odd (S h)); cbn; lia. Qed.

Lemma unbounded_right_mono_step (h : nat) :
  ((unbounded_corners h).2 <= (unbounded_corners (S h)).2)%Z.
Proof.
  rewrite unbounded_right_step. pose proof (unbounded_corners_lt h).
  destruct (Nat.odd (S h)); lia.
Qed.

Lemma unbounded_right_mono (h1 h2 : nat) :
  h1 <= h2 -> ((unbounded_corners h1).2 <= (unbounded_corners h2).2)%Z.
Proof.
  induction 1 as [|h2 Hle IH]; [lia|].
  pose proof (unbounded_right_mono_step h2). lia.
Qed.

Lemma unbounded_right_two_up (h : nat) :
  ((unbounded_corners h).2 + ((unbounded_corners h).2 - (unbounded_corners h).1)
   <= (unbounded_corners (S (S h))).2)%Z.
Proof.
  pose proof (unbounded_right_step h) as H1.
  pose proof (unbounded_right_step (S h)) as H2.
  pose proof (unbounded_width_step h) as Hw.
  pose proof (unbounded_corners_lt h) as Hlt.
  pose proof (unbounded_corners_lt (S h)) as Hlt'.
  change (Nat.odd (S (S h))) with (Nat.odd h) in H2.
  rewrite Nat.odd_succ in H1. rewrite <- Nat.negb_odd in H1.
  destruct (Nat.odd h); cbn [negb] in H1; lia.
Qed.

Lemma primary_cell_right_step (h : nat) :
  h < 31 ->
  (primary_cell_corners (S h)).2
  = if Nat.odd (S h) then (primary_cell_corners h).2
    else ((primary_cell_corners h).2
          + ((primary_cell_corners h).2 - (primary_cell_corners h).1))%Z.
Proof.
  intros Hh. rewrite !primary_cell_corners_unbounded by lia. apply unbounded_right_step.
Qed.

Lemma primary_cell_right_mono (h1 h2 : nat) :
  h1 <= h2 -> h2 <= 31 -> ((primary_cell_corners h1).2 <= (primary_cell_corners h2).2)%Z.
Proof.
  intros Hle Hh. rewrite !primary_cell_corners_unbounded by lia.
  by apply unbounded_right_mono.
Qed.

(** Two heights up, the right corner has moved out by at least the width. *)
Lemma primary_cell_right_two_up (h : nat) :
  h + 2 <= 31 ->
  ((primary_cell_corners h).2 + ((primary_cell_corners h).2 - (primary_cell_corners h).1)
   <= (primary_cell_corners (S (S h))).2)%Z.
Proof.
  intros Hh. rewrite !primary_cell_corners_unbounded by lia. apply unbounded_right_two_up.
Qed.

(** ** The neighbouring cell *)

Lemma neighbor_height_loop_spec (ub : Qc) (H : nat) :
  (ub <= Qc_of_Z (primary_cell_corners H).2)%Qc ->
  (forall h, h < H -> ~ (ub <= Qc_of_Z (primary_cell_corners h).2)%Qc) ->
  forall fuel k,
    k <= H -> H - k < fuel ->
    neighbor_height_loop fuel ub k (primary_cell_corners k) = Some H.
Proof.
  intros HH Hmin. induction fuel as [|fuel IH]; intros k Hk Hfuel; [lia|].
  cbn [neighbor_height_loop]. case_bool_decide as Hdec.
  - f_equal. destruct (decide (k = H)) as [|Hne]; [done|].
    exfalso. apply (Hmin k); [lia|done].
  - destruct (decide (k = H)) as [->|Hne]; [done|].
    apply (IH (S k)); lia.
Qed.

Lemma least_enclosing_height (ub : Qc) (N : nat) :
  N <= 31 ->
  (ub <= Qc_of_Z (primary_cell_corners N).2)%Qc ->
  exists H, H <= N
            /\ (ub <= Qc_of_Z (primary_cell_corners H).2)%Qc
            /\ forall h, h < H -> ~ (ub <= Qc_of_Z (primary_cell_corners h).2)%Qc.
Proof.
  induction N as [|N IH]; intros Hint HN.
  - exists 0. split; [done|]. split; [done|]. intros h Hh. lia.
  - destruct (decide (ub <= Qc_of_Z (primary_cell_corners N).2)%Qc) as [Hyes|Hno].
    + destruct (IH ltac:(lia) Hyes) as (H & HH & Hub & Hmin). exists H. split; [lia|done].
    + exists (S N). split; [done|]. split; [done|].
      intros h Hh Hub. apply Hno. eapply Qcle_trans; [exact Hub|].
      apply (proj1 (Z2Qc_inj_le _ _)), primary_cell_right_mono; lia.
Qed.

Lemma scan_back_found (w : BinaryWord) (d dim : nat) :
  forall start p,
    scan_back w d dim start = Found p ->
    p <= start /\ p mod d = dim /\ w !! p = Some false.
Proof.
  induction start as [|start IH]; intros p; cbn [scan_back].
  - destruct (Nat.eqb_spec (0 mod d) dim) as [Hm|Hm]; cbn [andb]; [|done].
    case_bool_decide as Hb; [|done]. intros [= <-]. done.
  - destruct (Nat.eqb_spec (S start mod d) dim) as [Hm|Hm]; cbn [andb].
    + case_bool_decide as Hb.
      * intros [= <-]. done.
      * intros Hp. destruct (IH p Hp) as (? & ? & ?). split; [lia|done].
    + intros Hp. destruct (IH p Hp) as (? & ? & ?). split; [lia|done].
Qed.

Lemma scan_back_wrapped (w : BinaryWord) (d dim : nat) :
  forall start,
    scan_back w d dim start = Wrapped ->
    forall p, p <= start -> p mod d = dim -> w !! p <> Some false.
Proof.
  induction start as [|start IH]; cbn [scan_back]; intros Hscan p Hp Hmod.
  - replace p with 0 in * by lia. rewrite Hmod, Nat.eqb_refl in Hscan. cbn [andb] in Hscan.
    by case_bool_decide.
  - destruct (decide (p = S start)) as [->|Hne].
    + rewrite Hmod, Nat.eqb_refl in Hscan. cbn [andb] in Hscan. by case_bool_decide.
    + destruct ((S start mod d =? dim) && bool_decide (w !! S start = Some false)); [done|].
      apply IH; [done|lia|done].
Qed.

Lemma find_position_found (w : BinaryWord) (d dim p : nat) :
  find_position w d dim = Found p ->
  p < length w /\ p mod d = dim /\ w !! p = Some false.
Proof.
  unfold find_position. destruct (length w) as [|start] eqn:Hlen; [done|].
  intros (? & ? & ?)%scan_back_found. split; [lia|done].
Qed.

Lemma find_position_wrapped (w : BinaryWord) (d dim : nat) :
  find_position w d dim = Wrapped ->
  forall p, p < length w -> p mod d = dim -> w !! p <> Some false.
Proof.
  unfold find_position. destruct (length w) as [|start] eqn:Hlen; [intros _ p; lia|].
  intros Hscan p Hp. apply (scan_back_wrapped _ _ _ _ Hscan). lia.
Qed.

(** The interval of axis [dim] of a cell: inside the primary cell, of
    positive width, and reaching the right corner when the word never
    chooses the lower half on that axis. *)
Lemma cell_axis_interval (d h dim : nat) (w : BinaryWord) :
  dim < d -> h <= 31 ->
  let I := compute_lattice_box d h w !!! dim in
  (lower I < upper I)%Qc
  /\ (Qc_of_Z (primary_cell_corners h).1 <= lower I)%Qc
  /\ (upper I <= Qc_of_Z (primary_cell_corners h).2)%Qc
  /\ ((forall p, p < length w -> p mod d = dim -> w !! p <> Some false) ->
      upper I = Qc_of_Z (primary_cell_corners h).2).
Proof.
  intros Hdim Hint I. subst I.
  rewrite (list_lookup_total_correct _ _ _ (compute_lattice_box_lookup d h dim w Hdim)).
  set (I0 := Interval_of_ints (primary_cell_corners h).1 (primary_cell_corners h).2).
  assert (lower I0 < upper I0)%Qc as HI0.
  { unfold I0, Interval_of_ints; cbn [lower upper].
    by apply (proj1 (Z2Qc_inj_lt _ _)), primary_cell_corners_lt. }
  destruct (halve_all_bounds (axis_bits d dim 0 w) I0 HI0) as (H1 & H2 & H3).
  split; [done|]. split; [done|]. split; [done|].
  intros Hall. rewrite halve_all_upper_kept; [done|].
  apply axis_bits_all_true. intros p Hp Hmod. by apply Hall.
Qed.

(** The upper border pushed out by half a width, when the sum is exact, is
    held by the primary cell two heights above the cell's. *)
Lemma upper_border_overlapping_bound (d h dim : nat) (w : BinaryWord) :
  dim < d -> h + 2 <= 31 -> upper_border_exact d h w dim ->
  (upper_border_overlapping d h w dim <= Qc_of_Z (primary_cell_corners (S (S h))).2)%Qc.
Proof.
  intros Hdim Hint Hexact. rewrite Hexact.
  destruct (cell_axis_interval d h dim w Hdim ltac:(lia)) as (Hlt & Hl & Hu & _).
  pose proof (primary_cell_right_two_up h Hint) as H2.
  apply (proj1 (Z2Qc_inj_le _ _)) in H2. rewrite Z2Qc_inj_add, Z2Qc_inj_sub in H2.
  unfold width. revert Hlt Hl Hu H2.
  generalize (Qc_of_Z (primary_cell_corners (S (S h))).2).
  generalize (Qc_of_Z (primary_cell_corners h).2).
  generalize (Qc_of_Z (primary_cell_corners h).1).
  generalize (compute_lattice_box d h w !!! dim).
  intros I L R R2 Hlt Hl Hu H2. qc_lra.
Qed.

Lemma upper_border_overlapping_gt (d h dim : nat) (w : BinaryWord) :
  dim < d -> h <= 31 -> upper_border_exact d h w dim ->
  (upper (compute_lattice_box d h w !!! dim) < upper_border_overlapping d h w dim)%Qc.
Proof.
  intros Hdim Hint Hexact. rewrite Hexact.
  destruct (cell_axis_interval d h dim w Hdim Hint) as (Hlt & _).
  unfold width. revert Hlt. generalize (compute_lattice_box d h w !!! dim).
  intros I Hlt. qc_lra.
Qed.

(** What the scan of [neighboringCell] is written for.  For a base cell of
    height at most 29 (two heights above it the corners are still [int]s)
    and an axis [dim] of the grid, when the sum of step 1 is exact: the loop
    of step 2 ends, and the backward scan over the (possibly re-rooted)
    base-cell word stops at a valid index that lies on axis [dim] and holds
    a [false] bit; [neighboringCell] returns the cell whose word has the
    bits of axis [dim] inverted from that index on. *)
Lemma neighboringCell_of_exact_border (theGrid : Grid) (theHeight : nat)
    (theWord : BinaryWord) (dim : nat) :
  dim < dimension theGrid ->
  theHeight + 2 <= 31 ->
  upper_border_exact (dimension theGrid) theHeight theWord dim ->
  exists (fuel0 theBaseCellHeight : nat) (theBaseCellWord : BinaryWord) (position : nat),
    (forall fuel, fuel0 <= fuel ->
       neighbor_base_cell fuel (dimension theGrid) theHeight theWord dim
       = Some (theBaseCellHeight, theBaseCellWord)
       /\ neighboringCell fuel theGrid theHeight theWord dim
          = Some (Neighbor (mkGridCell theGrid theBaseCellHeight
                              (invert_suffix theBaseCellWord (dimension theGrid) dim position))))
    /\ find_position theBaseCellWord (dimension theGrid) dim = Found position
    /\ position < length theBaseCellWord
    /\ position mod dimension theGrid = dim
    /\ theBaseCellWord !! position = Some false.
Proof.
  intros Hdim Hint Hexact. set (d := dimension theGrid) in *.
  set (ub := upper_border_overlapping d theHeight theWord dim).
  destruct (least_enclosing_height ub (S (S theHeight)) ltac:(lia)
              (upper_border_overlapping_bound d theHeight dim theWord Hdim Hint Hexact))
    as (H & HHle & Hub & Hmin).
  assert (forall fuel, S H <= fuel -> neighbor_height_loop fuel ub 0 (0, 1)%Z = Some H) as Hloop.
  { intros fuel Hfuel.
    apply (neighbor_height_loop_spec ub H Hub Hmin fuel 0); lia. }
  (* the word the scan runs over, and a false bit on axis [dim] in it *)
  set (base := if theHeight <? H
               then (H, primary_cell_path d H theHeight ++ theWord)
               else (theHeight, theWord)).
  assert (exists position, find_position base.2 d dim = Found position) as [position Hpos].
  { destruct (find_position base.2 d dim) as [position|] eqn:Hscan; [by exists position|].
    exfalso. pose proof (find_position_wrapped _ _ _ Hscan) as Hall.
    subst base. destruct (Nat.ltb_spec theHeight H) as [Hlt|Hge]; cbn [snd] in Hall.
    - (* re-rooted: the least height is even, its group of bits is all false *)
      destruct H as [|H']; [lia|].
      assert (Nat.odd (S H') = false) as Hodd.
      { destruct (Nat.odd (S H')) eqn:Hodd; [|done]. exfalso.
        apply (Hmin H'); [lia|].
        pose proof (primary_cell_right_step H' ltac:(lia)) as Hstep.
        rewrite Hodd in Hstep. by rewrite <- Hstep. }
      cbn [primary_cell_path] in Hall.
      destruct (Nat.ltb_spec theHeight (S H')) as [_|?]; [|lia].
      rewrite Hodd in Hall.
      apply (Hall dim).
      + rewrite !length_app, length_replicate. lia.
      + by apply Nat.mod_small.
      + rewrite <- app_assoc. rewrite lookup_app_l by (rewrite length_replicate; lia).
        by apply lookup_replicate_2.
    - (* not re-rooted: the cell would reach the right corner of its primary cell *)
      destruct (cell_axis_interval d theHeight dim theWord Hdim ltac:(lia))
        as (_ & _ & _ & Hupper).
      specialize (Hupper Hall).
      pose proof (upper_border_overlapping_gt d theHeight dim theWord Hdim ltac:(lia) Hexact)
        as Hgt.
      rewrite Hupper in Hgt. fold ub in Hgt.
      apply (Qclt_not_le _ _ Hgt). eapply Qcle_trans; [exact Hub|].
      apply (proj1 (Z2Qc_inj_le _ _)), primary_cell_right_mono; lia. }
  destruct (find_position_found _ _ _ _ Hpos) as (Hlen & Hmod & Hbit).
  exists (S H), base.1, base.2, position.
  split; [|done].
  intros fuel Hfuel.
  assert (neighbor_base_cell fuel d theHeight theWord dim = Some (base.1, base.2)) as Hbase.
  { unfold neighbor_base_cell. fold ub. rewrite (Hloop fuel Hfuel).
    subst base. by destruct (theHeight <? H). }
  split; [done|].
  unfold neighboringCell. fold d. rewrite Hbase. by rewrite Hpos.
Qed.

(** C7 (the code departs from the claim).  The cell of the unit grid of
    dimension 1 with height 0 and a word of 52 [true] bits is the interval
    from [1 - 2^-52] to [1]: its bounds are [Float]s, and half its width is
    [2^-53].  The sum [1 + 2^-53] of step 1 lies half-way between the
    [Float]s [1] and [1 + 2^-52] and is rounded to [1]: the upper border is
    not pushed out, the loop of step 2 stops at height 0, step 3 re-roots
    nothing, and the scan of step 4 runs over the 52 [true] bits, finds no
    [false] bit and takes [position] below zero. *)
Theorem neighboringCell_position_wraps :
  let theGrid := mkGrid [0%Qc] [1%Qc] in
  let theWord := replicate 52 true in
  let I := compute_lattice_box 1 0 theWord !!! 0 in
  (lower I = 1 - Qc_pow2 (-52) /\ upper I = 1 /\ width I / Qc_of_Z 2 = Qc_pow2 (-53))%Qc
  /\ round_to_Float (lower I) = lower I
  /\ upper_border_overlapping 1 0 theWord 0 = 1%Qc
  /\ (forall fuel,
        neighbor_base_cell (S fuel) (dimension theGrid) 0 theWord 0 = Some (0, theWord))
  /\ find_position theWord (dimension theGrid) 0 = Wrapped
  /\ forall fuel, neighboringCell (S fuel) theGrid 0 theWord 0 = Some PositionWrapped.
Proof.
  cbn zeta.
  assert (upper_border_overlapping 1 0 (replicate 52 true) 0 = 1%Qc) as Hub
    by (apply Qc_is_canon; by vm_compute).
  assert (forall fuel,
            neighbor_base_cell (S fuel) 1 0 (replicate 52 true) 0
            = Some (0, replicate 52 true)) as Hbase.
  { intros fuel. unfold neighbor_base_cell. rewrite Hub. done. }
  split; [repeat split; apply Qc_is_canon; by vm_compute|].
  split; [apply Qc_is_canon; by vm_compute|].
  split; [done|]. split; [done|]. split; [by vm_compute|].
  intros fuel. unfold neighboringCell. change (dimension (mkGrid [0%Qc] [1%Qc])) with 1.
  rewrite Hbase. by vm_compute.
Qed.

(** The cell of 52 [true] bits is one the pavings hold: the outer
    approximation, with 52 subdivisions, of the set that is the point 1
    leaves it as the one enabled leaf. *)
Example deep_cell_from_outer_approximation :
  exists S' : GridTreeSet,
    adjoin_outer_approximation Box_disjoint 60 (box_as_compact_set [mkInterval 1%Qc 1%Qc]) 52
      (GridTreeSet_of_grid (mkGrid [0%Qc] [1%Qc]) false) = Returns S'
    /\ enabled_cells S' = [mkGridCell (mkGrid [0%Qc] [1%Qc]) 0 (replicate 52 true)].
Proof. eexists. split; [by vm_compute|]. by vm_compute. Qed.

(** The loop of step 2 never ends when the right corner of no primary cell,
    as the [int] corners give it, reaches the upper border. *)
Lemma neighbor_height_loop_runs (ub : Qc) :
  (forall h, ~ (ub <= Qc_of_Z (primary_cell_corners h).2)%Qc) ->
  forall fuel k, neighbor_height_loop fuel ub k (primary_cell_corners k) = None.
Proof.
  intros Hout. induction fuel as [|fuel IH]; intros k; [done|].
  cbn [neighbor_height_loop]. rewrite bool_decide_eq_false_2 by apply Hout.
  apply (IH (S k)).
Qed.

(** The right corners of the primary cells stay below [2^30]. *)
Lemma primary_cell_right_corner_bound (h : nat) :
  ((primary_cell_corners h).2 <= 715827883)%Z.
Proof.
  destruct (decide (h <= 31)) as [Hint|Hout].
  - do 32 (destruct h as [|h]; [by vm_compute|]). lia.
  - by rewrite primary_cell_corners_collapse by lia.
Qed.

(** The upper half of the primary cell of height 31 reaches the right
    corner 715827883 of its primary cell, the largest an [int] corner gets
    to: the upper border pushed out by half the width lies beyond every
    primary cell, the loop of step 2 never ends, and [neighboringCell] does
    not return. *)
Example neighboringCell_past_int_range (fuel : nat) :
  upper (compute_lattice_box 1 31 [true] !!! 0) = Qc_of_Z 715827883
  /\ neighboringCell fuel (mkGrid [0%Qc] [1%Qc]) 31 [true] 0 = None.
Proof.
  split; [by apply Qc_is_canon|].
  unfold neighboringCell, neighbor_base_cell. change (dimension (mkGrid [0%Qc] [1%Qc])) with 1.
  change (0, 1)%Z with (primary_cell_corners 0).
  rewrite neighbor_height_loop_runs; [done|].
  intros h Hle.
  assert (Qc_of_Z 715827883 < upper_border_overlapping 1 31 [true] 0)%Qc as Hgt
      by by vm_compute.
  apply (Qclt_not_le _ _ Hgt). eapply Qcle_trans; [exact Hle|].
  apply (proj1 (Z2Qc_inj_le _ _)), primary_cell_right_corner_bound.
Qed.

(** The cell [3/4,1] x [0,1/2] touches the right corner of the unit primary
    cell: the base cell is re-rooted to height 2, where its word is
    [false; false; true; true; true; false; true], the scan stops at index
    0, and the neighbour is the cell [1,5/4] x [0,1/2]. *)
Example neighboringCell_example :
  neighboringCell 3 (mkGrid [0%Qc; 0%Qc] [1%Qc; 1%Qc]) 0 [true; false; true] 0
  = Some (Neighbor (mkGridCell (mkGrid [0%Qc; 0%Qc] [1%Qc; 1%Qc]) 2
                      [true; false; false; true; false; false; false])).
Proof. vm_compute. reflexivity. Qed.

(** ** [covers] against a box *)

(** C9.  For every subset [S] (the empty one included) and every box
    [theBox] that definitely does not overlap the box of the root cell of
    [S], [S.covers(theBox)] is definitely true, whatever the tree holds. *)
Theorem covers_box_outside_root_cell (overlaps : Box -> Box -> tribool)
    (S : GridTreeSubset) (theBox : Box) :
  overlaps (cell_box (theGridCell S)) theBox = TFalse ->
  GridTreeSubset_covers overlaps S theBox = Answer TTrue.
Proof.
  intros Hout. unfold GridTreeSubset_covers, cell_box in *.
  destruct (pRootTreeNode S); cbn [covers]; by rewrite Hout.
Qed.

Lemma covers_box_outside_root_cell_witness :
  let empty := mkGridTreeSubset (mkGridCell (mkGrid [0%Qc] [1%Qc]) 0 []) (Leaf TFalse) in
  let theBox := [mkInterval (Qc_of_Z 5) (Qc_of_Z 6)] in
  Box_overlaps (cell_box (theGridCell empty)) theBox = TFalse
  /\ has_enabled (pRootTreeNode empty) = false
  /\ GridTreeSubset_covers Box_overlaps empty theBox = Answer TTrue.
Proof.
  split; [vm_compute; reflexivity|]. split; [reflexivity|].
  apply (covers_box_outside_root_cell Box_overlaps
           (mkGridTreeSubset (mkGridCell (mkGrid [0%Qc] [1%Qc]) 0 []) (Leaf TFalse))
           [mkInterval (Qc_of_Z 5) (Qc_of_Z 6)]).
  vm_compute. reflexivity.
Defined.

(** The branch of [covers] that the source marks impossible is never taken. *)
Lemma covers_never_fails (overlaps : Box -> Box -> tribool) (n : BinaryTreeNode)
    (theGrid : Grid) (theHeight : nat) (theBox : Box) :
  forall theWord, exists result, covers overlaps n theGrid theHeight theWord theBox = Answer result.
Proof.
  induction n as [e|e l IHl r IHr]; intros theWord; cbn [covers].
  - destruct (tribool_to_bool _); [by eexists|]. destruct (is_enabled _); by eexists.
  - destruct (tribool_to_bool _); [by eexists|].
    destruct (IHl (theWord ++ [false])) as [rl ->].
    destruct (IHr (theWord ++ [true])) as [rr ->].
    destruct rl, rr; cbn; by eexists.
Qed.

(** ** [adjoin_over_approximation] *)

Lemma adjoin_outer_approximation_throws {Cache : Type} (box_disjoint : Box -> Box -> tribool)
    (fuel : nat) (theSet : CompactSetInterface Cache) (n : nat) (S S' : GridTreeSet)
    (e : exception) :
  adjoin_outer_approximation (Cache:=Cache) box_disjoint fuel theSet n S = Throws e S' ->
  e = AssertionFailure /\ S' = S
  /\ set_dimension theSet <> dimension (cell_grid (theGridCell S)).
Proof.
  unfold adjoin_outer_approximation.
  destruct (Nat.eqb_spec (set_dimension theSet) (dimension (cell_grid (theGridCell S))))
    as [Heq|Hne]; cbn [negb].
  - destruct (smallest_enclosing_primary_cell_height _ _ _); [|done].
    destruct (align_with_cell _ _ _ _ _) as [[[this ptr] []]|]; [done| |done].
    destruct (node_at _ _); [|done].
    destruct (as_TaylorSet theSet).
    + destruct (_adjoin_outer_approximation_taylorset _ _ _ _ _ _ _ _ _ _ _)
        as [[[? ?] ?]|]; done.
    + destruct (_adjoin_outer_approximation _ _ _ _ _ _ _ _ _) as [[? ?]|]; done.
  - intros [= <- <-]. done.
Qed.

(** C8.  [adjoin_over_approximation(theBox, n)] raises its runtime error
    exactly when some axis of the box has its lower bound at or above its
    upper bound; the paving is then as it was before the call, the test
    coming before any change.  Otherwise the call is the call of
    [adjoin_outer_approximation] on the box.  When the box has the dimension
    of the grid, so that the assertion of [adjoin_outer_approximation] holds,
    the call raises anything at all exactly in that case. *)
Theorem adjoin_over_approximation_empty_interior {Cache : Type}
    (box_disjoint : Box -> Box -> tribool) (Box_as_set : Box -> CompactSetInterface Cache)
    (fuel : nat) (theBox : Box) (n : nat) (S : GridTreeSet) :
  let call := adjoin_over_approximation (Cache:=Cache) box_disjoint Box_as_set fuel theBox n S in
  ((exists what S', call = Throws (RuntimeError what) S')
   <-> Exists (fun I => (upper I <= lower I)%Qc) theBox)
  /\ (forall what S', call = Throws (RuntimeError what) S' -> S' = S)
  /\ (Forall (fun I => (lower I < upper I)%Qc) theBox ->
      call = adjoin_outer_approximation box_disjoint fuel (Box_as_set theBox) n S)
  /\ (set_dimension (Box_as_set theBox) = dimension (cell_grid (theGridCell S)) ->
      (exists e S', call = Throws e S')
      <-> Exists (fun I => (upper I <= lower I)%Qc) theBox).
Proof.
  cbn zeta. unfold adjoin_over_approximation.
  destruct (existsb _ theBox) eqn:Hex.
  - assert (Exists (fun I => (upper I <= lower I)%Qc) theBox) as HE.
    { apply existsb_exists in Hex as (I & HI & Hdec).
      apply Exists_exists. exists I. split; [by apply list_elem_of_In|].
      by apply bool_decide_eq_true in Hdec. }
    split; [split; [done|by eexists _, _]|].
    split; [by intros what S' [= _ <-]|].
    split; [|intros _; split; [done|by eexists _, _]].
    intros Hall. exfalso. apply Exists_exists in HE as (I & HI & Hle).
    rewrite Forall_forall in Hall. by apply (Qclt_not_le _ _ (Hall I HI)).
  - assert (~ Exists (fun I => (upper I <= lower I)%Qc) theBox) as HnE.
    { intros (I & HI & Hle)%Exists_exists.
      assert (existsb (fun I => bool_decide (upper I <= lower I)%Qc) theBox = true) as Hyes.
      { apply existsb_exists. exists I. split; [by apply list_elem_of_In|].
        by apply bool_decide_eq_true. }
      congruence. }
    split; [split; [|done]|].
    + intros (what & S' & Hthrow).
      by apply adjoin_outer_approximation_throws in Hthrow as [? _].
    + split; [|split; [done|]].
      * intros what S' Hthrow.
        by apply adjoin_outer_approximation_throws in Hthrow as [? _].
      * intros Hdim. split; [|done]. intros (e & S' & Hthrow).
        by apply adjoin_outer_approximation_throws in Hthrow as (_ & _ & Hne).
Qed.

(** ** Outer approximation *)


Lemma pop_back_if_any_snoc (pPath : BinaryWord) (b : bool) :
  pop_back_if_any (pPath ++ [b]) = pPath.
Proof.
  unfold pop_back_if_any. rewrite length_app. cbn [length].
  destruct (Nat.ltb_spec 0 (length pPath + 1)); [|lia]. apply removelast_last.
Qed.

Lemma alter_set_upper_midpoint (i : nat) (lb : Box) :
  alter (set_upper (midpoint (lb !!! i))) i lb = alter (half_interval false) i lb.
Proof.
  apply list_eq. intros j. rewrite !list_lookup_alter.
  destruct (decide (i = j)); [|done].
  destruct (lb !! i) as [I|] eqn:HI; [|done].
  cbn. by rewrite (list_lookup_total_correct _ _ _ HI).
Qed.

Lemma alter_set_lower_midpoint (i : nat) (lb : Box) :
  alter (set_lower (midpoint (lb !!! i))) i lb = alter (half_interval true) i lb.
Proof.
  apply list_eq. intros j. rewrite !list_lookup_alter.
  destruct (decide (i = j)); [|done].
  destruct (lb !! i) as [I|] eqn:HI; [|done].
  cbn. by rewrite (list_lookup_total_correct _ _ _ HI).
Qed.

(** A point of a box lies in one of the two halves of the box. *)
Lemma box_contains_halves (lb : Box) :
  forall (os ls : list Qc) (x : list Qc) (i : nat),
    box_contains (lattice_box_to_space lb (mkGrid os ls)) x ->
    box_contains (lattice_box_to_space (alter (half_interval false) i lb) (mkGrid os ls)) x
    \/ box_contains (lattice_box_to_space (alter (half_interval true) i lb) (mkGrid os ls)) x.
Proof.
  unfold lattice_box_to_space, box_contains. cbn [origin lengths].
  induction lb as [|I lb IH]; intros os ls x i Hx; [by left|].
  destruct os as [|o os], ls as [|l ls];
    try (left; cbn [zip] in *; by rewrite zip_with_nil_r in * ).
  cbn [zip zip_with] in Hx.
  apply Forall2_cons_inv_l in Hx as (xi & x' & [Hlo Hhi] & Hx' & ->).
  cbn [fst snd lower upper] in Hlo, Hhi.
  destruct i as [|i]; cbn [alter list_alter zip zip_with].
  - destruct (Qclt_le_dec xi (coordinate_approx o l (midpoint I))) as [Hlt|Hge].
    + left. apply Forall2_cons. split; [|done].
      cbn [half_interval set_upper lower upper fst snd]. split; [done|].
      by apply Qclt_le_weak.
    + right. apply Forall2_cons. split; [|done].
      cbn [half_interval set_lower lower upper fst snd]. done.
  - destruct (IH os ls x' i Hx') as [Hl|Hr].
    + left. apply Forall2_cons. done.
    + right. apply Forall2_cons. done.
Qed.

Section OuterApproximationSound.

Context {Cache : Type}.
Variable box_disjoint : Box -> Box -> tribool.
Variable A : list Qc -> Prop.
Variable theSet : CompactSetInterface Cache.
Variable g : Grid.

(** The oracle is sound for [A]: the bounding box holds [A], and a
    definite answer of a disjointness test is right. *)
Hypothesis bounding_box_sound : forall x, A x -> box_contains (bounding_box theSet) x.
Hypothesis disjoint_sound :
  forall b x, disjoint theSet b = TTrue -> A x -> ~ box_contains b x.
Hypothesis taylor_disjoint_sound :
  forall ts b c x,
    as_TaylorSet theSet = Some ts -> (taylor_disjoint ts b c).1 = TTrue ->
    A x -> ~ box_contains b x.
Hypothesis box_disjoint_sound :
  forall b c x, box_disjoint b c = TTrue -> box_contains b x -> ~ box_contains c x.

Lemma covered_from_enabled_leaf (k : nat) (lb : Box) (x : list Qc) :
  box_contains (lattice_box_to_space lb g) x -> covered_from g k lb (Leaf TTrue) x.
Proof. intros Hx. exists []. split; [by apply list_elem_of_here|done]. Qed.

Lemma covered_from_branch (k : nat) (lb : Box) (e : tribool) (l r : BinaryTreeNode)
    (x : list Qc) :
  box_contains (lattice_box_to_space lb g) x ->
  (box_contains
     (lattice_box_to_space (alter (half_interval false) (k mod dimension g) lb) g) x ->
   covered_from g (S k) (alter (half_interval false) (k mod dimension g) lb) l x) ->
  (box_contains
     (lattice_box_to_space (alter (half_interval true) (k mod dimension g) lb) g) x ->
   covered_from g (S k) (alter (half_interval true) (k mod dimension g) lb) r x) ->
  covered_from g k lb (Branch e l r) x.
Proof.
  intros Hx Hl Hr. destruct g as [os ls].
  destruct (box_contains_halves lb os ls x (k mod dimension (mkGrid os ls)) Hx) as [H|H].
  - destruct (Hl H) as (p & Hp & Hbox). exists (false :: p). split; [|done].
    cbn [enabled_leaves]. apply elem_of_app. left. by apply list_elem_of_fmap_2.
  - destruct (Hr H) as (p & Hp & Hbox). exists (true :: p). split; [|done].
    cbn [enabled_leaves]. apply elem_of_app. right. by apply list_elem_of_fmap_2.
Qed.

Lemma enabled_not_internal (n : BinaryTreeNode) :
  internal_not_enabled n = true -> is_enabled n = true -> n = Leaf TTrue.
Proof.
  destruct n as [e|e l r]; unfold is_enabled; cbn.
  - by destruct e.
  - by destruct (definitely e).
Qed.

Lemma split_internal_not_enabled (n : BinaryTreeNode) :
  internal_not_enabled n = true ->
  exists e l r, split n = Branch e l r
                /\ internal_not_enabled l = true /\ internal_not_enabled r = true.
Proof.
  destruct n as [e|e l r]; cbn.
  - by eexists _, _, _.
  - intros [[_ Hl]%andb_true_iff Hr]%andb_true_iff. by eexists _, _, _.
Qed.

Lemma definitely_true (t : tribool) : definitely t = true -> t = TTrue.
Proof. by destruct t. Qed.

(** The descent of [_adjoin_outer_approximation] ends once the fuel exceeds
    the levels left, leaves the path as it found it (less its last bit),
    and its result covers every point of [A] in the cell. *)
Lemma _adjoin_outer_approximation_spec (fuel : nat) :
  forall lb n h max pPath,
    max - length pPath < fuel ->
    internal_not_enabled n = true ->
    exists n',
      _adjoin_outer_approximation box_disjoint fuel g lb n h max theSet pPath
      = Some (n', pop_back_if_any pPath)
      /\ forall x, A x -> box_contains (lattice_box_to_space lb g) x ->
                   covered_from g (length pPath) lb n' x.
Proof.
  induction fuel as [|fuel IH]; intros lb n h max pPath Hfuel Hinv; [lia|].
  cbn [_adjoin_outer_approximation].
  match goal with |- context [if ?c then Some (n, pPath) else _] => destruct c eqn:Hdisj end.
  { exists n. split; [done|]. intros x HA Hx. exfalso.
    apply orb_true_iff in Hdisj as [[_ Hd]%andb_true_iff|[_ Hd]%andb_true_iff].
    - apply definitely_true in Hd.
      by apply (box_disjoint_sound _ _ x Hd (bounding_box_sound x HA)).
    - apply definitely_true in Hd. by apply (disjoint_sound _ x Hd HA). }
  match goal with |- context [if ?c then Some (make_leaf TTrue n, pPath) else _] =>
    destruct c eqn:Hcov end.
  { exists (Leaf TTrue). split; [done|]. intros x _ Hx. by apply covered_from_enabled_leaf. }
  destruct (is_enabled n) eqn:Hen.
  { exists n. split; [done|]. intros x _ Hx.
    rewrite (enabled_not_internal n Hinv Hen). by apply covered_from_enabled_leaf. }
  destruct (Nat.ltb_spec (length pPath) max) as [Hlt|Hge].
  - destruct (split_internal_not_enabled n Hinv) as (e & l & r & -> & Hl & Hr).
    rewrite alter_set_upper_midpoint, alter_set_lower_midpoint.
    set (i := length pPath mod dimension g).
    destruct (IH (alter (half_interval false) i lb) l h max (pPath ++ [false]))
      as (l' & -> & Hcl); [rewrite length_app; cbn; lia|done|].
    rewrite pop_back_if_any_snoc.
    destruct (IH (alter (half_interval true) i lb) r h max (pPath ++ [true]))
      as (r' & -> & Hcr); [rewrite length_app; cbn; lia|done|].
    rewrite pop_back_if_any_snoc.
    rewrite length_app in Hcl, Hcr. cbn [length] in Hcl, Hcr.
    rewrite Nat.add_1_r in Hcl, Hcr.
    destruct (is_enabled l' && is_enabled r').
    + exists (Leaf TTrue). split; [done|]. intros x _ Hx. by apply covered_from_enabled_leaf.
    + exists (Branch e l' r'). split; [done|]. intros x HA Hx.
      apply covered_from_branch; [done| |]; intros Hhalf; [by apply Hcl|by apply Hcr].
  - exists (Leaf TTrue). split.
    + by destruct n.
    + intros x _ Hx. by apply covered_from_enabled_leaf.
Qed.

Lemma _adjoin_outer_approximation_taylorset_spec (ts : TaylorSet Cache) (fuel : nat) :
  as_TaylorSet theSet = Some ts ->
  forall lb cache n h max pPath,
    max - length pPath < fuel ->
    internal_not_enabled n = true ->
    exists n' cache',
      _adjoin_outer_approximation_taylorset box_disjoint fuel g lb cache n h max
        (bounding_box theSet) ts pPath
      = Some (n', pop_back_if_any pPath, cache')
      /\ forall x, A x -> box_contains (lattice_box_to_space lb g) x ->
                   covered_from g (length pPath) lb n' x.
Proof.
  intros Hts.
  induction fuel as [|fuel IH]; intros lb cache n h max pPath Hfuel Hinv; [lia|].
  cbn [_adjoin_outer_approximation_taylorset].
  match goal with |- context [let '(_, _) := ?c in _] => destruct c as [is_disjoint cache1] eqn:Hdisj end.
  destruct is_disjoint.
  { exists n, cache1. split; [done|]. intros x HA Hx. exfalso.
    destruct ((length pPath <? max)
              && definitely (box_disjoint (bounding_box theSet) (lattice_box_to_space lb g)))
      eqn:Hbb.
    - apply andb_true_iff in Hbb as [_ Hd]. apply definitely_true in Hd.
      by apply (box_disjoint_sound _ _ x Hd (bounding_box_sound x HA)).
    - destruct (length pPath =? max); [|done].
      destruct (taylor_disjoint ts (lattice_box_to_space lb g) cache) as [answer c] eqn:Hans.
      injection Hdisj as Hd _. apply definitely_true in Hd.
      apply (taylor_disjoint_sound ts (lattice_box_to_space lb g) cache x Hts); [|done|done].
      by rewrite Hans. }
  clear Hdisj.
  destruct (is_enabled n) eqn:Hen.
  { exists n, cache1. split; [done|]. intros x _ Hx.
    rewrite (enabled_not_internal n Hinv Hen). by apply covered_from_enabled_leaf. }
  destruct (Nat.ltb_spec (length pPath) max) as [Hlt|Hge].
  - destruct (split_internal_not_enabled n Hinv) as (e & l & r & -> & Hl & Hr).
    rewrite alter_set_upper_midpoint, alter_set_lower_midpoint.
    set (i := length pPath mod dimension g).
    destruct (IH (alter (half_interval false) i lb) cache1 l h max (pPath ++ [false]))
      as (l' & cache2 & -> & Hcl); [rewrite length_app; cbn; lia|done|].
    rewrite pop_back_if_any_snoc.
    destruct (IH (alter (half_interval true) i lb) cache2 r h max (pPath ++ [true]))
      as (r' & cache3 & -> & Hcr); [rewrite length_app; cbn; lia|done|].
    rewrite pop_back_if_any_snoc.
    rewrite length_app in Hcl, Hcr. cbn [length] in Hcl, Hcr.
    rewrite Nat.add_1_r in Hcl, Hcr.
    destruct (is_enabled l' && is_enabled r').
    + exists (Leaf TTrue), cache3. split; [done|]. intros x _ Hx.
      by apply covered_from_enabled_leaf.
    + exists (Branch e l' r'), cache3. split; [done|]. intros x HA Hx.
      apply covered_from_branch; [done| |]; intros Hhalf; [by apply Hcl|by apply Hcr].
  - exists (Leaf TTrue), cache1. split.
    + by destruct n.
    + intros x _ Hx. by apply covered_from_enabled_leaf.
Qed.

End OuterApproximationSound.

(** ** The smallest enclosing primary cell *)

Lemma least_witness (P : nat -> bool) (N : nat) :
  P N = true ->
  exists H, H <= N /\ P H = true /\ forall h, h < H -> P h = false.
Proof.
  assert (forall n, (forall h, h < n -> P h = false)
                    \/ exists H, H < n /\ P H = true /\ forall h, h < H -> P h = false) as Hsearch.
  { induction n as [|n [Hnone|(H & HH & HP & Hmin)]].
    - left. intros h Hh. lia.
    - destruct (P n) eqn:Hn.
      + right. exists n. split; [lia|]. split; [done|]. done.
      + left. intros h Hh. destruct (decide (h = n)) as [->|]; [done|]. apply Hnone. lia.
    - right. exists H. split; [lia|]. done. }
  intros HN. destruct (Hsearch N) as [Hnone|(H & HH & HP & Hmin)].
  - exists N. done.
  - exists H. split; [lia|]. done.
Qed.

Lemma enclosing_height_loop_spec (lb : Box) (H : nat) :
  inside lb (primary_cell_lattice_box H (length lb)) = true ->
  (forall h, h < H -> inside lb (primary_cell_lattice_box h (length lb)) = false) ->
  forall fuel k,
    k <= H -> H - k < fuel ->
    enclosing_height_loop fuel lb k (primary_cell_corners k) = Some H.
Proof.
  intros HH Hmin. induction fuel as [|fuel IH]; intros k Hk Hfuel; [lia|].
  cbn [enclosing_height_loop].
  assert (replicate (length lb)
            (Interval_of_ints (primary_cell_corners k).1 (primary_cell_corners k).2)
          = primary_cell_lattice_box k (length lb)) as ->.
  { unfold primary_cell_lattice_box. by destruct (primary_cell_corners k). }
  destruct (inside lb (primary_cell_lattice_box k (length lb))) eqn:Hin.
  - f_equal. destruct (decide (k = H)) as [|Hne]; [done|].
    rewrite Hmin in Hin by lia. done.
  - destruct (decide (k = H)) as [->|Hne]; [congruence|].
    apply (IH (S k)); lia.
Qed.

(** The loop of [smallest_enclosing_primary_cell_height] ends when some
    primary cell, as its [int] corners give it, holds the box: at the least
    such height. *)
Lemma enclosing_height_loop_ends (lb : Box) (N : nat) :
  inside lb (primary_cell_lattice_box N (length lb)) = true ->
  exists H,
    H <= N
    /\ inside lb (primary_cell_lattice_box H (length lb)) = true
    /\ (length lb = 0 -> H = 0)
    /\ forall fuel, H < fuel -> enclosing_height_loop fuel lb 0 (0, 1)%Z = Some H.
Proof.
  intros HN.
  destruct (least_witness (fun h => inside lb (primary_cell_lattice_box h (length lb))) N HN)
    as (H & HHN & HH & Hmin).
  exists H. split; [done|]. split; [done|]. split.
  - intros Hlen. destruct H as [|H]; [done|].
    specialize (Hmin 0 ltac:(lia)). cbn beta in Hmin.
    destruct lb; [|done]. done.
  - intros fuel Hfuel.
    apply (enclosing_height_loop_spec lb H HH Hmin fuel 0); lia.
Qed.

(** The loop never ends when no primary cell, as its [int] corners give it,
    holds the box: whatever the fuel, it is still running. *)
Lemma enclosing_height_loop_runs (lb : Box) :
  (forall h, inside lb (primary_cell_lattice_box h (length lb)) = false) ->
  forall fuel k, enclosing_height_loop fuel lb k (primary_cell_corners k) = None.
Proof.
  intros Hout. induction fuel as [|fuel IH]; intros k; [done|].
  cbn [enclosing_height_loop].
  assert (replicate (length lb)
            (Interval_of_ints (primary_cell_corners k).1 (primary_cell_corners k).2)
          = primary_cell_lattice_box k (length lb)) as ->.
  { unfold primary_cell_lattice_box. by destruct (primary_cell_corners k). }
  rewrite Hout. apply (IH (S k)).
Qed.

(** From height 32 on the primary cell is a single point of the lattice. *)
Lemma primary_cell_lattice_box_collapse (h d : nat) :
  32 <= h ->
  primary_cell_lattice_box h d
  = replicate d (Interval_of_ints (-1431655765) (-1431655765)).
Proof.
  intros Hh. unfold primary_cell_lattice_box. by rewrite primary_cell_corners_collapse.
Qed.

Lemma sub_box_refl (b : Box) : sub_box b b.
Proof. apply Forall2_same_length_lookup_2; [done|]. intros i I J HI HJ.
  rewrite HI in HJ. injection HJ as <-. split; apply Qcle_refl. Qed.

Lemma sub_box_trans (a b c : Box) : sub_box a b -> sub_box b c -> sub_box a c.
Proof.
  unfold sub_box. intros Hab. revert c. induction Hab as [|I J a b [H1 H2] _ IH]; intros c Hbc.
  - by apply Forall2_nil_inv_l in Hbc as ->.
  - apply Forall2_cons_inv_l in Hbc as (K & c' & [H3 H4] & Hbc & ->).
    apply Forall2_cons. split; [|by apply IH].
    split; eapply Qcle_trans; eauto.
Qed.

Lemma half_interval_sub (b : bool) (I : Interval) :
  (lower I < upper I)%Qc ->
  (lower (half_interval b I) < upper (half_interval b I))%Qc
  /\ (lower I <= lower (half_interval b I))%Qc
  /\ (upper (half_interval b I) <= upper I)%Qc.
Proof.
  intros HI. destruct (midpoint_strictly_between I HI) as [Hl Hu].
  destruct b; cbn [half_interval set_lower set_upper lower upper].
  - split; [done|]. split; [by apply Qclt_le_weak|apply Qcle_refl].
  - split; [done|]. split; [apply Qcle_refl|by apply Qclt_le_weak].
Qed.

Lemma alter_half_sub_box (b : bool) (lb : Box) :
  forall i,
    Forall (fun I => (lower I < upper I)%Qc) lb ->
    sub_box (alter (half_interval b) i lb) lb
    /\ Forall (fun I => (lower I < upper I)%Qc) (alter (half_interval b) i lb).
Proof.
  induction lb as [|I lb IH]; intros i Hvalid; [split; [constructor|done]|].
  apply Forall_cons in Hvalid as [HI Hvalid].
  destruct i as [|i]; cbn [alter list_alter].
  - destruct (half_interval_sub b I HI) as (H1 & H2 & H3). split.
    + apply Forall2_cons. split; [done|]. apply sub_box_refl.
    + by apply Forall_cons.
  - destruct (IH i Hvalid) as [Hsub Hv]. split.
    + apply Forall2_cons. split; [|done]. split; apply Qcle_refl.
    + by apply Forall_cons.
Qed.

Lemma bisect_along_sub_box (d : nat) (w : BinaryWord) :
  forall i lb,
    Forall (fun I => (lower I < upper I)%Qc) lb ->
    sub_box (bisect_along d i w lb) lb
    /\ Forall (fun I => (lower I < upper I)%Qc) (bisect_along d i w lb).
Proof.
  induction w as [|b w IH]; intros i lb Hvalid; cbn [bisect_along].
  - split; [apply sub_box_refl|done].
  - destruct (alter_half_sub_box b lb (i mod d) Hvalid) as [Hsub Hv].
    destruct (IH (S i) _ Hv) as [Hsub' Hv']. split; [|done].
    by eapply sub_box_trans.
Qed.

Lemma primary_cell_lattice_box_valid (h d : nat) :
  h <= 31 ->
  Forall (fun I => (lower I < upper I)%Qc) (primary_cell_lattice_box h d).
Proof.
  intros Hint.
  unfold primary_cell_lattice_box. pose proof (primary_cell_corners_lt h Hint) as Hlt.
  destruct (primary_cell_corners h) as [L R]. apply Forall_replicate.
  unfold Interval_of_ints; cbn [lower upper fst snd] in *.
  by apply (proj1 (Z2Qc_inj_lt _ _)).
Qed.

Lemma length_primary_cell_lattice_box (h d : nat) :
  length (primary_cell_lattice_box h d) = d.
Proof.
  unfold primary_cell_lattice_box. destruct (primary_cell_corners h).
  apply length_replicate.
Qed.

(** The box of a cell holds the boxes of the cells below it. *)
Lemma lattice_box_to_space_sub_box (lb1 : Box) :
  forall (lb2 : Box) (os ls x : list Qc),
    Forall (fun l => (0 < l)%Qc) ls ->
    sub_box lb1 lb2 ->
    box_contains (lattice_box_to_space lb1 (mkGrid os ls)) x ->
    box_contains (lattice_box_to_space lb2 (mkGrid os ls)) x.
Proof.
  unfold sub_box, lattice_box_to_space, box_contains. cbn [origin lengths].
  induction lb1 as [|I lb1 IH]; intros lb2 os ls x Hpos Hsub Hx.
  - by apply Forall2_nil_inv_l in Hsub as ->.
  - apply Forall2_cons_inv_l in Hsub as (J & lb2' & [HJl HJu] & Hsub & ->).
    destruct os as [|o os], ls as [|l ls]; cbn [zip zip_with] in *; try done.
    apply Forall2_cons_inv_l in Hx as (xi & x' & [Hlo Hhi] & Hx & ->).
    apply Forall_cons in Hpos as [Hl Hpos]. cbn [fst snd lower upper] in *.
    apply Forall2_cons. split; [|by apply (IH lb2' os ls x')].
    cbn [lower upper].
    pose proof (coordinate_approx_mono o l _ _ (Qclt_le_weak _ _ Hl) HJl) as H1.
    pose proof (coordinate_approx_mono o l _ _ (Qclt_le_weak _ _ Hl) HJu) as H2.
    split; [exact (Qcle_trans _ _ _ H1 Hlo)|exact (Qcle_trans _ _ _ Hhi H2)].
Qed.

(** ** Pointers and enabled leaves *)

Lemma enabled_leaves_node_at (ptr : BinaryWord) :
  forall n m p,
    node_at n ptr = Some m -> p ∈ enabled_leaves m -> ptr ++ p ∈ enabled_leaves n.
Proof.
  induction ptr as [|b ptr IH]; intros n m p Hat Hp.
  - cbn in Hat. by injection Hat as ->.
  - destruct n as [e|e l r]; [done|]. cbn [node_at] in Hat. cbn [enabled_leaves app].
    apply elem_of_app. destruct b.
    + right. apply list_elem_of_fmap_2. by apply (IH r m).
    + left. apply list_elem_of_fmap_2. by apply (IH l m).
Qed.

Lemma node_at_update_at (ptr : BinaryWord) :
  forall n m n', node_at n ptr = Some m -> node_at (update_at ptr n' n) ptr = Some n'.
Proof.
  induction ptr as [|b ptr IH]; intros n m n' Hat; [done|].
  destruct n as [e|e l r]; [done|]. cbn [node_at update_at] in *.
  destruct b; cbn [node_at]; eauto.
Qed.

Lemma align_descend_spec (path : BinaryWord) :
  forall n,
    internal_not_enabled n = true ->
    exists n1 ptr stopped,
      align_descend path true false false n = (n1, ptr, stopped)
      /\ if stopped
         then (exists rest, path = ptr ++ rest) /\ node_at n1 ptr = Some (Leaf TTrue)
         else ptr = path
              /\ exists m, node_at n1 ptr = Some m /\ internal_not_enabled m = true.
Proof.
  induction path as [|b path IH]; intros n Hinv.
  - exists n, [], false. split; [done|]. split; [done|]. by exists n.
  - cbn [align_descend]. rewrite andb_true_r, andb_false_r, orb_false_r.
    destruct (is_enabled n) eqn:Hen.
    + exists n, [], true. split; [done|]. split; [by eexists|].
      by rewrite (enabled_not_internal n Hinv Hen).
    + destruct (split_internal_not_enabled n Hinv) as (e & l & r & -> & Hl & Hr).
      destruct b.
      * destruct (IH r Hr) as (r' & ptr & stopped & -> & Hspec).
        exists (Branch e l r'), (true :: ptr), stopped. split; [done|].
        destruct stopped.
        -- destruct Hspec as [[rest ->] Hat]. split; [by exists rest|done].
        -- destruct Hspec as [-> Hm]. done.
      * destruct (IH l Hl) as (l' & ptr & stopped & -> & Hspec).
        exists (Branch e l' r), (false :: ptr), stopped. split; [done|].
        destruct stopped.
        -- destruct Hspec as [[rest ->] Hat]. split; [by exists rest|done].
        -- destruct Hspec as [-> Hm]. done.
Qed.

Lemma prepend_tree_at_internal_not_enabled (path : BinaryWord) (old : BinaryTreeNode) :
  path <> [] -> internal_not_enabled old = true ->
  internal_not_enabled (prepend_tree_at (Leaf TFalse) path old) = true.
Proof.
  intros Hne Hold. induction path as [|b [|b' rest] IH]; [done| |].
  - destruct b; cbn; by rewrite Hold.
  - rewrite prepend_tree_at_cons. specialize (IH ltac:(done)).
    destruct b; cbn [internal_not_enabled definitely negb andb]; by rewrite IH.
Qed.

Lemma compute_lattice_box_app (d h : nat) (w p : BinaryWord) :
  compute_lattice_box d h (w ++ p) = bisect_along d (length w) p (compute_lattice_box d h w).
Proof. unfold compute_lattice_box. by rewrite bisect_along_app. Qed.

Lemma compute_lattice_box_valid (d h : nat) (w : BinaryWord) :
  h <= 31 ->
  Forall (fun I => (lower I < upper I)%Qc) (compute_lattice_box d h w).
Proof.
  intros Hint. unfold compute_lattice_box.
  by apply (bisect_along_sub_box d w 0), primary_cell_lattice_box_valid.
Qed.

(** What [align_with_cell] hands to the outer approximation of a set whose
    bounding box lies in the primary cell of height [H]. *)
Lemma align_with_cell_spec (g : Grid) (h0 : nat) (root : BinaryTreeNode) (H : nat) :
  Forall (fun l => (0 < l)%Qc) (lengths g) ->
  (dimension g = 0 -> H = 0) ->
  h0 <= 31 -> H <= 31 ->
  internal_not_enabled root = true ->
  exists this ptr stopped h1,
    align_with_cell H true false false (mkGridTreeSubset (mkGridCell g h0 []) root)
    = Some (this, ptr, stopped)
    /\ theGridCell this = mkGridCell g h1 []
    /\ if stopped
       then forall x,
              box_contains (lattice_box_to_space (primary_cell_lattice_box H (dimension g)) g) x ->
              denotes this x
       else exists m,
              node_at (pRootTreeNode this) ptr = Some m
              /\ internal_not_enabled m = true
              /\ forall p, compute_lattice_box (dimension g) h1 (ptr ++ p)
                           = bisect_along (dimension g) 0 p
                               (primary_cell_lattice_box H (dimension g)).
Proof.
  intros Hpos Hzero Hint0 HintH Hinv. unfold align_with_cell.
  cbn [theGridCell cell_height cell_grid pRootTreeNode].
  set (d := dimension g) in *.
  destruct (Nat.ltb_spec H h0) as [Hlt|Hge].
  - (* the paving is higher: walk down the primary-cell path *)
    destruct (align_descend_spec (primary_cell_path d h0 H) root Hinv)
      as (n1 & ptr & stopped & -> & Hspec).
    exists (mkGridTreeSubset (mkGridCell g h0 []) n1), ptr, stopped, h0.
    split; [done|]. split; [done|].
    pose proof (compute_lattice_box_primary_cell_path d H [] h0 ltac:(lia) Hint0) as Hpath.
    rewrite app_nil_r in Hpath.
    destruct stopped.
    + destruct Hspec as [[rest Hrest] Hat]. intros x Hx.
      unfold denotes, enabled_boxes, enabled_cells.
      cbn [theGridCell pRootTreeNode cell_grid cell_height cell_word app].
      apply Exists_exists.
      exists (cell_box (mkGridCell g h0 ptr)). split.
      * apply list_elem_of_fmap_2, list_elem_of_fmap.
        exists ptr. split; [done|].
        rewrite <- (app_nil_r ptr). apply (enabled_leaves_node_at ptr n1 (Leaf TTrue)); [done|].
        apply list_elem_of_here.
      * unfold cell_box, compute_box. cbn [cell_grid cell_height cell_word]. fold d.
        destruct g as [os ls]. cbn [lengths] in Hpos.
        apply (lattice_box_to_space_sub_box (compute_lattice_box d h0 (ptr ++ rest))); [done| |].
        -- rewrite compute_lattice_box_app.
           by apply bisect_along_sub_box, compute_lattice_box_valid.
        -- rewrite <- Hrest, Hpath. done.
    + destruct Hspec as [-> (m & Hat & Hm)]. exists m. split; [done|]. split; [done|].
      intros p. rewrite compute_lattice_box_primary_cell_path by lia. done.
  - destruct (Nat.ltb_spec h0 H) as [Hlt|Hge'].
    + (* the paving is lower: re-root it *)
      assert (0 < d) as Hd by (destruct d; [specialize (Hzero eq_refl); lia|lia]).
      unfold up_to_primary_cell. cbn [theGridCell cell_height cell_grid pRootTreeNode]. fold d.
      pose proof (primary_cell_path_nonempty d H h0 Hd Hlt) as Hne.
      rewrite prepend_tree_nonempty by done.
      eexists _, [], false, H. split; [reflexivity|]. split; [done|].
      eexists. split; [reflexivity|]. split; [|done].
      by apply prepend_tree_at_internal_not_enabled.
    + replace h0 with H by lia.
      exists (mkGridTreeSubset (mkGridCell g H []) root), [], false, H.
      split; [done|]. split; [done|]. exists root. done.
Qed.

(** What [adjoin_outer_approximation] is written for.  Let [A] be a set of
    points with a sound oracle [theSet].  For a paving of height at most 31
    over a grid of positive lengths, with no internal node of its tree
    flagged enabled, and a bounding box that some primary cell of height at
    most 31 holds on the lattice: [adjoin_outer_approximation(theSet, n)]
    returns, and in the paving it leaves every point of [A] that lies in
    the box of the smallest enclosing primary cell lies in the box of an
    enabled leaf. *)
Lemma outer_approximation_within_int_range {Cache : Type}
    (box_disjoint : Box -> Box -> tribool)
    (A : list Qc -> Prop) (theSet : CompactSetInterface Cache) (n : nat) (S : GridTreeSet) :
  let g := cell_grid (theGridCell S) in
  Forall (fun l => (0 < l)%Qc) (lengths g) ->
  length (origin g) = dimension g ->
  cell_word (theGridCell S) = [] ->
  cell_height (theGridCell S) <= 31 ->
  internal_not_enabled (pRootTreeNode S) = true ->
  set_dimension theSet = dimension g ->
  length (bounding_box theSet) = dimension g ->
  inside (box_to_lattice (bounding_box theSet) g) (primary_cell_lattice_box 31 (dimension g))
  = true ->
  (forall x, A x -> box_contains (bounding_box theSet) x) ->
  (forall b x, disjoint theSet b = TTrue -> A x -> ~ box_contains b x) ->
  (forall ts b c x,
     as_TaylorSet theSet = Some ts -> (taylor_disjoint ts b c).1 = TTrue ->
     A x -> ~ box_contains b x) ->
  (forall b c x, box_disjoint b c = TTrue -> box_contains b x -> ~ box_contains c x) ->
  exists fuel0 H,
    H <= 31
    /\ (forall fuel, fuel0 <= fuel ->
          smallest_enclosing_primary_cell_height fuel (bounding_box theSet) g = Some H)
    /\ forall fuel, fuel0 <= fuel ->
         exists S' : GridTreeSet,
           adjoin_outer_approximation box_disjoint fuel theSet n S = Returns S'
           /\ forall x, A x -> box_contains (cell_box (mkGridCell g H [])) x -> denotes S' x.
Proof.
  destruct S as [[g h0 w] root].
  cbn [theGridCell cell_grid cell_word cell_height pRootTreeNode]. cbn zeta.
  intros Hpos Horigin -> Hint0 Hinv Hsetdim Hbbdim Hin31 Hbb Hdisj Htaylor Hboxdisj.
  set (d := dimension g) in *.
  set (lb := box_to_lattice (bounding_box theSet) g) in *.
  assert (length lb = d) as Hlb.
  { unfold lb, box_to_lattice. rewrite length_zip_with, length_zip. fold (dimension g). lia. }
  rewrite <- Hlb in Hin31.
  destruct (enclosing_height_loop_ends lb 31 Hin31) as (H & HintH & Hin & Hzero & Hloop).
  rewrite Hlb in Hin, Hzero.
  destruct (align_with_cell_spec g h0 root H Hpos Hzero Hint0 HintH Hinv)
    as (this & ptr & stopped & h1 & Halign & Hcell & Hspec).
  set (max := zero_cell_subdivisions_to_tree_subdivisions d n H).
  exists (S (H + max)), H. split; [done|].
  split; [intros fuel Hfuel; apply Hloop; lia|].
  intros fuel Hfuel.
  unfold adjoin_outer_approximation.
  cbn [theGridCell cell_grid]. fold d. rewrite Hsetdim, Nat.eqb_refl. cbn [negb].
  unfold smallest_enclosing_primary_cell_height. fold lb. rewrite Hloop by lia.
  rewrite Halign. destruct stopped.
  { exists this. split; [done|]. intros x HA Hx. by apply Hspec. }
  destruct Hspec as (m & Hat & Hm & Hboxes). rewrite Hat. fold max.
  assert (exists n',
            match as_TaylorSet theSet with
            | Some pTaylorSet =>
                match _adjoin_outer_approximation_taylorset box_disjoint fuel g
                        (compute_lattice_box d H []) (taylor_cache pTaylorSet) m H max
                        (bounding_box theSet) pTaylorSet [] with
                | Some (n0, _, _) => Some n0
                | None => None
                end
            | None =>
                match _adjoin_outer_approximation box_disjoint fuel g
                        (compute_lattice_box d H []) m H max theSet [] with
                | Some (n0, _) => Some n0
                | None => None
                end
            end = Some n'
            /\ forall x, A x ->
                 box_contains (lattice_box_to_space (primary_cell_lattice_box H d) g) x ->
                 covered_from g 0 (primary_cell_lattice_box H d) n' x)
    as (n' & -> & Hcovered).
  { pose proof (_adjoin_outer_approximation_taylorset_spec box_disjoint A theSet g
                  Hbb Htaylor Hboxdisj) as Hspec_taylor.
    pose proof (_adjoin_outer_approximation_spec box_disjoint A theSet g
                  Hbb Hdisj Hboxdisj fuel (compute_lattice_box d H []) m H max [])
      as Hspec_plain.
    destruct (as_TaylorSet theSet) as [ts|].
    - destruct (Hspec_taylor ts fuel eq_refl (compute_lattice_box d H [])
                  (taylor_cache ts) m H max [])
        as (n' & cache' & -> & Hcov); [cbn; lia|done|].
      exists n'. split; [done|]. intros x HA Hx. by apply (Hcov x HA).
    - destruct Hspec_plain as (n' & -> & Hcov); [cbn; lia|done|].
      exists n'. split; [done|]. intros x HA Hx. by apply (Hcov x HA). }
  eexists. split; [reflexivity|].
  intros x HA Hx. destruct (Hcovered x HA Hx) as (p & Hp & Hbox).
  unfold denotes, enabled_boxes, enabled_cells.
  cbn [theGridCell pRootTreeNode]. rewrite Hcell. cbn [cell_grid cell_height cell_word app].
  apply Exists_exists. exists (cell_box (mkGridCell g h1 (ptr ++ p))). split.
  - apply list_elem_of_fmap_2, list_elem_of_fmap. exists (ptr ++ p). split; [done|].
    apply (enabled_leaves_node_at ptr _ n'); [|done].
    by apply (node_at_update_at ptr _ m).
  - unfold cell_box, compute_box. cbn [cell_grid cell_height cell_word]. fold d.
    by rewrite Hboxes.
Qed.

(** *** The oracle of a box *)

Lemma Box_disjoint_sound (b c : Box) (x : list Qc) :
  Box_disjoint b c = TTrue -> box_contains b x -> ~ box_contains c x.
Proof.
  unfold Box_disjoint, Box_overlaps, box_contains.
  revert c x. induction b as [|I b IH]; intros c x Hd Hb Hc; [done|].
  apply Forall2_cons_inv_l in Hb as (xi & x' & [HIl HIu] & Hb & ->).
  destruct c as [|J c]; [done|].
  apply Forall2_cons in Hc as [[HJl HJu] Hc].
  cbn [zip_with foldr] in Hd.
  destruct (Interval_overlap I J) eqn:HIJ.
  - apply (IH c x'); [|done|done].
    destruct (foldr tribool_and TTrue (zip_with Interval_overlap b c)); cbn in Hd |- *; done.
  - unfold Interval_overlap in HIJ.
    destruct (bool_decide (lower I < upper J)%Qc && bool_decide (lower J < upper I)%Qc);
      [done|].
    destruct (bool_decide (upper J < lower I)%Qc || bool_decide (upper I < lower J)%Qc)
      eqn:Hsep; [|done].
    apply orb_true_iff in Hsep as [Hs|Hs]; apply bool_decide_eq_true in Hs.
    + apply (Qclt_not_le _ _ Hs). by eapply Qcle_trans.
    + apply (Qclt_not_le _ _ Hs). by eapply Qcle_trans.
  - apply (IH c x'); [|done|done].
    destruct (foldr tribool_and TTrue (zip_with Interval_overlap b c)); cbn in Hd |- *; done.
Qed.


(** The outer approximation of [3/8, 5/8] in the unit cell with two
    subdivisions: the two middle quarters. *)
Example adjoin_outer_approximation_example :
  adjoin_outer_approximation Box_disjoint 3
    (box_as_compact_set [mkInterval (Q2Qc (3 # 8)) (Q2Qc (5 # 8))]) 2
    (mkGridTreeSubset (mkGridCell (mkGrid [0%Qc] [1%Qc]) 0 []) (Leaf TFalse))
  = Returns (mkGridTreeSubset (mkGridCell (mkGrid [0%Qc] [1%Qc]) 0 [])
               (Branch TIndeterminate
                  (Branch TIndeterminate (Leaf TFalse) (Leaf TTrue))
                  (Branch TIndeterminate (Leaf TTrue) (Leaf TFalse)))).
Proof. vm_compute. reflexivity. Qed.

(** The outer approximation of [3/8, 5/8] in the unit cell: the smallest
    enclosing primary cell is the unit cell, its box holds the set, and
    every point of the set is covered. *)
Example outer_approximation_within_int_range_example :
  let S := mkGridTreeSubset (mkGridCell (mkGrid [0%Qc] [1%Qc]) 0 []) (Leaf TFalse) in
  let theBox := [mkInterval (Q2Qc (3 # 8)) (Q2Qc (5 # 8))] in
  exists fuel0,
    forall fuel, fuel0 <= fuel ->
      exists S' : GridTreeSet,
        adjoin_outer_approximation Box_disjoint fuel (box_as_compact_set theBox) 2 S
        = Returns S'
        /\ forall x, box_contains theBox x -> denotes S' x.
Proof.
  cbn zeta.
  destruct (outer_approximation_within_int_range Box_disjoint
              (box_contains [mkInterval (Q2Qc (3 # 8)) (Q2Qc (5 # 8))])
              (box_as_compact_set [mkInterval (Q2Qc (3 # 8)) (Q2Qc (5 # 8))]) 2
              (mkGridTreeSubset (mkGridCell (mkGrid [0%Qc] [1%Qc]) 0 []) (Leaf TFalse)))
    as (fuel0 & H & _ & Hheight & Hrun).
  - repeat constructor.
  - reflexivity.
  - reflexivity.
  - cbn. lia.
  - reflexivity.
  - reflexivity.
  - reflexivity.
  - by vm_compute.
  - intros x Hx. exact Hx.
  - intros b x Hd Hx. exact (Box_disjoint_sound _ b x Hd Hx).
  - intros ts b c x Hts. discriminate Hts.
  - intros b c x Hd Hx. exact (Box_disjoint_sound b c x Hd Hx).
  - assert (H = 0) as ->.
    { specialize (Hheight (S fuel0) ltac:(lia)).
      assert (smallest_enclosing_primary_cell_height (S fuel0)
                (bounding_box (box_as_compact_set [mkInterval (Q2Qc (3 # 8)) (Q2Qc (5 # 8))]))
                (mkGrid [0%Qc] [1%Qc]) = Some 0) as Hzero by (by vm_compute).
      cbn [theGridCell cell_grid] in Hheight. congruence. }
    exists fuel0. intros fuel Hfuel. destruct (Hrun fuel Hfuel) as (S' & Hret & Hcov).
    exists S'. split; [done|]. intros x Hx. apply Hcov; [done|].
    cbn [theGridCell cell_grid].
    assert (cell_box (mkGridCell (mkGrid [0%Qc] [1%Qc]) 0 []) = [mkInterval 0%Qc 1%Qc]) as ->.
    { vm_compute. do 2 f_equal; by apply Qc_is_canon. }
    apply Forall2_cons_inv_l in Hx as (xi & x' & [Hlo Hhi] & Hx' & ->).
    apply Forall2_nil_inv_l in Hx' as ->. cbn [lower upper] in *.
    repeat constructor; cbn [lower upper].
    + eapply Qcle_trans; [|exact Hlo]. done.
    + eapply Qcle_trans; [exact Hhi|]. done.
Qed.

(** C1 (the code departs from the claim).  A paving of the unit grid of
    dimension 1 is constructed enabled, [GridTreeSet(theGrid, true)], and
    imports the file of an internal node over an enabled and a disabled
    leaf.  [add_enabled_from_file] gives the root its two children and
    leaves the root's own flag as it was: the root is an internal node
    flagged enabled, and the one enabled leaf is the lower half of the unit
    cell.  [adjoin_outer_approximation] of the box [3/8, 5/8] with two
    subdivisions returns this paving as it is: [_adjoin_outer_approximation]
    finds the root's cell not disjoint from the set, takes the root for an
    enabled leaf at its test [is_enabled()] and adds nothing.  The point
    [9/16] of the box lies in the box of no enabled leaf. *)
Theorem outer_approximation_skips_imported_node :
  let theGrid := mkGrid [0%Qc] [1%Qc] in
  let file := [Byte.x01; Byte.x00; Byte.x01; Byte.x00; Byte.x00] in
  let fs := mkFileSystem {[ "paving"%string := file ]} ∅ in
  let theBox := [mkInterval (Q2Qc (3 # 8)) (Q2Qc (5 # 8))] in
  let imported :=
    mkGridTreeSubset (mkGridCell theGrid 0 []) (Branch TTrue (Leaf TTrue) (Leaf TFalse)) in
  import_from_file 2 "paving" (GridTreeSet_of_grid theGrid true) fs
  = FileReturns imported (mkFileSystem ∅ ∅)
  /\ reachable imported
  /\ (forall fuel,
        adjoin_outer_approximation Box_disjoint (S fuel) (box_as_compact_set theBox) 2 imported
        = Returns imported)
  /\ enabled_cells imported = [mkGridCell theGrid 0 [false]]
  /\ enabled_boxes imported = [[mkInterval 0%Qc (Q2Qc (1 # 2))]]
  /\ box_contains theBox [Q2Qc (9 # 16)]
  /\ ~ denotes imported [Q2Qc (9 # 16)].
Proof.
  cbn zeta.
  assert (import_from_file 2 "paving" (GridTreeSet_of_grid (mkGrid [0%Qc] [1%Qc]) true)
            (mkFileSystem {[ "paving"%string
                             := [Byte.x01; Byte.x00; Byte.x01; Byte.x00; Byte.x00] ]} ∅)
          = FileReturns
              (mkGridTreeSubset (mkGridCell (mkGrid [0%Qc] [1%Qc]) 0 [])
                 (Branch TTrue (Leaf TTrue) (Leaf TFalse)))
              (mkFileSystem ∅ ∅)) as Himport.
  { unfold import_from_file, fopen_read. cbn [file_contents].
    rewrite lookup_singleton_eq. cbn [GridTreeSet_of_grid pRootTreeNode theGridCell].
    change (add_enabled_from_file 2 (Leaf (tribool_of_bool true))
              [Byte.x01; Byte.x00; Byte.x01; Byte.x00; Byte.x00])
      with (Some (Branch TTrue (Leaf TTrue) (Leaf TFalse), @nil Byte.byte)).
    unfold std_remove. cbn [file_contents undeletable].
    rewrite lookup_singleton_eq. rewrite decide_False by set_solver.
    rewrite delete_singleton_eq. done. }
  assert (enabled_boxes
            (mkGridTreeSubset (mkGridCell (mkGrid [0%Qc] [1%Qc]) 0 [])
               (Branch TTrue (Leaf TTrue) (Leaf TFalse)))
          = [[mkInterval 0%Qc (Q2Qc (1 # 2))]]) as Hboxes.
  { vm_compute. do 3 f_equal; by apply Qc_is_canon. }
  split; [exact Himport|].
  split; [exact (reachable_import _ _ _ _ _ _ (reachable_of_grid _ true) Himport)|].
  split; [intros fuel; by vm_compute|].
  split; [done|]. split; [done|].
  split.
  - repeat constructor; by vm_compute.
  - unfold denotes. rewrite Hboxes.
    intros [Hin|Hin%Exists_nil]%Exists_cons; [|done].
    apply Forall2_cons in Hin as [[_ Hhi] _]. cbn [upper] in Hhi.
    unfold Qcle in Hhi. vm_compute in Hhi. by apply Hhi.
Qed.

(** No primary cell, as its [int] corners give it, reaches the lattice
    coordinate [10^9]: the right corner grows to 715827883 at height 30,
    and from height 32 on the cell is the single point -1431655765. *)
Lemma no_primary_cell_holds_billion (h : nat) :
  inside [mkInterval 0%Qc (Qc_of_Z 1000000000)] (primary_cell_lattice_box h 1) = false.
Proof.
  destruct (decide (h <= 31)) as [Hint|Hout].
  - do 32 (destruct h as [|h]; [by vm_compute|]). lia.
  - rewrite primary_cell_lattice_box_collapse by lia. by vm_compute.
Qed.

(** For a set whose bounding box reaches the lattice coordinate [10^9],
    [adjoin_outer_approximation] never returns: the loop of
    [smallest_enclosing_primary_cell_height] finds no primary cell that
    holds the box and runs on. *)
Lemma adjoin_outer_approximation_past_int_range (fuel numSubdivInDim : nat) :
  adjoin_outer_approximation Box_disjoint fuel
    (box_as_compact_set [mkInterval 0%Qc (Qc_of_Z 1000000000)]) numSubdivInDim
    (GridTreeSet_of_grid (mkGrid [0%Qc] [1%Qc]) false)
  = Running.
Proof.
  unfold adjoin_outer_approximation.
  change (negb _) with false. cbn match.
  unfold smallest_enclosing_primary_cell_height.
  assert (box_to_lattice
            (bounding_box (box_as_compact_set [mkInterval 0%Qc (Qc_of_Z 1000000000)]))
            (cell_grid (theGridCell (GridTreeSet_of_grid (mkGrid [0%Qc] [1%Qc]) false)))
          = [mkInterval 0%Qc (Qc_of_Z 1000000000)]) as ->.
  { vm_compute. do 2 f_equal; by apply Qc_is_canon. }
  change (0, 1)%Z with (primary_cell_corners 0).
  by rewrite (enclosing_height_loop_runs _ no_primary_cell_holds_billion fuel 0).
Qed.

(** ** Importing deletes the file *)

(** A successful [std::remove] leaves no file of that name and touches no
    other file. *)
Lemma std_remove_deletes filename fs :
  (std_remove filename fs).1 = 0%Z ->
  fopen_read filename (std_remove filename fs).2 = None
  /\ forall other, other <> filename ->
       fopen_read other (std_remove filename fs).2 = fopen_read other fs.
Proof.
  unfold std_remove, fopen_read.
  destruct (file_contents fs !! filename) eqn:Hfile; [|done].
  destruct (decide (filename ∈ undeletable fs)); [done|].
  intros _. cbn. split.
  - apply lookup_delete_eq.
  - intros other Hother. by apply lookup_delete_ne.
Qed.

(** A failing [std::remove] changes nothing. *)
Lemma std_remove_fails filename fs :
  (std_remove filename fs).1 <> 0%Z -> (std_remove filename fs).2 = fs.
Proof.
  unfold std_remove.
  destruct (file_contents fs !! filename); [|done].
  by destruct (decide (filename ∈ undeletable fs)).
Qed.

(** C10.  Once [import_from_file(filename)] has opened the file and read the
    tree, it calls [std::remove] whatever was read.  If the removal
    succeeds the call returns, with the tree read, in a file system where
    the file is gone and every other file is as before; if the removal
    fails the call ends in the fatal failure [Error deleting file ...] and
    the file system is unchanged. *)
Theorem import_from_file_deletes_the_file fuel filename S fs file root rest
    (Hopen : fopen_read filename fs = Some file)
    (Hread : add_enabled_from_file fuel (pRootTreeNode S) file = Some (root, rest)) :
  let S' := mkGridTreeSubset (theGridCell S) root in
  let removed := std_remove filename fs in
  ((removed.1 = 0%Z ->
      import_from_file fuel filename S fs = FileReturns S' removed.2
      /\ fopen_read filename removed.2 = None
      /\ forall other, other <> filename -> fopen_read other removed.2 = fopen_read other fs)
   /\ (removed.1 <> 0%Z ->
      import_from_file fuel filename S fs
        = FileFails ("Error deleting file " +:+ filename +:+ ".") S' fs))
  /\ forall S'' fs', import_from_file fuel filename S fs = FileReturns S'' fs' ->
       fopen_read filename fs' = None.
Proof.
  intros S' removed.
  assert (Himport : import_from_file fuel filename S fs =
            if negb (removed.1 =? 0)%Z
            then FileFails ("Error deleting file " +:+ filename +:+ ".") S' removed.2
            else FileReturns S' removed.2).
  { unfold import_from_file. rewrite Hopen, Hread.
    subst removed. by destruct (std_remove filename fs). }
  split; [split|].
  - intros Hstatus. rewrite Himport, Hstatus. cbn.
    split; [done|]. by apply std_remove_deletes.
  - intros Hstatus. rewrite Himport.
    destruct (Z.eqb_spec removed.1 0) as [|_]; [done|]. cbn.
    subst removed. by rewrite std_remove_fails.
  - intros S'' fs'. rewrite Himport.
    destruct (Z.eqb_spec removed.1 0) as [Hstatus|]; [|done]. cbn.
    intros [= _ <-]. by apply std_remove_deletes.
Qed.

(** The theorem on a file that holds one enabled leaf, imported into an empty
    paving. *)
Lemma import_from_file_deletes_the_file_witness :
  let filename := "paving.bin" in
  let fs := mkFileSystem {[ filename := [Byte.x00; Byte.x01] ]} ∅ in
  let S := mkGridTreeSubset (mkGridCell (mkGrid [0%Qc] [1%Qc]) 0 []) (Leaf TFalse) in
  fopen_read filename fs = Some [Byte.x00; Byte.x01]
  /\ add_enabled_from_file 1 (pRootTreeNode S) [Byte.x00; Byte.x01] = Some (Leaf TTrue, [])
  /\ (std_remove filename fs).1 = 0%Z
  /\ import_from_file 1 filename S fs
       = FileReturns (mkGridTreeSubset (theGridCell S) (Leaf TTrue)) (std_remove filename fs).2
  /\ fopen_read filename (std_remove filename fs).2 = None.
Proof.
  intros filename fs S.
  assert (Hopen : fopen_read filename fs = Some [Byte.x00; Byte.x01]) by reflexivity.
  assert (Hread : add_enabled_from_file 1 (pRootTreeNode S) [Byte.x00; Byte.x01]
                  = Some (Leaf TTrue, [])) by reflexivity.
  assert (Hstatus : (std_remove filename fs).1 = 0%Z) by reflexivity.
  split; [exact Hopen|]. split; [exact Hread|]. split; [exact Hstatus|].
  destruct (import_from_file_deletes_the_file 1 filename S fs _ _ _ Hopen Hread)
    as [[Hok _] _].
  destruct (Hok Hstatus) as (Hret & Hgone & _).
  split; [exact Hret | exact Hgone].
Defined.

(** The reading itself need not end: at the end of the stream [fgetc] gives
    [EOF], which is not 0, so the node is split and both children read on.
    On a stream that ends before the tree does, no fuel is enough, and the
    file is never removed. *)
Lemma add_enabled_from_file_at_end fuel n : add_enabled_from_file fuel n [] = None.
Proof.
  revert n. induction fuel as [|fuel IH]; intros n; [done|].
  cbn. by rewrite IH.
Qed.

Lemma import_from_file_truncated fuel filename S fs :
  fopen_read filename fs = Some [] ->
  import_from_file fuel filename S fs = FileRunning.
Proof.
  intros Hopen. unfold import_from_file.
  by rewrite Hopen, add_enabled_from_file_at_end.
Qed.

(** ** No operation but export leaves an indeterminate leaf *)

(** Splits a goal or a hypothesis on the leaves of a [Branch]. *)
Ltac ld_split :=
  cbn in *;
  repeat match goal with
         | H : _ && _ = true |- _ => apply andb_true_iff in H; destruct H
         | |- _ && _ = true => apply andb_true_iff; split
         end.

Create HintDb determinate.

Lemma split_determinate n :
  leaves_determinate n = true -> leaves_determinate (split n) = true.
Proof. destruct n as [e|e l r]; [|done]. cbn. intros H. by rewrite H. Qed.

Lemma set_enabled_determinate n :
  leaves_determinate n = true -> leaves_determinate (set_enabled n) = true.
Proof. by destruct n. Qed.

Lemma set_disabled_determinate n :
  leaves_determinate n = true -> leaves_determinate (set_disabled n) = true.
Proof. by destruct n. Qed.

Lemma set_flag_of_bool_determinate b n :
  leaves_determinate n = true ->
  leaves_determinate (set_flag (tribool_of_bool b) n) = true.
Proof. by destruct n, b. Qed.

Lemma node_at_determinate ptr : forall n m,
  leaves_determinate n = true -> node_at n ptr = Some m -> leaves_determinate m = true.
Proof.
  induction ptr as [|b ptr IH]; intros n m Hn Hm; cbn in Hm.
  - by injection Hm as <-.
  - destruct n as [e|e l r]; [done|]. ld_split.
    destruct b; [apply (IH r m)|apply (IH l m)]; done.
Qed.

Lemma update_at_determinate ptr : forall n m,
  leaves_determinate n = true -> leaves_determinate m = true ->
  leaves_determinate (update_at ptr m n) = true.
Proof.
  induction ptr as [|b ptr IH]; intros n m Hn Hm; cbn; [done|].
  destruct n as [e|e l r]; [done|]. ld_split.
  destruct b; ld_split; auto.
Qed.

#[local] Hint Resolve split_determinate set_enabled_determinate set_disabled_determinate
  set_flag_of_bool_determinate update_at_determinate : determinate.


Lemma add_enabled_determinate pToTreeRoot : forall pFromTreeRoot,
  leaves_determinate pToTreeRoot = true -> leaves_determinate pFromTreeRoot = true ->
  leaves_determinate (add_enabled pToTreeRoot pFromTreeRoot) = true.
Proof.
  induction pToTreeRoot as [a|a l IHl r IHr]; intros [b|b l' r'] Hto Hfrom.
  - by destruct a, b.
  - destruct a; cbn in *; done.
  - by destruct b.
  - ld_split; auto.
Qed.

Lemma add_enabled_subtree_determinate path : forall this pOtherSubTree,
  leaves_determinate this = true -> leaves_determinate pOtherSubTree = true ->
  leaves_determinate (add_enabled_subtree this pOtherSubTree path) = true.
Proof.
  induction path as [|b path IH]; intros this other Hthis Hother; cbn.
  - destruct (is_enabled this); [done|]. by apply add_enabled_determinate.
  - destruct (is_enabled this) eqn:Hen; [done|].
    destruct this as [e|e l r]; [destruct e; try done|]; cbn in *; ld_split;
      destruct b; ld_split; auto.
Qed.

Lemma add_enabled_word_determinate path : forall pRootTreeNode,
  leaves_determinate pRootTreeNode = true ->
  leaves_determinate (add_enabled_word pRootTreeNode path) = true.
Proof.
  induction path as [|b path IH]; intros n Hn; cbn.
  - by destruct n.
  - destruct n as [e|e l r]; [destruct e; try done|]; cbn in *; ld_split;
      destruct b; ld_split; auto.
Qed.

Lemma restrict_determinate pThisNode : forall pOtherNode,
  leaves_determinate pThisNode = true -> leaves_determinate pOtherNode = true ->
  leaves_determinate (restrict pThisNode pOtherNode) = true.
Proof.
  induction pThisNode as [a|a l IHl r IHr]; intros [b|b l' r'] Hthis Hother.
  - by destruct a, b.
  - by destruct a.
  - by destruct b.
  - ld_split; auto.
Qed.

Lemma remove_determinate pOtherNode : forall pThisNode,
  leaves_determinate pThisNode = true ->
  leaves_determinate (remove pThisNode pOtherNode) = true.
Proof.
  induction pOtherNode as [b|b l' IHl r' IHr]; intros [a|a l r] Hthis.
  - by destruct a, b.
  - by destruct b.
  - destruct a; try done. cbn. ld_split; auto.
  - cbn. ld_split; auto.
Qed.

Lemma mince_node_determinate depth : forall pCurrentNode,
  leaves_determinate pCurrentNode = true ->
  leaves_determinate (mince_node pCurrentNode depth) = true.
Proof.
  induction depth as [|depth IH]; intros n Hn; cbn; [done|].
  destruct (is_disabled n); [done|].
  destruct n as [e|e l r]; cbn in *; ld_split; auto.
Qed.

Lemma recombine_node_determinate pCurrentNode :
  leaves_determinate pCurrentNode = true ->
  leaves_determinate (recombine_node pCurrentNode) = true.
Proof.
  induction pCurrentNode as [a|a l IHl r IHr]; intros Hn; [done|].
  cbn. ld_split. specialize (IHl H). specialize (IHr H0).
  destruct (recombine_node l) as [el|], (recombine_node r) as [er|]; cbn; ld_split; auto.
  destruct el, er; cbn in *; ld_split; auto.
Qed.

Lemma disable_along_determinate path : forall n,
  leaves_determinate n = true -> leaves_determinate (disable_along n path) = true.
Proof.
  induction path as [|b path IH]; intros n Hn; cbn.
  - by destruct n.
  - destruct n as [e|e l r]; cbn in *; ld_split; destruct b; ld_split; auto.
Qed.

Lemma remove_cell_from_determinate n : forall path,
  leaves_determinate n = true -> leaves_determinate (remove_cell_from n path) = true.
Proof.
  induction n as [e|e l IHl r IHr]; intros path Hn.
  - cbn. destruct (is_enabled (Leaf e)); [|done]. by apply disable_along_determinate.
  - destruct path as [|b path]; [done|]. ld_split. destruct b; ld_split; auto.
Qed.

Lemma restrict_to_lower_from_determinate rootNodePath : forall n other,
  leaves_determinate n = true -> leaves_determinate other = true ->
  leaves_determinate (restrict_to_lower_from n rootNodePath other) = true.
Proof.
  induction rootNodePath as [|b path IH]; intros n other Hn Hother; cbn.
  - destruct (is_enabled n); [done|]. destruct (is_disabled n); [done|].
    by apply restrict_determinate.
  - destruct n as [e|e l r]; [destruct e; try done|]; cbn in *; ld_split;
      destruct b; ld_split; auto.
Qed.

Lemma remove_from_lower_from_determinate rootNodePath : forall n other,
  leaves_determinate n = true ->
  leaves_determinate (remove_from_lower_from n rootNodePath other) = true.
Proof.
  induction rootNodePath as [|b path IH]; intros n other Hn; cbn.
  - destruct (is_disabled n); [done|]. by apply remove_determinate.
  - destruct n as [e|e l r]; [destruct e; try done|]; cbn in *; ld_split;
      destruct b; ld_split; auto.
Qed.

Lemma restrict_to_height_from_determinate pathToPCell : forall n,
  leaves_determinate n = true ->
  leaves_determinate (restrict_to_height_from n pathToPCell) = true.
Proof.
  induction pathToPCell as [|b path IH]; intros n Hn; cbn; [done|].
  destruct n as [e|e l r]; [destruct e; try done|]; cbn in *; ld_split;
    destruct b; ld_split; auto.
Qed.

Lemma prepend_tree_at_determinate rootNodePath : forall e oldRootNode,
  indeterminate e = false -> leaves_determinate oldRootNode = true ->
  leaves_determinate (prepend_tree_at (Leaf e) rootNodePath oldRootNode) = true.
Proof.
  induction rootNodePath as [|b [|b' path] IH]; intros e old He Hold.
  - cbn. by rewrite He.
  - destruct b; cbn; rewrite He; cbn; by rewrite ?andb_true_r.
  - rewrite prepend_tree_at_cons.
    destruct b; cbn [leaves_determinate]; rewrite IH by done; cbn; by rewrite He.
Qed.

Lemma up_to_primary_cell_determinate toPCellHeight S S' :
  leaves_determinate (pRootTreeNode S) = true ->
  up_to_primary_cell toPCellHeight S = Some S' ->
  leaves_determinate (pRootTreeNode S') = true.
Proof.
  intros HS. unfold up_to_primary_cell, prepend_tree.
  destruct (primary_cell_path _ _ _) as [|b path]; [done|].
  intros [= <-]. cbn [pRootTreeNode].
  by apply (prepend_tree_at_determinate (b :: path) TFalse).
Qed.

Lemma align_descend_determinate primaryCellPath stop_on_enabled stop_on_disabled :
  forall has_stopped n,
  leaves_determinate n = true ->
  leaves_determinate
    (align_descend primaryCellPath stop_on_enabled stop_on_disabled has_stopped n).1.1 = true.
Proof.
  induction primaryCellPath as [|b path IH]; intros has_stopped n Hn; cbn; [done|].
  destruct (_ || _); [done|].
  assert (Hsplit := split_determinate _ Hn).
  destruct (split n) as [e|e l r]; [done|]. ld_split.
  destruct b.
  - specialize (IH false r). destruct (align_descend path _ _ false r) as [[r' ptr] stopped].
    ld_split; auto.
  - specialize (IH false l). destruct (align_descend path _ _ false l) as [[l' ptr] stopped].
    ld_split; auto.
Qed.

Lemma align_with_cell_determinate h stop_on_enabled stop_on_disabled has_stopped S
    this ptr stopped :
  leaves_determinate (pRootTreeNode S) = true ->
  align_with_cell h stop_on_enabled stop_on_disabled has_stopped S = Some (this, ptr, stopped) ->
  leaves_determinate (pRootTreeNode this) = true.
Proof.
  intros HS. unfold align_with_cell.
  destruct (h <? _).
  - pose proof (align_descend_determinate
                  (primary_cell_path (dimension (cell_grid (theGridCell S)))
                     (cell_height (theGridCell S)) h)
                  stop_on_enabled stop_on_disabled has_stopped _ HS) as Hd.
    destruct (align_descend _ _ _ _ _) as [[root p] s]. by intros [= <- _ _].
  - destruct (_ <? h); [|by intros [= <- _ _]].
    destruct (up_to_primary_cell h S) as [S'|] eqn:Hup; [|done].
    intros [= <- _ _]. by eapply up_to_primary_cell_determinate.
Qed.

(** Whatever acts on the aligned node keeps the leaves determinate if it
    does so on that node. *)
Lemma on_aligned_node_determinate height stop_on_enabled stop_on_disabled body S S' :
  (forall n n', leaves_determinate n = true -> body n = Some n' ->
                leaves_determinate n' = true) ->
  leaves_determinate (pRootTreeNode S) = true ->
  on_aligned_node height stop_on_enabled stop_on_disabled body S = Returns S' ->
  leaves_determinate (pRootTreeNode S') = true.
Proof.
  intros Hbody HS. unfold on_aligned_node.
  destruct (align_with_cell _ _ _ _ _) as [[[this ptr] stopped]|] eqn:Halign; [|done].
  apply align_with_cell_determinate in Halign; [|done].
  destruct stopped; [by intros [= <-]|].
  destruct (node_at _ _) as [n|] eqn:Hn; [|done].
  destruct (body n) as [n'|] eqn:Hn'; [|done].
  intros [= <-]. cbn. apply update_at_determinate; [done|].
  eapply Hbody; [|done]. by eapply node_at_determinate.
Qed.


(** The descents of the approximations split, enable and mince: from the
    equation of a call that has returned, every case of the body is
    examined. *)
Ltac ld_descent IH :=
  repeat case_match; simplify_eq; cbn; try done; eauto with determinate;
  try match goal with
      | Hs : split ?m = _, Hsp : leaves_determinate (split ?m) = true |- _ =>
          rewrite Hs in Hsp
      end;
  ld_split; eauto using mince_node_determinate.

Lemma _adjoin_outer_approximation_determinate {Cache} box_disjoint
    (theSet : CompactSetInterface Cache) g h max fuel :
  forall lb n pPath n' p',
  leaves_determinate n = true ->
  _adjoin_outer_approximation box_disjoint fuel g lb n h max theSet pPath = Some (n', p') ->
  leaves_determinate n' = true.
Proof.
  induction fuel as [|fuel IH]; intros lb n pPath n' p' Hn; [done|].
  cbn. assert (Hsplit := split_determinate _ Hn).
  intros H. ld_descent IH.
Qed.

Lemma _adjoin_outer_approximation_taylorset_determinate {Cache} box_disjoint
    (pTaylorSet : TaylorSet Cache) bb g h max fuel :
  forall lb cache n pPath n' p' cache',
  leaves_determinate n = true ->
  _adjoin_outer_approximation_taylorset box_disjoint fuel g lb cache n h max bb pTaylorSet pPath
    = Some (n', p', cache') ->
  leaves_determinate n' = true.
Proof.
  induction fuel as [|fuel IH]; intros lb cache n pPath n' p' cache' Hn; [done|].
  cbn. assert (Hsplit := split_determinate _ Hn).
  intros H. ld_descent IH.
Qed.

Lemma _adjoin_lower_approximation_determinate theSet g h max fuel :
  forall n pPath n' p',
  leaves_determinate n = true ->
  _adjoin_lower_approximation fuel g n h max theSet pPath = Some (n', p') ->
  leaves_determinate n' = true.
Proof.
  induction fuel as [|fuel IH]; intros n pPath n' p' Hn; [done|].
  cbn. assert (Hsplit := split_determinate _ Hn).
  intros H. ld_descent IH.
Qed.

Lemma _adjoin_lower_approximation_open_determinate theSet g h max fuel :
  forall n pPath n' p',
  leaves_determinate n = true ->
  _adjoin_lower_approximation_open fuel g n h max theSet pPath = Some (n', p') ->
  leaves_determinate n' = true.
Proof.
  induction fuel as [|fuel IH]; intros n pPath n' p' Hn; [done|].
  cbn. assert (Hsplit := split_determinate _ Hn).
  intros H. ld_descent IH.
Qed.

Lemma _adjoin_inner_approximation_determinate theSet g h max fuel :
  forall n pPath n' p',
  leaves_determinate n = true ->
  _adjoin_inner_approximation fuel g n h max theSet pPath = Some (n', p') ->
  leaves_determinate n' = true.
Proof.
  induction fuel as [|fuel IH]; intros n pPath n' p' Hn; [done|].
  cbn. assert (Hsplit := split_determinate _ Hn).
  intros H. ld_descent IH.
Qed.

(** What [add_enabled_from_file] returns has determinate leaves when it
    started from a leaf, whatever the flag of that leaf: every leaf it
    leaves has been given the [bool] of its byte. *)
Lemma add_enabled_from_file_determinate fuel : forall n file n' rest,
  is_leaf n = true \/ leaves_determinate n = true ->
  add_enabled_from_file fuel n file = Some (n', rest) ->
  leaves_determinate n' = true.
Proof.
  induction fuel as [|fuel IH]; intros n file n' rest Hn; [done|].
  cbn. intros H. repeat case_match; simplify_eq.
  - destruct Hn as [Hn|Hn]; [|by apply set_flag_of_bool_determinate].
    destruct n as [e|e pl pr]; cbn in *; [|done].
    match goal with |- context [(?z =? 0)%Z] => by destruct (z =? 0)%Z end.
  - ld_split; (eapply IH; [|done]; by left).
Qed.

Lemma sub_paving_determinate T S :
  leaves_determinate (pRootTreeNode S) = true -> sub_paving T S ->
  leaves_determinate (pRootTreeNode T) = true.
Proof. intros HS (ptr & Hptr & _). by eapply node_at_determinate. Qed.

Lemma adjoin_cell_determinate theCell S S' :
  leaves_determinate (pRootTreeNode S) = true ->
  adjoin_cell theCell S = Returns S' ->
  leaves_determinate (pRootTreeNode S') = true.
Proof.
  intros HS. unfold adjoin_cell. case_match; [done|].
  apply on_aligned_node_determinate; [|done].
  intros n n' Hn [= <-]. by apply add_enabled_word_determinate.
Qed.

Lemma adjoin_subset_determinate T S S' :
  leaves_determinate (pRootTreeNode T) = true ->
  leaves_determinate (pRootTreeNode S) = true ->
  adjoin_subset T S = Returns S' ->
  leaves_determinate (pRootTreeNode S') = true.
Proof.
  intros HT HS. unfold adjoin_subset. case_match; [done|].
  apply on_aligned_node_determinate; [|done].
  intros n n' Hn [= <-]. by apply add_enabled_subtree_determinate.
Qed.

Lemma remove_cell_determinate theCell S S' :
  leaves_determinate (pRootTreeNode S) = true ->
  remove_cell theCell S = Returns S' ->
  leaves_determinate (pRootTreeNode S') = true.
Proof.
  intros HS. unfold remove_cell. case_match; [done|].
  apply on_aligned_node_determinate; [|done].
  intros n n' Hn [= <-]. by apply remove_cell_from_determinate.
Qed.

Lemma raised_to_determinate T S this :
  leaves_determinate (pRootTreeNode S) = true ->
  raised_to T S = Some this ->
  leaves_determinate (pRootTreeNode this) = true.
Proof.
  intros HS. unfold raised_to. case_match; [|by intros [= <-]].
  by apply up_to_primary_cell_determinate.
Qed.

Lemma restrict_subset_determinate T S S' :
  leaves_determinate (pRootTreeNode T) = true ->
  leaves_determinate (pRootTreeNode S) = true ->
  restrict_subset T S = Returns S' ->
  leaves_determinate (pRootTreeNode S') = true.
Proof.
  intros HT HS. unfold restrict_subset. case_match; [done|].
  destruct (raised_to T S) as [this|] eqn:Hraised; [|done].
  intros [= <-]. cbn. apply restrict_to_lower_from_determinate; [|done].
  by eapply raised_to_determinate.
Qed.

Lemma remove_subset_determinate T S S' :
  leaves_determinate (pRootTreeNode S) = true ->
  remove_subset T S = Returns S' ->
  leaves_determinate (pRootTreeNode S') = true.
Proof.
  intros HS. unfold remove_subset. case_match; [done|].
  destruct (raised_to T S) as [this|] eqn:Hraised; [|done].
  intros [= <-]. cbn. apply remove_from_lower_from_determinate.
  by eapply raised_to_determinate.
Qed.

Lemma restrict_to_height_determinate theHeight S :
  leaves_determinate (pRootTreeNode S) = true ->
  leaves_determinate (pRootTreeNode (restrict_to_height theHeight S)) = true.
Proof.
  intros HS. unfold restrict_to_height. case_match; [|done].
  cbn. by apply restrict_to_height_from_determinate.
Qed.

Lemma adjoin_outer_approximation_determinate {Cache} box_disjoint fuel
    (theSet : CompactSetInterface Cache) numSubdivInDim S S' :
  leaves_determinate (pRootTreeNode S) = true ->
  adjoin_outer_approximation box_disjoint fuel theSet numSubdivInDim S = Returns S' ->
  leaves_determinate (pRootTreeNode S') = true.
Proof.
  intros HS. unfold adjoin_outer_approximation. case_match; [done|].
  destruct (smallest_enclosing_primary_cell_height _ _ _) as [height|]; [|done].
  destruct (align_with_cell _ _ _ _ _) as [[[this ptr] stopped]|] eqn:Halign; [|done].
  apply align_with_cell_determinate in Halign; [|done].
  destruct stopped; [by intros [= <-]|].
  destruct (node_at _ _) as [n|] eqn:Hn; [|done].
  apply node_at_determinate in Hn; [|done].
  intros Hret. repeat case_match; simplify_eq; cbn.
  - apply update_at_determinate; [done|].
    by eapply _adjoin_outer_approximation_taylorset_determinate.
  - apply update_at_determinate; [done|].
    by eapply _adjoin_outer_approximation_determinate.
Qed.

Lemma adjoin_over_approximation_determinate {Cache} box_disjoint
    (Box_as_set : list Interval -> CompactSetInterface Cache) fuel theBox numSubdivInDim S S' :
  leaves_determinate (pRootTreeNode S) = true ->
  adjoin_over_approximation box_disjoint Box_as_set fuel theBox numSubdivInDim S = Returns S' ->
  leaves_determinate (pRootTreeNode S') = true.
Proof.
  intros HS. unfold adjoin_over_approximation. case_match; [done|].
  by apply adjoin_outer_approximation_determinate.
Qed.

Lemma adjoin_lower_approximation_at_height_determinate fuel theSet height numSubdivInDim S S' :
  leaves_determinate (pRootTreeNode S) = true ->
  adjoin_lower_approximation_at_height fuel theSet height numSubdivInDim S = Returns S' ->
  leaves_determinate (pRootTreeNode S') = true.
Proof.
  intros HS. unfold adjoin_lower_approximation_at_height. case_match; [done|].
  apply on_aligned_node_determinate; [|done].
  intros n n' Hn. case_match.
  - destruct (_adjoin_lower_approximation_open _ _ _ _ _ _ _) as [[m p]|] eqn:Hm; [|done].
    intros [= <-]. by eapply _adjoin_lower_approximation_open_determinate.
  - destruct (_adjoin_lower_approximation _ _ _ _ _ _ _) as [[m p]|] eqn:Hm; [|done].
    intros [= <-]. by eapply _adjoin_lower_approximation_determinate.
Qed.

Lemma adjoin_lower_approximation_in_box_determinate fuel theSet theBoundingBox
    numSubdivInDim S S' :
  leaves_determinate (pRootTreeNode S) = true ->
  adjoin_lower_approximation_in_box fuel theSet theBoundingBox numSubdivInDim S = Returns S' ->
  leaves_determinate (pRootTreeNode S') = true.
Proof.
  intros HS. unfold adjoin_lower_approximation_in_box. repeat (case_match; [done|]).
  case_match; [|done]. by apply adjoin_lower_approximation_at_height_determinate.
Qed.

Lemma adjoin_inner_approximation_at_height_determinate fuel theSet height numSubdivInDim S S' :
  leaves_determinate (pRootTreeNode S) = true ->
  adjoin_inner_approximation_at_height fuel theSet height numSubdivInDim S = Returns S' ->
  leaves_determinate (pRootTreeNode S') = true.
Proof.
  intros HS. unfold adjoin_inner_approximation_at_height. case_match; [done|].
  apply on_aligned_node_determinate; [|done].
  intros n n' Hn.
  destruct (_adjoin_inner_approximation _ _ _ _ _ _ _) as [[m p]|] eqn:Hm; [|done].
  intros [= <-]. by eapply _adjoin_inner_approximation_determinate.
Qed.

Lemma adjoin_inner_approximation_determinate fuel theSet theBoundingBox numSubdivInDim S S' :
  leaves_determinate (pRootTreeNode S) = true ->
  adjoin_inner_approximation fuel theSet theBoundingBox numSubdivInDim S = Returns S' ->
  leaves_determinate (pRootTreeNode S') = true.
Proof.
  intros HS. unfold adjoin_inner_approximation. repeat (case_match; [done|]).
  case_match; [|done]. by apply adjoin_inner_approximation_at_height_determinate.
Qed.

Lemma import_from_file_determinate fuel filename S fs S' fs' :
  is_leaf (pRootTreeNode S) = true \/ leaves_determinate (pRootTreeNode S) = true ->
  import_from_file fuel filename S fs = FileReturns S' fs' ->
  leaves_determinate (pRootTreeNode S') = true.
Proof.
  intros HS. unfold import_from_file.
  destruct (fopen_read filename fs) as [file|]; [|done].
  destruct (add_enabled_from_file _ _ _) as [[root rest]|] eqn:Hread; [|done].
  apply add_enabled_from_file_determinate in Hread; [|done].
  destruct (std_remove filename fs) as [status fs'']. case_match; [done|].
  by intros [= <- _].
Qed.

Lemma binary_operation_determinate second T1 T2 S' :
  (forall S S', leaves_determinate (pRootTreeNode S) = true ->
                second T2 S = Returns S' -> leaves_determinate (pRootTreeNode S') = true) ->
  leaves_determinate (pRootTreeNode T1) = true ->
  binary_operation second T1 T2 = Returns S' ->
  leaves_determinate (pRootTreeNode S') = true.
Proof.
  intros Hsecond HT1. unfold binary_operation. case_match; [done|].
  destruct (adjoin_subset T1 _) as [S1| | |] eqn:Hadjoin; try done.
  apply adjoin_subset_determinate in Hadjoin; [|done|done].
  cbn. by apply Hsecond.
Qed.

(** What [export_to_file] leaves in memory: one leaf, [indeterminate]. *)
Lemma export_to_file_root filename S fs :
  pRootTreeNode (export_to_file filename S fs).1 = Leaf TIndeterminate.
Proof. unfold export_to_file. by rewrite remove_to_file_spec. Qed.

(** C6, as the source has it: an exported paving, freshly constructed or
    not, is left with an [indeterminate] leaf. *)
Lemma export_to_file_indeterminate_leaf :
  let S := GridTreeSet_of_grid (mkGrid [0%Qc] [1%Qc]) true in
  let exported := (export_to_file "paving.bin" S (mkFileSystem ∅ ∅)).1 in
  reachable S
  /\ pRootTreeNode exported = Leaf TIndeterminate
  /\ leaves_determinate (pRootTreeNode exported) = false.
Proof.
  intros S exported. split; [apply reachable_of_grid|]. by split.
Qed.

(** C6, amended.  In every paving reachable from a constructor by adjoining
    (cells, pavings, outer, over, lower and inner approximations), removing,
    restricting, mincing, recombining, importing, joining, intersecting and
    taking differences, no leaf is [indeterminate]; so it is after an
    export once the paving has been imported again. *)
Theorem reachable_leaves_determinate S :
  reachable S -> leaves_determinate (pRootTreeNode S) = true.
Proof.
  induction 1 as
    [ g enable | g h
    | c S S' _ IH Hop
    | T S0 S S' _ IH0 Hsub _ IH Hop
    | c S S' _ IH Hop
    | T S0 S S' _ IH0 Hsub _ IH Hop
    | T S0 S S' _ IH0 Hsub _ IH Hop
    | h S _ IH
    | k S _ IH
    | S _ IH
    | Cache box_disjoint fuel theSet k S S' _ IH Hop
    | Cache box_disjoint Box_as_set fuel theBox k S S' _ IH Hop
    | fuel theSet h k S S' _ IH Hop
    | fuel theSet bb k S S' _ IH Hop
    | fuel theSet k S S' _ IH Hop
    | fuel theSet h k S S' _ IH Hop
    | fuel theSet bb k S S' _ IH Hop
    | fuel filename S fs S' fs' _ IH Hop
    | fuel exported imported S fs fs0 S' fs' _ IH Hop
    | T1 S1 T2 S2 S' _ IH1 Hsub1 _ IH2 Hsub2 Hop
    | T1 S1 T2 S2 S' _ IH1 Hsub1 _ IH2 Hsub2 Hop
    | T1 S1 T2 S2 S' _ IH1 Hsub1 _ IH2 Hsub2 Hop ].
  - by destruct enable.
  - done.
  - by eapply adjoin_cell_determinate.
  - eapply adjoin_subset_determinate; [|done|done].
    exact (sub_paving_determinate _ _ IH0 Hsub).
  - by eapply remove_cell_determinate.
  - by eapply remove_subset_determinate.
  - eapply restrict_subset_determinate; [|done|done].
    exact (sub_paving_determinate _ _ IH0 Hsub).
  - by apply restrict_to_height_determinate.
  - by apply mince_node_determinate.
  - by apply recombine_node_determinate.
  - by eapply adjoin_outer_approximation_determinate.
  - by eapply adjoin_over_approximation_determinate.
  - by eapply adjoin_lower_approximation_at_height_determinate.
  - by eapply adjoin_lower_approximation_in_box_determinate.
  - by eapply adjoin_lower_approximation_in_box_determinate.
  - by eapply adjoin_inner_approximation_at_height_determinate.
  - by eapply adjoin_inner_approximation_determinate.
  - eapply import_from_file_determinate; [|done]. by right.
  - eapply import_from_file_determinate; [|done]. left. by rewrite export_to_file_root.
  - eapply (binary_operation_determinate adjoin_subset);
      [|exact (sub_paving_determinate _ _ IH1 Hsub1)|done].
    intros S S''. apply adjoin_subset_determinate. exact (sub_paving_determinate _ _ IH2 Hsub2).
  - eapply (binary_operation_determinate restrict_subset);
      [|exact (sub_paving_determinate _ _ IH1 Hsub1)|done].
    intros S S''. apply restrict_subset_determinate. exact (sub_paving_determinate _ _ IH2 Hsub2).
  - eapply (binary_operation_determinate remove_subset);
      [|exact (sub_paving_determinate _ _ IH1 Hsub1)|done].
    intros S S''. apply remove_subset_determinate.
Qed.

(** The paving [GridTreeSet(theGridCell)] constructs is reachable: it is the
    empty paving of the height of the cell with the cell adjoined. *)
Lemma reachable_of_cell theGridCell S :
  GridTreeSet_of_cell theGridCell = Returns S -> reachable S.
Proof.
  intros Hcell. eapply reachable_adjoin_cell; [|exact Hcell]. apply reachable_at_height.
Qed.

(** Once a paving has an [indeterminate] leaf, the operations carry it
    along: mincing the exported paving splits that leaf in two. *)
Example mince_after_export :
  let S := GridTreeSet_of_grid (mkGrid [0%Qc] [1%Qc]) true in
  let exported := (export_to_file "paving.bin" S (mkFileSystem ∅ ∅)).1 in
  pRootTreeNode (mince_paving 1 exported)
  = Branch TIndeterminate (Leaf TIndeterminate) (Leaf TIndeterminate).
Proof. done. Qed.

(** The theorem on the paving of the unit interval to which the cell of
    its right half has been adjoined. *)
Lemma reachable_leaves_determinate_witness :
  let g := mkGrid [0%Qc] [1%Qc] in
  let S := mkGridTreeSubset (mkGridCell g 0 [])
             (Branch TIndeterminate (Leaf TFalse) (Leaf TTrue)) in
  reachable S /\ leaves_determinate (pRootTreeNode S) = true.
Proof.
  intros g S.
  assert (HS : reachable S).
  { apply (reachable_adjoin_cell (mkGridCell g 0 [true]) (GridTreeSet_of_grid g false));
      [apply reachable_of_grid|].
    unfold adjoin_cell, same_grid. by rewrite bool_decide_eq_true_2. }
  split; [exact HS|]. exact (reachable_leaves_determinate S HS).
Defined.


(** ** Trees as sets of points *)

Lemma contains_ext (n : BinaryTreeNode) : forall s s' : nat -> bool,
  (forall i, s i = s' i) -> contains n s = contains n s'.
Proof.
  induction n as [e|e l IHl r IHr]; intros s s' Hs; [done|].
  cbn. rewrite (Hs 0). destruct (s' 0); [apply IHr|apply IHl]; intros i; apply Hs.
Qed.

Lemma below_ext (w : BinaryWord) : forall s s' : nat -> bool,
  (forall i, s i = s' i) -> below w s = below w s'.
Proof.
  induction w as [|b w IH]; intros s s' Hs; [done|].
  cbn. rewrite (Hs 0). f_equal. apply IH. intros i. apply Hs.
Qed.

Lemma below_through (w : BinaryWord) (s : nat -> bool) : below w (through w s) = true.
Proof.
  induction w as [|b w IH]; [done|]. cbn. rewrite eqb_reflx. cbn.
  rewrite <- IH. by apply below_ext.
Qed.

Lemma after_through (w : BinaryWord) (s : nat -> bool) (i : nat) :
  after (length w) (through w s) i = s i.
Proof. induction w as [|b w IH]; [done|]. apply IH. Qed.

Lemma has_enabled_contains (n : BinaryTreeNode) :
  has_enabled n = true <-> exists s, contains n s = true.
Proof.
  induction n as [e|e l IHl r IHr]; cbn.
  - split; [intros H; by exists (fun _ => false)|by intros [_ H]].
  - rewrite orb_true_iff, IHl, IHr. split.
    + intros [[s Hs]|[s Hs]].
      * exists (fun i => match i with 0 => false | S i => s i end). done.
      * exists (fun i => match i with 0 => true | S i => s i end). done.
    + intros [s Hs]. destruct (s 0); [right|left]; by eexists.
Qed.

Lemma all_enabled_iff (n : BinaryTreeNode) :
  all_enabled n = true <-> forall s, contains n s = true.
Proof.
  induction n as [e|e l IHl r IHr]; cbn.
  - split; [done|]. intros H. apply (H (fun _ => false)).
  - rewrite andb_true_iff, IHl, IHr. split.
    + intros [Hl Hr] s. destruct (s 0); [apply Hr|apply Hl].
    + intros H. split; intros s.
      * apply (H (fun i => match i with 0 => false | S i => s i end)).
      * apply (H (fun i => match i with 0 => true | S i => s i end)).
Qed.

Lemma is_enabled_path_iff (n : BinaryTreeNode) : forall w : BinaryWord,
  is_enabled_path n w = true <-> forall s, contains n (through w s) = true.
Proof.
  induction n as [e|e l IHl r IHr]; intros w.
  - cbn. split; [done|]. intros H. apply (H (fun _ => false)).
  - destruct w as [|b w].
    + cbn [is_enabled_path through]. apply all_enabled_iff.
    + cbn. destruct b; [apply IHr|apply IHl].
Qed.

Lemma remove_contains (pOtherNode : BinaryTreeNode) : forall pThisNode s,
  contains (remove pThisNode pOtherNode) s
  = contains pThisNode s && negb (contains pOtherNode s).
Proof.
  induction pOtherNode as [b|b l' IHl r' IHr]; intros [a|a l r] s.
  - by destruct a, b.
  - destruct b; cbn; by rewrite ?andb_true_r, ?andb_false_r.
  - destruct a; try done. cbn. destruct (s 0); [apply IHr|apply IHl].
  - cbn. destruct (s 0); [apply IHr|apply IHl].
Qed.

Lemma add_enabled_contains (pToTreeRoot : BinaryTreeNode) : forall pFromTreeRoot s,
  contains (add_enabled pToTreeRoot pFromTreeRoot) s
  = contains pToTreeRoot s || contains pFromTreeRoot s.
Proof.
  induction pToTreeRoot as [a|a l IHl r IHr]; intros [b|b l' r'] s.
  - by destruct a, b.
  - by destruct a.
  - destruct b; cbn; by rewrite ?orb_true_r, ?orb_false_r.
  - cbn. destruct (s 0); [apply IHr|apply IHl].
Qed.

Lemma add_enabled_word_contains (path : BinaryWord) : forall pRootTreeNode s,
  contains (add_enabled_word pRootTreeNode path) s
  = contains pRootTreeNode s || below path s.
Proof.
  induction path as [|b path IH]; intros n s.
  - cbn. destruct n; cbn; by rewrite orb_true_r.
  - destruct n as [e|e l r].
    + destruct e; try done; cbn; destruct b, (s 0) eqn:Hs0; cbn; rewrite ?Hs0, ?IH; cbn; done.
    + cbn. destruct b, (s 0) eqn:Hs0; cbn; rewrite ?Hs0, ?IH, ?orb_false_r; cbn; done.
Qed.

Lemma is_enabled_contains (n : BinaryTreeNode) (s : nat -> bool) :
  internal_not_enabled n = true -> is_enabled n = true -> contains n s = true.
Proof.
  destruct n as [e|e l r]; [done|]. unfold is_enabled. cbn. intros Hn He.
  by rewrite He in Hn.
Qed.

Lemma add_enabled_subtree_contains (path : BinaryWord) : forall this pOtherSubTree s,
  internal_not_enabled this = true ->
  contains (add_enabled_subtree this pOtherSubTree path) s
  = contains this s
    || (below path s && contains pOtherSubTree (after (length path) s)).
Proof.
  induction path as [|b path IH]; intros this other s Hthis.
  - cbn. destruct (is_enabled this) eqn:Hen.
    + by rewrite is_enabled_contains.
    + by rewrite add_enabled_contains.
  - cbn [add_enabled_subtree]. destruct (is_enabled this) eqn:Hen.
    + by rewrite is_enabled_contains.
    + destruct this as [e|e l r].
      * destruct e; try done; cbn; destruct b, (s 0) eqn:Hs0; cbn;
          rewrite ?Hs0, ?IH by done; cbn; done.
      * cbn in Hthis. apply andb_true_iff in Hthis as [[_ Hl]%andb_true_iff Hr].
        cbn. destruct b, (s 0) eqn:Hs0; cbn; rewrite ?Hs0, ?IH by done; cbn;
          by rewrite ?orb_false_r.
Qed.

Lemma BinaryTreeNode_overlap_iff (pRootNodeOne : BinaryTreeNode) : forall pRootNodeTwo,
  BinaryTreeNode_overlap pRootNodeOne pRootNodeTwo = true
  <-> exists s, contains pRootNodeOne s = true /\ contains pRootNodeTwo s = true.
Proof.
  induction pRootNodeOne as [a|a l IHl r IHr]; intros [b|b l' r'].
  - cbn. rewrite andb_true_iff. split; [intros [? ?]; by exists (fun _ => false)|by intros [_ ?]].
  - cbn [BinaryTreeNode_overlap]. rewrite andb_true_iff, has_enabled_contains. split.
    + intros [Ha [s Hs]]. by exists s.
    + intros [s [Ha Hs]]. split; [done|by exists s].
  - cbn [BinaryTreeNode_overlap]. rewrite andb_true_iff, has_enabled_contains. split.
    + intros [Hb [s Hs]]. by exists s.
    + intros [s [Hs Hb]]. split; [done|by exists s].
  - cbn [BinaryTreeNode_overlap]. rewrite orb_true_iff, IHl, IHr. split.
    + intros [[s Hs]|[s Hs]].
      * exists (fun i => match i with 0 => false | S i => s i end). done.
      * exists (fun i => match i with 0 => true | S i => s i end). done.
    + intros [s Hs]. cbn in Hs. destruct (s 0); [right|left]; by eexists.
Qed.

Lemma BinaryTreeNode_subset_iff (pRootNodeOne : BinaryTreeNode) : forall pRootNodeTwo,
  BinaryTreeNode_subset pRootNodeOne pRootNodeTwo = true
  <-> forall s, contains pRootNodeOne s = true -> contains pRootNodeTwo s = true.
Proof.
  induction pRootNodeOne as [a|a l IHl r IHr]; intros [b|b l' r'].
  - cbn. destruct (is_enabled (Leaf a)), (is_enabled (Leaf b)); cbn; split; try done.
    intros H. by apply (H (fun _ => false)).
  - cbn [BinaryTreeNode_subset]. destruct (is_enabled (Leaf a)) eqn:Ha; cbn [negb orb].
    + rewrite all_enabled_iff. split; [intros H s _; apply H|].
      intros H s. apply H. exact Ha.
    + split; [|done]. intros _ s Hs. cbn in Hs. congruence.
  - cbn [BinaryTreeNode_subset]. destruct (is_enabled (Leaf b)) eqn:Hb; cbn [orb].
    + split; [|done]. intros _ s _. exact Hb.
    + rewrite negb_true_iff. split.
      * intros Hnone s Hs. assert (has_enabled (Branch a l r) = true) as Hsome
          by (apply has_enabled_contains; by exists s). congruence.
      * intros H. destruct (has_enabled (Branch a l r)) eqn:Hsome; [|done].
        apply has_enabled_contains in Hsome as [s Hs]. specialize (H s Hs). cbn in H. congruence.
  - cbn [BinaryTreeNode_subset]. rewrite andb_true_iff, IHl, IHr. split.
    + intros [Hl Hr] s. cbn. destruct (s 0); [apply Hr|apply Hl].
    + intros H. split; intros s Hs.
      * apply (H (fun i => match i with 0 => false | S i => s i end)). done.
      * apply (H (fun i => match i with 0 => true | S i => s i end)). done.
Qed.

Lemma recombine_node_contains (pCurrentNode : BinaryTreeNode) (s : nat -> bool) :
  contains (recombine_node pCurrentNode) s = contains pCurrentNode s.
Proof.
  revert s. induction pCurrentNode as [e|e l IHl r IHr]; intros s; [done|].
  cbn. specialize (IHl (fun i => s (S i))). specialize (IHr (fun i => s (S i))).
  destruct (s 0) eqn:Hs0; [rewrite <- IHr|rewrite <- IHl];
    destruct (recombine_node l) as [a|a ll lr], (recombine_node r) as [b|b rl rr];
    cbn; rewrite ?Hs0; try done; destruct a, b; cbn; by rewrite ?Hs0.
Qed.

Lemma recombine_node_idempotent (pCurrentNode : BinaryTreeNode) :
  recombine_node (recombine_node pCurrentNode) = recombine_node pCurrentNode.
Proof.
  induction pCurrentNode as [e|e l IHl r IHr]; [done|].
  cbn. destruct (recombine_node l) as [a|a ll lr] eqn:Hl,
                (recombine_node r) as [b|b rl rr] eqn:Hr; cbn.
  - destruct a, b; cbn; done.
  - cbn in IHr. rewrite IHr. done.
  - cbn in IHl. rewrite IHl. done.
  - cbn in IHl, IHr. rewrite IHl, IHr. done.
Qed.

Lemma mince_node_enabled_leaves (depth : nat) : forall pCurrentNode p,
  internal_unknown pCurrentNode = true ->
  p ∈ enabled_leaves (mince_node pCurrentNode depth) -> depth <= length p.
Proof.
  induction depth as [|k IH]; intros n p Hn Hp; [lia|].
  cbn in Hp. destruct n as [e|e l r].
  - destruct e; cbn in Hp.
    + apply elem_of_app in Hp as [Hp|Hp]; apply list_elem_of_fmap in Hp as (q & -> & Hq);
        apply IH in Hq; cbn; [lia|done|lia|done].
    + by apply elem_of_nil in Hp.
    + apply elem_of_app in Hp as [Hp|Hp]; apply list_elem_of_fmap in Hp as (q & -> & Hq);
        apply IH in Hq; cbn; [lia|done|lia|done].
  - cbn in Hn. apply andb_true_iff in Hn as [[He Hl]%andb_true_iff Hr].
    destruct e; try done. cbn in Hp.
    apply elem_of_app in Hp as [Hp|Hp]; apply list_elem_of_fmap in Hp as (q & -> & Hq);
      apply IH in Hq; cbn; [lia|done|lia|done].
Qed.

Lemma mince_node_depth (k : nat) : forall pCurrentNode,
  depth (mince_node pCurrentNode k) <= Nat.max (depth pCurrentNode) k.
Proof.
  induction k as [|k IH]; intros n; [cbn; lia|].
  cbn [mince_node]. destruct (is_disabled n); [lia|].
  destruct n as [e|e l r]; cbn [split depth].
  - pose proof (IH (Leaf e)) as H. cbn [depth] in H. lia.
  - pose proof (IH l). pose proof (IH r). lia.
Qed.

Lemma tree_to_binary_words_app (n : BinaryTreeNode) : forall tree leaves,
  tree_to_binary_words n tree leaves
  = (tree ++ (tree_to_binary_words n [] []).1, leaves ++ (tree_to_binary_words n [] []).2).
Proof.
  induction n as [e|e l IHl r IHr]; intros tree leaves; [done|].
  cbn. rewrite (IHl (tree ++ [true])), (IHl [true]). cbn.
  rewrite IHr, (IHr (true :: _)). cbn. by rewrite <- !app_assoc.
Qed.

Lemma tree_to_binary_words_nonempty (n : BinaryTreeNode) :
  0 < length (tree_to_binary_words n [] []).1.
Proof.
  destruct n as [e|e l r]; cbn; [lia|].
  rewrite (tree_to_binary_words_app l [true]). cbn.
  rewrite tree_to_binary_words_app. cbn. rewrite length_app. cbn. lia.
Qed.

Lemma restore_node_words (T : BinaryTreeNode) :
  forall (fuel : nat) (e : tribool) (tree leaves tree' leaves' : list bool),
    depth T < fuel ->
    restore_node fuel (Leaf e) (length tree) (length leaves)
      (tree ++ (tree_to_binary_words T [] []).1 ++ tree')
      (leaves ++ (tree_to_binary_words T [] []).2 ++ leaves')
    = Restored (imported_as TIndeterminate T)
        (length tree + length (tree_to_binary_words T [] []).1 - 1)
        (length leaves + length (tree_to_binary_words T [] []).2).
Proof.
  induction T as [a|a l IHl r IHr]; intros fuel e tree leaves tree' leaves' Hfuel.
  - destruct fuel as [|fuel]; [cbn in Hfuel; lia|]. cbn.
    rewrite lookup_app_r, Nat.sub_diag by lia. cbn.
    rewrite lookup_app_r, Nat.sub_diag by lia. cbn.
    f_equal; lia.
  - destruct fuel as [|fuel]; [cbn in Hfuel; lia|]. cbn in Hfuel.
    cbn [tree_to_binary_words]. rewrite (tree_to_binary_words_app l [true]). cbn [app fst snd].
    rewrite (tree_to_binary_words_app r). cbn [fst snd].
    set (tl := (tree_to_binary_words l [] []).1) in *.
    set (ll := (tree_to_binary_words l [] []).2) in *.
    set (tr := (tree_to_binary_words r [] []).1) in *.
    set (lr := (tree_to_binary_words r [] []).2) in *.
    cbn [restore_node]. rewrite lookup_app_r, Nat.sub_diag by lia. cbn [lookup list_lookup app split].
    replace (tree ++ true :: (tl ++ tr) ++ tree') with ((tree ++ [true]) ++ tl ++ (tr ++ tree'))
      by (by rewrite <- !app_assoc).
    replace (leaves ++ (ll ++ lr) ++ leaves') with (leaves ++ ll ++ (lr ++ leaves'))
      by (by rewrite <- !app_assoc).
    replace (S (length tree)) with (length (tree ++ [true])) by (rewrite length_app; cbn; lia).
    rewrite IHl by lia.
    pose proof (tree_to_binary_words_nonempty l) as Hl. fold tl in Hl.
    pose proof (tree_to_binary_words_nonempty r) as Hr. fold tr in Hr.
    replace (S (length (tree ++ [true]) + length tl - 1))
      with (length ((tree ++ [true]) ++ tl)) by (rewrite !length_app; cbn; lia).
    replace (length leaves + length ll) with (length (leaves ++ ll)) by (by rewrite length_app).
    replace ((tree ++ [true]) ++ tl ++ tr ++ tree') with (((tree ++ [true]) ++ tl) ++ tr ++ tree')
      by (by rewrite <- !app_assoc).
    replace (leaves ++ ll ++ lr ++ leaves') with ((leaves ++ ll) ++ lr ++ leaves')
      by (by rewrite <- !app_assoc).
    rewrite IHr by lia. cbn [imported_as]. f_equal; cbn [length]; rewrite ?length_app; cbn [length]; lia.
Qed.

(** X1.  The three tests of enabledness say what they mean on points:
    [has_enabled] holds when some point of the cell lies in the set,
    [all_enabled] when every point does, and [is_enabled(path)] when every
    point of the cell of the path does, whether the path stops inside an
    enabled leaf or ends on a subtree that is enabled everywhere. *)
Theorem enabledness_tests_on_points (n : BinaryTreeNode) :
  (has_enabled n = true <-> exists s, contains n s = true)
  /\ (all_enabled n = true <-> forall s, contains n s = true)
  /\ (forall w, is_enabled_path n w = true <-> forall s, contains n (through w s) = true).
Proof.
  split; [apply has_enabled_contains|].
  split; [apply all_enabled_iff|apply is_enabled_path_iff].
Qed.

(** X2.  [BinaryTreeNode::remove(pThisNode, pOtherNode)] leaves in the first
    tree exactly the points that were in it and are not in the second,
    for all trees; nothing remains that the second tree holds. *)
Theorem remove_denotes_difference (pThisNode pOtherNode : BinaryTreeNode) :
  (forall s, contains (remove pThisNode pOtherNode) s
             = contains pThisNode s && negb (contains pOtherNode s))
  /\ BinaryTreeNode_overlap (remove pThisNode pOtherNode) pOtherNode = false.
Proof.
  split; [intros s; apply remove_contains|].
  destruct (BinaryTreeNode_overlap _ _) eqn:Hov; [|done].
  apply BinaryTreeNode_overlap_iff in Hov as (s & Hs & Hother).
  rewrite remove_contains, Hother in Hs. by destruct (contains pThisNode s).
Qed.

(** X3.  [BinaryTreeNode::add_enabled(pToTreeRoot, pFromTreeRoot)] makes the
    first tree the union of the two, and the second tree a subset of it. *)
Theorem add_enabled_denotes_union (pToTreeRoot pFromTreeRoot : BinaryTreeNode) :
  (forall s, contains (add_enabled pToTreeRoot pFromTreeRoot) s
             = contains pToTreeRoot s || contains pFromTreeRoot s)
  /\ BinaryTreeNode_subset pFromTreeRoot (add_enabled pToTreeRoot pFromTreeRoot) = true
  /\ BinaryTreeNode_subset pToTreeRoot (add_enabled pToTreeRoot pFromTreeRoot) = true.
Proof.
  split; [intros s; apply add_enabled_contains|].
  split; apply BinaryTreeNode_subset_iff; intros s Hs;
    rewrite add_enabled_contains, Hs; by rewrite ?orb_true_r.
Qed.

(** X4.  [BinaryTreeNode::add_enabled(pRootTreeNode, path, position)] adds
    the cell of the path and nothing else: afterwards a point is in the
    tree when it was before or lies in that cell, and [is_enabled(path)]
    answers true. *)
Theorem add_enabled_word_adds_the_cell (pRootTreeNode : BinaryTreeNode) (path : BinaryWord) :
  (forall s, contains (add_enabled_word pRootTreeNode path) s
             = contains pRootTreeNode s || below path s)
  /\ is_enabled_path (add_enabled_word pRootTreeNode path) path = true.
Proof.
  split; [intros s; apply add_enabled_word_contains|].
  apply is_enabled_path_iff. intros s.
  by rewrite add_enabled_word_contains, below_through, orb_true_r.
Qed.

(** X6.  [BinaryTreeNode::overlap] answers true exactly when the two trees
    have a point in common, which is when restricting one to the other
    leaves something enabled. *)
Theorem BinaryTreeNode_overlap_common_point (pRootNodeOne pRootNodeTwo : BinaryTreeNode) :
  (BinaryTreeNode_overlap pRootNodeOne pRootNodeTwo = true
   <-> exists s, contains pRootNodeOne s = true /\ contains pRootNodeTwo s = true)
  /\ BinaryTreeNode_overlap pRootNodeOne pRootNodeTwo
     = has_enabled (restrict pRootNodeOne pRootNodeTwo).
Proof.
  split; [apply BinaryTreeNode_overlap_iff|].
  apply eq_true_iff_eq. rewrite BinaryTreeNode_overlap_iff, has_enabled_contains.
  split; intros [s Hs]; exists s.
  - rewrite restrict_contains. by apply andb_true_iff.
  - rewrite restrict_contains in Hs. by apply andb_true_iff in Hs.
Qed.

(** X7.  [BinaryTreeNode::subset] answers true exactly when every point of
    the first tree is a point of the second, which is when removing the
    second from the first leaves nothing enabled. *)
Theorem BinaryTreeNode_subset_inclusion (pRootNodeOne pRootNodeTwo : BinaryTreeNode) :
  (BinaryTreeNode_subset pRootNodeOne pRootNodeTwo = true
   <-> forall s, contains pRootNodeOne s = true -> contains pRootNodeTwo s = true)
  /\ BinaryTreeNode_subset pRootNodeOne pRootNodeTwo
     = negb (has_enabled (remove pRootNodeOne pRootNodeTwo)).
Proof.
  split; [apply BinaryTreeNode_subset_iff|].
  apply eq_true_iff_eq. rewrite BinaryTreeNode_subset_iff, negb_true_iff. split.
  - intros Hsub. destruct (has_enabled _) eqn:Hsome; [|done].
    apply has_enabled_contains in Hsome as [s Hs]. rewrite remove_contains in Hs.
    apply andb_true_iff in Hs as [H1 H2]. by rewrite (Hsub s H1) in H2.
  - intros Hnone s Hs. destruct (contains pRootNodeTwo s) eqn:H2; [done|].
    assert (has_enabled (remove pRootNodeOne pRootNodeTwo) = true) as Hsome.
    { apply has_enabled_contains. exists s. by rewrite remove_contains, Hs, H2. }
    congruence.
Qed.

(** X8.  [BinaryTreeNode::recombine_node] keeps the set of every tree
    (indeterminate leaves included), and a recombined tree has nothing left
    to recombine. *)
Theorem recombine_keeps_the_set (pCurrentNode : BinaryTreeNode) :
  (forall s, contains (recombine pCurrentNode) s = contains pCurrentNode s)
  /\ recombine (recombine pCurrentNode) = recombine pCurrentNode.
Proof.
  split; [intros s; apply recombine_node_contains|apply recombine_node_idempotent].
Qed.

(** X9.  After [mince_node(pCurrentNode, depth)] on a tree whose internal
    nodes are flagged [indeterminate], every enabled leaf lies at depth
    [depth] or deeper, and the tree is no deeper than the deeper of the
    tree before and [depth]. *)
Theorem mince_node_reaches_depth (pCurrentNode : BinaryTreeNode) (k : nat) :
  internal_unknown pCurrentNode = true ->
  (forall p, p ∈ enabled_leaves (mince_node pCurrentNode k) -> k <= length p)
  /\ depth (mince_node pCurrentNode k) <= Nat.max (depth pCurrentNode) k.
Proof.
  intros Hn. split; [|apply mince_node_depth].
  intros p. by apply mince_node_enabled_leaves.
Qed.

Lemma mince_node_reaches_depth_witness :
  let T := Branch TIndeterminate (Leaf TTrue) (Leaf TFalse) in
  internal_unknown T = true
  /\ depth (mince_node T 3) <= Nat.max (depth T) 3.
Proof.
  split; [reflexivity|].
  apply (mince_node_reaches_depth (Branch TIndeterminate (Leaf TTrue) (Leaf TFalse)) 3).
  reflexivity.
Defined.

(** X10.  [restore_node] undoes [tree_to_binary_words]: from the two words
    written for a tree with no [indeterminate] leaf and [indeterminate]
    internal flags, started on a single node with both counters at 0, it
    rebuilds that tree, stops on the last entry of the shape word and has
    counted every leaf.  No read is out of range. *)
Theorem restore_node_of_tree_to_binary_words (T : BinaryTreeNode) (e : tribool) (fuel : nat) :
  leaves_determinate T = true -> internal_unknown T = true -> depth T < fuel ->
  let words := tree_to_binary_words T [] [] in
  restore_node fuel (Leaf e) 0 0 words.1 words.2
  = Restored T (length words.1 - 1) (length words.2).
Proof.
  intros Hleaves Hinternal Hfuel words.
  pose proof (restore_node_words T fuel e [] [] [] [] Hfuel) as H.
  cbn [app length] in H. rewrite !app_nil_r in H. subst words.
  rewrite H, imported_as_unknown by done. done.
Qed.

Lemma restore_node_of_tree_to_binary_words_witness :
  let T := Branch TIndeterminate (Leaf TTrue) (Branch TIndeterminate (Leaf TFalse) (Leaf TTrue)) in
  leaves_determinate T = true /\ internal_unknown T = true /\ depth T < 3
  /\ tree_to_binary_words T [] [] = ([true; false; true; false; false], [true; false; true])
  /\ restore_node 3 (Leaf TFalse) 0 0 [true; false; true; false; false] [true; false; true]
     = Restored T 4 3.
Proof.
  intros T. split; [reflexivity|]. split; [reflexivity|]. split; [cbn; lia|].
  split; [reflexivity|].
  apply (restore_node_of_tree_to_binary_words T TFalse 3); [reflexivity|reflexivity|cbn; lia].
Defined.

(** X11.  Exporting a paving and importing the file into the same paving
    gives the paving back: for a tree with no [indeterminate] leaf and
    [indeterminate] internal flags, and a file that can be removed, the
    import returns the paving as it was before the export, and the file
    written by the export is gone. *)
Theorem export_then_import_restores (S : GridTreeSet) (filename : string) (fs : FileSystem)
    (fuel : nat) :
  leaves_determinate (pRootTreeNode S) = true ->
  internal_unknown (pRootTreeNode S) = true ->
  depth (pRootTreeNode S) < fuel ->
  filename ∉ undeletable fs ->
  let exported := export_to_file filename S fs in
  import_from_file fuel filename exported.1 exported.2
  = FileReturns S (mkFileSystem (delete filename (file_contents fs)) (undeletable fs)).
Proof.
  intros Hleaves Hinternal Hfuel Hfile. destruct S as [c root]. cbn in *.
  unfold export_to_file, import_from_file, fopen_read, std_remove. cbn.
  rewrite remove_to_file_spec. cbn. rewrite lookup_insert_eq.
  rewrite <- (app_nil_r (tree_bytes root)).
  rewrite add_enabled_from_file_tree_bytes by done.
  rewrite imported_as_unknown by done.
  rewrite decide_False by done. cbn. by rewrite delete_insert_eq.
Qed.

Lemma export_then_import_restores_witness :
  let S := mkGridTreeSubset (mkGridCell (mkGrid [0%Qc] [1%Qc]) 0 [])
             (Branch TIndeterminate (Leaf TTrue) (Leaf TFalse)) in
  let fs := mkFileSystem ∅ ∅ in
  leaves_determinate (pRootTreeNode S) = true
  /\ internal_unknown (pRootTreeNode S) = true
  /\ import_from_file 2 "paving.bin" (export_to_file "paving.bin" S fs).1
       (export_to_file "paving.bin" S fs).2
     = FileReturns S (mkFileSystem (delete "paving.bin" (file_contents fs)) (undeletable fs)).
Proof.
  intros S fs. split; [reflexivity|]. split; [reflexivity|].
  apply (export_then_import_restores S "paving.bin" fs 2);
    [reflexivity|reflexivity|cbn; lia|set_solver].
Defined.


(** ** Points below a path *)

Lemma is_prefix_app (a b : BinaryWord) :
  is_prefix a b = true <-> b = a ++ drop (length a) b.
Proof.
  revert b. induction a as [|x a IH]; intros b; [done|].
  destruct b as [|y b]; [done|]. cbn. rewrite andb_true_iff, IH. split.
  - intros [Hxy Hb]. apply eqb_prop in Hxy as ->. by rewrite <- Hb.
  - intros [= -> Hb]. by rewrite eqb_reflx.
Qed.

Lemma is_prefix_app_r (a q : BinaryWord) : is_prefix a (a ++ q) = true.
Proof. apply is_prefix_app. by rewrite drop_app_length. Qed.

Lemma below_app (a b : BinaryWord) : forall s,
  below (a ++ b) s = below a s && below b (after (length a) s).
Proof.
  induction a as [|x a IH]; intros s; [done|].
  cbn. rewrite IH. by rewrite andb_assoc.
Qed.

Lemma through_below (q : BinaryWord) : forall (s : nat -> bool) (i : nat),
  below q s = true -> through q (after (length q) s) i = s i.
Proof.
  induction q as [|b q IH]; intros s i Hs; [done|].
  cbn in Hs. apply andb_true_iff in Hs as [Hb Hq]. apply eqb_prop in Hb.
  destruct i as [|i]; [done|]. cbn. by rewrite (IH (fun i => s (S i))).
Qed.

Lemma below_comparable (a : BinaryWord) : forall (b : BinaryWord) (s : nat -> bool),
  below a s = true -> below b s = true -> is_prefix a b || is_prefix b a = true.
Proof.
  induction a as [|x a IH]; intros b s Ha Hb; [done|].
  destruct b as [|y b]; [done|]. cbn in *.
  apply andb_true_iff in Ha as [Hx Ha]. apply andb_true_iff in Hb as [Hy Hb].
  apply eqb_prop in Hx, Hy. subst. rewrite !eqb_reflx. cbn. by eapply IH.
Qed.

(** A cell strictly above another has a point outside of it. *)
Lemma below_outside (p : BinaryWord) (b : bool) (q : BinaryWord) :
  exists s, below p s = true /\ below (p ++ b :: q) s = false.
Proof.
  exists (through p (fun _ => negb b)). split; [apply below_through|].
  rewrite below_app, below_through. cbn. rewrite after_through. by destruct b.
Qed.

Lemma contains_after_through (n : BinaryTreeNode) (p : BinaryWord) (s : nat -> bool) :
  contains n (after (length p) (through p s)) = contains n s.
Proof. apply contains_ext. intros i. apply after_through. Qed.

Lemma contains_after_app (n : BinaryTreeNode) (p q : BinaryWord) (s : nat -> bool) :
  contains n (after (length (p ++ q)) s) = contains n (after (length q) (after (length p) s)).
Proof.
  apply contains_ext. intros i. unfold after. rewrite length_app. f_equal. lia.
Qed.

(** ** The tree below a path against the tree above *)

Lemma locate_node_leaf (n : BinaryTreeNode) : forall q s,
  is_leaf (locate_node n q) = true ->
  below q s = true -> contains n s = is_enabled (locate_node n q).
Proof.
  induction n as [e|e l IHl r IHr]; intros q s Hleaf Hq.
  - by destruct q.
  - destruct q as [|b q]; [done|]. cbn in *.
    apply andb_true_iff in Hq as [Hb Hq]. apply eqb_prop in Hb. rewrite Hb.
    destruct b; [by apply IHr|by apply IHl].
Qed.

Lemma locate_node_branch (n : BinaryTreeNode) : forall q s,
  is_leaf (locate_node n q) = false ->
  below q s = true -> contains n s = contains (locate_node n q) (after (length q) s).
Proof.
  induction n as [e|e l IHl r IHr]; intros q s Hleaf Hq.
  - by destruct q.
  - destruct q as [|b q]; [done|]. cbn [locate_node] in *.
    cbn in Hq. apply andb_true_iff in Hq as [Hb Hq]. apply eqb_prop in Hb.
    cbn [contains]. rewrite Hb.
    destruct b; [by rewrite (IHr q _ Hleaf Hq)|by rewrite (IHl q _ Hleaf Hq)].
Qed.

Lemma overlap_super_sub_iff (sup : BinaryTreeNode) (q : BinaryWord) (sub : BinaryTreeNode) :
  overlap_super_sub sup q sub = true
  <-> exists s, contains sup s = true /\ below q s = true
                /\ contains sub (after (length q) s) = true.
Proof.
  unfold overlap_super_sub. split.
  - destruct (has_enabled sup) eqn:Hsup; [|done].
    destruct (has_enabled sub) eqn:Hsub; [|done]. cbn [andb].
    apply has_enabled_contains in Hsub as [s' Hs'].
    destruct (is_leaf (locate_node sup q)) eqn:Hleaf.
    + intros Hen. exists (through q s').
      rewrite (locate_node_leaf sup q _ Hleaf (below_through q s')), below_through.
      by rewrite contains_after_through.
    + intros (s & H1 & H2)%BinaryTreeNode_overlap_iff. exists (through q s).
      rewrite (locate_node_branch sup q _ Hleaf (below_through q s)), below_through.
      rewrite (contains_after_through _ q s), (contains_after_through _ q s). done.
  - intros (s & Hsup & Hq & Hsub).
    assert (has_enabled sup = true) as -> by (apply has_enabled_contains; by exists s).
    assert (has_enabled sub = true) as -> by (apply has_enabled_contains; by eexists).
    cbn [andb]. destruct (is_leaf (locate_node sup q)) eqn:Hleaf.
    + by rewrite <- (locate_node_leaf sup q s Hleaf Hq).
    + apply BinaryTreeNode_overlap_iff. exists (after (length q) s).
      by rewrite <- (locate_node_branch sup q s Hleaf Hq).
Qed.

Lemma subset_sub_in_super_iff (sub sup : BinaryTreeNode) (q : BinaryWord) :
  subset_sub_in_super sub sup q = true
  <-> forall s, below q s = true -> contains sub (after (length q) s) = true ->
                contains sup s = true.
Proof.
  unfold subset_sub_in_super. split.
  - destruct (has_enabled sub) eqn:Hsub.
    + destruct (has_enabled sup) eqn:Hsup; [|done].
      destruct (is_leaf (locate_node sup q)) eqn:Hleaf.
      * intros Hen s Hq _. by rewrite (locate_node_leaf sup q s Hleaf Hq).
      * intros Hsubset s Hq Hs. rewrite (locate_node_branch sup q s Hleaf Hq).
        by apply (proj1 (BinaryTreeNode_subset_iff _ _) Hsubset).
    + intros _ s _ Hs.
      assert (has_enabled sub = true) by (apply has_enabled_contains; by eexists).
      congruence.
  - intros Hall. destruct (has_enabled sub) eqn:Hsub; [|done].
    apply has_enabled_contains in Hsub as [s' Hs'].
    assert (contains sup (through q s') = true) as Hsup.
    { apply Hall; [apply below_through|by rewrite contains_after_through]. }
    assert (has_enabled sup = true) as -> by (apply has_enabled_contains; by eexists).
    destruct (is_leaf (locate_node sup q)) eqn:Hleaf.
    + by rewrite <- (locate_node_leaf sup q _ Hleaf (below_through q s')).
    + apply BinaryTreeNode_subset_iff. intros s Hs.
      rewrite <- (contains_after_through _ q s).
      rewrite <- (locate_node_branch sup q _ Hleaf (below_through q s)).
      apply Hall; [apply below_through|by rewrite contains_after_through].
Qed.

Lemma subset_super_in_sub_step (e : tribool) (l r : BinaryTreeNode) (b : bool)
    (q : BinaryWord) (sub : BinaryTreeNode) :
  subset_super_in_sub (Branch e l r) (b :: q) sub
  = if has_enabled (if b then l else r) then false
    else subset_super_in_sub (if b then r else l) q sub.
Proof.
  unfold subset_super_in_sub. cbn [walk_checking_siblings].
  by destruct (has_enabled (if b then l else r)).
Qed.

Lemma subset_super_in_sub_iff (q : BinaryWord) : forall (sup sub : BinaryTreeNode),
  subset_super_in_sub sup q sub = true
  <-> forall s, contains sup s = true ->
                below q s = true /\ contains sub (after (length q) s) = true.
Proof.
  induction q as [|b q IH]; intros sup sub.
  - assert (subset_super_in_sub sup [] sub
            = if is_leaf sup && negb (is_enabled sup) then true
              else BinaryTreeNode_subset sup sub) as ->.
    { unfold subset_super_in_sub. destruct sup as [e|e l r]; cbn; [by destruct e|done]. }
    destruct (is_leaf sup && negb (is_enabled sup)) eqn:Hempty.
    + split; [|done]. intros _ s Hs. destruct sup as [e|]; [|done].
      cbn in Hs, Hempty. unfold is_enabled in *. cbn in *. by rewrite Hs in Hempty.
    + rewrite BinaryTreeNode_subset_iff. split.
      * intros H s Hs. split; [done|]. by apply H.
      * intros H s Hs. by apply H.
  - destruct sup as [e|e l r].
    + assert (subset_super_in_sub (Leaf e) (b :: q) sub = negb (is_enabled (Leaf e))) as ->.
      { unfold subset_super_in_sub. cbn. by destruct (is_enabled (Leaf e)). }
      rewrite negb_true_iff. split.
      * intros He s Hs. cbn in Hs. congruence.
      * intros H. destruct (is_enabled (Leaf e)) eqn:He; [|done].
        destruct (H (fun _ => negb b) He) as [Hb _]. cbn in Hb. by destruct b.
    + rewrite subset_super_in_sub_step.
      destruct (has_enabled (if b then l else r)) eqn:Hsibling.
      * split; [done|]. intros H.
        apply has_enabled_contains in Hsibling as [s' Hs'].
        destruct (H (fun i => match i with 0 => negb b | S i => s' i end)) as [Hb _].
        { cbn. by destruct b. }
        cbn in Hb. by destruct b.
      * rewrite IH. split.
        -- intros H s Hs. cbn in Hs. cbn [below length].
           destruct (Bool.eqb (s 0) b) eqn:Hb.
           ++ apply eqb_prop in Hb. rewrite Hb in Hs.
              destruct (H (fun i => s (S i))) as [H1 H2]; [by destruct b|].
              split; [done|]. rewrite <- H2. by apply contains_ext.
           ++ assert (has_enabled (if b then l else r) = true); [|congruence].
              apply has_enabled_contains. exists (fun i => s (S i)).
              destruct b, (s 0); try done.
        -- intros H s Hs.
           destruct (H (fun i => match i with 0 => b | S i => s i end)) as [H1 H2].
           { cbn. by destruct b. }
           cbn in H1. rewrite eqb_reflx in H1. cbn in H1. split; [done|].
           rewrite <- H2. by apply contains_ext.
Qed.

Lemma contains_after_after_through (n : BinaryTreeNode) (p : BinaryWord) (k : nat)
    (s : nat -> bool) :
  contains n (after k (after (length p) (through p s))) = contains n (after k s).
Proof. apply contains_ext. intros i. unfold after at 1 3. apply after_through. Qed.

Lemma below_after_through (q p : BinaryWord) (s : nat -> bool) :
  below q (after (length p) (through p s)) = below q s.
Proof. apply below_ext. intros i. apply after_through. Qed.

(** ** Pavings against pavings *)

Lemma primary_cell_path_same (d h : nat) : primary_cell_path d h h = [].
Proof. destruct h as [|h]; [done|]. cbn [primary_cell_path]. by rewrite Nat.ltb_irrefl. Qed.

Lemma common_primary_cell_path_from (S1 S2 : GridTreeSubset) :
  cell_grid (theGridCell S1) = cell_grid (theGridCell S2) ->
  let H := Nat.max (cell_height (theGridCell S1)) (cell_height (theGridCell S2)) in
  common_primary_cell_path S1 S2
  = (path_from H (theGridCell S1), path_from H (theGridCell S2)).
Proof.
  intros Hgrid H. unfold common_primary_cell_path, path_from. rewrite <- Hgrid.
  destruct (Nat.ltb_spec (cell_height (theGridCell S1)) (cell_height (theGridCell S2))).
  - subst H. rewrite Nat.max_r by lia. by rewrite primary_cell_path_same.
  - subst H. rewrite Nat.max_l by lia. by rewrite primary_cell_path_same.
Qed.

Lemma in_paving_prefix (H : nat) (S : GridTreeSubset) (s : nat -> bool) :
  in_paving H S s = true
  <-> below (path_from H (theGridCell S)) s = true
      /\ contains (pRootTreeNode S) (after (length (path_from H (theGridCell S))) s) = true.
Proof. unfold in_paving, in_cell. apply andb_true_iff. Qed.

(** The two pavings seen from a common primary cell: their paths [p1] and
    [p2], their trees [t1] and [t2]. *)
Lemma subset_of_paths (p1 p2 : BinaryWord) (t1 t2 : BinaryTreeNode) :
  (if is_prefix p1 p2
   then subset_super_in_sub t1 (erase_prefix (length p1) p2) t2
   else if is_prefix p2 p1
        then subset_sub_in_super t1 t2 (erase_prefix (length p2) p1)
        else false) = true
  <-> (forall s, below p1 s = true -> contains t1 (after (length p1) s) = true ->
                 below p2 s = true /\ contains t2 (after (length p2) s) = true)
      /\ is_prefix p1 p2 || is_prefix p2 p1 || has_enabled t1 = true.
Proof.
  unfold erase_prefix. destruct (is_prefix p1 p2) eqn:H12.
  - apply is_prefix_app in H12. set (q := drop (length p1) p2) in *. rewrite H12.
    rewrite subset_super_in_sub_iff. cbn [orb]. split.
    + intros Hsub. split; [|done]. intros s Hp Hs.
      destruct (Hsub _ Hs) as [Hq Hsub']. rewrite below_app, Hp, Hq.
      split; [done|]. by rewrite contains_after_app.
    + intros [Hall _] s Hs.
      destruct (Hall (through p1 s)) as [Hq Hsub].
      { apply below_through. } { by rewrite contains_after_through. }
      rewrite below_app, below_through, below_after_through in Hq.
      rewrite contains_after_app, contains_after_after_through in Hsub. done.
  - destruct (is_prefix p2 p1) eqn:H21; cbn [orb].
    + apply is_prefix_app in H21. set (q := drop (length p2) p1) in *. rewrite H21.
      rewrite subset_sub_in_super_iff. split.
      * intros Hsub. split; [|done]. intros s Hp Hs.
        rewrite below_app in Hp. apply andb_true_iff in Hp as [Hp2 Hq].
        split; [done|]. apply Hsub; [done|]. by rewrite <- contains_after_app.
      * intros [Hall _] s Hq Hs.
        destruct (Hall (through p2 s)) as [_ Hsup].
        { by rewrite below_app, below_through, below_after_through. }
        { by rewrite contains_after_app, contains_after_after_through. }
        by rewrite contains_after_through in Hsup.
    + split; [done|]. intros [Hall Hsome].
      apply has_enabled_contains in Hsome as [s' Hs'].
      destruct (Hall (through p1 s')) as [Hp2 _].
      { apply below_through. } { by rewrite contains_after_through. }
      pose proof (below_comparable p1 p2 _ (below_through p1 s') Hp2) as Hc.
      by rewrite H12, H21 in Hc.
Qed.

Lemma overlap_of_paths (p1 p2 : BinaryWord) (t1 t2 : BinaryTreeNode) :
  (if is_prefix p1 p2
   then overlap_super_sub t1 (erase_prefix (length p1) p2) t2
   else if is_prefix p2 p1
        then overlap_super_sub t2 (erase_prefix (length p2) p1) t1
        else false) = true
  <-> exists s, (below p1 s = true /\ contains t1 (after (length p1) s) = true)
                /\ (below p2 s = true /\ contains t2 (after (length p2) s) = true).
Proof.
  assert (Hcase : forall pa pb ta tb,
            is_prefix pa pb = true ->
            overlap_super_sub ta (erase_prefix (length pa) pb) tb = true
            <-> exists s, (below pa s = true /\ contains ta (after (length pa) s) = true)
                          /\ (below pb s = true /\ contains tb (after (length pb) s) = true)).
  { intros pa pb ta tb Hab. unfold erase_prefix.
    apply is_prefix_app in Hab. set (q := drop (length pa) pb) in *. rewrite Hab.
    rewrite overlap_super_sub_iff. split.
    - intros (s & Ha & Hq & Hb). exists (through pa s).
      rewrite below_app, below_through, contains_after_through.
      rewrite below_after_through, contains_after_app, contains_after_after_through.
      split; [done|]. split; [by rewrite Hq|done].
    - intros (s & [Hpa Ha] & [Hpb Hb]). exists (after (length pa) s).
      rewrite below_app in Hpb. apply andb_true_iff in Hpb as [_ Hq].
      split; [done|]. split; [done|]. by rewrite <- contains_after_app. }
  destruct (is_prefix p1 p2) eqn:H12; [by apply Hcase|].
  destruct (is_prefix p2 p1) eqn:H21.
  - rewrite (Hcase p2 p1 t2 t1 H21). split; intros (s & ? & ?); by exists s.
  - split; [done|]. intros (s & [Hp1 _] & [Hp2 _]).
    pose proof (below_comparable p1 p2 s Hp1 Hp2) as Hc. by rewrite H12, H21 in Hc.
Qed.

(** ** Cells against pavings *)

Lemma through_app (p q : BinaryWord) (s : nat -> bool) (i : nat) :
  through (p ++ q) s i = through p (through q s) i.
Proof. revert i. induction p as [|b p IH]; intros i; [done|]. destruct i; [done|]. apply IH. Qed.

Lemma cell_subset_paths (theCellOne theCellTwo : GridCell) :
  cell_grid theCellOne = cell_grid theCellTwo ->
  let H := Nat.max (cell_height theCellOne) (cell_height theCellTwo) in
  cell_subset theCellOne theCellTwo
  = Passed (is_prefix (path_from H theCellTwo) (path_from H theCellOne),
            path_from H theCellOne, path_from H theCellTwo, H).
Proof.
  intros Hgrid H. unfold cell_subset, path_from.
  rewrite bool_decide_eq_true_2 by done. cbn [negb]. rewrite <- Hgrid.
  destruct (Nat.ltb_spec (cell_height theCellOne) (cell_height theCellTwo)).
  - subst H. rewrite Nat.max_r by lia. by rewrite primary_cell_path_same.
  - subst H. rewrite Nat.max_l by lia. rewrite primary_cell_path_same.
    destruct (Nat.ltb_spec (cell_height theCellTwo) (cell_height theCellOne)); [done|].
    replace (cell_height theCellTwo) with (cell_height theCellOne) by lia.
    by rewrite primary_cell_path_same.
Qed.

(** A cell lies in the part of a tree below a path. *)
Lemma cell_in_tree (pc ps : BinaryWord) (t : BinaryTreeNode) :
  (if is_prefix ps pc then is_enabled_path t (drop (length ps) pc) else false) = true
  <-> forall s, below pc s = true ->
                below ps s = true /\ contains t (after (length ps) s) = true.
Proof.
  destruct (is_prefix ps pc) eqn:Hsc.
  - apply is_prefix_app in Hsc. set (q := drop (length ps) pc) in *. rewrite Hsc.
    rewrite is_enabled_path_iff. split.
    + intros Hall s Hs. rewrite below_app in Hs. apply andb_true_iff in Hs as [Hps Hq].
      split; [done|].
      rewrite (contains_ext t _ (through q (after (length q) (after (length ps) s)))).
      * apply Hall.
      * intros i. symmetry. by apply through_below.
    + intros Hall s. destruct (Hall (through (ps ++ q) s)) as [_ Hs]; [apply below_through|].
      rewrite <- Hs. apply contains_ext. intros i. unfold after.
      rewrite through_app. symmetry. apply after_through.
  - split; [done|]. intros Hall.
    destruct (Hall (through pc (fun _ => false)) (below_through _ _)) as [Hps _].
    pose proof (below_comparable pc ps _ (below_through _ _) Hps) as Hc.
    rewrite Hsc, orb_false_r in Hc. apply is_prefix_app in Hc.
    destruct (drop (length pc) ps) as [|b q] eqn:Hq.
    + rewrite app_nil_r in Hc. subst ps.
      pose proof (is_prefix_app_r pc []) as Hrefl. rewrite app_nil_r in Hrefl. congruence.
    + destruct (below_outside pc b q) as (s & Hs & Hout).
      destruct (Hall s Hs) as [Hps' _]. rewrite Hc in Hps'. congruence.
Qed.

(** A cell meets the part of a tree below a path. *)
Lemma cell_meets_tree (pc ps : BinaryWord) (t : BinaryTreeNode) :
  (if is_prefix pc ps then has_enabled t
   else if is_prefix ps pc then has_enabled (locate_node t (drop (length ps) pc))
        else false) = true
  <-> exists s, below pc s = true
                /\ below ps s = true /\ contains t (after (length ps) s) = true.
Proof.
  destruct (is_prefix pc ps) eqn:Hcs.
  - apply is_prefix_app in Hcs. rewrite has_enabled_contains. split.
    + intros [s' Hs']. exists (through ps s').
      rewrite below_through, contains_after_through. split; [|done].
      pose proof (below_through ps s') as Hps. revert Hps.
      generalize (through ps s'). rewrite Hcs. intros s Hps. rewrite below_app in Hps.
      by apply andb_true_iff in Hps as [? _].
    + intros (s & _ & _ & Hs). by eexists.
  - destruct (is_prefix ps pc) eqn:Hsc.
    + apply is_prefix_app in Hsc. set (q := drop (length ps) pc) in *. rewrite Hsc.
      rewrite has_enabled_contains.
      destruct (is_leaf (locate_node t q)) eqn:Hleaf.
      * split.
        -- intros [s' Hs']. exists (through (ps ++ q) (fun _ => false)).
           rewrite below_through. split; [done|].
           pose proof (below_through (ps ++ q) (fun _ => false)) as Hb.
           rewrite below_app in Hb. apply andb_true_iff in Hb as [Hps Hq].
           split; [done|]. rewrite (locate_node_leaf t q _ Hleaf Hq).
           destruct (locate_node t q); [done|done].
        -- intros (s & Hpc & Hps & Hs). rewrite below_app in Hpc.
           apply andb_true_iff in Hpc as [_ Hq].
           rewrite (locate_node_leaf t q _ Hleaf Hq) in Hs.
           exists (fun _ => false). by destruct (locate_node t q).
      * split.
        -- intros [s' Hs']. exists (through (ps ++ q) s').
           rewrite below_through. split; [done|].
           pose proof (below_through (ps ++ q) s') as Hb.
           rewrite below_app in Hb. apply andb_true_iff in Hb as [Hps Hq].
           split; [done|]. rewrite (locate_node_branch t q _ Hleaf Hq).
           rewrite <- contains_after_app. by rewrite contains_after_through.
        -- intros (s & Hpc & Hps & Hs). rewrite below_app in Hpc.
           apply andb_true_iff in Hpc as [_ Hq].
           rewrite (locate_node_branch t q _ Hleaf Hq) in Hs. by eexists.
    + split; [done|]. intros (s & Hpc & Hps & _).
      pose proof (below_comparable pc ps s Hpc Hps) as Hc. by rewrite Hcs, Hsc in Hc.
Qed.

(** ** What the walks along a path do to the points *)

Lemma split_contains (n : BinaryTreeNode) (s : nat -> bool) :
  contains (split n) s = contains n s.
Proof. destruct n as [e|e l r]; [|done]. cbn. by destruct (s 0). Qed.

Lemma split_internal_unknown (n : BinaryTreeNode) :
  internal_unknown n = true -> internal_unknown (split n) = true.
Proof. by destruct n. Qed.

(** A point in a [Branch]: its first choice selects the child. *)
Lemma contains_branch (e : tribool) (l r : BinaryTreeNode) (s : nat -> bool) :
  contains (Branch e l r) s = contains (if s 0 then r else l) (fun i => s (S i)).
Proof. done. Qed.

Lemma node_at_contains (ptr : BinaryWord) : forall n m s,
  node_at n ptr = Some m -> below ptr s = true ->
  contains n s = contains m (after (length ptr) s).
Proof.
  induction ptr as [|b ptr IH]; intros n m s Hm Hs.
  - cbn in Hm. by injection Hm as <-.
  - destruct n as [e|e l r]; [done|]. cbn in Hm, Hs.
    apply andb_true_iff in Hs as [Hb Hs]. apply eqb_prop in Hb.
    rewrite contains_branch, Hb. rewrite (IH _ m _ Hm Hs). done.
Qed.

Lemma update_at_contains (ptr : BinaryWord) : forall n m m' s,
  node_at n ptr = Some m ->
  contains (update_at ptr m' n) s
  = if below ptr s then contains m' (after (length ptr) s) else contains n s.
Proof.
  induction ptr as [|b ptr IH]; intros n m m' s Hm; [done|].
  destruct n as [e|e l r]; [done|]. cbn in Hm. cbn [update_at below].
  destruct b; rewrite !contains_branch; destruct (s 0) eqn:Hs0; cbn [Bool.eqb andb];
    try done; by rewrite (IH _ m).
Qed.

Lemma prepend_tree_at_contains (path : BinaryWord) : forall old s,
  path <> [] ->
  contains (prepend_tree_at (Leaf TFalse) path old) s
  = below path s && contains old (after (length path) s).
Proof.
  induction path as [|b [|b' path] IH]; intros old s Hne; [done| |].
  - destruct b; cbn; destruct (s 0); cbn; done.
  - rewrite prepend_tree_at_cons.
    destruct b; rewrite contains_branch; cbn [below]; destruct (s 0); cbn [Bool.eqb andb];
      try done; by rewrite IH.
Qed.

Lemma prepend_tree_at_internal_unknown (path : BinaryWord) : forall old,
  internal_unknown old = true ->
  internal_unknown (prepend_tree_at (Leaf TFalse) path old) = true.
Proof.
  induction path as [|b [|b' path] IH]; intros old Hold; [done| |].
  - destruct b; cbn; by rewrite ?Hold.
  - rewrite prepend_tree_at_cons. destruct b; cbn [internal_unknown]; by rewrite IH.
Qed.

Lemma align_descend_contains (path : BinaryWord) (se sd : bool) : forall hs n s,
  contains (align_descend path se sd hs n).1.1 s = contains n s.
Proof.
  induction path as [|b path IH]; intros hs n s; [done|].
  cbn [align_descend]. destruct (_ || _); [done|].
  rewrite <- (split_contains n). destruct (split n) as [e|e l r]; [done|].
  destruct b.
  - specialize (IH false r). destruct (align_descend path se sd false r) as [[r' ptr] st].
    cbn in *. destruct (s 0); [apply IH|done].
  - specialize (IH false l). destruct (align_descend path se sd false l) as [[l' ptr] st].
    cbn in *. destruct (s 0); [done|apply IH].
Qed.

(** Aligning for a removal (stop on a disabled node) on a tree whose
    internal flags are [indeterminate]: either the walk reaches the end of
    the path, or it stops on a disabled leaf above it. *)
Lemma align_descend_for_removal (path : BinaryWord) : forall n,
  internal_unknown n = true ->
  exists n1 ptr stopped,
    align_descend path false true false n = (n1, ptr, stopped)
    /\ internal_unknown n1 = true
    /\ if stopped
       then (exists rest, path = ptr ++ rest) /\ node_at n1 ptr = Some (Leaf TFalse)
       else ptr = path /\ exists m, node_at n1 ptr = Some m /\ internal_unknown m = true.
Proof.
  induction path as [|b path IH]; intros n Hn.
  - exists n, [], false. split; [done|]. split; [done|]. split; [done|]. by exists n.
  - cbn [align_descend]. rewrite andb_false_r, orb_false_l, andb_true_r.
    destruct (is_disabled n) eqn:Hdis.
    + exists n, [], true. split; [done|]. split; [done|]. split; [by eexists|].
      destruct n as [e|e l r]; [by destruct e|].
      cbn in Hn. unfold is_disabled in Hdis. cbn in Hdis. by destruct e.
    + pose proof (split_internal_unknown n Hn) as Hsplit.
      destruct (split n) as [e|e l r] eqn:Hs; [by destruct n|].
      cbn in Hsplit. apply andb_true_iff in Hsplit as [[He Hl]%andb_true_iff Hr].
      destruct b.
      * destruct (IH r Hr) as (r1 & ptr & stopped & Heq & Hr1 & Hspec). rewrite Heq.
        exists (Branch e l r1), (true :: ptr), stopped. split; [done|].
        split; [cbn; by rewrite He, Hl, Hr1|].
        destruct stopped.
        -- destruct Hspec as [[rest ->] Hnode]. split; [by exists rest|done].
        -- destruct Hspec as [-> Hnode]. done.
      * destruct (IH l Hl) as (l1 & ptr & stopped & Heq & Hl1 & Hspec). rewrite Heq.
        exists (Branch e l1 r), (false :: ptr), stopped. split; [done|].
        split; [cbn; by rewrite He, Hl1, Hr|].
        destruct stopped.
        -- destruct Hspec as [[rest ->] Hnode]. split; [by exists rest|done].
        -- destruct Hspec as [-> Hnode]. done.
Qed.

Lemma disable_along_contains (path : BinaryWord) : forall e s,
  contains (disable_along (Leaf e) path) s = is_enabled (Leaf e) && negb (below path s).
Proof.
  induction path as [|b path IH]; intros e s.
  - cbn. by rewrite andb_false_r.
  - cbn [disable_along split]. destruct b; rewrite contains_branch; cbn [below];
      destruct (s 0); cbn [Bool.eqb andb negb]; rewrite ?IH; cbn; by rewrite ?andb_true_r.
Qed.

Lemma remove_cell_from_contains (n : BinaryTreeNode) : forall path s,
  contains (remove_cell_from n path) s = contains n s && negb (below path s).
Proof.
  induction n as [e|e l IHl r IHr]; intros path s.
  - cbn [remove_cell_from]. destruct (is_enabled (Leaf e)) eqn:He.
    + rewrite disable_along_contains. cbn. by rewrite He.
    + cbn. by rewrite He.
  - destruct path as [|b path]; [cbn; by rewrite andb_false_r|].
    cbn [remove_cell_from below]. destruct b; rewrite !contains_branch;
      destruct (s 0); cbn [Bool.eqb andb negb]; rewrite ?IHl, ?IHr; by rewrite ?andb_true_r.
Qed.

Lemma restrict_to_height_from_contains (pathToPCell : BinaryWord) : forall n s,
  contains (restrict_to_height_from n pathToPCell) s = contains n s && below pathToPCell s.
Proof.
  induction pathToPCell as [|b path IH]; intros n s; [cbn; by rewrite andb_true_r|].
  destruct n as [e|e l r].
  - destruct e; cbn [restrict_to_height_from is_leaf is_enabled isEnabled_of definitely
                     negb andb split]; try done.
    destruct b; rewrite contains_branch; cbn [below]; destruct (s 0);
      cbn [Bool.eqb andb make_leaf]; rewrite ?IH; done.
  - cbn [restrict_to_height_from is_leaf andb below].
    destruct b; rewrite !contains_branch; destruct (s 0); cbn [Bool.eqb andb make_leaf];
      rewrite ?IH; cbn; by rewrite ?andb_false_r.
Qed.

Lemma internal_unknown_tests (n : BinaryTreeNode) :
  internal_unknown n = true ->
  (is_enabled n = true -> forall s, contains n s = true)
  /\ (is_disabled n = true -> forall s, contains n s = false).
Proof.
  destruct n as [e|e l r]; [by destruct e|].
  cbn. intros [[He _]%andb_true_iff _]%andb_true_iff. by destruct e.
Qed.

Lemma restrict_to_lower_from_contains (rootNodePath : BinaryWord) : forall n other s,
  internal_unknown n = true ->
  contains (restrict_to_lower_from n rootNodePath other) s
  = contains n s
    && (below rootNodePath s && contains other (after (length rootNodePath) s)).
Proof.
  induction rootNodePath as [|b path IH]; intros n other s Hn.
  - cbn [restrict_to_lower_from below length andb].
    destruct (internal_unknown_tests n Hn) as [Hen Hdis].
    destruct (is_enabled n) eqn:He; [by rewrite (Hen eq_refl)|].
    destruct (is_disabled n) eqn:Hd; [by rewrite (Hdis eq_refl)|].
    apply restrict_contains.
  - destruct n as [e|e l r].
    + destruct e; cbn [restrict_to_lower_from is_leaf is_disabled isEnabled_of possibly
                       negb andb split]; try done;
        destruct b; rewrite contains_branch; cbn [below];
        destruct (s 0); cbn [Bool.eqb andb make_leaf]; rewrite ?IH by done; done.
    + cbn in Hn. apply andb_true_iff in Hn as [[He Hl]%andb_true_iff Hr].
      cbn [restrict_to_lower_from is_leaf andb below].
      destruct b; rewrite !contains_branch; destruct (s 0); cbn [Bool.eqb andb make_leaf];
        rewrite ?IH by done; cbn; by rewrite ?andb_false_r.
Qed.

Lemma remove_from_lower_from_contains (rootNodePath : BinaryWord) : forall n other s,
  internal_unknown n = true ->
  contains (remove_from_lower_from n rootNodePath other) s
  = contains n s
    && negb (below rootNodePath s && contains other (after (length rootNodePath) s)).
Proof.
  induction rootNodePath as [|b path IH]; intros n other s Hn.
  - cbn [remove_from_lower_from below length andb].
    destruct (internal_unknown_tests n Hn) as [_ Hdis].
    destruct (is_disabled n) eqn:Hd; [by rewrite (Hdis eq_refl)|].
    apply remove_contains.
  - destruct n as [e|e l r].
    + destruct e; cbn [remove_from_lower_from is_leaf is_disabled isEnabled_of possibly
                       negb andb split]; try done;
        destruct b; rewrite contains_branch; cbn [below];
        destruct (s 0); cbn [Bool.eqb andb negb]; rewrite ?IH by done; done.
    + cbn in Hn. apply andb_true_iff in Hn as [[He Hl]%andb_true_iff Hr].
      cbn [remove_from_lower_from is_leaf andb below].
      destruct b; rewrite !contains_branch; destruct (s 0); cbn [Bool.eqb andb negb];
        rewrite ?IH by done; cbn; by rewrite ?andb_true_r.
Qed.

(** ** Paths between primary cells *)

Lemma primary_cell_path_ge (d top bottom : nat) :
  top <= bottom -> primary_cell_path d top bottom = [].
Proof.
  intros Hle. destruct top as [|i]; [done|]. cbn [primary_cell_path].
  destruct (Nat.ltb_spec bottom (S i)); [lia|done].
Qed.

Lemma primary_cell_path_app (d H m h : nat) :
  h <= m -> m <= H ->
  primary_cell_path d H h = primary_cell_path d H m ++ primary_cell_path d m h.
Proof.
  intros Hhm HmH. induction H as [|H IH].
  - replace m with 0 by lia. done.
  - destruct (decide (m = S H)) as [->|Hne].
    + by rewrite primary_cell_path_same.
    + cbn [primary_cell_path].
      destruct (Nat.ltb_spec h (S H)); [|lia]. destruct (Nat.ltb_spec m (S H)); [|lia].
      rewrite IH by lia. by rewrite app_assoc.
Qed.

(** ** Pavings rooted at primary cells *)

Lemma in_paving_primary (H : nat) (g : Grid) (h : nat) (root : BinaryTreeNode)
    (s : nat -> bool) :
  in_paving H (mkGridTreeSubset (mkGridCell g h []) root) s
  = below (primary_cell_path (dimension g) H h) s
    && contains root (after (length (primary_cell_path (dimension g) H h)) s).
Proof. unfold in_paving, in_cell, path_from. cbn. by rewrite app_nil_r. Qed.

Lemma up_to_primary_cell_in_paving (toPCellHeight : nat) (S S' : GridTreeSet) :
  cell_word (theGridCell S) = [] ->
  up_to_primary_cell toPCellHeight S = Some S' ->
  cell_height (theGridCell S) < toPCellHeight
  /\ theGridCell S' = mkGridCell (cell_grid (theGridCell S)) toPCellHeight []
  /\ (internal_unknown (pRootTreeNode S) = true -> internal_unknown (pRootTreeNode S') = true)
  /\ forall H s, toPCellHeight <= H -> in_paving H S' s = in_paving H S s.
Proof.
  destruct S as [[g h w] root]. cbn [theGridCell cell_word cell_height cell_grid pRootTreeNode].
  intros ->. unfold up_to_primary_cell, prepend_tree.
  cbn [theGridCell cell_word cell_height cell_grid pRootTreeNode].
  destruct (primary_cell_path (dimension g) toPCellHeight h) as [|b path] eqn:Hpath; [done|].
  remember (prepend_tree_at new_BinaryTreeNode (b :: path) root) as root' eqn:Hroot'.
  unfold new_BinaryTreeNode in Hroot'.
  intros [= <-]. cbn [theGridCell cell_word cell_height cell_grid pRootTreeNode].
  assert (h < toPCellHeight) as Hlt.
  { destruct (Nat.lt_ge_cases h toPCellHeight) as [|Hge]; [done|].
    by rewrite primary_cell_path_ge in Hpath. }
  split; [done|]. split; [done|].
  split; [intros Hroot; subst root'; by apply (prepend_tree_at_internal_unknown (b :: path))|].
  intros H s HH. rewrite !in_paving_primary.
  rewrite (primary_cell_path_app (dimension g) H toPCellHeight h) by lia.
  rewrite Hpath. subst root'. rewrite (prepend_tree_at_contains (b :: path)) by done.
  rewrite below_app, contains_after_app. by rewrite andb_assoc.
Qed.

Lemma raised_to_in_paving (T : GridTreeSubset) (S this : GridTreeSet) :
  cell_word (theGridCell S) = [] ->
  raised_to T S = Some this ->
  theGridCell this
  = mkGridCell (cell_grid (theGridCell S))
      (Nat.max (cell_height (theGridCell S)) (cell_height (theGridCell T))) []
  /\ (internal_unknown (pRootTreeNode S) = true -> internal_unknown (pRootTreeNode this) = true)
  /\ forall H s,
       Nat.max (cell_height (theGridCell S)) (cell_height (theGridCell T)) <= H ->
       in_paving H this s = in_paving H S s.
Proof.
  intros Hword. unfold raised_to.
  destruct (Nat.ltb_spec (cell_height (theGridCell S)) (cell_height (theGridCell T)))
    as [Hlt|Hge].
  - intros Hup. destruct (up_to_primary_cell_in_paving _ _ _ Hword Hup) as (_ & Hc & Hi & Hp).
    rewrite Nat.max_r by lia. split; [done|]. split; [done|].
    intros H s HH. apply Hp. lia.
  - intros [= <-]. rewrite Nat.max_l by lia. split; [|done].
    destruct S as [[g h w] root]. cbn in *. by subst.
Qed.

Lemma align_with_cell_for_removal (h' : nat) (S this : GridTreeSet) (ptr : BinaryWord)
    (stopped : bool) :
  cell_word (theGridCell S) = [] ->
  internal_unknown (pRootTreeNode S) = true ->
  align_with_cell h' false true false S = Some (this, ptr, stopped) ->
  let d := dimension (cell_grid (theGridCell S)) in
  let h1 := Nat.max (cell_height (theGridCell S)) h' in
  theGridCell this = mkGridCell (cell_grid (theGridCell S)) h1 []
  /\ (forall H s, h1 <= H -> in_paving H this s = in_paving H S s)
  /\ if stopped
     then (exists rest, primary_cell_path d h1 h' = ptr ++ rest)
          /\ node_at (pRootTreeNode this) ptr = Some (Leaf TFalse)
     else ptr = primary_cell_path d h1 h'
          /\ exists m, node_at (pRootTreeNode this) ptr = Some m.
Proof.
  intros Hword Hroot Halign d h1. unfold align_with_cell in Halign.
  destruct (Nat.ltb_spec h' (cell_height (theGridCell S))) as [Hlt|Hge].
  - subst h1. rewrite Nat.max_l by lia.
    destruct (align_descend_for_removal
                (primary_cell_path d (cell_height (theGridCell S)) h') _ Hroot)
      as (n1 & ptr1 & st & Heq & _ & Hspec).
    pose proof (align_descend_contains
                  (primary_cell_path d (cell_height (theGridCell S)) h') false true false
                  (pRootTreeNode S)) as Hcontains.
    fold d in Halign. rewrite Heq in Halign, Hcontains. injection Halign as <- <- <-.
    cbn [theGridCell pRootTreeNode fst] in *.
    split; [destruct S as [[g h w] root]; cbn in *; by subst|].
    split.
    + intros H s HH. unfold in_paving. cbn [theGridCell pRootTreeNode]. by rewrite Hcontains.
    + destruct st; [done|]. destruct Hspec as [-> (m & Hm & _)]. split; [done|by exists m].
  - destruct (Nat.ltb_spec (cell_height (theGridCell S)) h') as [Hlt|Hge'].
    + destruct (up_to_primary_cell h' S) as [S1|] eqn:Hup; [|done].
      injection Halign as <- <- <-.
      destruct (up_to_primary_cell_in_paving _ _ _ Hword Hup) as (_ & Hc & _ & Hp).
      subst h1. rewrite Nat.max_r by lia. split; [done|]. split; [done|].
      rewrite primary_cell_path_same. split; [done|]. by eexists.
    + injection Halign as <- <- <-. subst h1. rewrite Nat.max_l by lia.
      replace h' with (cell_height (theGridCell S)) by lia.
      split; [destruct S as [[g h w] root]; cbn in *; by subst|].
      split; [done|]. rewrite primary_cell_path_same. split; [done|]. by eexists.
Qed.

(** ** The answers of the predicates, on points *)

Lemma GridTreeSubset_subset_iff (theSet1 theSet2 : GridTreeSubset) :
  cell_grid (theGridCell theSet1) = cell_grid (theGridCell theSet2) ->
  let H := Nat.max (cell_height (theGridCell theSet1)) (cell_height (theGridCell theSet2)) in
  let p1 := path_from H (theGridCell theSet1) in
  let p2 := path_from H (theGridCell theSet2) in
  exists b,
    GridTreeSubset_subset theSet1 theSet2 = Passed b
    /\ (b = true <->
        (forall s, in_paving H theSet1 s = true -> in_paving H theSet2 s = true)
        /\ is_prefix p1 p2 || is_prefix p2 p1 || has_enabled (pRootTreeNode theSet1) = true).
Proof.
  intros Hgrid H p1 p2.
  unfold GridTreeSubset_subset. rewrite bool_decide_eq_true_2 by done. cbn [negb].
  rewrite (common_primary_cell_path_from _ _ Hgrid). fold H p1 p2.
  pose proof (subset_of_paths p1 p2 (pRootTreeNode theSet1) (pRootTreeNode theSet2)) as Hiff.
  match type of Hiff with (?c = true <-> _) => set (b := c) in * end.
  exists b. split; [subst b; destruct (is_prefix p1 p2); [done|]; by destruct (is_prefix p2 p1)|].
  rewrite Hiff. split; intros [Hall Hc]; (split; [|done]).
  - intros s [H1 H2]%in_paving_prefix. apply in_paving_prefix. by apply Hall.
  - intros s H1 H2. apply in_paving_prefix, Hall, in_paving_prefix. done.
Qed.

Lemma GridTreeSubset_overlap_iff (theSet1 theSet2 : GridTreeSubset) :
  cell_grid (theGridCell theSet1) = cell_grid (theGridCell theSet2) ->
  let H := Nat.max (cell_height (theGridCell theSet1)) (cell_height (theGridCell theSet2)) in
  exists b,
    GridTreeSubset_overlap theSet1 theSet2 = Passed b
    /\ (b = true <-> exists s, in_paving H theSet1 s = true /\ in_paving H theSet2 s = true).
Proof.
  intros Hgrid H. unfold GridTreeSubset_overlap.
  rewrite bool_decide_eq_true_2 by done. cbn [negb].
  rewrite (common_primary_cell_path_from _ _ Hgrid). fold H.
  pose proof (overlap_of_paths (path_from H (theGridCell theSet1))
                (path_from H (theGridCell theSet2))
                (pRootTreeNode theSet1) (pRootTreeNode theSet2)) as Hiff.
  match type of Hiff with (?c = true <-> _) => set (b := c) in * end.
  exists b. split; [subst b; destruct (is_prefix _ _); [done|]; by destruct (is_prefix _ _)|].
  rewrite Hiff. split; intros (s & H1 & H2); exists s; split; by apply in_paving_prefix.
Qed.

Lemma cell_subset_of_set_iff (theCell : GridCell) (theSet : GridTreeSubset) :
  cell_grid theCell = cell_grid (theGridCell theSet) ->
  let H := Nat.max (cell_height theCell) (cell_height (theGridCell theSet)) in
  exists b,
    cell_subset_of_set theCell theSet = Passed b
    /\ (b = true <-> forall s, in_cell H theCell s = true -> in_paving H theSet s = true).
Proof.
  intros Hgrid H. unfold cell_subset_of_set.
  rewrite bool_decide_eq_true_2 by done. cbn [negb].
  rewrite (cell_subset_paths _ _ Hgrid). fold H.
  pose proof (cell_in_tree (path_from H theCell) (path_from H (theGridCell theSet))
                (pRootTreeNode theSet)) as Hiff.
  match type of Hiff with (?c = true <-> _) => set (b := c) in * end.
  exists b. split; [subst b; by destruct (is_prefix _ _)|].
  rewrite Hiff. unfold in_cell. split.
  - intros Hall s Hs. by apply in_paving_prefix, Hall.
  - intros Hall s Hs. by apply in_paving_prefix, Hall.
Qed.

Lemma cell_overlap_set_iff (theCell : GridCell) (theSet : GridTreeSubset) :
  cell_grid theCell = cell_grid (theGridCell theSet) ->
  let H := Nat.max (cell_height theCell) (cell_height (theGridCell theSet)) in
  exists b,
    cell_overlap_set theCell theSet = Passed b
    /\ (b = true <-> exists s, in_cell H theCell s = true /\ in_paving H theSet s = true).
Proof.
  intros Hgrid H. unfold cell_overlap_set.
  rewrite bool_decide_eq_true_2 by done. cbn [negb].
  assert ((if cell_height theCell <? cell_height (theGridCell theSet)
           then (cell_height (theGridCell theSet),
                 primary_cell_path (dimension (cell_grid theCell))
                   (cell_height (theGridCell theSet)) (cell_height theCell)
                 ++ cell_word theCell)
           else (cell_height theCell, cell_word theCell))
          = (H, path_from H theCell)) as ->.
  { unfold path_from. subst H.
    destruct (Nat.ltb_spec (cell_height theCell) (cell_height (theGridCell theSet))).
    - by rewrite Nat.max_r by lia.
    - rewrite Nat.max_l by lia. by rewrite primary_cell_path_same. }
  rewrite Hgrid. fold (path_from H (theGridCell theSet)).
  pose proof (cell_meets_tree (path_from H theCell) (path_from H (theGridCell theSet))
                (pRootTreeNode theSet)) as Hiff.
  match type of Hiff with (?c = true <-> _) => set (b := c) in * end.
  exists b. split; [subst b; destruct (is_prefix _ _); [done|]; by destruct (is_prefix _ _)|].
  rewrite Hiff. unfold in_cell.
  split; intros (s & Hc & Hs); exists s; (split; [done|]); by apply in_paving_prefix.
Qed.

(** X12.  [subset(theSet1, theSet2)] on two pavings of one grid, seen from
    the higher of their primary cells: it answers true exactly when every
    point of the first paving is a point of the second and, besides, the
    root cell of one paving lies in the root cell of the other or the first
    paving is not empty.  (An empty paving whose root cell lies beside the
    root cell of the other one is reported not to be a subset.)  For two
    pavings rooted at primary cells the answer is the inclusion, and
    [superset] is [subset] with the arguments exchanged. *)
Theorem GridTreeSubset_subset_inclusion (theSet1 theSet2 : GridTreeSubset) :
  cell_grid (theGridCell theSet1) = cell_grid (theGridCell theSet2) ->
  let H := Nat.max (cell_height (theGridCell theSet1)) (cell_height (theGridCell theSet2)) in
  let p1 := path_from H (theGridCell theSet1) in
  let p2 := path_from H (theGridCell theSet2) in
  let inclusion := forall s, in_paving H theSet1 s = true -> in_paving H theSet2 s = true in
  exists b,
    GridTreeSubset_subset theSet1 theSet2 = Passed b
    /\ GridTreeSubset_superset theSet2 theSet1 = Passed b
    /\ (b = true <->
        inclusion
        /\ is_prefix p1 p2 || is_prefix p2 p1 || has_enabled (pRootTreeNode theSet1) = true)
    /\ (cell_word (theGridCell theSet1) = [] -> cell_word (theGridCell theSet2) = [] ->
        (b = true <-> inclusion)).
Proof.
  intros Hgrid H p1 p2 inclusion.
  destruct (GridTreeSubset_subset_iff theSet1 theSet2 Hgrid) as (b & Hb & Hiff).
  fold H p1 p2 in Hiff. exists b. split; [done|]. split; [done|]. split; [done|].
  intros Hw1 Hw2.
  assert (is_prefix p1 p2 || is_prefix p2 p1 = true) as Hcomparable.
  { subst p1 p2. unfold path_from. rewrite Hw1, Hw2, !app_nil_r, <- Hgrid.
    destruct (Nat.max_spec (cell_height (theGridCell theSet1))
                           (cell_height (theGridCell theSet2))) as [[_ HH]|[_ HH]];
      subst H; rewrite HH, primary_cell_path_same; cbn; by rewrite ?orb_true_r. }
  rewrite Hiff, Hcomparable. cbn. split; [by intros [? _]|done].
Qed.

Lemma GridTreeSubset_subset_inclusion_witness :
  let g := mkGrid [0%Qc] [1%Qc] in
  let S1 := mkGridTreeSubset (mkGridCell g 0 []) (Leaf TTrue) in
  let S2 := mkGridTreeSubset (mkGridCell g 1 [])
              (Branch TIndeterminate (Leaf TFalse) (Leaf TTrue)) in
  cell_grid (theGridCell S1) = cell_grid (theGridCell S2)
  /\ exists b, GridTreeSubset_subset S1 S2 = Passed b.
Proof.
  intros g S1 S2. split; [reflexivity|].
  destruct (GridTreeSubset_subset_inclusion S1 S2 eq_refl) as (b & Hb & _).
  by exists b.
Defined.

(** X13.  [overlap(theSet1, theSet2)] on two pavings of one grid answers
    true exactly when they have a point in common; [disjoint] is its
    negation, and both are symmetric. *)
Theorem GridTreeSubset_overlap_common_point (theSet1 theSet2 : GridTreeSubset) :
  cell_grid (theGridCell theSet1) = cell_grid (theGridCell theSet2) ->
  let H := Nat.max (cell_height (theGridCell theSet1)) (cell_height (theGridCell theSet2)) in
  exists b,
    GridTreeSubset_overlap theSet1 theSet2 = Passed b
    /\ (b = true <-> exists s, in_paving H theSet1 s = true /\ in_paving H theSet2 s = true)
    /\ GridTreeSubset_overlap theSet2 theSet1 = Passed b
    /\ GridTreeSubset_disjoint theSet1 theSet2 = Passed (negb b)
    /\ GridTreeSubset_disjoint theSet2 theSet1 = Passed (negb b).
Proof.
  intros Hgrid H.
  destruct (GridTreeSubset_overlap_iff theSet1 theSet2 Hgrid) as (b & Hb & Hiff).
  destruct (GridTreeSubset_overlap_iff theSet2 theSet1 (eq_sym Hgrid)) as (b' & Hb' & Hiff').
  rewrite Nat.max_comm in Hiff'. fold H in Hiff, Hiff'.
  assert (b' = b) as ->.
  { apply eq_true_iff_eq. rewrite Hiff, Hiff'. split; intros (s & ? & ?); by exists s. }
  exists b. split; [done|]. split; [done|]. split; [done|].
  unfold GridTreeSubset_disjoint. by rewrite Hb, Hb'.
Qed.

Lemma GridTreeSubset_overlap_common_point_witness :
  let g := mkGrid [0%Qc] [1%Qc] in
  let S1 := mkGridTreeSubset (mkGridCell g 0 []) (Leaf TTrue) in
  let S2 := mkGridTreeSubset (mkGridCell g 1 [])
              (Branch TIndeterminate (Leaf TFalse) (Leaf TTrue)) in
  cell_grid (theGridCell S1) = cell_grid (theGridCell S2)
  /\ exists b, GridTreeSubset_overlap S1 S2 = Passed b
               /\ GridTreeSubset_disjoint S1 S2 = Passed (negb b).
Proof.
  intros g S1 S2. split; [reflexivity|].
  destruct (GridTreeSubset_overlap_common_point S1 S2 eq_refl) as (b & Hb & _ & _ & Hd & _).
  by exists b.
Defined.

(** X14.  [subset(theCell, theSet)] for a cell and a paving of one grid
    answers true exactly when every point of the cell is a point of the
    paving; a cell that is a subset of a paving overlaps it. *)
Theorem cell_subset_of_set_inclusion (theCell : GridCell) (theSet : GridTreeSubset) :
  cell_grid theCell = cell_grid (theGridCell theSet) ->
  let H := Nat.max (cell_height theCell) (cell_height (theGridCell theSet)) in
  exists b,
    cell_subset_of_set theCell theSet = Passed b
    /\ (b = true <-> forall s, in_cell H theCell s = true -> in_paving H theSet s = true)
    /\ (b = true -> cell_overlap_set theCell theSet = Passed true).
Proof.
  intros Hgrid H.
  destruct (cell_subset_of_set_iff theCell theSet Hgrid) as (b & Hb & Hiff).
  destruct (cell_overlap_set_iff theCell theSet Hgrid) as (b' & Hb' & Hiff').
  fold H in Hiff, Hiff'. exists b. split; [done|]. split; [done|].
  intros Htrue. rewrite Hb'. f_equal. apply Hiff'.
  exists (through (path_from H theCell) (fun _ => false)).
  assert (in_cell H theCell (through (path_from H theCell) (fun _ => false)) = true) as Hin
    by apply below_through.
  split; [done|]. by apply (proj1 Hiff Htrue).
Qed.

Lemma cell_subset_of_set_inclusion_witness :
  let g := mkGrid [0%Qc] [1%Qc] in
  let S := mkGridTreeSubset (mkGridCell g 1 [])
             (Branch TIndeterminate (Leaf TFalse) (Leaf TTrue)) in
  let c := mkGridCell g 0 [true] in
  cell_grid c = cell_grid (theGridCell S)
  /\ exists b, cell_subset_of_set c S = Passed b.
Proof.
  intros g S c. split; [reflexivity|].
  destruct (cell_subset_of_set_inclusion c S eq_refl) as (b & Hb & _). by exists b.
Defined.

(** X15.  [overlap(theCell, theSet)] for a cell and a paving of one grid
    answers true exactly when some point of the cell is a point of the
    paving; in particular it is false for a paving with no enabled leaf. *)
Theorem cell_overlap_set_common_point (theCell : GridCell) (theSet : GridTreeSubset) :
  cell_grid theCell = cell_grid (theGridCell theSet) ->
  let H := Nat.max (cell_height theCell) (cell_height (theGridCell theSet)) in
  exists b,
    cell_overlap_set theCell theSet = Passed b
    /\ (b = true <-> exists s, in_cell H theCell s = true /\ in_paving H theSet s = true)
    /\ (has_enabled (pRootTreeNode theSet) = false -> b = false).
Proof.
  intros Hgrid H.
  destruct (cell_overlap_set_iff theCell theSet Hgrid) as (b & Hb & Hiff).
  fold H in Hiff. exists b. split; [done|]. split; [done|].
  intros Hempty. destruct b; [|done].
  destruct (proj1 Hiff eq_refl) as (s & _ & [_ Hs]%in_paving_prefix).
  assert (has_enabled (pRootTreeNode theSet) = true)
    by (apply has_enabled_contains; by eexists).
  congruence.
Qed.

Lemma cell_overlap_set_common_point_witness :
  let g := mkGrid [0%Qc] [1%Qc] in
  let S := mkGridTreeSubset (mkGridCell g 1 [])
             (Branch TIndeterminate (Leaf TFalse) (Leaf TTrue)) in
  let c := mkGridCell g 0 [true] in
  cell_grid c = cell_grid (theGridCell S)
  /\ exists b, cell_overlap_set c S = Passed b.
Proof.
  intros g S c. split; [reflexivity|].
  destruct (cell_overlap_set_common_point c S eq_refl) as (b & Hb & _). by exists b.
Defined.

(** ** Removing and restricting, on points *)

(** X16.  [GridTreeSet::remove(theCell)], on a paving whose internal flags
    are [indeterminate], removes the points of the cell and no other,
    whichever of the paving and the cell is rooted higher; afterwards
    [overlap(theCell, theSet)] answers false. *)
Theorem remove_cell_removes_the_cell (theCell : GridCell) (S S' : GridTreeSet) (H : nat) :
  cell_word (theGridCell S) = [] ->
  internal_unknown (pRootTreeNode S) = true ->
  remove_cell theCell S = Returns S' ->
  Nat.max (cell_height (theGridCell S)) (cell_height theCell) <= H ->
  (forall s, in_paving H S' s = in_paving H S s && negb (in_cell H theCell s))
  /\ cell_overlap_set theCell S' = Passed false.
Proof.
  intros Hword Hroot Hop HH. unfold remove_cell, same_grid in Hop.
  destruct (bool_decide_reflect (cell_grid (theGridCell S) = cell_grid theCell)) as [Hgrid|];
    [|done].
  cbn [negb] in Hop. unfold on_aligned_node in Hop.
  destruct (align_with_cell _ _ _ _ _) as [[[this ptr] stopped]|] eqn:Halign; [|done].
  apply (align_with_cell_for_removal _ _ _ _ _ Hword Hroot) in Halign
    as (Hcell & Hpav & Hspec).
  set (d := dimension (cell_grid (theGridCell S))) in *.
  set (h1 := Nat.max (cell_height (theGridCell S)) (cell_height theCell)) in *.
  assert (Hpath : forall K, h1 <= K ->
            path_from K theCell
            = primary_cell_path d K h1
              ++ primary_cell_path d h1 (cell_height theCell) ++ cell_word theCell).
  { intros K HK. unfold path_from. rewrite <- Hgrid. fold d.
    rewrite (primary_cell_path_app d K h1 (cell_height theCell)) by lia.
    by rewrite <- app_assoc. }
  assert (Hsem : forall K s, h1 <= K ->
            in_paving K S' s = in_paving K S s && negb (in_cell K theCell s)).
  { intros K s HK. rewrite <- (Hpav K s HK). unfold in_cell. rewrite (Hpath K HK).
    destruct this as [c root]. cbn [theGridCell pRootTreeNode] in *. subst c.
    destruct stopped.
    - injection Hop as <-. destruct Hspec as [[rest Hrest] Hnode].
      rewrite in_paving_primary. fold d. rewrite Hrest, !below_app.
      destruct (below (primary_cell_path d K h1) s); [|done]. cbn [andb].
      destruct (below ptr _) eqn:Hptr; [|by rewrite andb_true_r].
      by rewrite (node_at_contains ptr root _ _ Hnode Hptr).
    - destruct Hspec as [-> (m & Hm)]. rewrite Hm in Hop. injection Hop as <-.
      rewrite !in_paving_primary. fold d.
      rewrite (update_at_contains _ _ m _ _ Hm), remove_cell_from_contains, !below_app.
      destruct (below (primary_cell_path d K h1) s); [|done]. cbn [andb].
      destruct (below (primary_cell_path d h1 (cell_height theCell)) _) eqn:Hptr;
        [|by rewrite andb_true_r].
      by rewrite (node_at_contains _ root _ _ Hm Hptr). }
  split; [intros s; by apply Hsem|].
  assert (theGridCell S' = mkGridCell (cell_grid (theGridCell S)) h1 []) as Hcell'.
  { destruct this as [c root]. cbn [theGridCell pRootTreeNode] in *.
    destruct stopped; [by injection Hop as <-|].
    destruct Hspec as [_ (m & Hm)]. rewrite Hm in Hop. by injection Hop as <-. }
  assert (cell_grid theCell = cell_grid (theGridCell S')) as Hgrid'
    by (by rewrite Hcell').
  destruct (cell_overlap_set_iff theCell S' Hgrid') as (b & Hb & Hiff).
  rewrite Hb. f_equal. destruct b; [|done].
  destruct (proj1 Hiff eq_refl) as (s & Hc & Hs).
  rewrite Hcell' in Hc, Hs. cbn [cell_height] in Hc, Hs.
  replace (Nat.max (cell_height theCell) h1) with h1 in Hc, Hs by lia.
  rewrite Hsem, Hc in Hs by lia. by rewrite andb_false_r in Hs.
Qed.

Lemma remove_cell_removes_the_cell_witness :
  let g := mkGrid [0%Qc] [1%Qc] in
  let S := mkGridTreeSubset (mkGridCell g 0 []) (Leaf TTrue) in
  let c := mkGridCell g 0 [true] in
  let S' := mkGridTreeSubset (mkGridCell g 0 [])
              (Branch TIndeterminate (Leaf TTrue) (Leaf TFalse)) in
  cell_word (theGridCell S) = [] /\ internal_unknown (pRootTreeNode S) = true
  /\ remove_cell c S = Returns S'
  /\ cell_overlap_set c S' = Passed false.
Proof.
  intros g S c S'.
  assert (Hop : remove_cell c S = Returns S').
  { unfold remove_cell, same_grid. by rewrite bool_decide_eq_true_2. }
  split; [reflexivity|]. split; [reflexivity|]. split; [exact Hop|].
  destruct (remove_cell_removes_the_cell c S S' 0 eq_refl eq_refl Hop) as [_ Hoverlap];
    [cbn; lia|exact Hoverlap].
Defined.

(** The path of [restrict_to_lower] completes the path to the raised
    paving into the path to the other paving. *)
Lemma path_to_root_of_from (T : GridTreeSubset) (S this : GridTreeSet) (H : nat) :
  cell_grid (theGridCell S) = cell_grid (theGridCell T) ->
  theGridCell this
  = mkGridCell (cell_grid (theGridCell S))
      (Nat.max (cell_height (theGridCell S)) (cell_height (theGridCell T))) [] ->
  Nat.max (cell_height (theGridCell S)) (cell_height (theGridCell T)) <= H ->
  path_from H (theGridCell T) = path_from H (theGridCell this) ++ path_to_root_of T this.
Proof.
  intros Hgrid Hcell HH. unfold path_from, path_to_root_of. rewrite Hcell.
  cbn [cell_grid cell_height cell_word]. rewrite app_nil_r, <- Hgrid.
  rewrite (primary_cell_path_app _ H
             (Nat.max (cell_height (theGridCell S)) (cell_height (theGridCell T)))
             (cell_height (theGridCell T))) by lia.
  by rewrite <- app_assoc.
Qed.

(** [restrict(theOtherSubPaving)] and [remove(theOtherSubPaving)] on
    points. *)
Lemma restrict_subset_in_paving (T : GridTreeSubset) (S S' : GridTreeSet) :
  cell_word (theGridCell S) = [] ->
  internal_unknown (pRootTreeNode S) = true ->
  restrict_subset T S = Returns S' ->
  let h1 := Nat.max (cell_height (theGridCell S)) (cell_height (theGridCell T)) in
  cell_grid (theGridCell S) = cell_grid (theGridCell T)
  /\ theGridCell S' = mkGridCell (cell_grid (theGridCell S)) h1 []
  /\ forall H s, h1 <= H -> in_paving H S' s = in_paving H S s && in_paving H T s.
Proof.
  intros Hword Hroot Hop h1. unfold restrict_subset, same_grid in Hop.
  destruct (bool_decide_reflect
              (cell_grid (theGridCell S) = cell_grid (theGridCell T))) as [Hgrid|]; [|done].
  cbn [negb] in Hop.
  destruct (raised_to T S) as [this|] eqn:Hraised; [|done]. injection Hop as <-.
  destruct (raised_to_in_paving _ _ _ Hword Hraised) as (Hcell & Hinternal & Hpav).
  fold h1 in Hcell, Hpav. split; [done|]. split; [done|].
  intros K s HK. rewrite <- (Hpav K s HK). unfold in_paving at 1 3, in_cell.
  rewrite (path_to_root_of_from T S this K Hgrid Hcell HK).
  cbn [restrict_to_lower theGridCell pRootTreeNode].
  rewrite restrict_to_lower_from_contains by auto.
  rewrite below_app, contains_after_app. unfold in_paving, in_cell.
  destruct (below (path_from K (theGridCell this)) s); [|done]. cbn [andb].
  by rewrite andb_assoc.
Qed.

Lemma remove_subset_in_paving (T : GridTreeSubset) (S S' : GridTreeSet) :
  cell_word (theGridCell S) = [] ->
  internal_unknown (pRootTreeNode S) = true ->
  remove_subset T S = Returns S' ->
  let h1 := Nat.max (cell_height (theGridCell S)) (cell_height (theGridCell T)) in
  cell_grid (theGridCell S) = cell_grid (theGridCell T)
  /\ theGridCell S' = mkGridCell (cell_grid (theGridCell S)) h1 []
  /\ forall H s, h1 <= H -> in_paving H S' s = in_paving H S s && negb (in_paving H T s).
Proof.
  intros Hword Hroot Hop h1. unfold remove_subset, same_grid in Hop.
  destruct (bool_decide_reflect
              (cell_grid (theGridCell S) = cell_grid (theGridCell T))) as [Hgrid|]; [|done].
  cbn [negb] in Hop.
  destruct (raised_to T S) as [this|] eqn:Hraised; [|done]. injection Hop as <-.
  destruct (raised_to_in_paving _ _ _ Hword Hraised) as (Hcell & Hinternal & Hpav).
  fold h1 in Hcell, Hpav. split; [done|]. split; [done|].
  intros K s HK. rewrite <- (Hpav K s HK). unfold in_paving at 1 3, in_cell.
  rewrite (path_to_root_of_from T S this K Hgrid Hcell HK).
  cbn [remove_from_lower theGridCell pRootTreeNode].
  rewrite remove_from_lower_from_contains by auto.
  rewrite below_app, contains_after_app. unfold in_paving, in_cell.
  destruct (below (path_from K (theGridCell this)) s); [|done]. done.
Qed.

(** A paving rooted at a primary cell against another one: the answers of
    [subset] and [disjoint] from the points. *)
Lemma subset_of_primary_rooted (A R : GridTreeSubset) (h : nat) :
  theGridCell R = mkGridCell (cell_grid (theGridCell A)) h [] ->
  cell_height (theGridCell A) <= h ->
  (forall s, in_paving h A s = true -> in_paving h R s = true) ->
  GridTreeSubset_subset A R = Passed true.
Proof.
  intros Hcell Hh Hincl.
  assert (cell_grid (theGridCell A) = cell_grid (theGridCell R)) as Hgrid
    by (by rewrite Hcell).
  destruct (GridTreeSubset_subset_iff A R Hgrid) as (b & Hb & Hiff).
  rewrite Hb. f_equal. apply Hiff. rewrite Hcell. cbn [cell_height].
  replace (Nat.max (cell_height (theGridCell A)) h) with h by lia.
  split; [done|]. unfold path_from at 3. cbn [cell_grid cell_height cell_word].
  rewrite primary_cell_path_same. cbn. by rewrite orb_true_r.
Qed.

Lemma primary_rooted_subset (R B : GridTreeSubset) (h : nat) :
  theGridCell R = mkGridCell (cell_grid (theGridCell B)) h [] ->
  cell_height (theGridCell B) <= h ->
  (forall s, in_paving h R s = true -> in_paving h B s = true) ->
  GridTreeSubset_subset R B = Passed true.
Proof.
  intros Hcell Hh Hincl.
  assert (cell_grid (theGridCell R) = cell_grid (theGridCell B)) as Hgrid
    by (by rewrite Hcell).
  destruct (GridTreeSubset_subset_iff R B Hgrid) as (b & Hb & Hiff).
  rewrite Hb. f_equal. apply Hiff. rewrite Hcell. cbn [cell_height].
  replace (Nat.max h (cell_height (theGridCell B))) with h by lia.
  split; [done|]. unfold path_from at 1. cbn [cell_grid cell_height cell_word].
  by rewrite primary_cell_path_same.
Qed.

Lemma primary_rooted_disjoint (R B : GridTreeSubset) (h : nat) :
  theGridCell R = mkGridCell (cell_grid (theGridCell B)) h [] ->
  cell_height (theGridCell B) <= h ->
  (forall s, in_paving h R s = true -> in_paving h B s = false) ->
  GridTreeSubset_disjoint R B = Passed true.
Proof.
  intros Hcell Hh Hsep.
  assert (cell_grid (theGridCell R) = cell_grid (theGridCell B)) as Hgrid
    by (by rewrite Hcell).
  destruct (GridTreeSubset_overlap_iff R B Hgrid) as (b & Hb & Hiff).
  unfold GridTreeSubset_disjoint. rewrite Hb. f_equal. destruct b; [|done].
  destruct (proj1 Hiff eq_refl) as (s & Hs & HB). revert Hs HB.
  rewrite Hcell. cbn [cell_height].
  replace (Nat.max h (cell_height (theGridCell B))) with h by lia.
  intros Hs HB. by rewrite (Hsep s Hs) in HB.
Qed.

(** X17.  [GridTreeSet::restrict(theOtherSubPaving)], on a paving whose
    internal flags are [indeterminate], leaves exactly the points the
    paving has in common with the other one, whichever is rooted higher;
    afterwards [subset(theSet, theOtherSubPaving)] answers true. *)
Theorem restrict_subset_intersects (T : GridTreeSubset) (S S' : GridTreeSet) (H : nat) :
  cell_word (theGridCell S) = [] ->
  internal_unknown (pRootTreeNode S) = true ->
  restrict_subset T S = Returns S' ->
  Nat.max (cell_height (theGridCell S)) (cell_height (theGridCell T)) <= H ->
  (forall s, in_paving H S' s = in_paving H S s && in_paving H T s)
  /\ GridTreeSubset_subset S' T = Passed true.
Proof.
  intros Hword Hroot Hop HH.
  destruct (restrict_subset_in_paving T S S' Hword Hroot Hop) as (Hgrid & Hcell & Hsem).
  split; [intros s; by apply Hsem|].
  apply (primary_rooted_subset _ _
           (Nat.max (cell_height (theGridCell S)) (cell_height (theGridCell T))));
    [by rewrite Hcell, Hgrid|lia|].
  intros s. rewrite Hsem by done. by intros [_ ?]%andb_true_iff.
Qed.

Lemma restrict_subset_intersects_witness :
  let g := mkGrid [0%Qc] [1%Qc] in
  let S := mkGridTreeSubset (mkGridCell g 0 []) (Leaf TTrue) in
  let T := mkGridTreeSubset (mkGridCell g 0 [true]) (Leaf TTrue) in
  let S' := mkGridTreeSubset (mkGridCell g 0 [])
              (Branch TIndeterminate (Leaf TFalse) (Leaf TTrue)) in
  cell_word (theGridCell S) = [] /\ internal_unknown (pRootTreeNode S) = true
  /\ restrict_subset T S = Returns S'
  /\ GridTreeSubset_subset S' T = Passed true.
Proof.
  intros g S T S'.
  assert (Hop : restrict_subset T S = Returns S').
  { unfold restrict_subset, same_grid. by rewrite bool_decide_eq_true_2. }
  split; [reflexivity|]. split; [reflexivity|]. split; [exact Hop|].
  destruct (restrict_subset_intersects T S S' 0 eq_refl eq_refl Hop) as [_ Hsubset];
    [cbn; lia|exact Hsubset].
Defined.

(** X18.  [GridTreeSet::remove(theOtherSubPaving)], on a paving whose
    internal flags are [indeterminate], removes the points of the other
    paving and no other, whichever is rooted higher; afterwards the two
    pavings are disjoint. *)
Theorem remove_subset_subtracts (T : GridTreeSubset) (S S' : GridTreeSet) (H : nat) :
  cell_word (theGridCell S) = [] ->
  internal_unknown (pRootTreeNode S) = true ->
  remove_subset T S = Returns S' ->
  Nat.max (cell_height (theGridCell S)) (cell_height (theGridCell T)) <= H ->
  (forall s, in_paving H S' s = in_paving H S s && negb (in_paving H T s))
  /\ GridTreeSubset_disjoint S' T = Passed true.
Proof.
  intros Hword Hroot Hop HH.
  destruct (remove_subset_in_paving T S S' Hword Hroot Hop) as (Hgrid & Hcell & Hsem).
  split; [intros s; by apply Hsem|].
  apply (primary_rooted_disjoint _ _
           (Nat.max (cell_height (theGridCell S)) (cell_height (theGridCell T))));
    [by rewrite Hcell, Hgrid|lia|].
  intros s. rewrite Hsem by done. intros [_ ?]%andb_true_iff. by apply negb_true_iff.
Qed.

Lemma remove_subset_subtracts_witness :
  let g := mkGrid [0%Qc] [1%Qc] in
  let S := mkGridTreeSubset (mkGridCell g 0 []) (Leaf TTrue) in
  let T := mkGridTreeSubset (mkGridCell g 0 [true]) (Leaf TTrue) in
  let S' := mkGridTreeSubset (mkGridCell g 0 [])
              (Branch TIndeterminate (Leaf TTrue) (Leaf TFalse)) in
  cell_word (theGridCell S) = [] /\ internal_unknown (pRootTreeNode S) = true
  /\ remove_subset T S = Returns S'
  /\ GridTreeSubset_disjoint S' T = Passed true.
Proof.
  intros g S T S'.
  assert (Hop : remove_subset T S = Returns S').
  { unfold remove_subset, same_grid. by rewrite bool_decide_eq_true_2. }
  split; [reflexivity|]. split; [reflexivity|]. split; [exact Hop|].
  destruct (remove_subset_subtracts T S S' 0 eq_refl eq_refl Hop) as [_ Hdisjoint];
    [cbn; lia|exact Hdisjoint].
Defined.

(** X19.  [GridTreeSet::restrict_to_height(theHeight)] leaves exactly the
    points of the paving that lie in the primary cell of that height; a
    height at or above the paving's own changes nothing. *)
Theorem restrict_to_height_keeps_primary_cell (theHeight : nat) (S : GridTreeSet) (H : nat) :
  cell_word (theGridCell S) = [] ->
  Nat.max (cell_height (theGridCell S)) theHeight <= H ->
  (forall s, in_paving H (restrict_to_height theHeight S) s
             = in_paving H S s
               && below (primary_cell_path (dimension (cell_grid (theGridCell S))) H theHeight) s)
  /\ (cell_height (theGridCell S) <= theHeight -> restrict_to_height theHeight S = S).
Proof.
  intros Hword HH. destruct S as [[g h w] root]. cbn in Hword, HH. subst w.
  unfold restrict_to_height. cbn [theGridCell cell_height cell_grid pRootTreeNode].
  destruct (Nat.ltb_spec theHeight h) as [Hlt|Hge].
  - split; [|lia]. intros s. rewrite !in_paving_primary.
    rewrite restrict_to_height_from_contains.
    rewrite (primary_cell_path_app (dimension g) H h theHeight) by lia.
    rewrite below_app.
    destruct (below (primary_cell_path (dimension g) H h) s); [|done]. done.
  - split; [|done]. intros s. rewrite !in_paving_primary.
    rewrite (primary_cell_path_app (dimension g) H theHeight h) by lia.
    rewrite below_app.
    destruct (below (primary_cell_path (dimension g) H theHeight) s); [|done].
    by rewrite andb_true_r.
Qed.

Lemma restrict_to_height_keeps_primary_cell_witness :
  let g := mkGrid [0%Qc] [1%Qc] in
  let S := mkGridTreeSubset (mkGridCell g 1 []) (Leaf TTrue) in
  cell_word (theGridCell S) = []
  /\ restrict_to_height 0 S
     = mkGridTreeSubset (mkGridCell g 1 []) (Branch TIndeterminate (Leaf TFalse) (Leaf TTrue))
  /\ restrict_to_height 1 S = S.
Proof.
  intros g S. split; [reflexivity|]. split; [reflexivity|].
  destruct (restrict_to_height_keeps_primary_cell 1 S 1 eq_refl) as [_ Hsame];
    [cbn; lia|]. apply Hsame. cbn. lia.
Defined.

(** ** Adjoining a paving, on points *)

Lemma internal_unknown_not_enabled (n : BinaryTreeNode) :
  internal_unknown n = true -> internal_not_enabled n = true.
Proof.
  induction n as [e|e l IHl r IHr]; [done|]. cbn.
  intros [[He Hl]%andb_true_iff Hr]%andb_true_iff.
  rewrite IHl, IHr by done. by destruct e.
Qed.

Lemma add_enabled_internal_unknown (pToTreeRoot : BinaryTreeNode) : forall pFromTreeRoot,
  internal_unknown pToTreeRoot = true -> internal_unknown pFromTreeRoot = true ->
  internal_unknown (add_enabled pToTreeRoot pFromTreeRoot) = true.
Proof.
  induction pToTreeRoot as [a|a l IHl r IHr]; intros [b|b l' r'] Hto Hfrom.
  - by destruct a, b.
  - destruct a; cbn in *; try done;
      apply andb_true_iff in Hfrom as [[_ Hl]%andb_true_iff Hr]; by rewrite Hl, Hr.
  - by destruct b.
  - cbn in *. apply andb_true_iff in Hto as [[Ha Hl]%andb_true_iff Hr].
    apply andb_true_iff in Hfrom as [[_ Hl']%andb_true_iff Hr'].
    by rewrite Ha, IHl, IHr.
Qed.

Lemma add_enabled_subtree_internal_unknown (path : BinaryWord) : forall this pOtherSubTree,
  internal_unknown this = true -> internal_unknown pOtherSubTree = true ->
  internal_unknown (add_enabled_subtree this pOtherSubTree path) = true.
Proof.
  induction path as [|b path IH]; intros this other Hthis Hother.
  - cbn. destruct (is_enabled this); [done|]. by apply add_enabled_internal_unknown.
  - cbn [add_enabled_subtree]. destruct (is_enabled this); [done|].
    pose proof (split_internal_unknown this Hthis) as Hsplit.
    destruct (split this) as [e|e l r]; [done|].
    cbn in Hsplit. apply andb_true_iff in Hsplit as [[He Hl]%andb_true_iff Hr].
    destruct b; cbn; by rewrite He, ?Hl, ?Hr, IH.
Qed.

Lemma update_at_internal_unknown (ptr : BinaryWord) : forall n m',
  internal_unknown n = true -> internal_unknown m' = true ->
  internal_unknown (update_at ptr m' n) = true.
Proof.
  induction ptr as [|b ptr IH]; intros n m' Hn Hm'; [done|].
  destruct n as [e|e l r]; [done|]. cbn in Hn.
  apply andb_true_iff in Hn as [[He Hl]%andb_true_iff Hr].
  destruct b; cbn; by rewrite He, ?Hl, ?Hr, IH.
Qed.

(** Aligning for an adjoining (stop on an enabled node) on a tree whose
    internal flags are [indeterminate]: either the walk reaches the end of
    the path, or it stops on an enabled leaf above it. *)
Lemma align_descend_for_adjoining (path : BinaryWord) : forall n,
  internal_unknown n = true ->
  exists n1 ptr stopped,
    align_descend path true false false n = (n1, ptr, stopped)
    /\ internal_unknown n1 = true
    /\ if stopped
       then (exists rest, path = ptr ++ rest) /\ node_at n1 ptr = Some (Leaf TTrue)
       else ptr = path /\ exists m, node_at n1 ptr = Some m /\ internal_unknown m = true.
Proof.
  induction path as [|b path IH]; intros n Hn.
  - exists n, [], false. split; [done|]. split; [done|]. split; [done|]. by exists n.
  - cbn [align_descend]. rewrite andb_false_r, orb_false_r, andb_true_r.
    destruct (is_enabled n) eqn:Hen.
    + exists n, [], true. split; [done|]. split; [done|]. split; [by eexists|].
      destruct n as [e|e l r]; [by destruct e|].
      cbn in Hn. unfold is_enabled in Hen. cbn in Hen. by destruct e.
    + pose proof (split_internal_unknown n Hn) as Hsplit.
      destruct (split n) as [e|e l r] eqn:Hs; [by destruct n|].
      cbn in Hsplit. apply andb_true_iff in Hsplit as [[He Hl]%andb_true_iff Hr].
      destruct b.
      * destruct (IH r Hr) as (r1 & ptr & stopped & Heq & Hr1 & Hspec). rewrite Heq.
        exists (Branch e l r1), (true :: ptr), stopped. split; [done|].
        split; [cbn; by rewrite He, Hl, Hr1|].
        destruct stopped.
        -- destruct Hspec as [[rest ->] Hnode]. split; [by exists rest|done].
        -- destruct Hspec as [-> Hnode]. done.
      * destruct (IH l Hl) as (l1 & ptr & stopped & Heq & Hl1 & Hspec). rewrite Heq.
        exists (Branch e l1 r), (false :: ptr), stopped. split; [done|].
        split; [cbn; by rewrite He, Hl1, Hr|].
        destruct stopped.
        -- destruct Hspec as [[rest ->] Hnode]. split; [by exists rest|done].
        -- destruct Hspec as [-> Hnode]. done.
Qed.

Lemma align_with_cell_for_adjoining (h' : nat) (S this : GridTreeSet) (ptr : BinaryWord)
    (stopped : bool) :
  cell_word (theGridCell S) = [] ->
  internal_unknown (pRootTreeNode S) = true ->
  align_with_cell h' true false false S = Some (this, ptr, stopped) ->
  let d := dimension (cell_grid (theGridCell S)) in
  let h1 := Nat.max (cell_height (theGridCell S)) h' in
  theGridCell this = mkGridCell (cell_grid (theGridCell S)) h1 []
  /\ internal_unknown (pRootTreeNode this) = true
  /\ (forall H s, h1 <= H -> in_paving H this s = in_paving H S s)
  /\ if stopped
     then (exists rest, primary_cell_path d h1 h' = ptr ++ rest)
          /\ node_at (pRootTreeNode this) ptr = Some (Leaf TTrue)
     else ptr = primary_cell_path d h1 h'
          /\ exists m, node_at (pRootTreeNode this) ptr = Some m
                       /\ internal_unknown m = true.
Proof.
  intros Hword Hroot Halign d h1. unfold align_with_cell in Halign.
  destruct (Nat.ltb_spec h' (cell_height (theGridCell S))) as [Hlt|Hge].
  - subst h1. rewrite Nat.max_l by lia.
    destruct (align_descend_for_adjoining
                (primary_cell_path d (cell_height (theGridCell S)) h') _ Hroot)
      as (n1 & ptr1 & st & Heq & Hn1 & Hspec).
    pose proof (align_descend_contains
                  (primary_cell_path d (cell_height (theGridCell S)) h') true false false
                  (pRootTreeNode S)) as Hcontains.
    fold d in Halign. rewrite Heq in Halign, Hcontains. injection Halign as <- <- <-.
    cbn [theGridCell pRootTreeNode fst] in *.
    split; [destruct S as [[g h w] root]; cbn in *; by subst|].
    split; [done|]. split; [|done].
    intros H s HH. unfold in_paving. cbn [theGridCell pRootTreeNode]. by rewrite Hcontains.
  - destruct (Nat.ltb_spec (cell_height (theGridCell S)) h') as [Hlt|Hge'].
    + destruct (up_to_primary_cell h' S) as [S1|] eqn:Hup; [|done].
      injection Halign as <- <- <-.
      destruct (up_to_primary_cell_in_paving _ _ _ Hword Hup) as (_ & Hc & Hi & Hp).
      subst h1. rewrite Nat.max_r by lia. split; [done|]. split; [by apply Hi|].
      split; [done|].
      rewrite primary_cell_path_same. split; [done|]. eexists. split; [done|by apply Hi].
    + injection Halign as <- <- <-. subst h1. rewrite Nat.max_l by lia.
      replace h' with (cell_height (theGridCell S)) by lia.
      split; [destruct S as [[g h w] root]; cbn in *; by subst|].
      split; [done|]. split; [done|].
      rewrite primary_cell_path_same. split; [done|]. by eexists.
Qed.

(** [adjoin(theOtherSubPaving)] on points. *)
Lemma adjoin_subset_in_paving (T : GridTreeSubset) (S S' : GridTreeSet) :
  cell_word (theGridCell S) = [] ->
  internal_unknown (pRootTreeNode S) = true ->
  adjoin_subset T S = Returns S' ->
  let h1 := Nat.max (cell_height (theGridCell S)) (cell_height (theGridCell T)) in
  cell_grid (theGridCell S) = cell_grid (theGridCell T)
  /\ theGridCell S' = mkGridCell (cell_grid (theGridCell S)) h1 []
  /\ (internal_unknown (pRootTreeNode T) = true -> internal_unknown (pRootTreeNode S') = true)
  /\ forall H s, h1 <= H -> in_paving H S' s = in_paving H S s || in_paving H T s.
Proof.
  intros Hword Hroot Hop h1. unfold adjoin_subset, same_grid in Hop.
  destruct (bool_decide_reflect
              (cell_grid (theGridCell S) = cell_grid (theGridCell T))) as [Hgrid|]; [|done].
  cbn [negb] in Hop. unfold on_aligned_node in Hop.
  destruct (align_with_cell _ _ _ _ _) as [[[this ptr] stopped]|] eqn:Halign; [|done].
  apply (align_with_cell_for_adjoining _ _ _ _ _ Hword Hroot) in Halign
    as (Hcell & Hthis & Hpav & Hspec).
  set (d := dimension (cell_grid (theGridCell S))) in *. fold h1 in Hcell, Hpav, Hspec.
  assert (Hpath : forall K, h1 <= K ->
            path_from K (theGridCell T)
            = primary_cell_path d K h1
              ++ primary_cell_path d h1 (cell_height (theGridCell T))
              ++ cell_word (theGridCell T)).
  { intros K HK. unfold path_from. rewrite <- Hgrid. fold d.
    rewrite (primary_cell_path_app d K h1 (cell_height (theGridCell T))) by lia.
    by rewrite <- app_assoc. }
  split; [done|].
  destruct this as [c root]. cbn [theGridCell pRootTreeNode] in *. subst c.
  destruct stopped.
  - injection Hop as <-. cbn [theGridCell pRootTreeNode].
    split; [done|]. split; [done|].
    intros K s HK. rewrite <- (Hpav K s HK). destruct Hspec as [[rest Hrest] Hnode].
    unfold in_paving at 3, in_cell. rewrite (Hpath K HK).
    rewrite in_paving_primary. fold d. rewrite Hrest, <- !app_assoc, !below_app.
    destruct (below (primary_cell_path d K h1) s); [|done]. cbn [andb].
    destruct (below ptr _) eqn:Hptr; [|by rewrite orb_false_r].
    by rewrite (node_at_contains ptr root _ _ Hnode Hptr).
  - destruct Hspec as [-> (m & Hm & Hmu)]. rewrite Hm in Hop. injection Hop as <-.
    cbn [theGridCell pRootTreeNode].
    split; [done|].
    split; [intros HT; apply update_at_internal_unknown; [done|];
            by apply add_enabled_subtree_internal_unknown|].
    intros K s HK. rewrite <- (Hpav K s HK).
    unfold in_paving at 3, in_cell. rewrite (Hpath K HK).
    rewrite !in_paving_primary. fold d.
    rewrite (update_at_contains _ _ m _ _ Hm).
    rewrite add_enabled_subtree_contains by (by apply internal_unknown_not_enabled).
    rewrite !below_app, !contains_after_app.
    destruct (below (primary_cell_path d K h1) s); [|done]. cbn [andb].
    destruct (below (primary_cell_path d h1 (cell_height (theGridCell T))) _) eqn:Hptr;
      [|by rewrite orb_false_r].
    by rewrite (node_at_contains _ root _ _ Hm Hptr).
Qed.

(** ** [join], [intersection] and [difference] *)

(** The empty paving the three operations start from. *)
Lemma GridTreeSet_at_height_in_paving (g : Grid) (h H : nat) (s : nat -> bool) :
  in_paving H (GridTreeSet_at_height g h) s = false.
Proof. unfold GridTreeSet_at_height. rewrite in_paving_primary. cbn. by rewrite andb_false_r. Qed.

Lemma binary_operation_first (second : GridTreeSubset -> GridTreeSet -> outcome)
    (theSet1 theSet2 : GridTreeSubset) (R : GridTreeSet) :
  binary_operation second theSet1 theSet2 = Returns R ->
  let h := Nat.max (cell_height (theGridCell theSet1)) (cell_height (theGridCell theSet2)) in
  cell_grid (theGridCell theSet1) = cell_grid (theGridCell theSet2)
  /\ exists R1,
       second theSet2 R1 = Returns R
       /\ theGridCell R1 = mkGridCell (cell_grid (theGridCell theSet1)) h []
       /\ (internal_unknown (pRootTreeNode theSet1) = true ->
           internal_unknown (pRootTreeNode R1) = true)
       /\ forall H s, h <= H -> in_paving H R1 s = in_paving H theSet1 s.
Proof.
  intros Hop h. unfold binary_operation, same_grid in Hop.
  destruct (bool_decide_reflect
              (cell_grid (theGridCell theSet1) = cell_grid (theGridCell theSet2)))
    as [Hgrid|]; [|done].
  cbn [negb] in Hop. split; [done|].
  replace (if cell_height (theGridCell theSet1) <? cell_height (theGridCell theSet2)
           then cell_height (theGridCell theSet2) else cell_height (theGridCell theSet1))
    with h in Hop by (destruct (Nat.ltb_spec (cell_height (theGridCell theSet1))
                                  (cell_height (theGridCell theSet2))); lia).
  destruct (adjoin_subset theSet1 _) as [R1| | |] eqn:Hadjoin; try done.
  cbn [and_then] in Hop. exists R1. split; [done|].
  apply adjoin_subset_in_paving in Hadjoin as (_ & Hcell & Hint & Hpav); [|done|done].
  cbn [GridTreeSet_at_height theGridCell cell_height cell_grid] in Hcell, Hpav.
  replace (Nat.max h (cell_height (theGridCell theSet1))) with h in Hcell, Hpav by lia.
  split; [done|]. split; [done|].
  intros H s HH. rewrite (Hpav H s HH). by rewrite GridTreeSet_at_height_in_paving.
Qed.

(** X20.  [join(theSet1, theSet2)] of two pavings of one grid, the first
    with [indeterminate] internal flags, holds exactly the points of either
    paving, and both are subsets of it. *)
Theorem join_is_the_union (theSet1 theSet2 : GridTreeSubset) (R : GridTreeSet) (H : nat) :
  internal_unknown (pRootTreeNode theSet1) = true ->
  join theSet1 theSet2 = Returns R ->
  Nat.max (cell_height (theGridCell theSet1)) (cell_height (theGridCell theSet2)) <= H ->
  (forall s, in_paving H R s = in_paving H theSet1 s || in_paving H theSet2 s)
  /\ GridTreeSubset_subset theSet1 R = Passed true
  /\ GridTreeSubset_subset theSet2 R = Passed true.
Proof.
  intros Hint Hop HH. unfold join in Hop.
  apply binary_operation_first in Hop as (Hgrid & R1 & Hsecond & Hcell1 & Hint1 & Hpav1).
  set (h := Nat.max (cell_height (theGridCell theSet1))
              (cell_height (theGridCell theSet2))) in *.
  assert (cell_word (theGridCell R1) = []) as Hword1 by (by rewrite Hcell1).
  apply adjoin_subset_in_paving in Hsecond as (_ & Hcell & _ & Hpav);
    [|done|by apply Hint1].
  rewrite Hcell1 in Hcell, Hpav. cbn [cell_height cell_grid] in Hcell, Hpav.
  replace (Nat.max h (cell_height (theGridCell theSet2))) with h in Hcell, Hpav by lia.
  assert (Hsem : forall K s, h <= K ->
            in_paving K R s = in_paving K theSet1 s || in_paving K theSet2 s).
  { intros K s HK. by rewrite Hpav, Hpav1. }
  split; [intros s; by apply Hsem|]. split.
  - apply (subset_of_primary_rooted _ _ h); [done|lia|].
    intros s Hs. by rewrite Hsem, Hs.
  - apply (subset_of_primary_rooted _ _ h); [by rewrite <- Hgrid|lia|].
    intros s Hs. by rewrite Hsem, Hs, orb_true_r.
Qed.

Lemma join_is_the_union_witness :
  let g := mkGrid [0%Qc] [1%Qc] in
  let A := mkGridTreeSubset (mkGridCell g 0 [false]) (Leaf TTrue) in
  let B := mkGridTreeSubset (mkGridCell g 1 []) (Leaf TTrue) in
  exists R,
    internal_unknown (pRootTreeNode A) = true
    /\ join A B = Returns R
    /\ GridTreeSubset_subset A R = Passed true
    /\ GridTreeSubset_subset B R = Passed true.
Proof.
  intros g A B.
  assert (Hop : exists R, join A B = Returns R).
  { unfold join, binary_operation, same_grid. rewrite bool_decide_eq_true_2 by done.
    eexists. vm_compute. reflexivity. }
  destruct Hop as [R Hop]. exists R. split; [reflexivity|]. split; [exact Hop|].
  destruct (join_is_the_union A B R 1 eq_refl Hop) as (_ & HA & HB); [cbn; lia|].
  split; [exact HA|exact HB].
Defined.

(** X21.  [intersection(theSet1, theSet2)] of two pavings of one grid, the
    first with [indeterminate] internal flags, holds exactly the points
    common to both pavings, and it is a subset of each. *)
Theorem intersection_is_the_meet (theSet1 theSet2 : GridTreeSubset) (R : GridTreeSet)
    (H : nat) :
  internal_unknown (pRootTreeNode theSet1) = true ->
  intersection theSet1 theSet2 = Returns R ->
  Nat.max (cell_height (theGridCell theSet1)) (cell_height (theGridCell theSet2)) <= H ->
  (forall s, in_paving H R s = in_paving H theSet1 s && in_paving H theSet2 s)
  /\ GridTreeSubset_subset R theSet1 = Passed true
  /\ GridTreeSubset_subset R theSet2 = Passed true.
Proof.
  intros Hint Hop HH. unfold intersection in Hop.
  apply binary_operation_first in Hop as (Hgrid & R1 & Hsecond & Hcell1 & Hint1 & Hpav1).
  set (h := Nat.max (cell_height (theGridCell theSet1))
              (cell_height (theGridCell theSet2))) in *.
  assert (cell_word (theGridCell R1) = []) as Hword1 by (by rewrite Hcell1).
  apply restrict_subset_in_paving in Hsecond as (_ & Hcell & Hpav);
    [|done|by apply Hint1].
  rewrite Hcell1 in Hcell, Hpav. cbn [cell_height cell_grid] in Hcell, Hpav.
  replace (Nat.max h (cell_height (theGridCell theSet2))) with h in Hcell, Hpav by lia.
  assert (Hsem : forall K s, h <= K ->
            in_paving K R s = in_paving K theSet1 s && in_paving K theSet2 s).
  { intros K s HK. by rewrite Hpav, Hpav1. }
  split; [intros s; by apply Hsem|]. split.
  - apply (primary_rooted_subset _ _ h); [done|lia|].
    intros s. rewrite Hsem by done. by intros [? _]%andb_true_iff.
  - apply (primary_rooted_subset _ _ h); [by rewrite <- Hgrid|lia|].
    intros s. rewrite Hsem by done. by intros [_ ?]%andb_true_iff.
Qed.

Lemma intersection_is_the_meet_witness :
  let g := mkGrid [0%Qc] [1%Qc] in
  let A := mkGridTreeSubset (mkGridCell g 0 [false]) (Leaf TTrue) in
  let B := mkGridTreeSubset (mkGridCell g 1 []) (Leaf TTrue) in
  exists R,
    internal_unknown (pRootTreeNode A) = true
    /\ intersection A B = Returns R
    /\ GridTreeSubset_subset R A = Passed true
    /\ GridTreeSubset_subset R B = Passed true.
Proof.
  intros g A B.
  assert (Hop : exists R, intersection A B = Returns R).
  { unfold intersection, binary_operation, same_grid. rewrite bool_decide_eq_true_2 by done.
    eexists. vm_compute. reflexivity. }
  destruct Hop as [R Hop]. exists R. split; [reflexivity|]. split; [exact Hop|].
  destruct (intersection_is_the_meet A B R 1 eq_refl Hop) as (_ & HA & HB); [cbn; lia|].
  split; [exact HA|exact HB].
Defined.

(** X22.  [difference(theSet1, theSet2)] of two pavings of one grid, the
    first with [indeterminate] internal flags, holds exactly the points of
    the first paving that are not in the second; it is a subset of the
    first and disjoint from the second. *)
Theorem difference_is_the_complement (theSet1 theSet2 : GridTreeSubset) (R : GridTreeSet)
    (H : nat) :
  internal_unknown (pRootTreeNode theSet1) = true ->
  difference theSet1 theSet2 = Returns R ->
  Nat.max (cell_height (theGridCell theSet1)) (cell_height (theGridCell theSet2)) <= H ->
  (forall s, in_paving H R s = in_paving H theSet1 s && negb (in_paving H theSet2 s))
  /\ GridTreeSubset_subset R theSet1 = Passed true
  /\ GridTreeSubset_disjoint R theSet2 = Passed true.
Proof.
  intros Hint Hop HH. unfold difference in Hop.
  apply binary_operation_first in Hop as (Hgrid & R1 & Hsecond & Hcell1 & Hint1 & Hpav1).
  set (h := Nat.max (cell_height (theGridCell theSet1))
              (cell_height (theGridCell theSet2))) in *.
  assert (cell_word (theGridCell R1) = []) as Hword1 by (by rewrite Hcell1).
  apply remove_subset_in_paving in Hsecond as (_ & Hcell & Hpav);
    [|done|by apply Hint1].
  rewrite Hcell1 in Hcell, Hpav. cbn [cell_height cell_grid] in Hcell, Hpav.
  replace (Nat.max h (cell_height (theGridCell theSet2))) with h in Hcell, Hpav by lia.
  assert (Hsem : forall K s, h <= K ->
            in_paving K R s = in_paving K theSet1 s && negb (in_paving K theSet2 s)).
  { intros K s HK. by rewrite Hpav, Hpav1. }
  split; [intros s; by apply Hsem|]. split.
  - apply (primary_rooted_subset _ _ h); [done|lia|].
    intros s. rewrite Hsem by done. by intros [? _]%andb_true_iff.
  - apply (primary_rooted_disjoint _ _ h); [by rewrite <- Hgrid|lia|].
    intros s. rewrite Hsem by done. intros [_ ?]%andb_true_iff. by apply negb_true_iff.
Qed.

Lemma difference_is_the_complement_witness :
  let g := mkGrid [0%Qc] [1%Qc] in
  let A := mkGridTreeSubset (mkGridCell g 1 []) (Leaf TTrue) in
  let B := mkGridTreeSubset (mkGridCell g 0 [false]) (Leaf TTrue) in
  exists R,
    internal_unknown (pRootTreeNode A) = true
    /\ difference A B = Returns R
    /\ GridTreeSubset_subset R A = Passed true
    /\ GridTreeSubset_disjoint R B = Passed true.
Proof.
  intros g A B.
  assert (Hop : exists R, difference A B = Returns R).
  { unfold difference, binary_operation, same_grid. rewrite bool_decide_eq_true_2 by done.
    eexists. vm_compute. reflexivity. }
  destruct Hop as [R Hop]. exists R. split; [reflexivity|]. split; [exact Hop|].
  destruct (difference_is_the_complement A B R 1 eq_refl Hop) as (_ & HA & HB); [cbn; lia|].
  split; [exact HA|exact HB].
Defined.

(** ** The iterator visits the enabled leaves in order *)

Lemma lookup_map_cons (b : bool) (l : list BinaryWord) (i : nat) :
  map (cons b) l !! i = cons b <$> l !! i.
Proof. revert i. induction l as [|x l IH]; intros [|i]; cbn; auto. Qed.

Lemma last_map_cons (b : bool) (l : list BinaryWord) :
  last (map (cons b) l) = cons b <$> last l.
Proof.
  induction l as [|x l IH]; [done|]. destruct l as [|y l]; [done|].
  cbn [map] in *. by rewrite !last_cons_cons.
Qed.

Lemma navigate_to_spec (firstLast : bool) (n : BinaryTreeNode) : forall c,
  navigate_to firstLast n c
  = match (if firstLast then head (enabled_leaves n) else last (enabled_leaves n)) with
    | Some w => (true, rev w ++ c)
    | None => (false, move_up c)
    end.
Proof.
  induction n as [e|e l IHl r IHr]; intros c.
  - cbn [navigate_to enabled_leaves]. destruct (is_enabled (Leaf e)).
    + by destruct firstLast.
    + destruct firstLast; cbn; by destruct c.
  - cbn [navigate_to enabled_leaves]. destruct firstLast.
    + rewrite IHl. destruct (enabled_leaves l) as [|w ws]; cbn [head map app].
      * cbn [move_left move_up tail]. rewrite IHr.
        destruct (enabled_leaves r) as [|w ws]; cbn [head map app].
        -- cbn [move_right move_up tail negb andb]. by destruct c.
        -- cbn [negb andb rev]. by rewrite <- app_assoc.
      * cbn [negb andb rev]. by rewrite <- app_assoc.
    + rewrite IHr. rewrite last_app, !last_map_cons.
      destruct (last (enabled_leaves r)) as [w|]; cbn [fmap option_fmap option_map].
      * cbn [negb andb rev]. by rewrite <- app_assoc.
      * cbn [move_right move_up tail]. rewrite IHl.
        destruct (last (enabled_leaves l)) as [w|]; cbn [fmap option_fmap option_map].
        -- cbn [negb andb rev]. by rewrite <- app_assoc.
        -- cbn [move_left move_up tail negb andb]. by destruct c.
Qed.

(** From an enabled leaf of the subtree at [p]: the step leads to the next
    enabled leaf of the subtree, or goes on as from the subtree itself. *)
Lemma find_next_from_subtree (root : BinaryTreeNode) (es : bool) (n : BinaryTreeNode) :
  forall p i w fuel,
    node_at root p = Some n ->
    enabled_leaves n !! i = Some w ->
    find_next_enabled_leaf (length w + fuel) root (rev (p ++ w)) es
    = match enabled_leaves n !! S i with
      | Some w' => CursorAt (rev (p ++ w')) es
      | None => find_next_enabled_leaf fuel root (rev p) es
      end.
Proof.
  induction n as [e|e l IHl r IHr]; intros p i w fuel Hn Hw.
  - cbn [enabled_leaves] in *. destruct (is_enabled (Leaf e)); [|done].
    destruct i; [|done]. injection Hw as <-. cbn. by rewrite app_nil_r.
  - cbn [enabled_leaves] in *.
    assert (Hl : node_at root (p ++ [false]) = Some l).
    { clear -Hn. revert root Hn. induction p as [|b p IH]; intros root Hn.
      - cbn in *. by injection Hn as ->.
      - destruct root as [|e' l' r']; [done|]. cbn in *. destruct b; by apply IH. }
    assert (Hr : node_at root (p ++ [true]) = Some r).
    { clear -Hn. revert root Hn. induction p as [|b p IH]; intros root Hn.
      - cbn in *. by injection Hn as ->.
      - destruct root as [|e' l' r']; [done|]. cbn in *. destruct b; by apply IH. }
    apply lookup_app_Some in Hw as [Hw|[Hge Hw]].
    + rewrite lookup_map_cons in Hw.
      destruct (enabled_leaves l !! i) as [w0|] eqn:Hw0; [|done].
      injection Hw as <-.
      replace (length (false :: w0) + fuel) with (length w0 + S fuel) by (cbn; lia).
      replace (p ++ false :: w0) with ((p ++ [false]) ++ w0) by (by rewrite <- app_assoc).
      rewrite (IHl _ i w0 (S fuel) Hl Hw0).
      destruct (enabled_leaves l !! S i) as [w1|] eqn:Hw1.
      * rewrite lookup_app_l by (rewrite length_map; by eapply lookup_lt_Some).
        rewrite lookup_map_cons, Hw1. cbn. by rewrite <- app_assoc.
      * apply lookup_ge_None in Hw1. apply lookup_lt_Some in Hw0.
        rewrite lookup_app_r by (rewrite length_map; lia).
        rewrite length_map. replace (S i - length (enabled_leaves l)) with 0 by lia.
        rewrite rev_app_distr. cbn [rev app find_next_enabled_leaf cursor_is_left_child
                                   move_up move_right tail cursor_word].
        rewrite rev_involutive, Hr, navigate_to_spec.
        destruct (enabled_leaves r) as [|w1 ws]; cbn [head map lookup list_lookup negb].
        -- done.
        -- rewrite rev_app_distr. cbn [rev]. by rewrite <- !app_assoc.
    + rewrite length_map in Hge, Hw. rewrite lookup_map_cons in Hw.
      destruct (enabled_leaves r !! (i - length (enabled_leaves l))) as [w0|] eqn:Hw0;
        [|done].
      injection Hw as <-.
      replace (length (true :: w0) + fuel) with (length w0 + S fuel) by (cbn; lia).
      replace (p ++ true :: w0) with ((p ++ [true]) ++ w0) by (by rewrite <- app_assoc).
      rewrite (IHr _ _ w0 (S fuel) Hr Hw0).
      rewrite (lookup_app_r _ _ (S i)) by (rewrite length_map; lia).
      rewrite length_map, lookup_map_cons.
      replace (S i - length (enabled_leaves l)) with (S (i - length (enabled_leaves l)))
        by lia.
      destruct (enabled_leaves r !! S (i - length (enabled_leaves l))) as [w1|].
      * cbn. by rewrite <- app_assoc.
      * rewrite rev_app_distr. cbn. done.
Qed.

(** X23.  The iterator visits the enabled leaves of a tree left first,
    depth first, each once: [navigate_to(true)] from the root stops on the
    first enabled leaf and [navigate_to(false)] on the last one (neither
    moves when there is none), and from an enabled leaf
    [find_next_enabled_leaf] stops on the next one; from the last one it
    ends on the root, in the end state. *)
Theorem iterator_visits_enabled_leaves (root : BinaryTreeNode) :
  let leaves := enabled_leaves root in
  navigate_to true root [] = from_option (fun w => (true, rev w)) (false, []) (head leaves)
  /\ navigate_to false root [] = from_option (fun w => (true, rev w)) (false, []) (last leaves)
  /\ forall i w fuel is_in_end_state,
       leaves !! i = Some w -> length w < fuel ->
       find_next_enabled_leaf fuel root (rev w) is_in_end_state
       = match leaves !! S i with
         | Some w' => CursorAt (rev w') is_in_end_state
         | None => CursorAt [] true
         end.
Proof.
  intros leaves. split; [|split].
  - rewrite navigate_to_spec. fold leaves.
    destruct (head leaves); cbn; by rewrite ?app_nil_r.
  - rewrite navigate_to_spec. fold leaves.
    destruct (last leaves); cbn; by rewrite ?app_nil_r.
  - intros i w fuel es Hw Hfuel.
    replace fuel with (length w + (fuel - length w)) by lia.
    rewrite (find_next_from_subtree root es root [] i w _ eq_refl Hw). fold leaves.
    destruct (leaves !! S i); [done|].
    destruct (fuel - length w) as [|f] eqn:Hf; [lia|done].
Qed.

(** ** Cells against cells *)

Lemma is_prefix_below (q p : BinaryWord) :
  is_prefix q p = true <-> forall s, below p s = true -> below q s = true.
Proof.
  split.
  - intros Hqp%is_prefix_app s. rewrite Hqp, below_app. by intros [? _]%andb_true_iff.
  - intros Hincl. destruct (is_prefix q p) eqn:Hqp; [done|].
    pose proof (below_through p (fun _ => false)) as Hp.
    pose proof (below_comparable _ _ _ Hp (Hincl _ Hp)) as Hcmp.
    rewrite orb_true_iff in Hcmp. destruct Hcmp as [Hpq|]; [|congruence].
    apply is_prefix_app in Hpq. destruct (drop (length p) q) as [|b rest] eqn:Hrest.
    + rewrite app_nil_r in Hpq. subst q.
      pose proof (is_prefix_app_r p []) as Hrefl. rewrite app_nil_r in Hrefl. congruence.
    + destruct (below_outside p b rest) as (s & Hs & Hout).
      rewrite <- Hpq in Hout. rewrite (Hincl s Hs) in Hout. done.
Qed.

Lemma same_points_same_path (p q : BinaryWord) :
  p = q <-> forall s, below p s = below q s.
Proof.
  split; [by intros ->|]. intros Hsame.
  assert (is_prefix p q = true) as Hpq%is_prefix_app
    by (apply is_prefix_below; intros s; by rewrite Hsame).
  assert (is_prefix q p = true) as Hqp%is_prefix_app
    by (apply is_prefix_below; intros s; by rewrite Hsame).
  assert (length (drop (length p) q) = 0) as Hnil%nil_length_inv.
  { apply (f_equal length) in Hpq, Hqp. rewrite length_app in Hpq, Hqp. lia. }
  rewrite Hnil, app_nil_r in Hpq. done.
Qed.

Lemma compare_abstract_grid_cells_paths (pCellLeft cellRight : GridCell)
    (theComparator : comparator) :
  cell_grid pCellLeft = cell_grid cellRight ->
  let H := Nat.max (cell_height pCellLeft) (cell_height cellRight) in
  compare_abstract_grid_cells pCellLeft cellRight theComparator
  = match theComparator with
    | COMPARE_EQUAL =>
        Compared (bool_decide (path_from H pCellLeft = path_from H cellRight))
    | COMPARE_LESS =>
        Compared (BinaryWord_less (path_from H pCellLeft) (path_from H cellRight))
    | COMPARE_OTHER => ComparedInvalidInput
    end.
Proof.
  intros Hgrid H. unfold compare_abstract_grid_cells, path_from.
  rewrite bool_decide_eq_true_2 by done. cbn [negb]. rewrite <- Hgrid.
  destruct (Nat.eqb_spec (cell_height pCellLeft) (cell_height cellRight)) as [Heq|Hne].
  - subst H. rewrite <- Heq, Nat.max_id, primary_cell_path_same. done.
  - destruct (Nat.ltb_spec (cell_height cellRight) (cell_height pCellLeft)).
    + subst H. rewrite Nat.max_l by lia. by rewrite primary_cell_path_same.
    + subst H. rewrite Nat.max_r by lia. by rewrite primary_cell_path_same.
Qed.

Lemma cell_lattice_box_path_from (H : nat) (c : GridCell) :
  cell_height c <= H -> H <= 31 ->
  compute_lattice_box (dimension (cell_grid c)) H (path_from H c) = cell_lattice_box c.
Proof. intros HH Hint. unfold path_from. by apply compute_lattice_box_primary_cell_path. Qed.

(** X24.  On two cells of one grid, seen from the higher [H] of their
    primary cells: [subset(theCellOne, theCellTwo)] answers true exactly
    when every point of the first cell is a point of the second, and the
    comparison with [COMPARE_EQUAL] answers true exactly when the cells have
    the same points.  When [H <= 31], the heights whose primary-cell corners
    an [int] holds, a true answer of [subset] puts the lattice box of the
    first cell in that of the second, and a true answer of the comparison
    gives the two cells the same box.  Each half a cell is split into is a
    subset of it. *)
Theorem cells_compare_on_points (theCellOne theCellTwo : GridCell) :
  cell_grid theCellOne = cell_grid theCellTwo ->
  let H := Nat.max (cell_height theCellOne) (cell_height theCellTwo) in
  exists result equal,
    cell_subset theCellOne theCellTwo
    = Passed (result, path_from H theCellOne, path_from H theCellTwo, H)
    /\ compare_abstract_grid_cells theCellOne theCellTwo COMPARE_EQUAL = Compared equal
    /\ (result = true <->
        forall s, in_cell H theCellOne s = true -> in_cell H theCellTwo s = true)
    /\ (equal = true <-> forall s, in_cell H theCellOne s = in_cell H theCellTwo s)
    /\ (H <= 31 -> result = true ->
        sub_box (cell_lattice_box theCellOne) (cell_lattice_box theCellTwo))
    /\ (H <= 31 -> equal = true -> cell_box theCellOne = cell_box theCellTwo)
    /\ forall isRight,
         exists p1 p2 h,
           cell_subset (GridCell_split theCellOne isRight) theCellOne = Passed (true, p1, p2, h).
Proof.
  intros Hgrid H.
  exists (is_prefix (path_from H theCellTwo) (path_from H theCellOne)),
         (bool_decide (path_from H theCellOne = path_from H theCellTwo)).
  split; [by apply cell_subset_paths|].
  split; [by apply (compare_abstract_grid_cells_paths _ _ COMPARE_EQUAL)|].
  split; [apply is_prefix_below|].
  split; [rewrite bool_decide_eq_true; apply same_points_same_path|].
  split; [|split].
  - intros Hint Hpre%is_prefix_app.
    rewrite <- (cell_lattice_box_path_from H theCellOne) by lia.
    rewrite <- (cell_lattice_box_path_from H theCellTwo) by lia.
    rewrite Hpre, <- Hgrid.
    rewrite compute_lattice_box_app. by apply bisect_along_sub_box, compute_lattice_box_valid.
  - intros Hint Heq%bool_decide_eq_true. unfold cell_box, compute_box.
    fold (cell_lattice_box theCellOne) (cell_lattice_box theCellTwo).
    rewrite <- (cell_lattice_box_path_from H theCellOne) by lia.
    rewrite <- (cell_lattice_box_path_from H theCellTwo) by lia.
    by rewrite Heq, Hgrid.
  - intros isRight.
    pose proof (cell_subset_paths (GridCell_split theCellOne isRight) theCellOne eq_refl)
      as Hsplit. cbn zeta in Hsplit. rewrite Hsplit. do 3 eexists. f_equal.
    repeat f_equal. unfold path_from, GridCell_split.
    cbn [cell_grid cell_height cell_word]. rewrite app_assoc. apply is_prefix_app_r.
Qed.

Lemma cells_compare_on_points_witness :
  let g := mkGrid [0%Qc] [1%Qc] in
  let c1 := mkGridCell g 0 [] in
  let c2 := mkGridCell g 1 [true] in
  compare_abstract_grid_cells c1 c2 COMPARE_EQUAL = Compared true
  /\ cell_box c1 = cell_box c2.
Proof.
  intros g c1 c2.
  destruct (cells_compare_on_points c1 c2 eq_refl)
    as (result & equal & _ & Hcmp & _ & _ & _ & Hbox & _).
  assert (Hequal : equal = true).
  { assert (Hhere : compare_abstract_grid_cells c1 c2 COMPARE_EQUAL = Compared true).
    { unfold compare_abstract_grid_cells. by rewrite bool_decide_eq_true_2. }
    rewrite Hhere in Hcmp. by injection Hcmp as <-. }
  split; [by rewrite Hcmp, Hequal|apply Hbox; [cbn; lia|exact Hequal]].
Defined.

(** Past height 31 the comparison and the boxes part: the primary cell of
    height 31 and the lower half of the primary cell of height 32 compare
    equal, and the [int] corners give the second a single point for its
    box. *)
Example cells_compare_past_int_range :
  let g := mkGrid [0%Qc] [1%Qc] in
  let c1 := mkGridCell g 31 [] in
  let c2 := mkGridCell g 32 [false] in
  compare_abstract_grid_cells c1 c2 COMPARE_EQUAL = Compared true
  /\ cell_box c1 = [mkInterval (Qc_of_Z (-1431655765)) (Qc_of_Z 715827883)]
  /\ cell_box c2 = [mkInterval (Qc_of_Z (-1431655765)) (Qc_of_Z (-1431655765))].
Proof.
  cbn zeta. split; [by vm_compute|].
  split; vm_compute; do 2 f_equal; by apply Qc_is_canon.
Qed.

(** ** The order of the cells *)

Lemma BinaryWord_less_irrefl (a : BinaryWord) : BinaryWord_less a a = false.
Proof. induction a as [|x a IH]; [done|]. cbn. by rewrite eqb_reflx. Qed.

Lemma BinaryWord_less_asym (a : BinaryWord) : forall b,
  BinaryWord_less a b = true -> BinaryWord_less b a = false.
Proof.
  induction a as [|x a IH]; intros [|y b]; try done. cbn.
  destruct x, y; cbn; try done; apply IH.
Qed.

Lemma BinaryWord_less_total (a : BinaryWord) : forall b,
  a <> b -> BinaryWord_less a b || BinaryWord_less b a = true.
Proof.
  induction a as [|x a IH]; intros [|y b] Hne; try done. cbn.
  destruct x, y; cbn; try done; apply IH; congruence.
Qed.

Lemma BinaryWord_less_trans (a : BinaryWord) : forall b c,
  BinaryWord_less a b = true -> BinaryWord_less b c = true -> BinaryWord_less a c = true.
Proof.
  induction a as [|x a IH]; intros [|y b] [|z c]; try done. cbn.
  destruct x, y, z; cbn; try done; apply IH.
Qed.

Lemma BinaryWord_less_app (w : BinaryWord) (a b : BinaryWord) :
  BinaryWord_less (w ++ a) (w ++ b) = BinaryWord_less a b.
Proof.
  induction w as [|x w IH]; [done|]. cbn. by rewrite eqb_reflx.
Qed.

Lemma path_from_raise (K H : nat) (c : GridCell) :
  cell_height c <= H -> H <= K ->
  path_from K c = primary_cell_path (dimension (cell_grid c)) K H ++ path_from H c.
Proof.
  intros Hh HK. unfold path_from.
  rewrite (primary_cell_path_app _ K H (cell_height c)) by lia. by rewrite <- app_assoc.
Qed.

(** The comparison seen from any primary cell above the two cells. *)
Lemma compare_abstract_grid_cells_from (K : nat) (c1 c2 : GridCell) :
  cell_grid c1 = cell_grid c2 ->
  Nat.max (cell_height c1) (cell_height c2) <= K ->
  compare_abstract_grid_cells c1 c2 COMPARE_LESS
  = Compared (BinaryWord_less (path_from K c1) (path_from K c2))
  /\ compare_abstract_grid_cells c1 c2 COMPARE_EQUAL
     = Compared (bool_decide (path_from K c1 = path_from K c2)).
Proof.
  intros Hgrid HK.
  rewrite (compare_abstract_grid_cells_paths _ _ COMPARE_LESS Hgrid).
  rewrite (compare_abstract_grid_cells_paths _ _ COMPARE_EQUAL Hgrid).
  rewrite (path_from_raise K (Nat.max (cell_height c1) (cell_height c2)) c1) by lia.
  rewrite (path_from_raise K (Nat.max (cell_height c1) (cell_height c2)) c2) by lia.
  rewrite <- Hgrid, BinaryWord_less_app. split; [done|]. f_equal.
  apply bool_decide_ext. split; [by intros ->|]. by intros ?%app_inv_head.
Qed.

Lemma enabled_leaves_increasing (n : BinaryTreeNode) : forall i j a b,
  i < j -> enabled_leaves n !! i = Some a -> enabled_leaves n !! j = Some b ->
  BinaryWord_less a b = true.
Proof.
  induction n as [e|e l IHl r IHr]; intros i j a b Hij Ha Hb.
  - cbn in Ha, Hb. destruct (is_enabled (Leaf e)); [|done].
    apply lookup_lt_Some in Hb. cbn in Hb. lia.
  - cbn [enabled_leaves] in Ha, Hb.
    apply lookup_app_Some in Ha as [Ha|[Hia Ha]];
      apply lookup_app_Some in Hb as [Hb|[Hjb Hb]];
      rewrite ?length_map in *; rewrite lookup_map_cons in Ha, Hb.
    + destruct (enabled_leaves l !! i) as [a0|] eqn:Ha0; [|done].
      destruct (enabled_leaves l !! j) as [b0|] eqn:Hb0; [|done].
      injection Ha as <-. injection Hb as <-. cbn. by apply (IHl i j).
    + destruct (enabled_leaves l !! i) as [a0|]; [|done].
      destruct (enabled_leaves r !! _) as [b0|]; [|done].
      injection Ha as <-. injection Hb as <-. done.
    + destruct (enabled_leaves l !! j) as [b0|] eqn:Hb0; [|done].
      apply lookup_lt_Some in Hb0. lia.
    + destruct (enabled_leaves r !! (i - _)) as [a0|] eqn:Ha0; [|done].
      destruct (enabled_leaves r !! (j - _)) as [b0|] eqn:Hb0; [|done].
      injection Ha as <-. injection Hb as <-. cbn.
      apply (IHr (i - length (enabled_leaves l)) (j - length (enabled_leaves l)));
        [lia|done|done].
Qed.

(** X25.  The comparison of cells with [COMPARE_LESS] is a strict total
    order on the cells of one grid, also across heights: of "less",
    "equal" and "greater" exactly one holds, and "less" is transitive. *)
Theorem compare_abstract_grid_cells_total_order (c1 c2 c3 : GridCell) :
  cell_grid c1 = cell_grid c2 ->
  cell_grid c2 = cell_grid c3 ->
  (exists less equal greater,
     compare_abstract_grid_cells c1 c2 COMPARE_LESS = Compared less
     /\ compare_abstract_grid_cells c1 c2 COMPARE_EQUAL = Compared equal
     /\ compare_abstract_grid_cells c2 c1 COMPARE_LESS = Compared greater
     /\ (less, equal, greater) ∈ [(true, false, false); (false, true, false);
                                  (false, false, true)])
  /\ (compare_abstract_grid_cells c1 c2 COMPARE_LESS = Compared true ->
      compare_abstract_grid_cells c2 c3 COMPARE_LESS = Compared true ->
      compare_abstract_grid_cells c1 c3 COMPARE_LESS = Compared true).
Proof.
  intros H12 H23.
  set (K := Nat.max (cell_height c1) (Nat.max (cell_height c2) (cell_height c3))).
  destruct (compare_abstract_grid_cells_from K c1 c2 H12 ltac:(lia)) as [Hl12 He12].
  destruct (compare_abstract_grid_cells_from K c2 c1 (eq_sym H12) ltac:(lia)) as [Hl21 _].
  destruct (compare_abstract_grid_cells_from K c2 c3 H23 ltac:(lia)) as [Hl23 _].
  destruct (compare_abstract_grid_cells_from K c1 c3 (eq_trans H12 H23) ltac:(lia))
    as [Hl13 _].
  rewrite Hl12, He12, Hl21, Hl23, Hl13. split.
  - do 3 eexists. split; [done|]. split; [done|]. split; [done|].
    destruct (decide (path_from K c1 = path_from K c2)) as [Heq|Hne].
    + rewrite bool_decide_eq_true_2 by done. rewrite Heq, BinaryWord_less_irrefl.
      set_solver.
    + rewrite bool_decide_eq_false_2 by done.
      pose proof (BinaryWord_less_total _ _ Hne) as Htotal.
      destruct (BinaryWord_less (path_from K c1) (path_from K c2)) eqn:Hless.
      * rewrite (BinaryWord_less_asym _ _ Hless). set_solver.
      * cbn in Htotal. rewrite Htotal. set_solver.
  - intros [= Hab] [= Hbc]. f_equal. by eapply BinaryWord_less_trans.
Qed.

Lemma compare_abstract_grid_cells_total_order_witness :
  let g := mkGrid [0%Qc] [1%Qc] in
  let c1 := mkGridCell g 0 [false] in
  let c2 := mkGridCell g 0 [true] in
  let c3 := mkGridCell g 2 [true] in
  compare_abstract_grid_cells c1 c2 COMPARE_LESS = Compared true
  /\ compare_abstract_grid_cells c2 c3 COMPARE_LESS = Compared true
  /\ compare_abstract_grid_cells c1 c3 COMPARE_LESS = Compared true.
Proof.
  intros g c1 c2 c3.
  assert (H12 : compare_abstract_grid_cells c1 c2 COMPARE_LESS = Compared true).
  { unfold compare_abstract_grid_cells. by rewrite bool_decide_eq_true_2. }
  assert (H23 : compare_abstract_grid_cells c2 c3 COMPARE_LESS = Compared true).
  { unfold compare_abstract_grid_cells. by rewrite bool_decide_eq_true_2. }
  split; [exact H12|]. split; [exact H23|].
  exact (proj2 (compare_abstract_grid_cells_total_order c1 c2 c3 eq_refl eq_refl) H12 H23).
Defined.

Lemma find_next_enabled_leaf_more_fuel (root : BinaryTreeNode) (es : bool) (fuel : nat) :
  forall c c' es' fuel',
    find_next_enabled_leaf fuel root c es = CursorAt c' es' ->
    fuel <= fuel' ->
    find_next_enabled_leaf fuel' root c es = CursorAt c' es'.
Proof.
  induction fuel as [|fuel IH]; intros c c' es' fuel' Hstep Hle; [done|].
  destruct fuel' as [|fuel']; [lia|]. cbn [find_next_enabled_leaf] in *.
  destruct (cursor_is_left_child c).
  - destruct (node_at root _) as [n|]; [|done].
    destruct (navigate_to true n _) as [found c1].
    destruct found; cbn [negb] in *; [done|]. apply (IH _ _ _ _ Hstep). lia.
  - destruct (cursor_is_right_child c); [|done]. apply (IH _ _ _ _ Hstep). lia.
Qed.

(** X26.  A step of the iterator goes up in the order of the cells: when
    [find_next_enabled_leaf], started on an enabled leaf of a paving, stops
    on another leaf, the cell of the first is less than the cell of the
    second for the comparison with [COMPARE_LESS], and so are the cells of
    any two enabled leaves in the order the iterator visits them; no cell
    is visited twice. *)
Theorem enabled_cells_increasing (S : GridTreeSubset) (i : nat) (w : BinaryWord)
    (fuel : nat) (c' : GridTreeCursor) :
  let cell_at p :=
    mkGridCell (cell_grid (theGridCell S)) (cell_height (theGridCell S))
               (cell_word (theGridCell S) ++ p) in
  enabled_leaves (pRootTreeNode S) !! i = Some w ->
  find_next_enabled_leaf fuel (pRootTreeNode S) (rev w) false = CursorAt c' false ->
  enabled_cells S !! i = Some (cell_at w)
  /\ enabled_cells S !! Datatypes.S i = Some (cell_at (cursor_word c'))
  /\ compare_abstract_grid_cells (cell_at w) (cell_at (cursor_word c')) COMPARE_LESS
     = Compared true
  /\ forall j k cj ck,
       j < k -> enabled_cells S !! j = Some cj -> enabled_cells S !! k = Some ck ->
       compare_abstract_grid_cells cj ck COMPARE_LESS = Compared true
       /\ compare_abstract_grid_cells cj ck COMPARE_EQUAL = Compared false.
Proof.
  intros cell_at Hw Hstep.
  assert (Hpairs : forall j k cj ck,
            j < k -> enabled_cells S !! j = Some cj -> enabled_cells S !! k = Some ck ->
            compare_abstract_grid_cells cj ck COMPARE_LESS = Compared true
            /\ compare_abstract_grid_cells cj ck COMPARE_EQUAL = Compared false).
  { intros j k cj ck Hjk Hj Hk. unfold enabled_cells in Hj, Hk.
    rewrite list_lookup_fmap in Hj, Hk.
    destruct (enabled_leaves (pRootTreeNode S) !! j) as [a|] eqn:Ha; [|done].
    destruct (enabled_leaves (pRootTreeNode S) !! k) as [b|] eqn:Hb; [|done].
    injection Hj as <-. injection Hk as <-.
    pose proof (enabled_leaves_increasing _ j k a b Hjk Ha Hb) as Hless.
    unfold compare_abstract_grid_cells. cbn [cell_grid cell_height cell_word].
    rewrite bool_decide_eq_true_2 by done. cbn [negb]. rewrite Nat.eqb_refl.
    rewrite BinaryWord_less_app, Hless. split; [done|]. f_equal.
    apply bool_decide_eq_false_2. intros Heq%app_inv_head. subst b.
    by rewrite BinaryWord_less_irrefl in Hless. }
  assert (Hi : enabled_cells S !! i = Some (cell_at w)).
  { unfold enabled_cells. by rewrite list_lookup_fmap, Hw. }
  apply (find_next_enabled_leaf_more_fuel _ _ _ _ _ _ (length w + Datatypes.S fuel)) in Hstep;
    [|lia].
  rewrite (find_next_from_subtree (pRootTreeNode S) false (pRootTreeNode S) [] i w _
             eq_refl Hw) in Hstep.
  destruct (enabled_leaves (pRootTreeNode S) !! Datatypes.S i) as [w'|] eqn:Hw'; [|done].
  cbn [app] in Hstep. injection Hstep as <-.
  unfold cursor_word. rewrite rev_involutive.
  assert (Hi' : enabled_cells S !! Datatypes.S i = Some (cell_at w')).
  { unfold enabled_cells. by rewrite list_lookup_fmap, Hw'. }
  split; [done|]. split; [done|]. split; [|done].
  apply (Hpairs i (Datatypes.S i)); [lia|done|done].
Qed.

Lemma enabled_cells_increasing_witness :
  let g := mkGrid [0%Qc] [1%Qc] in
  let S := mkGridTreeSubset (mkGridCell g 0 [])
             (Branch TIndeterminate (Leaf TTrue) (Leaf TTrue)) in
  enabled_leaves (pRootTreeNode S) !! 0 = Some [false]
  /\ find_next_enabled_leaf 1 (pRootTreeNode S) (rev [false]) false = CursorAt [true] false
  /\ compare_abstract_grid_cells (mkGridCell g 0 [false]) (mkGridCell g 0 [true]) COMPARE_LESS
     = Compared true.
Proof.
  intros g S. split; [reflexivity|]. split; [reflexivity|].
  exact (proj1 (proj2 (proj2
           (enabled_cells_increasing S 0 [false] 1 [true] eq_refl eq_refl)))).
Defined.

(** ** Inner and lower approximations *)

Section InnerApproximation.

Variables (g : Grid) (h max : nat) (theSet : OpenSetInterface).

(** The descent of [_adjoin_inner_approximation] ends once the fuel exceeds
    the levels left and leaves the path as it found it (less its last
    bit).  It only adds points; a point it adds lies in a cell the set
    definitely covers; and a cell the set definitely covers, reached
    through cells it possibly overlaps, is enabled as a whole. *)
Lemma _adjoin_inner_approximation_spec (fuel : nat) :
  forall n pPath,
    max - length pPath < fuel ->
    exists n',
      _adjoin_inner_approximation fuel g n h max theSet pPath
      = Some (n', pop_back_if_any pPath)
      /\ (internal_unknown n = true -> internal_unknown n' = true)
      /\ (forall s, contains n s = true -> contains n' s = true)
      /\ (forall s, contains n' s = true ->
            contains n s = true
            \/ exists q, below q s = true /\ length q <= max - length pPath
                         /\ open_covers theSet (cell_box (mkGridCell g h (pPath ++ q)))
                            = TTrue)
      /\ (internal_not_enabled n = true ->
          forall q,
            length q <= max - length pPath ->
            open_covers theSet (cell_box (mkGridCell g h (pPath ++ q))) = TTrue ->
            (forall k, k < length q ->
               possibly (open_overlaps theSet (cell_box (mkGridCell g h (pPath ++ take k q))))
               = true) ->
            forall s, below q s = true -> contains n' s = true).
Proof.
  induction fuel as [|fuel IH]; intros n pPath Hfuel; [lia|].
  cbn [_adjoin_inner_approximation].
  destruct (is_enabled n) eqn:Hen; cbn [negb].
  { exists n. split; [done|]. split; [done|]. split; [done|]. split; [by left|].
    intros Hinv q _ _ _ s _. by apply is_enabled_contains. }
  destruct (definitely (open_covers theSet (cell_box (mkGridCell g h pPath)))) eqn:Hcov.
  { exists (Leaf TTrue). split; [done|]. split; [done|]. split; [done|]. split; [|done].
    intros s _. right. exists []. rewrite app_nil_r.
    split; [done|]. split; [cbn; lia|by apply definitely_true]. }
  assert (Hsame : exists n',
            Some (n, pop_back_if_any pPath) = Some (n', pop_back_if_any pPath)
            /\ (internal_unknown n = true -> internal_unknown n' = true)
            /\ (forall s, contains n s = true -> contains n' s = true)
            /\ (forall s, contains n' s = true ->
                  contains n s = true
                  \/ exists q, below q s = true /\ length q <= max - length pPath
                               /\ open_covers theSet (cell_box (mkGridCell g h (pPath ++ q)))
                                  = TTrue)).
  { exists n. split; [done|]. split; [done|]. split; [done|]. by left. }
  destruct (possibly (open_overlaps theSet (cell_box (mkGridCell g h pPath)))) eqn:Hov.
  - destruct (Nat.leb_spec max (length pPath)) as [Hge|Hlt].
    + destruct Hsame as (n' & [= <-] & Hrest). exists n. split; [done|].
      destruct Hrest as (H1 & H2 & H3). split; [done|]. split; [done|]. split; [done|].
      intros _ q Hq Hq_cov. replace (max - length pPath) with 0 in Hq by lia.
      apply Nat.le_0_r, nil_length_inv in Hq as ->. rewrite app_nil_r in Hq_cov.
      rewrite Hq_cov in Hcov. done.
    + destruct (split n) as [e|e l r] eqn:Hsplit; [by destruct n|].
      destruct (IH l (pPath ++ [false])) as (l' & -> & Hul & Hml & Hsl & Hcl);
        [rewrite length_app; cbn; lia|].
      rewrite pop_back_if_any_snoc.
      destruct (IH r (pPath ++ [true])) as (r' & -> & Hur & Hmr & Hsr & Hcr);
        [rewrite length_app; cbn; lia|].
      rewrite pop_back_if_any_snoc.
      exists (Branch e l' r'). split; [done|]. split; [|split; [|split]].
      * intros Hn. apply split_internal_unknown in Hn. rewrite Hsplit in Hn. cbn in Hn |- *.
        apply andb_true_iff in Hn as [[He Hl]%andb_true_iff Hr].
        by rewrite He, Hul, Hur.
      * intros s. rewrite <- (split_contains n), Hsplit, !contains_branch.
        destruct (s 0); [apply Hmr|apply Hml].
      * intros s. rewrite <- (split_contains n s), Hsplit, !contains_branch.
        rewrite length_app in Hsl, Hsr. cbn [length] in Hsl, Hsr.
        destruct (s 0) eqn:Hs0.
        -- intros [?|(q & Hq & Hlen & Hq_cov)]%Hsr; [by left|]. right.
           exists (true :: q). rewrite <- app_assoc in Hq_cov.
           split; [cbn; by rewrite Hs0|]. split; [cbn; lia|done].
        -- intros [?|(q & Hq & Hlen & Hq_cov)]%Hsl; [by left|]. right.
           exists (false :: q). rewrite <- app_assoc in Hq_cov.
           split; [cbn; by rewrite Hs0|]. split; [cbn; lia|done].
      * intros Hinv q Hq Hq_cov Hchain s Hs.
        destruct (split_internal_not_enabled n Hinv) as (e0 & l0 & r0 & Heq & Hl0 & Hr0).
        rewrite Hsplit in Heq. injection Heq as <- <- <-.
        destruct q as [|b q].
        { rewrite app_nil_r in Hq_cov. rewrite Hq_cov in Hcov. done. }
        cbn in Hs. apply andb_true_iff in Hs as [Hb Hs]. apply eqb_prop in Hb.
        rewrite contains_branch, Hb. cbn [length] in Hq. rewrite length_app in Hcl, Hcr.
        cbn [length] in Hcl, Hcr.
        assert (forall k, k < length q ->
                  possibly (open_overlaps theSet
                              (cell_box (mkGridCell g h ((pPath ++ [b]) ++ take k q)))) = true)
          as Hchain'.
        { intros k Hk. rewrite <- app_assoc. apply (Hchain (S k)). cbn. lia. }
        replace (pPath ++ b :: q) with ((pPath ++ [b]) ++ q) in Hq_cov
          by (by rewrite <- app_assoc).
        destruct b.
        -- apply (Hcr Hr0 q); [lia|done|done|done].
        -- apply (Hcl Hl0 q); [lia|done|done|done].
  - destruct Hsame as (n' & [= <-] & Hrest). exists n. split; [done|].
    destruct Hrest as (H1 & H2 & H3). split; [done|]. split; [done|]. split; [done|].
    intros _ [|b q] Hq Hq_cov Hchain.
    + rewrite app_nil_r in Hq_cov. rewrite Hq_cov in Hcov. done.
    + specialize (Hchain 0 ltac:(cbn; lia)). cbn [take] in Hchain.
      rewrite app_nil_r in Hchain. congruence.
Qed.

End InnerApproximation.

(** [align_with_cell] gives a result on a grid of positive dimension. *)
Lemma align_with_cell_returns (h' : nat) (se sd hs : bool) (S : GridTreeSet) :
  0 < dimension (cell_grid (theGridCell S)) ->
  exists result, align_with_cell h' se sd hs S = Some result.
Proof.
  intros Hd. unfold align_with_cell.
  destruct (Nat.ltb_spec h' (cell_height (theGridCell S))) as [Hlt|Hge].
  - destruct (align_descend _ _ _ _ _) as [[root ptr] stopped]. by eexists.
  - destruct (Nat.ltb_spec (cell_height (theGridCell S)) h') as [Hlt|Hge']; [|by eexists].
    unfold up_to_primary_cell.
    rewrite prepend_tree_nonempty by (by apply primary_cell_path_nonempty). by eexists.
Qed.

(** The frame of the adjoining members, on points: either the alignment
    stops on an enabled leaf that holds the whole primary cell of [height],
    and nothing changes; or [body] acts on the node [m] of that primary
    cell, and only the points of that cell change. *)
Lemma on_aligned_node_adjoining (height : nat)
    (body : BinaryTreeNode -> option BinaryTreeNode) (S : GridTreeSet) :
  cell_word (theGridCell S) = [] ->
  internal_unknown (pRootTreeNode S) = true ->
  0 < dimension (cell_grid (theGridCell S)) ->
  (forall m, internal_unknown m = true -> exists m', body m = Some m') ->
  let g := cell_grid (theGridCell S) in
  let h1 := Nat.max (cell_height (theGridCell S)) height in
  let c0 := mkGridCell g height [] in
  exists S',
    on_aligned_node height true false body S = Returns S'
    /\ theGridCell S' = mkGridCell g h1 []
    /\ ((forall K s, h1 <= K ->
           in_paving K S' s = in_paving K S s
           /\ (in_cell K c0 s = true -> in_paving K S s = true))
        \/ exists m m',
             internal_unknown m = true /\ body m = Some m'
             /\ forall K s, h1 <= K ->
                  if in_cell K c0 s
                  then in_paving K S s = contains m (after (length (path_from K c0)) s)
                       /\ in_paving K S' s = contains m' (after (length (path_from K c0)) s)
                  else in_paving K S' s = in_paving K S s).
Proof.
  intros Hword Hroot Hd Hbody g h1 c0. unfold on_aligned_node.
  destruct (align_with_cell_returns height true false false S Hd) as [[[this ptr] stopped] Halign].
  rewrite Halign.
  apply (align_with_cell_for_adjoining _ _ _ _ _ Hword Hroot) in Halign
    as (Hcell & Hthis & Hpav & Hspec).
  fold g h1 in Hcell, Hpav, Hspec. set (d := dimension g) in *.
  assert (Hpath : forall K, h1 <= K ->
            path_from K c0 = primary_cell_path d K h1 ++ primary_cell_path d h1 height).
  { intros K HK. unfold path_from, c0. cbn [cell_grid cell_height cell_word].
    rewrite app_nil_r. fold d. apply primary_cell_path_app; lia. }
  destruct this as [c root]. cbn [theGridCell pRootTreeNode] in *. subst c.
  destruct stopped.
  - eexists. split; [done|]. split; [done|]. left. intros K s HK.
    split; [by apply Hpav|]. rewrite <- (Hpav K s HK).
    destruct Hspec as [[rest Hrest] Hnode].
    unfold in_cell. rewrite (Hpath K HK), in_paving_primary. fold d.
    rewrite Hrest, !below_app.
    intros [Hbelow [Hptr _]%andb_true_iff]%andb_true_iff.
    rewrite Hbelow. cbn [andb]. by rewrite (node_at_contains ptr root _ _ Hnode Hptr).
  - destruct Hspec as [-> (m & Hm & Hmu)]. rewrite Hm.
    destruct (Hbody m Hmu) as [m' Hm']. rewrite Hm'.
    eexists. split; [done|]. split; [done|]. right. exists m, m'.
    split; [done|]. split; [done|]. intros K s HK. rewrite <- (Hpav K s HK).
    unfold in_cell. rewrite (Hpath K HK), !in_paving_primary. fold d.
    rewrite (update_at_contains _ _ m _ _ Hm). rewrite below_app, !contains_after_app.
    destruct (below (primary_cell_path d K h1) s); [|done]. cbn [andb].
    destruct (below (primary_cell_path d h1 height) _) eqn:Hptr; [|done].
    split; [|done]. by apply node_at_contains.
Qed.

(** X27.  [adjoin_inner_approximation(theSet, height, numSubdivInDim)] on
    a paving rooted at a primary cell, with [indeterminate] internal flags,
    over a grid of positive dimension: the call returns; it only adds
    points; every point it adds lies in a cell of the primary cell of
    [height], at most as deep as the subdivisions allow, that the set
    definitely covers; and every such cell, reached through cells the set
    possibly overlaps, lies in the paving afterwards. *)
Theorem adjoin_inner_approximation_at_height_sound (theSet : OpenSetInterface)
    (height numSubdivInDim : nat) (S : GridTreeSet) (K fuel : nat) :
  let g := cell_grid (theGridCell S) in
  let max_mince_depth :=
    zero_cell_subdivisions_to_tree_subdivisions (dimension g) numSubdivInDim height in
  let cell q := mkGridCell g height q in
  cell_word (theGridCell S) = [] ->
  internal_unknown (pRootTreeNode S) = true ->
  open_dimension theSet = dimension g ->
  0 < dimension g ->
  Nat.max (cell_height (theGridCell S)) height <= K ->
  max_mince_depth < fuel ->
  exists S',
    adjoin_inner_approximation_at_height fuel theSet height numSubdivInDim S = Returns S'
    /\ (forall s, in_paving K S s = true -> in_paving K S' s = true)
    /\ (forall s, in_paving K S' s = true ->
          in_paving K S s = true
          \/ exists q, length q <= max_mince_depth
                       /\ in_cell K (cell q) s = true
                       /\ open_covers theSet (cell_box (cell q)) = TTrue)
    /\ (forall q,
          length q <= max_mince_depth ->
          open_covers theSet (cell_box (cell q)) = TTrue ->
          (forall k, k < length q ->
             possibly (open_overlaps theSet (cell_box (cell (take k q)))) = true) ->
          forall s, in_cell K (cell q) s = true -> in_paving K S' s = true).
Proof.
  intros g max_mince_depth cell Hword Hroot Hdim Hd HK Hfuel.
  unfold adjoin_inner_approximation_at_height. fold g.
  rewrite Hdim, Nat.eqb_refl. cbn [negb]. fold max_mince_depth.
  set (body := fun pBinaryTreeNode : BinaryTreeNode =>
                 fst <$> _adjoin_inner_approximation fuel g pBinaryTreeNode height
                           max_mince_depth theSet []).
  assert (Hbody : forall m, internal_unknown m = true -> exists m', body m = Some m').
  { intros m _. unfold body.
    destruct (_adjoin_inner_approximation_spec g height max_mince_depth theSet fuel m [])
      as (m' & -> & _); [cbn; lia|]. by exists m'. }
  destruct (on_aligned_node_adjoining height body S Hword Hroot Hd Hbody)
    as (S' & -> & Hcell & Hcases).
  fold g in Hcases. exists S'. split; [done|].
  assert (Hin : forall q s,
            in_cell K (cell q) s
            = in_cell K (cell []) s
              && below q (after (length (path_from K (cell []))) s)).
  { intros q s. unfold in_cell, path_from, cell. cbn [cell_grid cell_height cell_word].
    by rewrite app_nil_r, below_app. }
  destruct Hcases as [Hsame|(m & m' & Hmu & Hm' & Hpoints)].
  - split; [|split].
    + intros s. by rewrite (proj1 (Hsame K s HK)).
    + intros s. rewrite (proj1 (Hsame K s HK)). by left.
    + intros q _ _ _ s. rewrite Hin. intros [Hc0 _]%andb_true_iff.
      rewrite (proj1 (Hsame K s HK)). by apply (Hsame K s HK).
  - unfold body in Hm'.
    destruct (_adjoin_inner_approximation_spec g height max_mince_depth theSet fuel m [])
      as (n' & Heq & _ & Hmono & Hsound & Hcomplete); [cbn; lia|].
    rewrite Heq in Hm'. cbn in Hm'. injection Hm' as <-.
    cbn [length app] in Hsound, Hcomplete. rewrite Nat.sub_0_r in Hsound, Hcomplete.
    split; [|split].
    + intros s. specialize (Hpoints K s HK).
      destruct (in_cell K (mkGridCell g height []) s); [|by rewrite Hpoints].
      destruct Hpoints as [-> ->]. apply Hmono.
    + intros s. specialize (Hpoints K s HK). fold (cell []) in Hpoints.
      destruct (in_cell K (cell []) s) eqn:Hc0; [|rewrite Hpoints; by left].
      destruct Hpoints as [-> ->].
      intros [?|(q & Hq & Hlen & Hcov)]%Hsound; [by left|]. right.
      exists q. split; [done|]. split; [|done]. by rewrite Hin, Hc0.
    + intros q Hlen Hcov Hchain s. rewrite Hin. intros [Hc0 Hq]%andb_true_iff.
      specialize (Hpoints K s HK). fold (cell []) in Hpoints. rewrite Hc0 in Hpoints.
      destruct Hpoints as [_ ->].
      apply (Hcomplete (internal_unknown_not_enabled m Hmu) q); done.
Qed.

Section LowerApproximation.

Variables (g : Grid) (h max : nat).

(** A point that starts with the bit [b] and goes on as [s]. *)
Lemma contains_through_bit (b : bool) (e : tribool) (l r : BinaryTreeNode)
    (s : nat -> bool) :
  contains (Branch e l r) (through [b] s) = contains (if b then r else l) s.
Proof. rewrite contains_branch. cbn. destruct b; by apply contains_ext. Qed.

Lemma below_through_bit (b : bool) (q : BinaryWord) (s : nat -> bool) :
  below (b :: q) (through [b] s) = below q s.
Proof. cbn. rewrite eqb_reflx. cbn. by apply below_ext. Qed.

(** The descent of [_adjoin_lower_approximation] for an overt set ends once
    the fuel exceeds the levels left.  It only adds points; a point it adds
    lies in a cell of the greatest depth that the set definitely overlaps;
    and such a cell, reached through cells the set definitely overlaps,
    holds a point of the result. *)
Lemma _adjoin_lower_approximation_spec (theSet : OvertSetInterface) (fuel : nat) :
  forall n pPath,
    max - length pPath < fuel ->
    exists n',
      _adjoin_lower_approximation fuel g n h max theSet pPath
      = Some (n', pop_back_if_any pPath)
      /\ (forall s, contains n s = true -> contains n' s = true)
      /\ (forall s, contains n' s = true ->
            contains n s = true
            \/ exists q, below q s = true /\ length q <= max - length pPath
                         /\ max <= length (pPath ++ q)
                         /\ overt_overlaps theSet (cell_box (mkGridCell g h (pPath ++ q)))
                            = TTrue)
      /\ (forall q,
            length q <= max - length pPath ->
            max <= length (pPath ++ q) ->
            (forall k, k <= length q ->
               overt_overlaps theSet (cell_box (mkGridCell g h (pPath ++ take k q)))
               = TTrue) ->
            exists s, below q s = true /\ contains n' s = true).
Proof.
  induction fuel as [|fuel IH]; intros n pPath Hfuel; [lia|].
  cbn [_adjoin_lower_approximation].
  destruct (definitely (overt_overlaps theSet (cell_box (mkGridCell g h pPath)))) eqn:Hov.
  - destruct (Nat.leb_spec max (length pPath)) as [Hge|Hlt].
    + destruct (has_enabled n) eqn:Hhas; cbn [negb].
      * exists n. split; [done|]. split; [done|]. split; [by left|].
        intros q Hq _ _. replace (max - length pPath) with 0 in Hq by lia.
        apply Nat.le_0_r, nil_length_inv in Hq as ->.
        apply has_enabled_contains in Hhas as [s Hs]. by exists s.
      * exists (Leaf TTrue). split; [done|]. split; [done|]. split.
        -- intros s _. right. exists []. rewrite app_nil_r.
           split; [done|]. split; [cbn; lia|]. split; [done|by apply definitely_true].
        -- intros q Hq _ _. replace (max - length pPath) with 0 in Hq by lia.
           apply Nat.le_0_r, nil_length_inv in Hq as ->. by exists (fun _ => false).
    + destruct (split n) as [e|e l r] eqn:Hsplit; [by destruct n|].
      destruct (IH l (pPath ++ [false])) as (l' & -> & Hml & Hsl & Hcl);
        [rewrite length_app; cbn; lia|].
      rewrite pop_back_if_any_snoc.
      destruct (IH r (pPath ++ [true])) as (r' & -> & Hmr & Hsr & Hcr);
        [rewrite length_app; cbn; lia|].
      rewrite pop_back_if_any_snoc.
      exists (Branch e l' r'). split; [done|]. split; [|split].
      * intros s. rewrite <- (split_contains n), Hsplit, !contains_branch.
        destruct (s 0); [apply Hmr|apply Hml].
      * intros s. rewrite <- (split_contains n s), Hsplit, !contains_branch.
        rewrite length_app in Hsl, Hsr. cbn [length] in Hsl, Hsr.
        destruct (s 0) eqn:Hs0.
        -- intros [?|(q & Hq & Hlen & Hdeep & Hq_ov)]%Hsr; [by left|]. right.
           exists (true :: q). rewrite <- app_assoc in Hq_ov, Hdeep.
           split; [cbn; by rewrite Hs0|]. split; [cbn; lia|done].
        -- intros [?|(q & Hq & Hlen & Hdeep & Hq_ov)]%Hsl; [by left|]. right.
           exists (false :: q). rewrite <- app_assoc in Hq_ov, Hdeep.
           split; [cbn; by rewrite Hs0|]. split; [cbn; lia|done].
      * intros [|b q] Hq Hdeep Hchain.
        { rewrite app_nil_r in Hdeep. lia. }
        cbn [length] in Hq. rewrite length_app in Hcl, Hcr, Hdeep.
        cbn [length] in Hcl, Hcr, Hdeep.
        assert (forall k, k <= length q ->
                  overt_overlaps theSet
                    (cell_box (mkGridCell g h ((pPath ++ [b]) ++ take k q))) = TTrue)
          as Hchain'.
        { intros k Hk. rewrite <- app_assoc. apply (Hchain (S k)). cbn. lia. }
        destruct b.
        -- destruct (Hcr q) as (s & Hs & Hin); [lia|rewrite !length_app; cbn; lia|done|].
           exists (through [true] s). by rewrite below_through_bit, contains_through_bit.
        -- destruct (Hcl q) as (s & Hs & Hin); [lia|rewrite !length_app; cbn; lia|done|].
           exists (through [false] s). by rewrite below_through_bit, contains_through_bit.
  - exists n. split; [done|]. split; [done|]. split; [by left|].
    intros q _ _ Hchain. specialize (Hchain 0 ltac:(lia)). cbn [take] in Hchain.
    rewrite app_nil_r in Hchain. by rewrite Hchain in Hov.
Qed.

(** The descent of [_adjoin_lower_approximation] for an open set needs no
    more fuel.  It only adds points; a point it adds lies in a cell the set
    definitely covers, or in a cell of the greatest depth that it
    definitely overlaps; and a cell the set definitely covers, reached
    through cells it definitely overlaps, is enabled as a whole. *)
Lemma _adjoin_lower_approximation_open_spec (theSet : OpenSetInterface) (fuel : nat) :
  forall n pPath,
    max - length pPath < fuel ->
    exists n',
      _adjoin_lower_approximation_open fuel g n h max theSet pPath
      = Some (n', pop_back_if_any pPath)
      /\ (forall s, contains n s = true -> contains n' s = true)
      /\ (forall s, contains n' s = true ->
            contains n s = true
            \/ exists q, below q s = true /\ length q <= max - length pPath
                         /\ (open_covers theSet (cell_box (mkGridCell g h (pPath ++ q)))
                             = TTrue
                             \/ max <= length (pPath ++ q)
                                /\ open_overlaps theSet
                                     (cell_box (mkGridCell g h (pPath ++ q))) = TTrue))
      /\ (forall q,
            length q <= max - length pPath ->
            open_covers theSet (cell_box (mkGridCell g h (pPath ++ q))) = TTrue ->
            (forall k, k < length q ->
               open_overlaps theSet (cell_box (mkGridCell g h (pPath ++ take k q)))
               = TTrue) ->
            forall s, below q s = true -> contains n' s = true).
Proof.
  induction fuel as [|fuel IH]; intros n pPath Hfuel; [lia|].
  cbn [_adjoin_lower_approximation_open].
  destruct (definitely (open_covers theSet (cell_box (mkGridCell g h pPath)))) eqn:Hcov.
  { eexists. split; [done|]. unfold mince. split; [|split].
    - intros s _. by rewrite mince_node_contains.
    - intros s _. right. exists []. rewrite app_nil_r.
      split; [done|]. split; [cbn; lia|]. left. by apply definitely_true.
    - intros q _ _ _ s _. by rewrite mince_node_contains. }
  destruct (definitely (open_overlaps theSet (cell_box (mkGridCell g h pPath)))) eqn:Hov.
  - destruct (Nat.leb_spec max (length pPath)) as [Hge|Hlt].
    + assert (Hnil : forall q, length q <= max - length pPath ->
                open_covers theSet (cell_box (mkGridCell g h (pPath ++ q))) = TTrue -> False).
      { intros q Hq Hq_cov. replace (max - length pPath) with 0 in Hq by lia.
        apply Nat.le_0_r, nil_length_inv in Hq as ->. rewrite app_nil_r in Hq_cov.
        by rewrite Hq_cov in Hcov. }
      destruct n as [e|e l r]; cbn [is_leaf].
      * exists (set_enabled (Leaf e)). split; [done|]. split; [done|]. split.
        -- intros s _. right. exists []. rewrite app_nil_r.
           split; [done|]. split; [cbn; lia|]. right. split; [done|by apply definitely_true].
        -- intros q Hq Hq_cov. by destruct (Hnil q).
      * exists (Branch e l r). split; [done|]. split; [done|]. split; [by left|].
        intros q Hq Hq_cov. by destruct (Hnil q).
    + destruct (split n) as [e|e l r] eqn:Hsplit; [by destruct n|].
      destruct (IH l (pPath ++ [false])) as (l' & -> & Hml & Hsl & Hcl);
        [rewrite length_app; cbn; lia|].
      rewrite pop_back_if_any_snoc.
      destruct (IH r (pPath ++ [true])) as (r' & -> & Hmr & Hsr & Hcr);
        [rewrite length_app; cbn; lia|].
      rewrite pop_back_if_any_snoc.
      exists (Branch e l' r'). split; [done|]. split; [|split].
      * intros s. rewrite <- (split_contains n), Hsplit, !contains_branch.
        destruct (s 0); [apply Hmr|apply Hml].
      * intros s. rewrite <- (split_contains n s), Hsplit, !contains_branch.
        rewrite length_app in Hsl, Hsr. cbn [length] in Hsl, Hsr.
        destruct (s 0) eqn:Hs0.
        -- intros [?|(q & Hq & Hlen & Hwhy)]%Hsr; [by left|]. right.
           exists (true :: q). rewrite <- !app_assoc in Hwhy.
           split; [cbn; by rewrite Hs0|]. split; [cbn; lia|done].
        -- intros [?|(q & Hq & Hlen & Hwhy)]%Hsl; [by left|]. right.
           exists (false :: q). rewrite <- !app_assoc in Hwhy.
           split; [cbn; by rewrite Hs0|]. split; [cbn; lia|done].
      * intros [|b q] Hq Hq_cov Hchain s Hs.
        { rewrite app_nil_r in Hq_cov. by rewrite Hq_cov in Hcov. }
        cbn in Hs. apply andb_true_iff in Hs as [Hb Hs]. apply eqb_prop in Hb.
        rewrite contains_branch, Hb. cbn [length] in Hq. rewrite length_app in Hcl, Hcr.
        cbn [length] in Hcl, Hcr.
        assert (forall k, k < length q ->
                  open_overlaps theSet
                    (cell_box (mkGridCell g h ((pPath ++ [b]) ++ take k q))) = TTrue)
          as Hchain'.
        { intros k Hk. rewrite <- app_assoc. apply (Hchain (S k)). cbn. lia. }
        replace (pPath ++ b :: q) with ((pPath ++ [b]) ++ q) in Hq_cov
          by (by rewrite <- app_assoc).
        destruct b.
        -- apply (Hcr q); [lia|done|done|done].
        -- apply (Hcl q); [lia|done|done|done].
  - exists n. split; [done|]. split; [done|]. split; [by left|].
    intros [|b q] Hq Hq_cov Hchain.
    + rewrite app_nil_r in Hq_cov. by rewrite Hq_cov in Hcov.
    + specialize (Hchain 0 ltac:(cbn; lia)). cbn [take] in Hchain.
      rewrite app_nil_r in Hchain. by rewrite Hchain in Hov.
Qed.

End LowerApproximation.

Lemma adjoin_inner_approximation_at_height_sound_witness :
  let g := mkGrid [0%Qc] [1%Qc] in
  let S := mkGridTreeSubset (mkGridCell g 0 []) (Leaf TFalse) in
  let theSet := mkOpenSet 1 (fun _ => TTrue) (fun _ => TTrue) in
  cell_word (theGridCell S) = [] /\ internal_unknown (pRootTreeNode S) = true
  /\ open_dimension theSet = dimension g /\ 0 < dimension g
  /\ exists S',
       adjoin_inner_approximation_at_height 1 theSet 0 0 S = Returns S'
       /\ forall s, in_paving 0 S s = true -> in_paving 0 S' s = true.
Proof.
  intros g S theSet. split; [reflexivity|]. split; [reflexivity|]. split; [reflexivity|].
  split; [cbn; lia|].
  destruct (adjoin_inner_approximation_at_height_sound theSet 0 0 S 0 1
              eq_refl eq_refl eq_refl)
    as (S' & Hreturns & Hmono & _); [cbn; lia|cbn; lia|cbn; lia|].
  exists S'. split; [exact Hreturns|exact Hmono].
Defined.

Lemma below_after_through_path (p q : BinaryWord) (s : nat -> bool) :
  below q (after (length p) (through p s)) = below q s.
Proof. apply below_ext. intros i. apply after_through. Qed.

(** X28.  [adjoin_lower_approximation(theSet, height, numSubdivInDim)] on
    a paving rooted at a primary cell, with [indeterminate] internal flags,
    over a grid of positive dimension: the call returns; it only adds
    points; every point it adds lies in a cell of the primary cell of
    [height] that the set definitely overlaps (or, for an open set,
    definitely covers).  For a set that is not open, every cell of the
    greatest depth reached through cells the set definitely overlaps holds
    a point of the paving afterwards; for an open set, every cell it
    definitely covers, so reached, lies in the paving afterwards. *)
Theorem adjoin_lower_approximation_at_height_sound (theSet : OvertSetInterface)
    (height numSubdivInDim : nat) (S : GridTreeSet) (K fuel : nat) :
  let g := cell_grid (theGridCell S) in
  let max_mince_depth :=
    zero_cell_subdivisions_to_tree_subdivisions (dimension g) numSubdivInDim height in
  let cell q := mkGridCell g height q in
  let touched box :=
    match overt_as_OpenSetInterface theSet with
    | Some theOpenVersionOfSet =>
        definitely (open_covers theOpenVersionOfSet box)
        || definitely (open_overlaps theOpenVersionOfSet box)
    | None => definitely (overt_overlaps theSet box)
    end in
  cell_word (theGridCell S) = [] ->
  internal_unknown (pRootTreeNode S) = true ->
  overt_dimension theSet = dimension g ->
  0 < dimension g ->
  Nat.max (cell_height (theGridCell S)) height <= K ->
  max_mince_depth < fuel ->
  exists S',
    adjoin_lower_approximation_at_height fuel theSet height numSubdivInDim S = Returns S'
    /\ (forall s, in_paving K S s = true -> in_paving K S' s = true)
    /\ (forall s, in_paving K S' s = true ->
          in_paving K S s = true
          \/ exists q, length q <= max_mince_depth
                       /\ in_cell K (cell q) s = true
                       /\ touched (cell_box (cell q)) = true)
    /\ (overt_as_OpenSetInterface theSet = None ->
        forall q,
          length q = max_mince_depth ->
          (forall k, k <= length q ->
             overt_overlaps theSet (cell_box (cell (take k q))) = TTrue) ->
          exists s, in_cell K (cell q) s = true /\ in_paving K S' s = true)
    /\ (forall theOpenVersionOfSet,
          overt_as_OpenSetInterface theSet = Some theOpenVersionOfSet ->
          forall q,
            length q <= max_mince_depth ->
            open_covers theOpenVersionOfSet (cell_box (cell q)) = TTrue ->
            (forall k, k < length q ->
               open_overlaps theOpenVersionOfSet (cell_box (cell (take k q))) = TTrue) ->
            forall s, in_cell K (cell q) s = true -> in_paving K S' s = true).
Proof.
  intros g max_mince_depth cell touched Hword Hroot Hdim Hd HK Hfuel.
  unfold adjoin_lower_approximation_at_height. fold g.
  rewrite Hdim, Nat.eqb_refl. cbn [negb]. fold max_mince_depth.
  match goal with |- context [on_aligned_node height true false ?b S] => set (body := b) end.
  assert (Hbody : forall m, internal_unknown m = true -> exists m', body m = Some m').
  { intros m _. unfold body. destruct (overt_as_OpenSetInterface theSet) as [o|].
    - destruct (_adjoin_lower_approximation_open_spec g height max_mince_depth o fuel m [])
        as (m' & -> & _); [cbn; lia|]. by exists m'.
    - destruct (_adjoin_lower_approximation_spec g height max_mince_depth theSet fuel m [])
        as (m' & -> & _); [cbn; lia|]. by exists m'. }
  destruct (on_aligned_node_adjoining height body S Hword Hroot Hd Hbody)
    as (S' & -> & Hcell & Hcases).
  fold g in Hcases. exists S'. split; [done|].
  assert (Hin : forall q s,
            in_cell K (cell q) s
            = in_cell K (cell []) s
              && below q (after (length (path_from K (cell []))) s)).
  { intros q s. unfold in_cell, path_from, cell. cbn [cell_grid cell_height cell_word].
    by rewrite app_nil_r, below_app. }
  assert (Hpoint : forall q, in_cell K (cell q)
                               (through (path_from K (cell q)) (fun _ => false)) = true).
  { intros q. apply below_through. }
  destruct Hcases as [Hsame|(m & m' & Hmu & Hm' & Hpoints)].
  - split; [|split; [|split]].
    + intros s. by rewrite (proj1 (Hsame K s HK)).
    + intros s. rewrite (proj1 (Hsame K s HK)). by left.
    + intros _ q _ _. eexists. split; [apply Hpoint|].
      rewrite (proj1 (Hsame K _ HK)). apply (Hsame K _ HK).
      pose proof (Hpoint q) as Hq. rewrite Hin in Hq. by apply andb_true_iff in Hq as [? _].
    + intros o _ q _ _ _ s. rewrite Hin. intros [Hc0 _]%andb_true_iff.
      rewrite (proj1 (Hsame K s HK)). by apply (Hsame K s HK).
  - assert (Hmono : forall s, contains m s = true -> contains m' s = true).
    { unfold body in Hm'. destruct (overt_as_OpenSetInterface theSet) as [o|].
      - destruct (_adjoin_lower_approximation_open_spec g height max_mince_depth o fuel m [])
          as (n' & Heq & Hmono & _); [cbn; lia|].
        rewrite Heq in Hm'. cbn in Hm'. by injection Hm' as <-.
      - destruct (_adjoin_lower_approximation_spec g height max_mince_depth theSet fuel m [])
          as (n' & Heq & Hmono & _); [cbn; lia|].
        rewrite Heq in Hm'. cbn in Hm'. by injection Hm' as <-. }
    split; [|split; [|split]].
    + intros s. specialize (Hpoints K s HK).
      destruct (in_cell K (mkGridCell g height []) s); [|by rewrite Hpoints].
      destruct Hpoints as [-> ->]. apply Hmono.
    + intros s. specialize (Hpoints K s HK). fold (cell []) in Hpoints.
      destruct (in_cell K (cell []) s) eqn:Hc0; [|rewrite Hpoints; by left].
      destruct Hpoints as [-> ->]. unfold body in Hm'. subst touched. cbn beta.
      destruct (overt_as_OpenSetInterface theSet) as [o|].
      * destruct (_adjoin_lower_approximation_open_spec g height max_mince_depth o fuel m [])
          as (n' & Heq & _ & Hsound & _); [cbn; lia|].
        rewrite Heq in Hm'. cbn in Hm'. injection Hm' as <-.
        cbn [length app] in Hsound. rewrite Nat.sub_0_r in Hsound.
        intros [?|(q & Hq & Hlen & Hwhy)]%Hsound; [by left|]. right.
        exists q. split; [done|]. split; [by rewrite Hin, Hc0|].
        unfold cell. destruct Hwhy as [->|[_ ->]]; [done|by rewrite orb_true_r].
      * destruct (_adjoin_lower_approximation_spec g height max_mince_depth theSet fuel m [])
          as (n' & Heq & _ & Hsound & _); [cbn; lia|].
        rewrite Heq in Hm'. cbn in Hm'. injection Hm' as <-.
        cbn [length app] in Hsound. rewrite Nat.sub_0_r in Hsound.
        intros [?|(q & Hq & Hlen & _ & Hov)]%Hsound; [by left|]. right.
        exists q. split; [done|]. split; [by rewrite Hin, Hc0|]. unfold cell. by rewrite Hov.
    + intros Hnone q Hlen Hchain. unfold body in Hm'. rewrite Hnone in Hm'.
      destruct (_adjoin_lower_approximation_spec g height max_mince_depth theSet fuel m [])
        as (n' & Heq & _ & _ & Hcomplete); [cbn; lia|].
      rewrite Heq in Hm'. cbn in Hm'. injection Hm' as <-.
      cbn [length app] in Hcomplete. rewrite Nat.sub_0_r in Hcomplete.
      destruct (Hcomplete q) as (s & Hs & Hcontains); [lia|lia|done|].
      exists (through (path_from K (cell [])) s).
      rewrite Hin. unfold in_cell at 1. rewrite below_through, below_after_through_path, Hs.
      split; [done|].
      specialize (Hpoints K (through (path_from K (cell [])) s) HK). fold (cell []) in Hpoints.
      unfold in_cell in Hpoints. rewrite below_through in Hpoints.
      destruct Hpoints as [_ ->]. by rewrite contains_after_through.
    + intros o Hsome q Hlen Hcov Hchain s. rewrite Hin. intros [Hc0 Hq]%andb_true_iff.
      unfold body in Hm'. rewrite Hsome in Hm'.
      destruct (_adjoin_lower_approximation_open_spec g height max_mince_depth o fuel m [])
        as (n' & Heq & _ & _ & Hcomplete); [cbn; lia|].
      rewrite Heq in Hm'. cbn in Hm'. injection Hm' as <-.
      cbn [length app] in Hcomplete. rewrite Nat.sub_0_r in Hcomplete.
      specialize (Hpoints K s HK). fold (cell []) in Hpoints. rewrite Hc0 in Hpoints.
      destruct Hpoints as [_ ->]. by apply (Hcomplete q).
Qed.

Lemma adjoin_lower_approximation_at_height_sound_witness :
  let g := mkGrid [0%Qc] [1%Qc] in
  let S := mkGridTreeSubset (mkGridCell g 0 []) (Leaf TFalse) in
  let theSet := mkOvertSet 1 (fun _ => TTrue) None in
  cell_word (theGridCell S) = [] /\ internal_unknown (pRootTreeNode S) = true
  /\ overt_dimension theSet = dimension g /\ 0 < dimension g
  /\ exists S',
       adjoin_lower_approximation_at_height 1 theSet 0 0 S = Returns S'
       /\ forall s, in_paving 0 S s = true -> in_paving 0 S' s = true.
Proof.
  intros g S theSet. split; [reflexivity|]. split; [reflexivity|]. split; [reflexivity|].
  split; [cbn; lia|].
  destruct (adjoin_lower_approximation_at_height_sound theSet 0 0 S 0 1
              eq_refl eq_refl eq_refl)
    as (S' & Hreturns & Hmono & _); [cbn; lia|cbn; lia|cbn; lia|].
  exists S'. split; [exact Hreturns|exact Hmono].
Defined.

(** ** Restricting and removing by an oracle *)

(** Each of the eight descents is the shared walk with its own tests. *)
Ltac descent_step IH :=
  let l' := fresh "l'" in
  let p' := fresh "p'" in
  match goal with
  | |- context [length ?p <? ?m] =>
      destruct (length p <? m);
      [ match goal with |- context [split ?n] => destruct (split n); [done|] end;
        rewrite IH;
        match goal with
        | |- context [checked_descent ?f ?k ?d ?b ?g ?n ?h ?m ?p] =>
            destruct (checked_descent f k d b g n h m p) as [[l' p']|]; [|done]
        end;
        by rewrite IH
      | match goal with |- context [is_leaf ?n] => by destruct n | _ => done end ]
  end.

Ltac descent_is_walk IH :=
  repeat match goal with
         | |- context [definitely ?t] =>
             destruct t; cbn [definitely possibly negb]; try done
         | |- context [possibly ?t] =>
             destruct t; cbn [definitely possibly negb]; try done
         end;
  descent_step IH.

Lemma _outer_restrict_walk (theGrid : Grid) (h max : nat) (checker : SetCheckerInterface)
    (fuel : nat) : forall n pPath,
  _outer_restrict fuel theGrid n h max checker pPath
  = checked_descent fuel (fun b => definitely (check checker b))
      (fun b => negb (possibly (check checker b))) false theGrid n h max pPath.
Proof. induction fuel as [|fuel IH]; intros n pPath; [done|].
  cbn [_outer_restrict checked_descent make_leaf set_disabled set_flag]. descent_is_walk IH.
Qed.

Lemma _inner_restrict_walk (theGrid : Grid) (h max : nat) (checker : SetCheckerInterface)
    (fuel : nat) : forall n pPath,
  _inner_restrict fuel theGrid n h max checker pPath
  = checked_descent fuel (fun b => definitely (check checker b))
      (fun b => negb (possibly (check checker b))) true theGrid n h max pPath.
Proof. induction fuel as [|fuel IH]; intros n pPath; [done|].
  cbn [_inner_restrict checked_descent make_leaf set_disabled set_flag]. descent_is_walk IH.
Qed.

Lemma _outer_remove_walk (theGrid : Grid) (h max : nat) (checker : SetCheckerInterface)
    (fuel : nat) : forall n pPath,
  _outer_remove fuel theGrid n h max checker pPath
  = checked_descent fuel (fun b => negb (possibly (check checker b)))
      (fun b => definitely (check checker b)) true theGrid n h max pPath.
Proof. induction fuel as [|fuel IH]; intros n pPath; [done|].
  cbn [_outer_remove checked_descent make_leaf set_disabled set_flag]. descent_is_walk IH.
Qed.

Lemma _inner_remove_walk (theGrid : Grid) (h max : nat) (checker : SetCheckerInterface)
    (fuel : nat) : forall n pPath,
  _inner_remove fuel theGrid n h max checker pPath
  = checked_descent fuel (fun b => negb (possibly (check checker b)))
      (fun b => definitely (check checker b)) false theGrid n h max pPath.
Proof. induction fuel as [|fuel IH]; intros n pPath; [done|].
  cbn [_inner_remove checked_descent make_leaf set_disabled set_flag]. descent_is_walk IH.
Qed.

Lemma _outer_restrict_open_walk (theGrid : Grid) (h max : nat) (set : OpenSetInterface)
    (fuel : nat) : forall n pPath,
  _outer_restrict_open fuel theGrid n h max set pPath
  = checked_descent fuel (fun b => definitely (open_covers set b))
      (fun b => negb (possibly (open_overlaps set b))) false theGrid n h max pPath.
Proof. induction fuel as [|fuel IH]; intros n pPath; [done|].
  cbn [_outer_restrict_open checked_descent make_leaf set_disabled set_flag]. descent_is_walk IH.
Qed.

Lemma _inner_restrict_open_walk (theGrid : Grid) (h max : nat) (set : OpenSetInterface)
    (fuel : nat) : forall n pPath,
  _inner_restrict_open fuel theGrid n h max set pPath
  = checked_descent fuel (fun b => definitely (open_covers set b))
      (fun b => negb (possibly (open_overlaps set b))) true theGrid n h max pPath.
Proof. induction fuel as [|fuel IH]; intros n pPath; [done|].
  cbn [_inner_restrict_open checked_descent make_leaf set_disabled set_flag]. descent_is_walk IH.
Qed.

Lemma _outer_remove_open_walk (theGrid : Grid) (h max : nat) (set : OpenSetInterface)
    (fuel : nat) : forall n pPath,
  _outer_remove_open fuel theGrid n h max set pPath
  = checked_descent fuel (fun b => negb (possibly (open_overlaps set b)))
      (fun b => definitely (open_covers set b)) true theGrid n h max pPath.
Proof. induction fuel as [|fuel IH]; intros n pPath; [done|].
  cbn [_outer_remove_open checked_descent make_leaf set_disabled set_flag]. descent_is_walk IH.
Qed.

Lemma _inner_remove_open_walk (theGrid : Grid) (h max : nat) (set : OpenSetInterface)
    (fuel : nat) : forall n pPath,
  _inner_remove_open fuel theGrid n h max set pPath
  = checked_descent fuel (fun b => negb (possibly (open_overlaps set b)))
      (fun b => definitely (open_covers set b)) false theGrid n h max pPath.
Proof. induction fuel as [|fuel IH]; intros n pPath; [done|].
  cbn [_inner_remove_open checked_descent make_leaf set_disabled set_flag]. descent_is_walk IH.
Qed.

Lemma checked_descent_ext (keeps drops keeps' drops' : Box -> bool) (dis : bool)
    (g : Grid) (h max : nat) (fuel : nat) :
  (forall b, keeps b = keeps' b) -> (forall b, drops b = drops' b) ->
  forall n pPath,
    checked_descent fuel keeps drops dis g n h max pPath
    = checked_descent fuel keeps' drops' dis g n h max pPath.
Proof.
  intros Hk Hd. induction fuel as [|fuel IH]; intros n pPath; [done|].
  cbn [checked_descent]. rewrite Hk, Hd.
  destruct (keeps' _); [done|]. destruct (drops' _); [done|].
  destruct (length pPath <? max); [|done].
  destruct (split n) as [e|e l r]; [done|]. rewrite IH.
  destruct (checked_descent fuel keeps' drops' dis g l h max (pPath ++ [false]))
    as [[l' p']|]; [|done].
  by rewrite IH.
Qed.

Lemma count_enabled_leaf_nodes_contains (n : BinaryTreeNode) :
  count_enabled_leaf_nodes n = 0 -> forall s, contains n s = false.
Proof.
  induction n as [e|e l IHl r IHr]; cbn; intros Hcount s.
  - by destruct (is_enabled (Leaf e)).
  - destruct (s 0); [apply IHr|apply IHl]; lia.
Qed.

Section CheckedDescent.

Variables (keeps drops : Box -> bool) (g : Grid) (h max : nat).

(** The walk ends once the fuel exceeds the levels left.  It adds no
    point; a point it keeps lies in a cell [keeps] holds of or, when cells
    stay at the greatest depth, in such a cell that [drops] does not hold
    of; a point it removes lies in a cell that [keeps] does not hold of and
    that [drops] holds of or, when cells are disabled at the greatest
    depth, that has that depth. *)
Lemma checked_descent_spec (dis : bool) (fuel : nat) :
  forall n pPath,
    max - length pPath < fuel ->
    internal_not_enabled n = true ->
    exists n',
      checked_descent fuel keeps drops dis g n h max pPath = Some (n', pop_back_if_any pPath)
      /\ internal_not_enabled n' = true
      /\ (forall s, contains n' s = true -> contains n s = true)
      /\ (forall s, contains n' s = true ->
            exists q, below q s = true /\ length q <= max - length pPath
                      /\ (keeps (cell_box (mkGridCell g h (pPath ++ q))) = true
                          \/ dis = false /\ max <= length (pPath ++ q)
                             /\ drops (cell_box (mkGridCell g h (pPath ++ q))) = false))
      /\ (forall s, contains n s = true -> contains n' s = false ->
            exists q, below q s = true /\ length q <= max - length pPath
                      /\ keeps (cell_box (mkGridCell g h (pPath ++ q))) = false
                      /\ (drops (cell_box (mkGridCell g h (pPath ++ q))) = true
                          \/ dis = true /\ max <= length (pPath ++ q))).
Proof.
  induction fuel as [|fuel IH]; intros n pPath Hfuel Hinv; [lia|].
  cbn [checked_descent].
  destruct (keeps (cell_box (mkGridCell g h pPath))) eqn:Hkeeps.
  { exists n. split; [done|]. split; [done|]. split; [done|]. split.
    - intros s _. exists []. rewrite app_nil_r. split; [done|]. split; [cbn; lia|by left].
    - intros s Hs Hs'. congruence. }
  destruct (drops (cell_box (mkGridCell g h pPath))) eqn:Hdrops.
  { exists (Leaf TFalse). split; [done|]. split; [done|]. split; [done|]. split; [done|].
    intros s _ _. exists []. rewrite app_nil_r.
    split; [done|]. split; [cbn; lia|]. split; [done|by left]. }
  destruct (Nat.ltb_spec (length pPath) max) as [Hlt|Hge].
  - destruct (split_internal_not_enabled n Hinv) as (e & l & r & Hsplit & Hl & Hr).
    rewrite Hsplit.
    destruct (IH l (pPath ++ [false])) as (l' & -> & Hil & Hsl & Hkl & Hrl);
      [rewrite length_app; cbn; lia|done|].
    rewrite pop_back_if_any_snoc.
    destruct (IH r (pPath ++ [true])) as (r' & -> & Hir & Hsr & Hkr & Hrr);
      [rewrite length_app; cbn; lia|done|].
    rewrite pop_back_if_any_snoc.
    rewrite length_app in Hkl, Hkr, Hrl, Hrr. cbn [length] in Hkl, Hkr, Hrl, Hrr.
    assert (Hflag : negb (definitely e) = true).
    { destruct n as [e0|e0 l0 r0]; cbn in Hsplit; injection Hsplit as <- <- <-; [done|].
      cbn in Hinv. by apply andb_true_iff in Hinv as [[? _]%andb_true_iff _]. }
    assert (Hkept : forall s : nat -> bool, contains (if s 0 then r' else l') (fun i => s (S i)) = true ->
              exists q, below q s = true /\ length q <= max - length pPath
                        /\ (keeps (cell_box (mkGridCell g h (pPath ++ q))) = true
                            \/ dis = false /\ max <= length (pPath ++ q)
                               /\ drops (cell_box (mkGridCell g h (pPath ++ q))) = false)).
    { intros s. destruct (s 0) eqn:Hs0.
      - intros (q & Hq & Hlen & Hwhy)%Hkr. exists (true :: q).
        rewrite <- !app_assoc in Hwhy. split; [cbn; by rewrite Hs0|]. split; [cbn; lia|done].
      - intros (q & Hq & Hlen & Hwhy)%Hkl. exists (false :: q).
        rewrite <- !app_assoc in Hwhy. split; [cbn; by rewrite Hs0|]. split; [cbn; lia|done]. }
    assert (Hsub : forall s : nat -> bool, contains (if s 0 then r' else l') (fun i => s (S i)) = true ->
              contains n s = true).
    { intros s. rewrite <- (split_contains n s), Hsplit, contains_branch.
      destruct (s 0); [apply Hsr|apply Hsl]. }
    destruct (is_enabled l' && is_enabled r') eqn:Hboth.
    + apply andb_true_iff in Hboth as [Hel Her].
      assert (Hall : forall s : nat -> bool, contains (if s 0 then r' else l') (fun i => s (S i)) = true).
      { intros s. destruct (s 0); by apply is_enabled_contains. }
      exists (Leaf TTrue). split; [done|]. split; [done|]. split; [|split].
      * intros s _. apply Hsub, Hall.
      * intros s _. apply Hkept, Hall.
      * intros s _. done.
    + exists (Branch e l' r'). split; [done|]. split; [|split; [|split]].
      * cbn. by rewrite Hflag, Hil, Hir.
      * intros s. rewrite contains_branch. apply Hsub.
      * intros s. rewrite contains_branch. apply Hkept.
      * intros s. rewrite <- (split_contains n s), Hsplit, !contains_branch.
        destruct (s 0) eqn:Hs0.
        -- intros H1 H2. destruct (Hrr _ H1 H2) as (q & Hq & Hlen & Hnk & Hwhy).
           exists (true :: q). rewrite <- !app_assoc in Hnk, Hwhy.
           split; [cbn; by rewrite Hs0|]. split; [cbn; lia|done].
        -- intros H1 H2. destruct (Hrl _ H1 H2) as (q & Hq & Hlen & Hnk & Hwhy).
           exists (false :: q). rewrite <- !app_assoc in Hnk, Hwhy.
           split; [cbn; by rewrite Hs0|]. split; [cbn; lia|done].
  - destruct dis.
    + exists (Leaf TFalse). split; [done|]. split; [done|]. split; [done|]. split; [done|].
      intros s _ _. exists []. rewrite app_nil_r.
      split; [done|]. split; [cbn; lia|]. split; [done|by right].
    + exists n. split; [done|]. split; [done|]. split; [done|]. split.
      * intros s _. exists []. rewrite app_nil_r.
        split; [done|]. split; [cbn; lia|by right].
      * intros s Hs Hs'. congruence.
Qed.

(** The walk that disables the cells left at the greatest depth keeps no
    more than the walk that lets them stay. *)
Lemma checked_descent_inner_outer (fuel : nat) :
  forall n pPath ni no pi po,
    max - length pPath < fuel ->
    internal_not_enabled n = true ->
    checked_descent fuel keeps drops true g n h max pPath = Some (ni, pi) ->
    checked_descent fuel keeps drops false g n h max pPath = Some (no, po) ->
    forall s, contains ni s = true -> contains no s = true.
Proof.
  induction fuel as [|fuel IH]; intros n pPath ni no pi po Hfuel Hinv; [lia|].
  cbn [checked_descent].
  destruct (keeps (cell_box (mkGridCell g h pPath))); [by intros [= <- _] [= <- _]|].
  destruct (drops (cell_box (mkGridCell g h pPath))); [by intros [= <- _] [= <- _]|].
  destruct (Nat.ltb_spec (length pPath) max) as [Hlt|Hge]; [|by intros [= <- _]].
  destruct (split_internal_not_enabled n Hinv) as (e & l & r & Hsplit & Hl & Hr).
  rewrite Hsplit.
  assert (Hfuel' : forall b, max - length (pPath ++ [b]) < fuel)
    by (intros b; rewrite length_app; cbn; lia).
  destruct (checked_descent_spec true fuel l (pPath ++ [false]) (Hfuel' _) Hl)
    as (li & Hli & Hili & _).
  destruct (checked_descent_spec false fuel l (pPath ++ [false]) (Hfuel' _) Hl)
    as (lo & Hlo & _).
  rewrite Hli, Hlo, !pop_back_if_any_snoc.
  destruct (checked_descent_spec true fuel r (pPath ++ [true]) (Hfuel' _) Hr)
    as (ri & Hri & Hiri & _).
  destruct (checked_descent_spec false fuel r (pPath ++ [true]) (Hfuel' _) Hr)
    as (ro & Hro & _).
  rewrite Hri, Hro.
  pose proof (IH l _ _ _ _ _ (Hfuel' _) Hl Hli Hlo) as Hlsub.
  pose proof (IH r _ _ _ _ _ (Hfuel' _) Hr Hri Hro) as Hrsub.
  assert (Hchild : forall s : nat -> bool, contains (if s 0 then ri else li) (fun i => s (S i)) = true ->
            contains (if s 0 then ro else lo) (fun i => s (S i)) = true).
  { intros s. destruct (s 0); [apply Hrsub|apply Hlsub]. }
  intros Hi Ho s.
  assert (Hinner : contains ni s = true ->
            contains (if s 0 then ri else li) (fun i => s (S i)) = true).
  { destruct (is_enabled li && is_enabled ri) eqn:Hboth.
    - apply andb_true_iff in Hboth as [Hel Her]. injection Hi as <- _. intros _.
      destruct (s 0); by apply is_enabled_contains.
    - injection Hi as <- _. by rewrite contains_branch. }
  intros Hs%Hinner%Hchild.
  destruct (is_enabled lo && is_enabled ro); injection Ho as <- _; [done|].
  by rewrite contains_branch.
Qed.

End CheckedDescent.

(** The walk of a paving rooted at a primary cell, on points. *)
Lemma walk_paving_spec (keeps drops : Box -> bool) (dis : bool) (max : nat)
    (S : GridTreeSet) (K fuel : nat) :
  let g := cell_grid (theGridCell S) in
  let h := cell_height (theGridCell S) in
  cell_word (theGridCell S) = [] ->
  internal_not_enabled (pRootTreeNode S) = true ->
  h <= K -> max < fuel ->
  exists S',
    walk_paving fuel keeps drops dis max S = Returns S'
    /\ (forall s, in_paving K S' s = true -> in_paving K S s = true)
    /\ (forall s, in_paving K S' s = true ->
          exists q, length q <= max /\ in_cell K (mkGridCell g h q) s = true
                    /\ (keeps (cell_box (mkGridCell g h q)) = true
                        \/ dis = false /\ max <= length q
                           /\ drops (cell_box (mkGridCell g h q)) = false))
    /\ (forall s, in_paving K S s = true -> in_paving K S' s = false ->
          exists q, length q <= max /\ in_cell K (mkGridCell g h q) s = true
                    /\ keeps (cell_box (mkGridCell g h q)) = false
                    /\ (drops (cell_box (mkGridCell g h q)) = true
                        \/ dis = true /\ max <= length q)).
Proof.
  destruct S as [[g h w] root]. cbn [theGridCell cell_grid cell_height cell_word pRootTreeNode].
  intros -> Hinv HK Hfuel. unfold walk_paving.
  cbn [theGridCell cell_grid cell_height cell_word pRootTreeNode].
  assert (Hin : forall q s,
            in_cell K (mkGridCell g h q) s
            = below (primary_cell_path (dimension g) K h) s
              && below q (after (length (primary_cell_path (dimension g) K h)) s)).
  { intros q s. unfold in_cell, path_from. cbn [cell_grid cell_height cell_word].
    by rewrite below_app. }
  destruct (GridTreeSubset_empty _) eqn:Hempty; cbn [negb].
  { apply Nat.eqb_eq in Hempty. cbn in Hempty.
    pose proof (count_enabled_leaf_nodes_contains root Hempty) as Hnone.
    eexists. split; [done|]. split; [done|].
    split; intros s; rewrite in_paving_primary, Hnone, andb_false_r; done. }
  destruct (checked_descent_spec keeps drops g h max dis fuel root [])
    as (n' & -> & _ & Hsub & Hkept & Hremoved); [cbn; lia|done|].
  cbn [length app] in Hkept, Hremoved. rewrite Nat.sub_0_r in Hkept, Hremoved.
  eexists. split; [done|]. split; [|split].
  - intros s. rewrite !in_paving_primary.
    intros [Hb Hs]%andb_true_iff. rewrite Hb. cbn [andb]. by apply Hsub.
  - intros s. rewrite !in_paving_primary. intros [Hb Hs]%andb_true_iff.
    destruct (Hkept _ Hs) as (q & Hq & Hlen & Hwhy).
    exists q. split; [done|]. split; [by rewrite Hin, Hb, Hq|done].
  - intros s. rewrite !in_paving_primary. intros [Hb Hs]%andb_true_iff.
    rewrite Hb. cbn [andb]. intros Hs'.
    destruct (Hremoved _ Hs Hs') as (q & Hq & Hlen & Hwhy).
    exists q. split; [done|]. split; [by rewrite Hin, Hb, Hq|done].
Qed.

Lemma walk_paving_inner_outer (keeps drops : Box -> bool) (max : nat)
    (S inner outer : GridTreeSet) (K fuel : nat) :
  internal_not_enabled (pRootTreeNode S) = true ->
  max < fuel ->
  walk_paving fuel keeps drops true max S = Returns inner ->
  walk_paving fuel keeps drops false max S = Returns outer ->
  forall s, in_paving K inner s = true -> in_paving K outer s = true.
Proof.
  intros Hinv Hfuel. unfold walk_paving.
  destruct (GridTreeSubset_empty S); cbn [negb]; [by intros [= <-] [= <-]|].
  destruct (checked_descent fuel keeps drops true _ _ _ _ _) as [[ni pi]|] eqn:Hi; [|done].
  destruct (checked_descent fuel keeps drops false _ _ _ _ _) as [[no po]|] eqn:Ho; [|done].
  intros [= <-] [= <-] s. unfold in_paving. cbn [theGridCell pRootTreeNode].
  intros [Hc Hs]%andb_true_iff. rewrite Hc. cbn [andb].
  eapply (checked_descent_inner_outer keeps drops); [|done|exact Hi|exact Ho|exact Hs].
  cbn. lia.
Qed.

(** The public members are walks of the paving once their assertions have
    passed. *)
Ltac member_is_walk lemma :=
  intros Hd; unfold walk_paving;
  match goal with
  | |- context [dimension ?g =? 0] => destruct (Nat.eqb_spec (dimension g) 0) as [|_]; [lia|]
  end;
  rewrite ?Nat.eqb_refl; cbn [negb];
  destruct (GridTreeSubset_empty _); [done|]; cbn [negb];
  by rewrite lemma.

Lemma outer_restrict_walk (fuel : nat) (checker : SetCheckerInterface) (accuracy : nat)
    (S : GridTreeSet) :
  0 < dimension (cell_grid (theGridCell S)) ->
  outer_restrict fuel checker accuracy S
  = walk_paving fuel (fun b => definitely (check checker b))
      (fun b => negb (possibly (check checker b))) false
      (zero_cell_subdivisions_to_tree_subdivisions (dimension (cell_grid (theGridCell S)))
         accuracy (cell_height (theGridCell S))) S.
Proof. unfold outer_restrict. member_is_walk _outer_restrict_walk. Qed.

Lemma inner_restrict_walk (fuel : nat) (checker : SetCheckerInterface) (accuracy : nat)
    (S : GridTreeSet) :
  0 < dimension (cell_grid (theGridCell S)) ->
  inner_restrict fuel checker accuracy S
  = walk_paving fuel (fun b => definitely (check checker b))
      (fun b => negb (possibly (check checker b))) true
      (zero_cell_subdivisions_to_tree_subdivisions (dimension (cell_grid (theGridCell S)))
         accuracy (cell_height (theGridCell S))) S.
Proof. unfold inner_restrict. member_is_walk _inner_restrict_walk. Qed.

Lemma outer_remove_walk (fuel : nat) (checker : SetCheckerInterface) (accuracy : nat)
    (S : GridTreeSet) :
  0 < dimension (cell_grid (theGridCell S)) ->
  outer_remove fuel checker accuracy S
  = walk_paving fuel (fun b => negb (possibly (check checker b)))
      (fun b => definitely (check checker b)) true
      (zero_cell_subdivisions_to_tree_subdivisions (dimension (cell_grid (theGridCell S)))
         accuracy (cell_height (theGridCell S))) S.
Proof. unfold outer_remove. member_is_walk _outer_remove_walk. Qed.

Lemma inner_remove_walk (fuel : nat) (checker : SetCheckerInterface) (accuracy : nat)
    (S : GridTreeSet) :
  0 < dimension (cell_grid (theGridCell S)) ->
  inner_remove fuel checker accuracy S
  = walk_paving fuel (fun b => negb (possibly (check checker b)))
      (fun b => definitely (check checker b)) false
      (zero_cell_subdivisions_to_tree_subdivisions (dimension (cell_grid (theGridCell S)))
         accuracy (cell_height (theGridCell S))) S.
Proof. unfold inner_remove. member_is_walk _inner_remove_walk. Qed.

Lemma outer_restrict_open_walk (fuel : nat) (set : OpenSetInterface) (S : GridTreeSet) :
  0 < dimension (cell_grid (theGridCell S)) ->
  open_dimension set = dimension (cell_grid (theGridCell S)) ->
  outer_restrict_open fuel set S
  = walk_paving fuel (fun b => definitely (open_covers set b))
      (fun b => negb (possibly (open_overlaps set b))) false (GridTreeSubset_depth S) S.
Proof.
  unfold outer_restrict_open. intros Hd ->. revert Hd.
  member_is_walk _outer_restrict_open_walk.
Qed.

Lemma inner_restrict_open_walk (fuel : nat) (set : OpenSetInterface) (S : GridTreeSet) :
  0 < dimension (cell_grid (theGridCell S)) ->
  open_dimension set = dimension (cell_grid (theGridCell S)) ->
  inner_restrict_open fuel set S
  = walk_paving fuel (fun b => definitely (open_covers set b))
      (fun b => negb (possibly (open_overlaps set b))) true (GridTreeSubset_depth S) S.
Proof.
  unfold inner_restrict_open. intros Hd ->. revert Hd.
  member_is_walk _inner_restrict_open_walk.
Qed.

Lemma outer_remove_open_walk (fuel : nat) (set : OpenSetInterface) (S : GridTreeSet) :
  0 < dimension (cell_grid (theGridCell S)) ->
  open_dimension set = dimension (cell_grid (theGridCell S)) ->
  outer_remove_open fuel set S
  = walk_paving fuel (fun b => negb (possibly (open_overlaps set b)))
      (fun b => definitely (open_covers set b)) true (GridTreeSubset_depth S) S.
Proof.
  unfold outer_remove_open. intros Hd ->. revert Hd.
  member_is_walk _outer_remove_open_walk.
Qed.

Lemma inner_remove_open_walk (fuel : nat) (set : OpenSetInterface) (S : GridTreeSet) :
  0 < dimension (cell_grid (theGridCell S)) ->
  open_dimension set = dimension (cell_grid (theGridCell S)) ->
  inner_remove_open fuel set S
  = walk_paving fuel (fun b => negb (possibly (open_overlaps set b)))
      (fun b => definitely (open_covers set b)) false (GridTreeSubset_depth S) S.
Proof.
  unfold inner_remove_open. intros Hd ->. revert Hd.
  member_is_walk _inner_remove_open_walk.
Qed.

Lemma walk_paving_ext (keeps drops keeps' drops' : Box -> bool) (dis : bool) (max : nat)
    (S : GridTreeSet) (fuel : nat) :
  (forall b, keeps b = keeps' b) -> (forall b, drops b = drops' b) ->
  walk_paving fuel keeps drops dis max S = walk_paving fuel keeps' drops' dis max S.
Proof.
  intros Hk Hd. unfold walk_paving.
  by rewrite (checked_descent_ext keeps drops keeps' drops' dis _ _ _ _ Hk Hd).
Qed.

(** X29.  Restricting and removing by a [SetCheckerInterface], on a paving
    rooted at a primary cell with no internal node flagged enabled, over a
    grid of positive dimension.  [outer_restrict] and [inner_restrict]
    return; the inner result lies in the outer one, which lies in the
    paving; a point [outer_restrict] removes lies in a cell of which the
    check is definitely false, a point it keeps in a cell of which the
    check is possibly true; a point [inner_restrict] keeps lies in a cell
    of which the check is definitely true, a point it removes in a cell of
    which it is not.  [outer_remove] is [inner_restrict], and
    [inner_remove] is [outer_restrict], by the negated check. *)
Theorem restrict_and_remove_by_checker (checker : SetCheckerInterface) (accuracy : nat)
    (S : GridTreeSet) (K fuel : nat) :
  let g := cell_grid (theGridCell S) in
  let h := cell_height (theGridCell S) in
  let max_mince_depth :=
    zero_cell_subdivisions_to_tree_subdivisions (dimension g) accuracy h in
  let in_cell_where (P : tribool -> bool) (s : nat -> bool) :=
    exists q, length q <= max_mince_depth
              /\ in_cell K (mkGridCell g h q) s = true
              /\ P (check checker (cell_box (mkGridCell g h q))) = true in
  cell_word (theGridCell S) = [] ->
  internal_not_enabled (pRootTreeNode S) = true ->
  0 < dimension g ->
  h <= K ->
  max_mince_depth < fuel ->
  exists outer inner,
    outer_restrict fuel checker accuracy S = Returns outer
    /\ inner_restrict fuel checker accuracy S = Returns inner
    /\ (forall s, in_paving K inner s = true -> in_paving K outer s = true)
    /\ (forall s, in_paving K outer s = true -> in_paving K S s = true)
    /\ (forall s, in_paving K S s = true -> in_paving K outer s = false ->
          in_cell_where (fun t => negb (possibly t)) s)
    /\ (forall s, in_paving K outer s = true -> in_cell_where possibly s)
    /\ (forall s, in_paving K inner s = true -> in_cell_where definitely s)
    /\ (forall s, in_paving K S s = true -> in_paving K inner s = false ->
          in_cell_where (fun t => negb (definitely t)) s)
    /\ outer_remove fuel checker accuracy S
       = inner_restrict fuel (negated checker) accuracy S
    /\ inner_remove fuel checker accuracy S
       = outer_restrict fuel (negated checker) accuracy S.
Proof.
  intros g h max_mince_depth in_cell_where Hword Hinv Hd HK Hfuel.
  rewrite (outer_restrict_walk _ checker), (inner_restrict_walk _ checker),
    outer_remove_walk, inner_remove_walk, (outer_restrict_walk _ (negated checker)),
    (inner_restrict_walk _ (negated checker)) by done.
  fold g h max_mince_depth.
  set (keeps := fun b => definitely (check checker b)).
  set (drops := fun b => negb (possibly (check checker b))).
  destruct (walk_paving_spec keeps drops false max_mince_depth S K fuel Hword Hinv HK Hfuel)
    as (outer & Houter & Hosub & Hokept & Horemoved).
  destruct (walk_paving_spec keeps drops true max_mince_depth S K fuel Hword Hinv HK Hfuel)
    as (inner & Hinner & Hisub & Hikept & Hiremoved).
  fold g h in Hokept, Horemoved, Hikept, Hiremoved.
  exists outer, inner. split; [done|]. split; [done|].
  split; [by apply (walk_paving_inner_outer keeps drops max_mince_depth S _ _ K fuel)|].
  split; [done|]. unfold in_cell_where. split; [|split; [|split; [|split; [|split]]]].
  - intros s Hs Hs'. destruct (Horemoved s Hs Hs') as (q & Hlen & Hq & _ & [Hdrop|[? _]]);
      [|done]. by exists q.
  - intros s Hs. destruct (Hokept s Hs) as (q & Hlen & Hq & [Hkeep|(_ & _ & Hdrop)]);
      exists q; (split; [done|]); (split; [done|]).
    + unfold keeps in Hkeep. by destruct (check checker _).
    + unfold drops in Hdrop. apply negb_false_iff in Hdrop. exact Hdrop.
  - intros s Hs. destruct (Hikept s Hs) as (q & Hlen & Hq & [Hkeep|[? _]]); [|done].
    by exists q.
  - intros s Hs Hs'. destruct (Hiremoved s Hs Hs') as (q & Hlen & Hq & Hkeep & _).
    exists q. split; [done|]. split; [done|]. unfold keeps in Hkeep. by rewrite Hkeep.
  - apply walk_paving_ext; intros b; unfold keeps, drops, negated; cbn;
      by destruct (check checker b).
  - apply walk_paving_ext; intros b; unfold keeps, drops, negated; cbn;
      by destruct (check checker b).
Qed.

Lemma restrict_and_remove_by_checker_witness :
  let g := mkGrid [0%Qc] [1%Qc] in
  let S := mkGridTreeSubset (mkGridCell g 0 []) (Leaf TTrue) in
  let checker := mkSetChecker (fun _ => TIndeterminate) in
  cell_word (theGridCell S) = [] /\ internal_not_enabled (pRootTreeNode S) = true
  /\ 0 < dimension g
  /\ outer_restrict 1 checker 0 S = Returns S
  /\ inner_restrict 1 checker 0 S = Returns (mkGridTreeSubset (mkGridCell g 0 []) (Leaf TFalse))
  /\ outer_remove 1 checker 0 S = inner_restrict 1 (negated checker) 0 S.
Proof.
  intros g S checker. split; [reflexivity|]. split; [reflexivity|]. split; [cbn; lia|].
  split; [reflexivity|]. split; [reflexivity|].
  destruct (restrict_and_remove_by_checker checker 0 S 0 1 eq_refl eq_refl)
    as (outer & inner & _ & _ & _ & _ & _ & _ & _ & _ & Hdual & _);
    [cbn; lia|cbn; lia|cbn; lia|exact Hdual].
Defined.

(** X30.  Restricting and removing by an [OpenSetInterface], on a paving
    rooted at a primary cell with no internal node flagged enabled, over a
    grid of positive dimension; the walk goes as deep as the tree.
    [outer_restrict] and [inner_restrict] return; the inner result lies in
    the outer one, which lies in the paving; a point [outer_restrict]
    removes lies in a cell the set definitely does not overlap, a point it
    keeps in a cell the set definitely covers or possibly overlaps; a point
    [inner_restrict] keeps lies in a cell the set definitely covers, a
    point it removes in a cell it does not definitely cover.
    [outer_remove] is [inner_restrict], and [inner_remove] is
    [outer_restrict], by the complement of the set. *)
Theorem restrict_and_remove_by_open_set (set : OpenSetInterface) (S : GridTreeSet)
    (K fuel : nat) :
  let g := cell_grid (theGridCell S) in
  let h := cell_height (theGridCell S) in
  let in_cell_where (P : Box -> bool) (s : nat -> bool) :=
    exists q, length q <= GridTreeSubset_depth S
              /\ in_cell K (mkGridCell g h q) s = true
              /\ P (cell_box (mkGridCell g h q)) = true in
  cell_word (theGridCell S) = [] ->
  internal_not_enabled (pRootTreeNode S) = true ->
  0 < dimension g ->
  open_dimension set = dimension g ->
  h <= K ->
  GridTreeSubset_depth S < fuel ->
  exists outer inner,
    outer_restrict_open fuel set S = Returns outer
    /\ inner_restrict_open fuel set S = Returns inner
    /\ (forall s, in_paving K inner s = true -> in_paving K outer s = true)
    /\ (forall s, in_paving K outer s = true -> in_paving K S s = true)
    /\ (forall s, in_paving K S s = true -> in_paving K outer s = false ->
          in_cell_where (fun b => negb (possibly (open_overlaps set b))) s)
    /\ (forall s, in_paving K outer s = true ->
          in_cell_where (fun b => definitely (open_covers set b)
                                  || possibly (open_overlaps set b)) s)
    /\ (forall s, in_paving K inner s = true ->
          in_cell_where (fun b => definitely (open_covers set b)) s)
    /\ (forall s, in_paving K S s = true -> in_paving K inner s = false ->
          in_cell_where (fun b => negb (definitely (open_covers set b))) s)
    /\ outer_remove_open fuel set S = inner_restrict_open fuel (complement set) S
    /\ inner_remove_open fuel set S = outer_restrict_open fuel (complement set) S.
Proof.
  intros g h in_cell_where Hword Hinv Hd Hdim HK Hfuel.
  rewrite (outer_restrict_open_walk _ set), (inner_restrict_open_walk _ set),
    outer_remove_open_walk, inner_remove_open_walk,
    (outer_restrict_open_walk _ (complement set)),
    (inner_restrict_open_walk _ (complement set)) by done.
  set (max := GridTreeSubset_depth S) in *.
  set (keeps := fun b => definitely (open_covers set b)).
  set (drops := fun b => negb (possibly (open_overlaps set b))).
  destruct (walk_paving_spec keeps drops false max S K fuel Hword Hinv HK Hfuel)
    as (outer & Houter & Hosub & Hokept & Horemoved).
  destruct (walk_paving_spec keeps drops true max S K fuel Hword Hinv HK Hfuel)
    as (inner & Hinner & Hisub & Hikept & Hiremoved).
  fold g h in Hokept, Horemoved, Hikept, Hiremoved.
  exists outer, inner. split; [done|]. split; [done|].
  split; [by apply (walk_paving_inner_outer keeps drops max S _ _ K fuel)|].
  split; [done|]. unfold in_cell_where. split; [|split; [|split; [|split; [|split]]]].
  - intros s Hs Hs'. destruct (Horemoved s Hs Hs') as (q & Hlen & Hq & _ & [Hdrop|[? _]]);
      [|done]. by exists q.
  - intros s Hs. destruct (Hokept s Hs) as (q & Hlen & Hq & [Hkeep|(_ & _ & Hdrop)]);
      exists q; (split; [done|]); (split; [done|]).
    + unfold keeps in Hkeep. by rewrite Hkeep.
    + unfold drops in Hdrop. apply negb_false_iff in Hdrop. by rewrite Hdrop, orb_true_r.
  - intros s Hs. destruct (Hikept s Hs) as (q & Hlen & Hq & [Hkeep|[? _]]); [|done].
    by exists q.
  - intros s Hs Hs'. destruct (Hiremoved s Hs Hs') as (q & Hlen & Hq & Hkeep & _).
    exists q. split; [done|]. split; [done|]. unfold keeps in Hkeep. by rewrite Hkeep.
  - apply walk_paving_ext; intros b; unfold keeps, drops, complement; cbn.
    + by destruct (open_overlaps set b).
    + by destruct (open_covers set b).
  - apply walk_paving_ext; intros b; unfold keeps, drops, complement; cbn.
    + by destruct (open_overlaps set b).
    + by destruct (open_covers set b).
Qed.

Lemma restrict_and_remove_by_open_set_witness :
  let g := mkGrid [0%Qc] [1%Qc] in
  let S := mkGridTreeSubset (mkGridCell g 0 []) (Leaf TTrue) in
  let set := mkOpenSet 1 (fun _ => TFalse) (fun _ => TIndeterminate) in
  cell_word (theGridCell S) = [] /\ internal_not_enabled (pRootTreeNode S) = true
  /\ 0 < dimension g /\ open_dimension set = dimension g
  /\ outer_restrict_open 1 set S = Returns S
  /\ inner_restrict_open 1 set S
     = Returns (mkGridTreeSubset (mkGridCell g 0 []) (Leaf TFalse))
  /\ outer_remove_open 1 set S = inner_restrict_open 1 (complement set) S.
Proof.
  intros g S set. split; [reflexivity|]. split; [reflexivity|]. split; [cbn; lia|].
  split; [reflexivity|]. split; [reflexivity|]. split; [reflexivity|].
  destruct (restrict_and_remove_by_open_set set S 0 1 eq_refl eq_refl)
    as (outer & inner & _ & _ & _ & _ & _ & _ & _ & _ & Hdual & _);
    [cbn; lia|reflexivity|cbn; lia|cbn; lia|exact Hdual].
Defined.

(** ** Adding a tree below a path *)

(** X5.  [BinaryTreeNode::add_enabled(pOtherSubTree, path)], on a tree none
    of whose internal nodes is flagged enabled, adds the other tree below
    the cell of the path: a point is in the result when it was in this tree,
    or lies in the cell of the path and, seen from there, in the other
    tree.  Afterwards the static [subset] finds the other tree, hanging
    below the path, to be a subset of the result, and an enabled node is
    left as it is. *)
Theorem add_enabled_subtree_adds_below_path (this pOtherSubTree : BinaryTreeNode)
    (path : BinaryWord) :
  internal_not_enabled this = true ->
  (forall s, contains (add_enabled_subtree this pOtherSubTree path) s
             = contains this s
               || (below path s && contains pOtherSubTree (after (length path) s)))
  /\ subset_sub_in_super pOtherSubTree (add_enabled_subtree this pOtherSubTree path) path
     = true
  /\ (is_enabled this = true -> add_enabled_subtree this pOtherSubTree path = this).
Proof.
  intros Hinv. split; [|split].
  - intros s. by apply add_enabled_subtree_contains.
  - apply subset_sub_in_super_iff. intros s Hpath Hother.
    rewrite add_enabled_subtree_contains by done. by rewrite Hpath, Hother, orb_true_r.
  - intros Hen. destruct path; cbn; by rewrite Hen.
Qed.

Lemma add_enabled_subtree_adds_below_path_witness :
  let this := Branch TIndeterminate (Leaf TTrue) (Leaf TFalse) in
  let other := Branch TIndeterminate (Leaf TFalse) (Leaf TTrue) in
  internal_not_enabled this = true
  /\ add_enabled_subtree this other [true]
     = Branch TIndeterminate (Leaf TTrue) (Branch TIndeterminate (Leaf TFalse) (Leaf TTrue))
  /\ subset_sub_in_super other (add_enabled_subtree this other [true]) [true] = true.
Proof.
  intros this other. split; [reflexivity|]. split; [reflexivity|].
  exact (proj1 (proj2 (add_enabled_subtree_adds_below_path this other [true] eq_refl))).
Defined.
